(** * dlink: Knuth's dancing links (dlink.cpp), embedded and verified

    The C++ class [DLink<int32_t>] keeps two vectors of [Node]s, [headers]
    and [nodes], addressed by integer position.  The embedding keeps both
    vectors as lists of records, every access goes through a bounds check
    (an access outside a vector is undefined behaviour in the source and a
    fault here), every [assert] is a fault, and every [while] loop and the
    recursion of [rdance] take fuel.

    [int] and [int32_t] are modelled by [Z]: positions and counts are
    assumed to stay inside the 32-bit range, which the source assumes too.
    Where the range decides the outcome, in the constructor, the [int]
    arithmetic is written out as well ([init_int]): an expression that
    leaves the range is the fault [Overflow]. *)

From Stdlib Require Import ZArith String Ascii List Lia.
From stdpp Require Import base tactics option list numbers sorting gmap.

Open Scope Z_scope.

(** ** Faults and the result monad *)

Inductive fault : Type :=
| AssertFail    (* an assert of the source fails *)
| OutOfRange    (* a vector or string is read or written outside its bounds *)
| LengthError   (* a vector is resized to a negative size *)
| Overflow      (* an int expression leaves the 32-bit range *)
| OutOfFuel.    (* the fuel of a loop or of the recursion is used up *)

Inductive result (A : Type) : Type :=
| Ok (a : A)
| Err (e : fault).
Arguments Ok {A} a.
Arguments Err {A} e.

Global Instance result_ret : MRet result := λ A a, Ok a.
Global Instance result_bind : MBind result :=
  λ A B f m, match m with Ok a => f a | Err e => Err e end.
Global Instance result_fmap : FMap result :=
  λ A B f m, match m with Ok a => Ok (f a) | Err e => Err e end.

Definition assert (b : bool) : result unit :=
  if b then Ok () else Err AssertFail.

Definition is_Ok {A} (r : result A) : Prop := ∃ a, r = Ok a.

(** [while (cond) body]: the condition is evaluated first, so a loop that
    ends never reports [OutOfFuel]. *)
Fixpoint while {S : Type} (fuel : nat) (cond : S → result bool)
    (body : S → result S) (st : S) : result S :=
  b ← cond st;
  if b : bool then
    match fuel with
    | O => Err OutOfFuel
    | Datatypes.S fuel' => st' ← body st; while fuel' cond body st'
    end
  else Ok st.

(** [for (x : xs) body] over a list known before the loop starts. *)
Fixpoint for_each {A S : Type} (xs : list A) (body : A → S → result S)
    (st : S) : result S :=
  match xs with
  | [] => Ok st
  | x :: xs' => st' ← body x st; for_each xs' body st'
  end.

(** ** Nodes and the two vectors *)

Record Node : Type := mkNode { data : Z; prev : Z; next : Z }.

Record DLink : Type := mkDLink {
  headers : list Node;
  nodes : list Node;
  nrows : Z;
  ncount : Z
}.

Definition vec_get (v : list Node) (i : Z) : result Node :=
  if bool_decide (0 ≤ i) then
    match v !! Z.to_nat i with
    | Some nd => Ok nd
    | None => Err OutOfRange
    end
  else Err OutOfRange.

Definition vec_set (f : Node → Node) (v : list Node) (i : Z) : result (list Node) :=
  nd ← vec_get v i; Ok (<[Z.to_nat i := f nd]> v).

Definition with_data (x : Z) (nd : Node) : Node := mkNode x (prev nd) (next nd).
Definition with_prev (x : Z) (nd : Node) : Node := mkNode (data nd) x (next nd).
Definition with_next (x : Z) (nd : Node) : Node := mkNode (data nd) (prev nd) x.

Definition with_headers (s : DLink) (h : list Node) : DLink :=
  mkDLink h (nodes s) (nrows s) (ncount s).
Definition with_nodes (s : DLink) (v : list Node) : DLink :=
  mkDLink (headers s) v (nrows s) (ncount s).

(** The accessors of the source; the ones that return a reference get a
    reader and a writer. *)
Definition name (s : DLink) (i : Z) : result Z := data <$> vec_get (headers s) i.
Definition llink (s : DLink) (i : Z) : result Z := prev <$> vec_get (headers s) i.
Definition rlink (s : DLink) (i : Z) : result Z := next <$> vec_get (headers s) i.
Definition len (s : DLink) (i : Z) : result Z := data <$> vec_get (nodes s) i.
Definition top (s : DLink) (i : Z) : result Z := data <$> vec_get (nodes s) i.
Definition ulink (s : DLink) (i : Z) : result Z := prev <$> vec_get (nodes s) i.
Definition dlink (s : DLink) (i : Z) : result Z := next <$> vec_get (nodes s) i.

Definition set_llink (s : DLink) (i x : Z) : result DLink :=
  with_headers s <$> vec_set (with_prev x) (headers s) i.
Definition set_rlink (s : DLink) (i x : Z) : result DLink :=
  with_headers s <$> vec_set (with_next x) (headers s) i.
Definition set_len (s : DLink) (i x : Z) : result DLink :=
  with_nodes s <$> vec_set (with_data x) (nodes s) i.
Definition set_ulink (s : DLink) (i x : Z) : result DLink :=
  with_nodes s <$> vec_set (with_prev x) (nodes s) i.
Definition set_dlink (s : DLink) (i x : Z) : result DLink :=
  with_nodes s <$> vec_set (with_next x) (nodes s) i.

Definition nnodes (s : DLink) : Z := Z.of_nat (length (nodes s)).
Definition lastindex (s : DLink) : Z := Z.of_nat (length (nodes s)) - 1.
Definition isspacer (s : DLink) (i : Z) : result bool :=
  t ← top s i; Ok (bool_decide (t ≤ 0)).
Definition nitems (s : DLink) : Z := Z.of_nat (length (headers s)) - 1.
Definition nodecount (s : DLink) : Z := ncount s.

Definition push_node (s : DLink) (nd : Node) : DLink :=
  with_nodes s (nodes s ++ [nd]).

(** [std::vector::resize]: a negative [int] converts to a size beyond
    [max_size] and the call throws; the new elements are default
    constructed, the model fills them with zeros. *)
Definition resize (v : list Node) (n : Z) : result (list Node) :=
  if bool_decide (n < 0) then Err LengthError
  else Ok (take (Z.to_nat n) v ++ replicate (Z.to_nat n - length v) (mkNode 0 0 0)).

(** ** Construction *)

Definition init (nitems : Z) (s : DLink) : result DLink :=
  h ← resize (headers s) (nitems + 1);
  v ← resize (nodes s) (nitems + 1);
  let s := mkDLink h v 0 (ncount s) in
  s ← for_each (seqZ 0 (nitems + 1)) (λ i s,
         let previous := Z.rem (i + nitems) (nitems + 1) in
         let next := Z.rem (i + 1) (nitems + 1) in
         h ← vec_set (λ _, mkNode i previous next) (headers s) i;
         v ← vec_set (λ _, mkNode 0 i i) (nodes s) i;
         Ok (mkDLink h v (nrows s) (ncount s))) s;
  Ok (push_node s (mkNode 0 0 0)).

(** The constructor [DLink(int nitems) : ncount(0) { init(nitems); }]. *)
Definition DLink_new (nitems : Z) : result DLink :=
  init nitems (mkDLink [] [] 0 0).

(** ** Construction over [int]

    [init] and [DLink_new] above compute in [Z].  The source computes
    [nitems+1], [i+nitems] and [i+1] on [int]: an expression whose value
    leaves the 32-bit range is undefined behaviour in the source and the
    fault [Overflow] here.  [init_int] is [init] with every one of these
    expressions checked, in the order the source evaluates them; the loop
    counter [i] stays inside [0 .. nitems + 1], which is in range once
    [nitems+1] has been computed for the first [resize]. *)

Definition int_min : Z := - 2 ^ 31.
Definition int_max : Z := 2 ^ 31 - 1.

Definition int_add (a b : Z) : result Z :=
  if bool_decide (int_min ≤ a + b ≤ int_max) then Ok (a + b) else Err Overflow.

Definition init_int (nitems : Z) (s : DLink) : result DLink :=
  n1 ← int_add nitems 1;
  h ← resize (headers s) n1;
  n1 ← int_add nitems 1;
  v ← resize (nodes s) n1;
  let s := mkDLink h v 0 (ncount s) in
  s ← for_each (seqZ 0 (nitems + 1)) (λ i s,
         a ← int_add i nitems;
         m ← int_add nitems 1;
         let previous := Z.rem a m in
         b ← int_add i 1;
         m ← int_add nitems 1;
         let next := Z.rem b m in
         h ← vec_set (λ _, mkNode i previous next) (headers s) i;
         v ← vec_set (λ _, mkNode 0 i i) (nodes s) i;
         Ok (mkDLink h v (nrows s) (ncount s))) s;
  Ok (push_node s (mkNode 0 0 0)).

(** The constructor [DLink(int nitems) : ncount(0) { init(nitems); }], on
    [int]. *)
Definition DLink_new_int (nitems : Z) : result DLink :=
  init_int nitems (mkDLink [] [] 0 0).

(** ** hide, unhide, cover, uncover *)

Definition hide (fuel : nat) (p : Z) (s : DLink) : result DLink :=
  fst <$> while fuel (λ '(s, q), Ok (bool_decide (q ≠ p)))
    (λ '(s, q),
       x ← top s q; u ← ulink s q; d ← dlink s q;
       if bool_decide (x ≤ 0) then Ok (s, u)
       else
         s ← set_dlink s u d;
         s ← set_ulink s d u;
         l ← len s x;
         s ← set_len s x (l - 1);
         Ok (s, q + 1))
    (s, p + 1).

Definition unhide (fuel : nat) (p : Z) (s : DLink) : result DLink :=
  fst <$> while fuel (λ '(s, q), Ok (bool_decide (q ≠ p)))
    (λ '(s, q),
       x ← top s q; u ← ulink s q; d ← dlink s q;
       if bool_decide (x ≤ 0) then Ok (s, d)
       else
         s ← set_dlink s u q;
         s ← set_ulink s d q;
         l ← len s x;
         s ← set_len s x (l + 1);
         Ok (s, q - 1))
    (s, p - 1).

Definition cover (fuel : nat) (i : Z) (s : DLink) : result DLink :=
  p ← dlink s i;
  '(s, _) ← while fuel (λ '(s, p), Ok (bool_decide (p ≠ i)))
    (λ '(s, p), s ← hide fuel p s; p ← dlink s p; Ok (s, p))
    (s, p);
  l ← llink s i; r ← rlink s i;
  s ← set_rlink s l r;
  set_llink s r l.

Definition uncover (fuel : nat) (i : Z) (s : DLink) : result DLink :=
  l ← llink s i; r ← rlink s i;
  s ← set_rlink s l i;
  s ← set_llink s r i;
  p ← ulink s i;
  fst <$> while fuel (λ '(s, p), Ok (bool_decide (p ≠ i)))
    (λ '(s, p), s ← unhide fuel p s; p ← ulink s p; Ok (s, p))
    (s, p).

(** ** addrow *)

Definition chars (str : string) : list ascii := list_ascii_of_string str.

(** The characters of a row with their positions, [base] being the position
    of the first one: what [for (int i = 0; i < s.size(); i++) ... s[i]]
    walks through. *)
Fixpoint indexed (base : Z) (cs : list ascii) : list (Z * ascii) :=
  match cs with
  | [] => []
  | c :: cs' => (base, c) :: indexed (base + 1) cs'
  end.

(** The body of the loop of [addrow] for one set bit. *)
Definition addnode (item : Z) (s : DLink) : result DLink :=
  u ← ulink s item;
  let s := push_node s (mkNode item u item) in
  let index := lastindex s in
  u ← ulink s index;
  s ← set_dlink s u index;
  d ← dlink s index;
  s ← set_ulink s d index;
  l ← len s item;
  set_len s item (l + 1).

Definition addrow (str : string) (s : DLink) : result DLink :=
  assert (bool_decide (Z.of_nat (String.length str) ≤ nitems s));;
  let spacer := lastindex s in
  sp ← isspacer s spacer;
  assert sp;;
  let rowstart := spacer + 1 in
  s ← for_each (indexed 0 (chars str)) (λ '(i, c) s,
         if bool_decide (c = "1"%char) then addnode (i + 1) s else Ok s) s;
  let rowend := lastindex s in
  assert (bool_decide (rowend >= rowstart)%Z);;
  l ← len s spacer;
  let s := push_node s (mkNode (l - 1) rowstart 0) in
  s ← set_dlink s spacer rowend;
  Ok (mkDLink (headers s) (nodes s) (nrows s + 1) (ncount s)).

(** ** chooseitem *)

Definition chooseitem (fuel : nat) (s : DLink) : result Z :=
  i ← rlink s 0;
  bestlen ← len s i;
  '(_, best, _) ← while fuel (λ '(i, best, bestlen), Ok (bool_decide (i ≠ 0)))
    (λ '(i, best, bestlen),
       l ← len s i;
       let '(best, bestlen) :=
         if bool_decide (l < bestlen) then (i, l) else (best, bestlen) in
       i ← rlink s i;
       Ok (i, best, bestlen))
    (i, i, bestlen);
  Ok best.

(** The variant the specification compares [chooseitem] with: always the
    first active item, that is the root's next link. *)
Definition firstitem (fuel : nat) (s : DLink) : result Z := rlink s 0.

(** ** getoption *)

(** [while (top(p) >= 0) p++]: the position only grows, so after as many
    steps as there are nodes the read is outside the vector; the loop needs
    no fuel from outside. *)
Definition getoption (s : DLink) (p : Z) : result Z :=
  p ← while (length (nodes s))
        (λ p, t ← top s p; Ok (bool_decide (t >= 0)%Z))
        (λ p, Ok (p + 1)) p;
  t ← top s p;
  Ok (- t - 1).

(** ** The recursive search *)

(** The template parameter [Visitor]: a class with a [visit] method.  The
    visitor of the source reads the matrix it is passed and the choice stack
    it shares with the search by reference. *)
Class Visitor (V : Type) : Type :=
  visit : DLink → list Z → V → result V.

Record Search (V : Type) : Type := mkSearch {
  mat : DLink;
  stack : list Z;
  vis : V
}.
Arguments mkSearch {V} mat stack vis.
Arguments mat {V} s.
Arguments stack {V} s.
Arguments vis {V} s.

Definition pop_back (l : list Z) : result (list Z) :=
  match l with
  | [] => Err OutOfRange
  | _ => Ok (removelast l)
  end.

(** The loop of [rdance] that covers the other items of the row of [k]. *)
Definition cover_row (fuel : nat) (k : Z) (s : DLink) : result DLink :=
  fst <$> while fuel (λ '(s, p), Ok (bool_decide (p ≠ k)))
    (λ '(s, p),
       j ← top s p;
       if bool_decide (j ≤ 0) then p ← ulink s p; Ok (s, p)
       else s ← cover fuel j s; Ok (s, p + 1))
    (s, k + 1).

(** The loop of [rdance] that uncovers them in reverse order. *)
Definition uncover_row (fuel : nat) (k : Z) (s : DLink) : result DLink :=
  fst <$> while fuel (λ '(s, p), Ok (bool_decide (p ≠ k)))
    (λ '(s, p),
       j ← top s p;
       if bool_decide (j ≤ 0) then p ← dlink s p; Ok (s, p)
       else s ← uncover fuel j s; Ok (s, p - 1))
    (s, k - 1).

Section Rdance.
Context {V : Type} `{!Visitor V}.
Variable choose : nat → DLink → result Z.

Fixpoint rdance_with (fuel : nat) (st : Search V) : result (Search V) :=
  match fuel with
  | O => Err OutOfFuel
  | Datatypes.S fuel' =>
    let s := mkDLink (headers (mat st)) (nodes (mat st)) (nrows (mat st))
                     (ncount (mat st) + 1) in
    r ← rlink s 0;
    if bool_decide (r = 0) then
      v ← visit s (stack st) (vis st);
      Ok (mkSearch s (stack st) v)
    else
      i ← choose fuel s;
      s ← cover fuel i s;
      k ← dlink s i;
      '(st, _) ← while fuel (λ '(st, k), Ok (bool_decide (k ≠ i)))
        (λ '(st, k),
           t ← top (mat st) k;
           assert (bool_decide (t = i));;
           s ← cover_row fuel k (mat st);
           st ← rdance_with fuel' (mkSearch s (stack st ++ [k]) (vis st));
           stk ← pop_back (stack st);
           s ← uncover_row fuel k (mat st);
           k ← dlink s k;
           Ok (mkSearch s stk (vis st), k))
        (mkSearch s (stack st) (vis st), k);
      s ← uncover fuel i (mat st);
      Ok (mkSearch s (stack st) (vis st))
  end.

End Rdance.

Definition rdance {V : Type} `{!Visitor V} : nat → Search V → result (Search V) :=
  rdance_with chooseitem.

(** ** The visitor of the source: Counter *)

Record Counter : Type := mkCounter {
  counter : Z;
  rows : list string;
  output : list string   (* the lines written to stdout, oldest first *)
}.

(** [row[j]]: reading position [size()] of a [std::string] gives the NUL
    character, reading beyond it is undefined. *)
Definition string_at (row : string) (j : Z) : result ascii :=
  if bool_decide (0 ≤ j) then
    match String.get (Z.to_nat j) row with
    | Some c => Ok c
    | None => if bool_decide (j = Z.of_nat (String.length row)) then Ok zero
              else Err OutOfRange
    end
  else Err OutOfRange.

(** [k < 10 ? k+'0' : k-10+'a'], stored into a [char]. *)
Definition digit (k : Z) : ascii :=
  ascii_of_N (Z.to_N ((if bool_decide (k < 10) then k + 48 else k - 10 + 97) `mod` 256)).

(** [printf("%s\n", config.c_str())] stops at the first NUL. *)
Fixpoint c_str (l : list ascii) : string :=
  match l with
  | [] => EmptyString
  | c :: l' => if bool_decide (c = zero) then EmptyString else String c (c_str l')
  end.

Definition list_get {A} (l : list A) (i : Z) : result A :=
  if bool_decide (0 ≤ i) then
    match l !! Z.to_nat i with
    | Some x => Ok x
    | None => Err OutOfRange
    end
  else Err OutOfRange.

(** The first loop of [visit]: the option of every node on the stack, in
    the order of the stack. *)
Definition stack_options (dl : DLink) (stack : list Z) : result (list Z) :=
  for_each stack (λ p options, opt ← getoption dl p; Ok (options ++ [opt])) [].

Definition Counter_visit (dl : DLink) (stack : list Z) (c : Counter) : result Counter :=
  let ssize := Z.of_nat (length stack) in
  options ← stack_options dl stack;
  let options := merge_sort Z.le options in
  let N := nitems dl in
  let config := replicate (Z.to_nat N) "0"%char in
  config ← for_each (seqZ 0 ssize) (λ i config,
    opt ← list_get options i;
    row ← list_get (rows c) opt;
    for_each (seqZ 0 N) (λ j config,
      ch ← string_at row j;
      if bool_decide (ch = "1"%char) then
        cj ← list_get config j;
        assert (bool_decide (cj = "0"%char));;
        let k := i + 1 in
        Ok (<[Z.to_nat j := digit k]> config)
      else Ok config) config) config;
  Ok (mkCounter (counter c + 1) (rows c) (output c ++ [c_str config])).

Global Instance Counter_Visitor : Visitor Counter := Counter_visit.

Definition getcounter (c : Counter) : Z := counter c.

(** ** main, from the lines read from stdin to the lines written to stdout *)

Definition keep_line (row : string) : bool :=
  match row with
  | EmptyString => false
  | String c _ => negb (bool_decide (c = "#"%char))
  end.

Definition build (nitems : Z) (rows : list string) : result DLink :=
  dl ← DLink_new nitems;
  for_each rows (λ row dl,
    assert (bool_decide (Z.of_nat (String.length row) = nitems));;
    addrow row dl) dl.

Definition main (fuel : nat) (input : list string) : result (list string) :=
  let rows := List.filter keep_line input in
  row0 ← list_get rows 0;
  let nitems := Z.of_nat (String.length row0) in
  assert (bool_decide (nitems > 0));;
  dl ← build nitems rows;
  st ← rdance fuel (mkSearch dl [] (mkCounter 0 rows []));
  Ok (output (vis st)).


(** * Reading the vectors as total functions

    The proofs read the two vectors through total functions of a position;
    outside a vector they give zero. *)

Definition with_ncount (s : DLink) (c : Z) : DLink :=
  mkDLink (headers s) (nodes s) (nrows s) c.

Definition cell (v : list Node) (q : Z) : Node :=
  if bool_decide (0 ≤ q) then default (mkNode 0 0 0) (v !! Z.to_nat q)
  else mkNode 0 0 0.

Definition inb (v : list Node) (q : Z) : Prop := 0 ≤ q < Z.of_nat (length v).

Definition D (s : DLink) (q : Z) : Z := data (cell (nodes s) q).
Definition U (s : DLink) (q : Z) : Z := prev (cell (nodes s) q).
Definition Dn (s : DLink) (q : Z) : Z := next (cell (nodes s) q).
Definition Lh (s : DLink) (i : Z) : Z := prev (cell (headers s) i).
Definition Rh (s : DLink) (i : Z) : Z := next (cell (headers s) i).

Definition vn (s : DLink) (q : Z) : Prop := inb (nodes s) q.
Definition vh (s : DLink) (i : Z) : Prop := inb (headers s) i.

Definition put (f : Node → Node) (q : Z) (v : list Node) : list Node :=
  <[Z.to_nat q := f (cell v q)]> v.

Definition upd_node (f : Node → Node) (q : Z) (s : DLink) : DLink :=
  with_nodes s (put f q (nodes s)).
Definition upd_hd (f : Node → Node) (i : Z) (s : DLink) : DLink :=
  with_headers s (put f i (headers s)).

(** What one pass of the loop of [hide] does to a node of a row, and what
    one pass of the loop of [unhide] does. *)
Definition unlink_node (q : Z) (s : DLink) : DLink :=
  let x := D s q in
  let u := U s q in
  let d := Dn s q in
  let s := upd_node (with_next d) u s in
  let s := upd_node (with_prev u) d s in
  upd_node (with_data (D s x - 1)) x s.

Definition relink_node (q : Z) (s : DLink) : DLink :=
  let x := D s q in
  let u := U s q in
  let d := Dn s q in
  let s := upd_node (with_next q) u s in
  let s := upd_node (with_prev q) d s in
  upd_node (with_data (D s x + 1)) x s.

(** A doubly linked chain from [a] through [xs] to [b]. *)
Fixpoint chain (nx pv : Z → Z) (a : Z) (xs : list Z) (b : Z) : Prop :=
  match xs with
  | [] => nx a = b ∧ pv b = a
  | x :: xs' => nx a = x ∧ pv x = a ∧ chain nx pv x xs' b
  end.

Lemma bind_Ok {A B} (m : result A) (f : A → result B) a :
  m = Ok a → (m ≫= f) = f a.
Proof. intros ->. reflexivity. Qed.

Lemma fmap_Ok {A B} (m : result A) (f : A → B) a :
  m = Ok a → f <$> m = Ok (f a).
Proof. intros ->. reflexivity. Qed.

Lemma vec_get_ok v q : inb v q → vec_get v q = Ok (cell v q).
Proof.
  intros [H0 H1]. unfold vec_get, cell.
  rewrite !bool_decide_eq_true_2 by done.
  destruct (lookup_lt_is_Some_2 v (Z.to_nat q)) as [nd Hnd]; [lia|].
  by rewrite Hnd.
Qed.

Lemma vec_get_err v q : ¬ inb v q → vec_get v q = Err OutOfRange.
Proof.
  intros H. unfold vec_get. case_bool_decide; [|done].
  rewrite lookup_ge_None_2; [done|]. unfold inb in H. lia.
Qed.

Lemma vec_set_ok f v q : inb v q → vec_set f v q = Ok (put f q v).
Proof. intros H. unfold vec_set. by rewrite vec_get_ok. Qed.

Lemma length_put f q v : length (put f q v) = length v.
Proof. apply length_insert. Qed.

Lemma cell_put f q v q' :
  inb v q → cell (put f q v) q' = if decide (q' = q) then f (cell v q) else cell v q'.
Proof.
  intros [H0 H1]. unfold put. case_decide as Hq.
  - subst q'. unfold cell at 1. rewrite bool_decide_eq_true_2 by done.
    rewrite list_lookup_insert_eq by lia. done.
  - unfold cell at 1. unfold cell at 2. case_bool_decide; [|done].
    rewrite list_lookup_insert_ne by lia. done.
Qed.

Lemma inb_put f q v q' : inb (put f q v) q' ↔ inb v q'.
Proof. unfold inb. by rewrite length_put. Qed.

Lemma top_ok s q : vn s q → top s q = Ok (D s q).
Proof. intros H. unfold top. by rewrite (vec_get_ok _ _ H). Qed.
Lemma len_ok s q : vn s q → len s q = Ok (D s q).
Proof. apply top_ok. Qed.
Lemma ulink_ok s q : vn s q → ulink s q = Ok (U s q).
Proof. intros H. unfold ulink. by rewrite (vec_get_ok _ _ H). Qed.
Lemma dlink_ok s q : vn s q → dlink s q = Ok (Dn s q).
Proof. intros H. unfold dlink. by rewrite (vec_get_ok _ _ H). Qed.
Lemma llink_ok s i : vh s i → llink s i = Ok (Lh s i).
Proof. intros H. unfold llink. by rewrite (vec_get_ok _ _ H). Qed.
Lemma rlink_ok s i : vh s i → rlink s i = Ok (Rh s i).
Proof. intros H. unfold rlink. by rewrite (vec_get_ok _ _ H). Qed.

Lemma set_dlink_ok s q x : vn s q → set_dlink s q x = Ok (upd_node (with_next x) q s).
Proof. intros H. unfold set_dlink. by rewrite (vec_set_ok _ _ _ H). Qed.
Lemma set_ulink_ok s q x : vn s q → set_ulink s q x = Ok (upd_node (with_prev x) q s).
Proof. intros H. unfold set_ulink. by rewrite (vec_set_ok _ _ _ H). Qed.
Lemma set_len_ok s q x : vn s q → set_len s q x = Ok (upd_node (with_data x) q s).
Proof. intros H. unfold set_len. by rewrite (vec_set_ok _ _ _ H). Qed.
Lemma set_llink_ok s i x : vh s i → set_llink s i x = Ok (upd_hd (with_prev x) i s).
Proof. intros H. unfold set_llink. by rewrite (vec_set_ok _ _ _ H). Qed.
Lemma set_rlink_ok s i x : vh s i → set_rlink s i x = Ok (upd_hd (with_next x) i s).
Proof. intros H. unfold set_rlink. by rewrite (vec_set_ok _ _ _ H). Qed.

Lemma vn_upd_node f q s q' : vn (upd_node f q s) q' ↔ vn s q'.
Proof. apply inb_put. Qed.
Lemma vh_upd_node f q s i : vh (upd_node f q s) i ↔ vh s i.
Proof. done. Qed.
Lemma vn_upd_hd f i s q : vn (upd_hd f i s) q ↔ vn s q.
Proof. done. Qed.
Lemma vh_upd_hd f i s i' : vh (upd_hd f i s) i' ↔ vh s i'.
Proof. apply inb_put. Qed.

Lemma D_upd f q s q' :
  vn s q → D (upd_node f q s) q' = if decide (q' = q) then data (f (cell (nodes s) q)) else D s q'.
Proof. intros H. unfold D. simpl. rewrite cell_put by done. by case_decide. Qed.
Lemma U_upd f q s q' :
  vn s q → U (upd_node f q s) q' = if decide (q' = q) then prev (f (cell (nodes s) q)) else U s q'.
Proof. intros H. unfold U. simpl. rewrite cell_put by done. by case_decide. Qed.
Lemma Dn_upd f q s q' :
  vn s q → Dn (upd_node f q s) q' = if decide (q' = q) then next (f (cell (nodes s) q)) else Dn s q'.
Proof. intros H. unfold Dn. simpl. rewrite cell_put by done. by case_decide. Qed.
Lemma Lh_upd f i s i' :
  vh s i → Lh (upd_hd f i s) i' = if decide (i' = i) then prev (f (cell (headers s) i)) else Lh s i'.
Proof. intros H. unfold Lh. simpl. rewrite cell_put by done. by case_decide. Qed.
Lemma Rh_upd f i s i' :
  vh s i → Rh (upd_hd f i s) i' = if decide (i' = i) then next (f (cell (headers s) i)) else Rh s i'.
Proof. intros H. unfold Rh. simpl. rewrite cell_put by done. by case_decide. Qed.

Lemma Node_ext (a b : Node) :
  data a = data b → prev a = prev b → next a = next b → a = b.
Proof. destruct a, b; simpl; congruence. Qed.

Lemma vec_ext (v w : list Node) :
  length v = length w → (∀ q, inb v q → cell v q = cell w q) → v = w.
Proof.
  intros Hl H. apply list_eq. intros i.
  destruct (decide (i < length v)%nat) as [Hi|Hi].
  - specialize (H (Z.of_nat i)). unfold inb, cell in H.
    rewrite bool_decide_eq_true_2 in H by lia. rewrite Nat2Z.id in H.
    destruct (lookup_lt_is_Some_2 v i Hi) as [x Hx].
    destruct (lookup_lt_is_Some_2 w i) as [y Hy]; [lia|].
    rewrite Hx, Hy in H |- *. simpl in H. f_equal. apply H. lia.
  - rewrite !lookup_ge_None_2; [done|lia|lia].
Qed.

Lemma DLink_ext s s' :
  nodes s = nodes s' → headers s = headers s' → nrows s = nrows s' →
  ncount s = ncount s' → s = s'.
Proof. destruct s, s'; simpl; congruence. Qed.

(** ** Chains *)

Ltac elem :=
  repeat match goal with
  | H : _ ∈ _ :: _ |- _ => apply elem_of_cons in H
  | H : _ ∈ _ ++ _ |- _ => apply elem_of_app in H
  | H : _ ∈ [] |- _ => by apply elem_of_nil in H
  | H : _ ∉ _ :: _ |- _ => apply not_elem_of_cons in H
  | H : _ ∉ _ ++ _ |- _ => apply not_elem_of_app in H
  | H : _ ∧ _ |- _ => destruct H
  | H : _ ∨ _ |- _ => destruct H
  end;
  subst;
  repeat (progress rewrite ?elem_of_cons, ?elem_of_app, ?not_elem_of_cons,
            ?not_elem_of_app, ?elem_of_nil);
  try naive_solver.

Lemma chain_ext nx pv nx' pv' a xs b :
  (∀ x, x ∈ a :: xs → nx' x = nx x) →
  (∀ x, x ∈ xs ++ [b] → pv' x = pv x) →
  chain nx pv a xs b → chain nx' pv' a xs b.
Proof.
  revert a. induction xs as [|x xs IH]; intros a Hn Hp; simpl.
  - intros [H1 H2]. rewrite Hn, Hp by elem. done.
  - intros (H1 & H2 & H3). rewrite Hn, Hp by elem.
    split_and!; [done..|]. apply IH; [| |done].
    + intros z Hz. apply Hn. elem.
    + intros z Hz. apply Hp. elem.
Qed.

Lemma chain_mid nx pv a xs1 q xs2 b :
  chain nx pv a (xs1 ++ q :: xs2) b →
  pv q ∈ a :: xs1 ∧ nx q ∈ xs2 ++ [b] ∧ nx (pv q) = q ∧ pv (nx q) = q.
Proof.
  revert a. induction xs1 as [|x xs1 IH]; intros a; simpl.
  - intros (H1 & H2 & H3). rewrite H2.
    split; [elem|]. split; [|split; [done|]].
    + destruct xs2; simpl in *; [destruct H3 as [-> _]; elem|].
      destruct H3 as (-> & _). elem.
    + destruct xs2; simpl in *; [by destruct H3 as [-> ->]|].
      by destruct H3 as (-> & -> & _).
  - intros (H1 & H2 & H3). destruct (IH _ H3) as (?&?&?&?).
    split_and!; [elem|done..].
Qed.

Lemma chain_remove nx pv a xs1 q xs2 b :
  chain nx pv a (xs1 ++ q :: xs2) b →
  NoDup (a :: xs1 ++ q :: xs2) →
  b ∉ xs1 ++ q :: xs2 →
  chain (λ x, if decide (x = pv q) then nx q else nx x)
        (λ x, if decide (x = nx q) then pv q else pv x) a (xs1 ++ xs2) b.
Proof.
  revert a. induction xs1 as [|x xs1 IH]; intros a; simpl.
  - intros (H1 & H2 & H3) Hnd Hb.
    apply NoDup_cons in Hnd as [Ha Hnd]. apply NoDup_cons in Hnd as [Hq Hnd].
    destruct xs2 as [|y ys]; simpl in *.
    + destruct H3 as [H3 H4]. rewrite H3, H2.
      rewrite !decide_True by done. done.
    + destruct H3 as (H3 & H4 & H5). rewrite H3, H2.
      rewrite !decide_True by done. split_and!; [done..|].
      apply NoDup_cons in Hnd as [Hy Hnd].
      eapply chain_ext; [| |exact H5].
      * intros z Hz. rewrite decide_False; [done|]. intros ->. elem.
      * intros z Hz. rewrite decide_False; [done|]. intros ->. elem.
  - intros (H1 & H2 & H3) Hnd Hb.
    apply NoDup_cons in Hnd as [Ha Hnd].
    destruct (chain_mid _ _ _ _ _ _ _ H3) as (Hu & Hd & _ & _).
    pose proof Hnd as Hnd'. apply NoDup_cons in Hnd' as [Hx Hnd'].
    split_and!.
    + rewrite decide_False; [done|]. intros ->. elem.
    + rewrite decide_False; [done|]. intros ->. elem.
    + apply IH; [done|done|]. elem.
Qed.

Lemma chain_last nx pv a xs b :
  chain nx pv a xs b → pv b ∈ a :: xs ∧ nx a ∈ xs ++ [b].
Proof.
  revert a. induction xs as [|y ys IH]; intros a; simpl.
  - intros [-> ->]. elem.
  - intros (<- & _ & H). specialize (IH _ H). elem.
Qed.

Lemma chain_snoc nx pv a xs q b :
  chain nx pv a xs b → q ∉ a :: xs → q ≠ b → b ∉ xs → NoDup (a :: xs) →
  chain (λ x, if decide (x = q) then b else if decide (x = pv b) then q else nx x)
        (λ x, if decide (x = b) then q else if decide (x = q) then pv b else pv x)
        a (xs ++ [q]) b.
Proof.
  revert a. induction xs as [|x xs IH]; intros a; simpl.
  - intros [H1 H2] Hq Hqb Hb _. rewrite H2.
    assert (a ≠ q) by (intros ->; elem).
    repeat case_decide; done.
  - intros (H1 & H2 & H3) Hq Hqb Hb Hnd.
    destruct (chain_last _ _ _ _ _ H3) as [Hlast _].
    apply NoDup_cons in Hnd as [Ha Hnd].
    split_and!.
    + rewrite !decide_False; [done|intros ->; elem|intros ->; elem].
    + rewrite !decide_False; [done|intros ->; elem|intros ->; elem].
    + apply IH; [done|elem|done|elem|done].
Qed.

(** ** The layout of the node vector

    [rws] lists, for every option appended so far, the items it contains in
    ascending order.  Position [sp n rws r] holds the spacer in front of
    option [r], position [pos n rws r t] the node of its [t]-th item. *)

Definition rowbase (rws : list (list Z)) (r : nat) : Z :=
  foldr (λ row acc, Z.of_nat (length row) + 1 + acc) 0 (take r rws).

Definition sp (n : Z) (rws : list (list Z)) (r : nat) : Z :=
  n + 1 + rowbase rws r.

Definition pos (n : Z) (rws : list (list Z)) (r t : nat) : Z :=
  sp n rws r + 1 + Z.of_nat t.

Definition real (n : Z) (rws : list (list Z)) (q j : Z) : Prop :=
  ∃ r row t, rws !! r = Some row ∧ row !! t = Some j ∧ q = pos n rws r t.

Definition rows_wf (n : Z) (rws : list (list Z)) : Prop :=
  ∀ row, row ∈ rws → NoDup row ∧ ∀ j, j ∈ row → 1 ≤ j ≤ n.

(** The part of the layout that is about the nodes of the rows only; it
    also holds while [addrow] is half way through a row. *)
Record Tops (n : Z) (rws : list (list Z)) (s : DLink) : Prop := {
  top_n : 0 ≤ n;
  top_wf : rows_wf n rws;
  top_headers : Z.of_nat (length (headers s)) = n + 1;
  top_nodes : sp n rws (length rws) ≤ Z.of_nat (length (nodes s));
  top_top : ∀ q j, real n rws q j → D s q = j
}.

Record Layout (n : Z) (rws : list (list Z)) (s : DLink) : Prop := {
  lay_n : 0 ≤ n;
  lay_wf : rows_wf n rws;
  lay_headers : Z.of_nat (length (headers s)) = n + 1;
  lay_nodes : Z.of_nat (length (nodes s)) = sp n rws (length rws) + 1;
  lay_top : ∀ q j, real n rws q j → D s q = j;
  lay_sp_top : ∀ r, (r ≤ length rws)%nat → D s (sp n rws r) = - Z.of_nat r;
  lay_sp_up : ∀ r row, rws !! r = Some row → U s (sp n rws (S r)) = sp n rws r + 1;
  lay_sp_dn : ∀ r row, rws !! r = Some row →
      Dn s (sp n rws r) = sp n rws r + Z.of_nat (length row)
}.

Definition Horiz (n : Z) (s : DLink) (hs : list Z) : Prop :=
  chain (Rh s) (Lh s) 0 hs 0 ∧ NoDup hs ∧ ∀ i, i ∈ hs → 1 ≤ i ≤ n.

Definition Cols (n : Z) (rws : list (list Z)) (s : DLink) (cols : Z → list Z) : Prop :=
  ∀ j, 1 ≤ j ≤ n →
    chain (Dn s) (U s) j (cols j) j ∧ NoDup (cols j) ∧
    (∀ q, q ∈ cols j → real n rws q j) ∧
    D s j = Z.of_nat (length (cols j)).

(** The structural invariant: [hs] is the list of active items in the order
    of the horizontal list, [cols j] the nodes linked into the column of
    item [j], from top to bottom. *)
Record GInv (n : Z) (rws : list (list Z)) (s : DLink) (hs : list Z)
    (cols : Z → list Z) : Prop := {
  g_layout : Layout n rws s;
  g_horiz : Horiz n s hs;
  g_cols : Cols n rws s cols
}.

Lemma rowbase_0 rws : rowbase rws 0 = 0.
Proof. by destruct rws. Qed.

Lemma rowsum_app (l1 l2 : list (list Z)) :
  foldr (λ row acc, Z.of_nat (length row) + 1 + acc) 0 (l1 ++ l2) =
  foldr (λ row acc, Z.of_nat (length row) + 1 + acc) 0 l1 +
  foldr (λ row acc, Z.of_nat (length row) + 1 + acc) 0 l2.
Proof. induction l1 as [|x l1 IH]; simpl; lia. Qed.

Lemma rowbase_S rws r row :
  rws !! r = Some row →
  rowbase rws (S r) = rowbase rws r + Z.of_nat (length row) + 1.
Proof.
  intros Hr. unfold rowbase. rewrite (take_S_r _ _ _ Hr), rowsum_app. simpl. lia.
Qed.

Lemma rowbase_app rws rws' r :
  (r ≤ length rws)%nat → rowbase (rws ++ rws') r = rowbase rws r.
Proof. intros H. unfold rowbase. by rewrite take_app_le. Qed.

Lemma rowbase_mono rws r r' :
  (r ≤ r')%nat → rowbase rws r ≤ rowbase rws r'.
Proof.
  induction 1 as [|r' _ IH]; [lia|].
  destruct (rws !! r') as [row|] eqn:Hr.
  - rewrite (rowbase_S _ _ _ Hr). lia.
  - unfold rowbase in *. apply lookup_ge_None_1 in Hr.
    rewrite (take_ge _ (S r')) by lia. rewrite (take_ge _ r') in IH by lia. done.
Qed.

Lemma rowbase_nonneg rws r : 0 ≤ rowbase rws r.
Proof. rewrite <- (rowbase_0 rws). apply rowbase_mono. lia. Qed.

Lemma rowbase_lt rws r r' row :
  rws !! r = Some row → (r < r')%nat →
  rowbase rws r + Z.of_nat (length row) + 1 ≤ rowbase rws r'.
Proof.
  intros Hr Hlt. rewrite <- (rowbase_S _ _ _ Hr). apply rowbase_mono. lia.
Qed.
(** ** Facts about the layout *)

Lemma filter_out_notin (q : Z) (l : list Z) :
  q ∉ l → filter (λ x, x ≠ q) l = l.
Proof.
  induction l as [|y l IH]; intros Hq; [done|].
  apply not_elem_of_cons in Hq as [Hy Hq].
  rewrite filter_cons_True by done. f_equal. by apply IH.
Qed.

Lemma filter_out_split (q : Z) (xs1 xs2 : list Z) :
  NoDup (xs1 ++ q :: xs2) → filter (λ x, x ≠ q) (xs1 ++ q :: xs2) = xs1 ++ xs2.
Proof.
  intros Hnd. apply NoDup_app in Hnd as (H1 & H2 & H3).
  apply NoDup_cons in H3 as [H3 H4].
  rewrite filter_app, filter_cons_False by (intros H; by apply H).
  rewrite !filter_out_notin; [done|done|].
  intros H. apply (H2 _ H). left.
Qed.

Section LayoutFacts.
Variable n : Z.
Variable rws : list (list Z).

Lemma sp_S r row :
  rws !! r = Some row → sp n rws (S r) = sp n rws r + Z.of_nat (length row) + 1.
Proof. intros H. unfold sp. rewrite (rowbase_S _ _ _ H). lia. Qed.

Lemma sp_mono r r' : (r ≤ r')%nat → sp n rws r ≤ sp n rws r'.
Proof. intros H. unfold sp. pose proof (rowbase_mono rws _ _ H). lia. Qed.

Lemma sp_lower r : n + 1 ≤ sp n rws r.
Proof. unfold sp. pose proof (rowbase_nonneg rws r). lia. Qed.

Lemma pos_bounds r row t :
  rws !! r = Some row → (t < length row)%nat →
  sp n rws r < pos n rws r t < sp n rws (S r) ∧
  sp n rws (S r) ≤ sp n rws (length rws).
Proof.
  intros Hr Ht. rewrite (sp_S _ _ Hr). unfold pos. split; [lia|].
  rewrite <- (sp_S _ _ Hr). apply sp_mono.
  apply lookup_lt_Some in Hr. lia.
Qed.

Lemma pos_inj r row t r' row' t' :
  rws !! r = Some row → (t < length row)%nat →
  rws !! r' = Some row' → (t' < length row')%nat →
  pos n rws r t = pos n rws r' t' → r = r' ∧ t = t'.
Proof.
  intros Hr Ht Hr' Ht' Heq.
  pose proof (pos_bounds _ _ _ Hr Ht) as [H1 _].
  pose proof (pos_bounds _ _ _ Hr' Ht') as [H2 _].
  destruct (decide (r = r')) as [->|Hne].
  - split; [done|]. unfold pos in Heq. lia.
  - exfalso. destruct (decide (r < r')%nat).
    + pose proof (sp_mono (S r) r' ltac:(lia)). lia.
    + pose proof (sp_mono (S r') r ltac:(lia)). lia.
Qed.

Lemma real_fun q j j' : real n rws q j → real n rws q j' → j = j'.
Proof.
  intros (r & row & t & Hr & Ht & ->) (r' & row' & t' & Hr' & Ht' & Heq).
  destruct (pos_inj _ _ _ _ _ _ Hr (lookup_lt_Some _ _ _ Ht)
              Hr' (lookup_lt_Some _ _ _ Ht') Heq) as [-> ->].
  congruence.
Qed.

Lemma real_not_sp q j r : real n rws q j → q ≠ sp n rws r.
Proof.
  intros (r0 & row & t & Hr & Ht & ->) Heq.
  pose proof (pos_bounds _ _ _ Hr (lookup_lt_Some _ _ _ Ht)) as [H1 _].
  destruct (decide (r ≤ r0)%nat).
  - pose proof (sp_mono r r0 ltac:(lia)). lia.
  - pose proof (sp_mono (S r0) r ltac:(lia)). lia.
Qed.

Lemma real_range q j :
  rows_wf n rws → real n rws q j →
  n + 1 < q < sp n rws (length rws) ∧ 1 ≤ j ≤ n.
Proof.
  intros Hwf (r & row & t & Hr & Ht & ->).
  pose proof (pos_bounds _ _ _ Hr (lookup_lt_Some _ _ _ Ht)) as [H1 H2].
  pose proof (sp_lower r).
  split; [lia|].
  destruct (Hwf row) as [_ Hrg]; [by eapply list_elem_of_lookup_2|].
  apply Hrg. by eapply list_elem_of_lookup_2.
Qed.

Section WithTops.
Variable s : DLink.
Hypothesis Htop : Tops n rws s.

Lemma real_vn_t q j : real n rws q j → vn s q ∧ n < q ∧ 1 ≤ j ≤ n.
Proof using Htop.
  intros H. destruct (real_range _ _ (top_wf _ _ _ Htop) H) as [H1 H2].
  pose proof (top_n _ _ _ Htop). pose proof (top_nodes _ _ _ Htop).
  unfold vn, inb. lia.
Qed.

Lemma item_vn_t j : 0 ≤ j ≤ n → vn s j.
Proof using Htop.
  intros H. unfold vn, inb. pose proof (top_nodes _ _ _ Htop).
  pose proof (sp_lower (length rws)). lia.
Qed.

End WithTops.

Section WithState.
Variable s : DLink.
Hypothesis Hlay : Layout n rws s.

Lemma Layout_Tops : Tops n rws s.
Proof using Hlay.
  destruct Hlay as [L1 L2 L3 L4 L5 L6 L7 L8]. split; try done. lia.
Qed.

Lemma real_vn q j : real n rws q j → vn s q ∧ n < q ∧ 1 ≤ j ≤ n.
Proof using Hlay. apply real_vn_t, Layout_Tops. Qed.

Lemma item_vn j : 0 ≤ j ≤ n → vn s j.
Proof using Hlay. apply item_vn_t, Layout_Tops. Qed.

Lemma item_vh j : 0 ≤ j ≤ n → vh s j.
Proof using Hlay. intros H. unfold vh, inb. rewrite (lay_headers _ _ _ Hlay). lia. Qed.

Lemma sp_vn r : (r ≤ length rws)%nat → vn s (sp n rws r).
Proof.
  intros H. unfold vn, inb. rewrite (lay_nodes _ _ _ Hlay).
  pose proof (lay_n _ _ _ Hlay).
  pose proof (sp_lower r). pose proof (sp_mono _ _ H). lia.
Qed.

End WithState.
End LayoutFacts.

(** Positions that belong to the column of item [j]: its header and the
    nodes of [j]. *)
Definition incol (n : Z) (rws : list (list Z)) (j y : Z) : Prop :=
  y = j ∨ real n rws y j.

Lemma incol_fun_t n rws s j j' y :
  Tops n rws s → 1 ≤ j ≤ n → 1 ≤ j' ≤ n →
  incol n rws j y → incol n rws j' y → j = j'.
Proof.
  intros Hl Hj Hj' [->|H1] [->|H2]; [done| | |].
  - destruct (real_vn_t _ _ _ Hl _ _ H2). lia.
  - destruct (real_vn_t _ _ _ Hl _ _ H1). lia.
  - eapply real_fun; eauto.
Qed.

Lemma incol_vn_t n rws s j y :
  Tops n rws s → 1 ≤ j ≤ n → incol n rws j y → vn s y ∧ 1 ≤ y.
Proof.
  intros Hl Hj [->|H].
  - split; [apply (item_vn_t _ _ _ Hl); lia|lia].
  - destruct (real_vn_t _ _ _ Hl _ _ H). split; [done|lia].
Qed.

Lemma incol_fun n rws s j j' y :
  Layout n rws s → 1 ≤ j ≤ n → 1 ≤ j' ≤ n →
  incol n rws j y → incol n rws j' y → j = j'.
Proof. intros Hl. by apply (incol_fun_t n rws s), Layout_Tops. Qed.

Lemma incol_vn n rws s j y :
  Layout n rws s → 1 ≤ j ≤ n → incol n rws j y → vn s y ∧ 1 ≤ y.
Proof. intros Hl. by apply incol_vn_t, Layout_Tops. Qed.

Lemma incol_not_sp n rws s j y r :
  Layout n rws s → 1 ≤ j ≤ n → incol n rws j y → y ≠ sp n rws r.
Proof.
  intros Hl Hj [->|H].
  - pose proof (sp_lower n rws r). lia.
  - by eapply real_not_sp.
Qed.

Lemma Cols_incol n rws s cols j y :
  Cols n rws s cols → 1 ≤ j ≤ n → y ∈ j :: cols j → incol n rws j y.
Proof.
  intros Hc Hj Hy. destruct (Hc j Hj) as (_ & _ & Hm & _).
  apply elem_of_cons in Hy as [->|Hy]; [by left|right; by apply Hm].
Qed.

Lemma Cols_header_notin_t n rws s cols j :
  Tops n rws s → Cols n rws s cols → 1 ≤ j ≤ n → j ∉ cols j.
Proof.
  intros Hl Hc Hj Hin. destruct (Hc j Hj) as (_ & _ & Hm & _).
  destruct (real_vn_t _ _ _ Hl _ _ (Hm _ Hin)). lia.
Qed.

Lemma Cols_header_notin n rws s cols j :
  Layout n rws s → Cols n rws s cols → 1 ≤ j ≤ n → j ∉ cols j.
Proof. intros Hl. by apply Cols_header_notin_t, Layout_Tops. Qed.

(** ** The effect of each write on each view *)

Lemma Dn_set_next x q s y :
  vn s q → Dn (upd_node (with_next x) q s) y = if decide (y = q) then x else Dn s y.
Proof. intros H. rewrite Dn_upd by done. by case_decide. Qed.
Lemma Dn_set_prev x q s y : vn s q → Dn (upd_node (with_prev x) q s) y = Dn s y.
Proof. intros H. rewrite Dn_upd by done. case_decide; by subst. Qed.
Lemma Dn_set_data x q s y : vn s q → Dn (upd_node (with_data x) q s) y = Dn s y.
Proof. intros H. rewrite Dn_upd by done. case_decide; by subst. Qed.
Lemma U_set_prev x q s y :
  vn s q → U (upd_node (with_prev x) q s) y = if decide (y = q) then x else U s y.
Proof. intros H. rewrite U_upd by done. by case_decide. Qed.
Lemma U_set_next x q s y : vn s q → U (upd_node (with_next x) q s) y = U s y.
Proof. intros H. rewrite U_upd by done. case_decide; by subst. Qed.
Lemma U_set_data x q s y : vn s q → U (upd_node (with_data x) q s) y = U s y.
Proof. intros H. rewrite U_upd by done. case_decide; by subst. Qed.
Lemma D_set_data x q s y :
  vn s q → D (upd_node (with_data x) q s) y = if decide (y = q) then x else D s y.
Proof. intros H. rewrite D_upd by done. by case_decide. Qed.
Lemma D_set_next x q s y : vn s q → D (upd_node (with_next x) q s) y = D s y.
Proof. intros H. rewrite D_upd by done. case_decide; by subst. Qed.
Lemma D_set_prev x q s y : vn s q → D (upd_node (with_prev x) q s) y = D s y.
Proof. intros H. rewrite D_upd by done. case_decide; by subst. Qed.
Lemma Rh_set_next x i s y :
  vh s i → Rh (upd_hd (with_next x) i s) y = if decide (y = i) then x else Rh s y.
Proof. intros H. rewrite Rh_upd by done. by case_decide. Qed.
Lemma Rh_set_prev x i s y : vh s i → Rh (upd_hd (with_prev x) i s) y = Rh s y.
Proof. intros H. rewrite Rh_upd by done. case_decide; by subst. Qed.
Lemma Lh_set_prev x i s y :
  vh s i → Lh (upd_hd (with_prev x) i s) y = if decide (y = i) then x else Lh s y.
Proof. intros H. rewrite Lh_upd by done. by case_decide. Qed.
Lemma Lh_set_next x i s y : vh s i → Lh (upd_hd (with_next x) i s) y = Lh s y.
Proof. intros H. rewrite Lh_upd by done. case_decide; by subst. Qed.

Ltac vn_tac := rewrite ?vn_upd_node, ?vh_upd_hd; assumption.

Ltac views :=
  repeat first
    [ rewrite Dn_set_next by vn_tac | rewrite Dn_set_prev by vn_tac
    | rewrite Dn_set_data by vn_tac | rewrite U_set_prev by vn_tac
    | rewrite U_set_next by vn_tac | rewrite U_set_data by vn_tac
    | rewrite D_set_data by vn_tac | rewrite D_set_next by vn_tac
    | rewrite D_set_prev by vn_tac | rewrite Rh_set_next by vn_tac
    | rewrite Rh_set_prev by vn_tac | rewrite Lh_set_prev by vn_tac
    | rewrite Lh_set_next by vn_tac ].

Lemma state_ext s s' :
  length (nodes s) = length (nodes s') → headers s = headers s' →
  nrows s = nrows s' → ncount s = ncount s' →
  (∀ y, vn s y → D s y = D s' y ∧ U s y = U s' y ∧ Dn s y = Dn s' y) →
  s = s'.
Proof.
  intros Hl Hh Hr Hc H. apply DLink_ext; [|done..].
  apply vec_ext; [done|]. intros y Hy. destruct (H y Hy) as (?&?&?).
  by apply Node_ext.
Qed.

(** ** One node unlinked from its column, and linked again *)

Lemma unlink_views s q :
  vn s (U s q) → vn s (Dn s q) → vn s (D s q) →
  let s' := unlink_node q s in
  (∀ y, Dn s' y = if decide (y = U s q) then Dn s q else Dn s y) ∧
  (∀ y, U s' y = if decide (y = Dn s q) then U s q else U s y) ∧
  (∀ y, D s' y = if decide (y = D s q) then D s (D s q) - 1 else D s y) ∧
  headers s' = headers s ∧ length (nodes s') = length (nodes s) ∧
  nrows s' = nrows s ∧ ncount s' = ncount s.
Proof.
  intros Hu Hd Hx. unfold unlink_node.
  split_and!; try done; try (intros y; by views).
  simpl. by rewrite !length_put.
Qed.

Lemma relink_views s q :
  vn s (U s q) → vn s (Dn s q) → vn s (D s q) →
  let s' := relink_node q s in
  (∀ y, Dn s' y = if decide (y = U s q) then q else Dn s y) ∧
  (∀ y, U s' y = if decide (y = Dn s q) then q else U s y) ∧
  (∀ y, D s' y = if decide (y = D s q) then D s (D s q) + 1 else D s y) ∧
  headers s' = headers s ∧ length (nodes s') = length (nodes s) ∧
  nrows s' = nrows s ∧ ncount s' = ncount s.
Proof.
  intros Hu Hd Hx. unfold relink_node.
  split_and!; try done; try (intros y; by views).
  simpl. by rewrite !length_put.
Qed.

Lemma relink_unlink s q c :
  vn s (U s q) → vn s (Dn s q) → vn s (D s q) → D s q ≠ q →
  Dn s (U s q) = q → U s (Dn s q) = q →
  relink_node q (with_ncount (unlink_node q s) c) = with_ncount s c.
Proof.
  intros Hu Hd Hx Hne H1 H2.
  destruct (unlink_views s q Hu Hd Hx) as (Vn & Vu & Vd & Vh & Vl & Vr & Vc).
  set (s1 := with_ncount (unlink_node q s) c).
  assert (E1 : D s1 q = D s q).
  { change (D (unlink_node q s) q = D s q). rewrite Vd. by rewrite decide_False. }
  assert (E2 : U s1 q = U s q).
  { change (U (unlink_node q s) q = U s q). rewrite Vu. case_decide; congruence. }
  assert (E3 : Dn s1 q = Dn s q).
  { change (Dn (unlink_node q s) q = Dn s q). rewrite Vn. case_decide; congruence. }
  assert (Hvn : ∀ y, vn s1 y ↔ vn s y).
  { intros y. change (vn (unlink_node q s) y ↔ vn s y). unfold vn, inb. by rewrite Vl. }
  destruct (relink_views s1 q) as (Wn & Wu & Wd & Wh & Wl & Wr & Wc).
  { rewrite E2. by apply Hvn. } { rewrite E3. by apply Hvn. } { rewrite E1. by apply Hvn. }
  apply state_ext.
  - rewrite Wl. unfold s1. simpl. done.
  - rewrite Wh. unfold s1. simpl. done.
  - rewrite Wr. unfold s1. simpl. done.
  - rewrite Wc. done.
  - intros y _. rewrite Wn, Wu, Wd, E1, E2, E3.
    change (D s1) with (D (unlink_node q s)).
    change (U s1) with (U (unlink_node q s)).
    change (Dn s1) with (Dn (unlink_node q s)).
    rewrite Vn, Vu, !Vd.
    change (D (with_ncount s c)) with (D s).
    change (U (with_ncount s c)) with (U s).
    change (Dn (with_ncount s c)) with (Dn s).
    rewrite (decide_True (P := D s q = D s q)) by done.
    split_and!; repeat case_decide; subst; try done; try lia; congruence.
Qed.
Lemma Horiz_same n s s' hs :
  headers s' = headers s → Horiz n s hs → Horiz n s' hs.
Proof. unfold Horiz, Rh, Lh. by intros ->. Qed.

Lemma unlink_GInv n rws s hs cols q j :
  GInv n rws s hs cols → real n rws q j → q ∈ cols j →
  GInv n rws (unlink_node q s) hs (λ j', filter (λ x, x ≠ q) (cols j')) ∧
  (∀ c, relink_node q (with_ncount (unlink_node q s) c) = with_ncount s c) ∧
  vn s q ∧ vn s (U s q) ∧ vn s (Dn s q) ∧ D s q = j ∧ 1 ≤ j ≤ n.
Proof.
  intros [Hl Hh Hc] Hreal Hq.
  destruct (real_vn _ _ _ Hl _ _ Hreal) as (Hvq & Hnq & Hj).
  pose proof (lay_top _ _ _ Hl _ _ Hreal) as Hx.
  destruct (Hc j Hj) as (Hch & Hnd & Hmem & Hlen).
  pose proof (Cols_header_notin _ _ _ _ _ Hl Hc Hj) as Hjn.
  apply list_elem_of_split in Hq as (xs1 & xs2 & Hsplit).
  rewrite Hsplit in Hch, Hnd, Hjn, Hlen.
  destruct (chain_mid _ _ _ _ _ _ _ Hch) as (Hu & Hd & Hlu & Hld).
  assert (Hiu : incol n rws j (U s q)).
  { apply (Cols_incol _ _ _ _ _ _ Hc Hj). rewrite Hsplit. elem. }
  assert (Hid : incol n rws j (Dn s q)).
  { apply (Cols_incol _ _ _ _ _ _ Hc Hj). rewrite Hsplit. elem. }
  destruct (incol_vn _ _ _ _ _ Hl Hj Hiu) as [Hvu _].
  destruct (incol_vn _ _ _ _ _ Hl Hj Hid) as [Hvd _].
  assert (Hvx : vn s (D s q)) by (rewrite Hx; apply (item_vn _ _ _ Hl); lia).
  destruct (unlink_views s q Hvu Hvd Hvx) as (Vn & Vu & Vd & Vh & Vl & Vr & Vc).
  split_and!; try done; try lia.
  2:{ intros c. apply relink_unlink; try done. lia. }
  split.
  - destruct Hl as [L1 L2 L3 L4 L5 L6 L7 L8]. split; try done.
    + by rewrite Vl.
    + intros q' j' Hr'. rewrite Vd, decide_False; [by apply L5|].
      destruct (real_range _ _ _ _ L2 Hr'). lia.
    + intros r Hr. rewrite Vd, decide_False; [by apply L6|].
      pose proof (sp_lower n rws r). lia.
    + intros r row Hr. rewrite Vu, decide_False; [by eapply L7|].
      intros Heq. symmetry in Heq. revert Heq.
      eapply incol_not_sp; [|exact Hj|exact Hid]. by split.
    + intros r row Hr. rewrite Vn, decide_False; [by eapply L8|].
      intros Heq. symmetry in Heq. revert Heq.
      eapply incol_not_sp; [|exact Hj|exact Hiu]. by split.
  - by apply (Horiz_same _ s).
  - intros j' Hj'. destruct (decide (j' = j)) as [->|Hne].
    + rewrite Hsplit, filter_out_split by done.
      split_and!.
      * eapply chain_ext; [| |apply (chain_remove _ _ _ _ _ _ _ Hch)].
        -- intros y _. apply Vn.
        -- intros y _. apply Vu.
        -- by apply NoDup_cons.
        -- done.
      * apply NoDup_app in Hnd as (H1 & H2 & H3). apply NoDup_cons in H3 as [H3 H4].
        apply NoDup_app. split_and!; [done| |done].
        intros y Hy Hy'. apply (H2 _ Hy). by right.
      * intros y Hy. apply Hmem. rewrite Hsplit. elem.
      * rewrite Vd, Hx, decide_True by done. rewrite Hlen, !length_app. simpl. lia.
    + destruct (Hc j' Hj') as (Hch' & Hnd' & Hmem' & Hlen').
      assert (Hq' : q ∉ cols j').
      { intros Hin. apply Hne. symmetry. eapply real_fun; [exact Hreal|by apply Hmem']. }
      rewrite filter_out_notin by done.
      split_and!; try done.
      * eapply chain_ext; [| |exact Hch'].
        -- intros y Hy. rewrite Vn, decide_False; [done|]. intros ->.
           apply Hne. eapply (incol_fun _ _ _ _ _ _ Hl Hj' Hj); [|exact Hiu].
           by eapply Cols_incol.
        -- intros y Hy. rewrite Vu, decide_False; [done|]. intros ->.
           apply Hne. eapply (incol_fun _ _ _ _ _ _ Hl Hj' Hj); [|exact Hid].
           eapply Cols_incol; [done..|]. elem.
      * rewrite Vd, Hx, decide_False; done.
Qed.
(** ** Loops *)

Lemma while_done {S} fuel (cond : S → result bool) body st :
  cond st = Ok false → while fuel cond body st = Ok st.
Proof. intros H. destruct fuel; simpl; by rewrite H. Qed.

Lemma while_step {S} fuel (cond : S → result bool) body st st' :
  cond st = Ok true → body st = Ok st' →
  while (Datatypes.S fuel) cond body st = while fuel cond body st'.
Proof. intros H1 H2. simpl. by rewrite H1, H2. Qed.

(** ** Walking once around a row

    [hide] and the covering loop of [rdance] walk from the node after [p] to
    the end of the row, jump from the spacer back to the first node and go
    on up to [p]; [unhide] and the uncovering loop walk the same way
    backwards.  [fwd] and [bwd] are what the two do at a node. *)

Definition scan_fwd (fwd : Z → Z → DLink → result DLink) (fuel : nat) (p : Z)
    (s : DLink) : result DLink :=
  fst <$> while fuel (λ '(s, q), Ok (bool_decide (q ≠ p)))
    (λ '(s, q),
       x ← top s q;
       if bool_decide (x ≤ 0) then u ← ulink s q; Ok (s, u)
       else s ← fwd x q s; Ok (s, q + 1))
    (s, p + 1).

Definition scan_bwd (bwd : Z → Z → DLink → result DLink) (fuel : nat) (p : Z)
    (s : DLink) : result DLink :=
  fst <$> while fuel (λ '(s, q), Ok (bool_decide (q ≠ p)))
    (λ '(s, q),
       x ← top s q;
       if bool_decide (x ≤ 0) then d ← dlink s q; Ok (s, d)
       else s ← bwd x q s; Ok (s, q - 1))
    (s, p - 1).

(** The other nodes of the row [a..b] of [p], in the order of the walk. *)
Definition others (a b p : Z) : list Z := seqZ (p + 1) (b - p) ++ seqZ a (p - a).

Lemma seqZ_snoc m k : 0 ≤ k → seqZ m (k + 1) = seqZ m k ++ [m + k].
Proof.
  intros Hk. rewrite seqZ_app by lia. f_equal.
Qed.

Section Scan.
Variable n : Z.
Variable rws : list (list Z).
Variables fwd bwd : Z → Z → DLink → result DLink.
Variable I : list Z → DLink → Prop.
Variable r : nat.
Variable row : list Z.
Variable t0 : nat.
Variable s0 : DLink.
Hypothesis Hr : rws !! r = Some row.
Hypothesis Ht0 : (t0 < length row)%nat.
Hypothesis HI : ∀ rm s, I rm s → Layout n rws s.
Hypothesis Hstep : ∀ rm s t j,
  I rm s → row !! t = Some j → t ≠ t0 → pos n rws r t ∉ rm →
  ∃ s', fwd j (pos n rws r t) s = Ok s' ∧ I (rm ++ [pos n rws r t]) s' ∧
        ∀ c, bwd j (pos n rws r t) (with_ncount s' c) = Ok (with_ncount s c).

Let p := pos n rws r t0.
Let a := sp n rws r + 1.
Let b := sp n rws r + Z.of_nat (length row).

Let fbody : DLink * Z → result (DLink * Z) :=
  λ '(s, q),
    x ← top s q;
    if bool_decide (x ≤ 0) then u ← ulink s q; Ok (s, u)
    else s ← fwd x q s; Ok (s, q + 1).
Let bbody : DLink * Z → result (DLink * Z) :=
  λ '(s, q),
    x ← top s q;
    if bool_decide (x ≤ 0) then d ← dlink s q; Ok (s, d)
    else s ← bwd x q s; Ok (s, q - 1).
Let cnd : DLink * Z → result bool := λ '(s, q), Ok (bool_decide (q ≠ p)).

(** The number of passes the backward walk needs from position [q - 1]. *)
Let dist (q : Z) : Z := if decide (p < q) then q - 1 - p else (q - a) + 1 + (b - p).

Let J (s : DLink) (q : Z) : Prop :=
  ∀ c fuel, dist q ≤ Z.of_nat fuel →
    while fuel cnd bbody (with_ncount s c, q - 1) = Ok (with_ncount s0 c, p).

Let done_at (q : Z) : list Z :=
  if decide (p < q) then seqZ (p + 1) (q - p - 1)
  else seqZ (p + 1) (b - p) ++ seqZ a (q - a).

Lemma scan_bounds : a ≤ p ≤ b ∧ b + 1 = sp n rws (S r).
Proof using Hr Ht0. unfold p, a, b, pos. rewrite (sp_S _ _ _ _ Hr). lia. Qed.

Lemma scan_real_step s q :
  I (done_at q) s → J s q → a ≤ q ≤ b → q ≠ p →
  ∃ s', fbody (s, q) = Ok (s', q + 1) ∧ I (done_at (q + 1)) s' ∧ J s' (q + 1).
Proof using All.
  intros Hi Hj Hq Hqp.
  pose proof scan_bounds as [Hp Hb].
  set (t := Z.to_nat (q - a)).
  assert (Hqt : q = pos n rws r t) by (unfold pos, a in *; lia).
  assert (Htl : (t < length row)%nat) by (unfold a, b in *; lia).
  destruct (lookup_lt_is_Some_2 row t Htl) as [j Hj'].
  assert (Hreal : real n rws q j) by (exists r, row, t; done).
  pose proof (HI _ _ Hi) as Hl.
  destruct (real_vn _ _ _ Hl _ _ Hreal) as (Hvq & _ & Hjr).
  assert (Hne : t ≠ t0) by (intros ->; unfold p in Hqp; done).
  assert (Hnotin : pos n rws r t ∉ done_at q).
  { rewrite <- Hqt. unfold done_at. case_decide.
    - rewrite elem_of_seqZ. lia.
    - rewrite elem_of_app, !elem_of_seqZ. lia. }
  destruct (Hstep _ _ _ _ Hi Hj' Hne Hnotin) as (s' & Hf & Hi' & Hb').
  rewrite <- Hqt in *.
  exists s'. split_and!.
  - unfold fbody. rewrite (top_ok _ _ Hvq). simpl.
    rewrite (lay_top _ _ _ Hl _ _ Hreal).
    rewrite bool_decide_eq_false_2 by lia. by rewrite Hf.
  - replace (done_at (q + 1)) with (done_at q ++ [q]); [done|].
    unfold done_at. repeat case_decide; try lia.
    + replace (q + 1 - p - 1) with ((q - p - 1) + 1) by lia.
      rewrite seqZ_snoc by lia. do 2 f_equal. lia.
    + replace (q + 1 - a) with ((q - a) + 1) by lia.
      rewrite seqZ_snoc by lia. rewrite <- app_assoc. do 3 f_equal. lia.
  - intros c fuel Hfuel.
    assert (Hd : dist (q + 1) = dist q + 1 ∧ 0 ≤ dist q).
    { unfold dist. repeat case_decide; lia. }
    destruct fuel as [|fuel]; [lia|].
    replace (q + 1 - 1) with q by lia.
    erewrite while_step; [apply Hj; lia| |].
    + simpl. by rewrite bool_decide_eq_true_2.
    + unfold bbody.
      pose proof (HI _ _ Hi') as Hl'.
      destruct (real_vn _ _ _ Hl' _ _ Hreal) as (Hvq' & _).
      change (top (with_ncount s' c) q) with (top s' q).
      rewrite (top_ok _ _ Hvq'). simpl.
      rewrite (lay_top _ _ _ Hl' _ _ Hreal).
      rewrite bool_decide_eq_false_2 by lia. by rewrite Hb'.
Qed.

Lemma scan_phase2 (k : nat) : ∀ s q,
  q = p - Z.of_nat k → a ≤ q → I (done_at q) s → J s q →
  ∀ fuel, (k ≤ fuel)%nat →
  ∃ s', while fuel cnd fbody (s, q) = Ok (s', p) ∧ I (others a b p) s' ∧ J s' p.
Proof using All.
  pose proof scan_bounds as [Hp Hb].
  induction k as [|k IH]; intros s q Hq Ha Hi Hj fuel Hfuel.
  - assert (q = p) as -> by lia. exists s. split_and!; [| |done].
    + apply while_done. simpl. by rewrite bool_decide_eq_false_2 by (intros H; by apply H).
    + unfold done_at in Hi. rewrite decide_False in Hi by lia. done.
  - destruct fuel as [|fuel]; [lia|].
    destruct (scan_real_step s q Hi Hj ltac:(lia) ltac:(lia)) as (s' & Hf & Hi' & Hj').
    destruct (IH s' (q + 1) ltac:(lia) ltac:(lia) Hi' Hj' fuel ltac:(lia))
      as (s'' & Hw & Hi'' & Hj'').
    exists s''. split_and!; [|done..].
    erewrite while_step; [exact Hw| |exact Hf].
    simpl. by rewrite bool_decide_eq_true_2 by lia.
Qed.

Lemma scan_phase1 (k : nat) : ∀ s q,
  q = b + 1 - Z.of_nat k → p < q → I (done_at q) s → J s q →
  ∀ fuel, (Z.of_nat k + 1 + (p - a) ≤ Z.of_nat fuel) →
  ∃ s', while fuel cnd fbody (s, q) = Ok (s', p) ∧ I (others a b p) s' ∧ J s' p.
Proof using All.
  pose proof scan_bounds as [Hp Hb].
  induction k as [|k IH]; intros s q Hq Ha Hi Hj fuel Hfuel.
  - assert (q = sp n rws (S r)) as Hqs by lia.
    destruct fuel as [|fuel]; [lia|].
    pose proof (HI _ _ Hi) as Hl.
    assert (Hrl : (S r ≤ length rws)%nat) by (apply lookup_lt_Some in Hr; lia).
    pose proof (sp_vn _ _ _ Hl _ Hrl) as Hv.
    assert (Hf : fbody (s, q) = Ok (s, a)).
    { unfold fbody. rewrite Hqs, (top_ok _ _ Hv). simpl.
      rewrite (lay_sp_top _ _ _ Hl _ Hrl).
      rewrite bool_decide_eq_true_2 by lia.
      rewrite (ulink_ok _ _ Hv). simpl. by rewrite (lay_sp_up _ _ _ Hl _ _ Hr). }
    destruct (scan_phase2 (Z.to_nat (p - a)) s a) with (fuel := fuel)
      as (s' & Hw & Hi' & Hj'); try lia.
    + unfold done_at in *. rewrite decide_True in Hi by lia.
      rewrite decide_False by lia.
      replace (a - a) with 0 by lia. rewrite (seqZ_nil a 0) by lia.
      rewrite app_nil_r. replace (b - p) with (q - p - 1) by lia. done.
    + intros c fuel' Hfuel'.
      assert (Hd : dist a = dist q + 1 ∧ 0 ≤ dist q).
      { unfold dist. repeat case_decide; lia. }
      destruct fuel' as [|fuel']; [lia|].
      assert (Hrl' : (r ≤ length rws)%nat) by lia.
      pose proof (sp_vn _ _ _ Hl _ Hrl') as Hv'.
      erewrite while_step; [apply Hj; lia| |].
      * simpl. rewrite bool_decide_eq_true_2; [done|lia].
      * unfold bbody. replace (a - 1) with (sp n rws r) by (unfold a; lia).
        change (top (with_ncount s c) (sp n rws r)) with (top s (sp n rws r)).
        rewrite (top_ok _ _ Hv'). simpl.
        rewrite (lay_sp_top _ _ _ Hl _ Hrl').
        rewrite bool_decide_eq_true_2 by lia.
        change (dlink (with_ncount s c) (sp n rws r)) with (dlink s (sp n rws r)).
        rewrite (dlink_ok _ _ Hv'). simpl.
        rewrite (lay_sp_dn _ _ _ Hl _ _ Hr). do 3 f_equal. unfold b in *. lia.
    + exists s'. split_and!; [|done..].
      erewrite while_step; [exact Hw| |exact Hf].
      simpl. by rewrite bool_decide_eq_true_2 by lia.
  - destruct fuel as [|fuel]; [lia|].
    destruct (scan_real_step s q Hi Hj ltac:(lia) ltac:(lia)) as (s' & Hf & Hi' & Hj').
    destruct (IH s' (q + 1) ltac:(lia) ltac:(lia) Hi' Hj' fuel ltac:(lia))
      as (s'' & Hw & Hi'' & Hj'').
    exists s''. split_and!; [|done..].
    erewrite while_step; [exact Hw| |exact Hf].
    simpl. by rewrite bool_decide_eq_true_2 by lia.
Qed.

Lemma scan_spec :
  I [] s0 →
  ∀ fuel, (length row ≤ fuel)%nat →
  ∃ s', scan_fwd fwd fuel p s0 = Ok s' ∧ I (others a b p) s' ∧
    ∀ c fuel', (length row ≤ fuel')%nat →
      scan_bwd bwd fuel' p (with_ncount s' c) = Ok (with_ncount s0 c).
Proof using All.
  intros Hi fuel Hfuel.
  pose proof scan_bounds as [Hp Hb].
  destruct (scan_phase1 (Z.to_nat (b - p)) s0 (p + 1)) with (fuel := fuel)
    as (s' & Hw & Hi' & Hj'); try lia.
  - unfold done_at. rewrite decide_True by lia.
    replace (p + 1 - p - 1) with 0 by lia. by rewrite seqZ_nil by lia.
  - intros c fuel' Hfuel'. replace (p + 1 - 1) with p by lia.
    apply while_done. simpl. by rewrite bool_decide_eq_false_2 by (intros H; by apply H).
  - exists s'. split_and!; [|done|].
    + unfold scan_fwd. fold fbody. fold cnd. by rewrite Hw.
    + intros c fuel' Hfuel'. unfold scan_bwd. fold bbody. fold cnd.
      rewrite Hj'; [done|]. unfold dist. rewrite decide_False by lia.
      unfold a, b in *. lia.
Qed.

End Scan.
(** ** hide and unhide *)

Definition hide_act (x q : Z) (s : DLink) : result DLink :=
  u ← ulink s q; d ← dlink s q;
  s ← set_dlink s u d;
  s ← set_ulink s d u;
  l ← len s x;
  set_len s x (l - 1).

Definition unhide_act (x q : Z) (s : DLink) : result DLink :=
  u ← ulink s q; d ← dlink s q;
  s ← set_dlink s u q;
  s ← set_ulink s d q;
  l ← len s x;
  set_len s x (l + 1).

Lemma while_ext {S} fuel (cond : S → result bool) (body body' : S → result S) st :
  (∀ st, body st = body' st) →
  while fuel cond body st = while fuel cond body' st.
Proof.
  intros H. revert st. induction fuel as [|fuel IH]; intros st; simpl; [done|].
  destruct (cond st) as [[]|]; simpl; try done.
  rewrite H. destruct (body' st); simpl; [apply IH|done].
Qed.

Lemma hide_scan fuel p s : hide fuel p s = scan_fwd hide_act fuel p s.
Proof.
  unfold hide, scan_fwd. f_equal. apply while_ext. intros [s' q].
  unfold hide_act, top, ulink, dlink.
  destruct (vec_get (nodes s') q) as [nd|]; simpl; [|done].
  case_bool_decide; [done|].
  destruct (set_dlink _ _ _) as [s1|]; simpl; [|done].
  destruct (set_ulink _ _ _) as [s2|]; simpl; [|done].
  destruct (len _ _) as [l|]; simpl; [|done].
  by destruct (set_len _ _ _) as [s3|].
Qed.

Lemma unhide_scan fuel p s : unhide fuel p s = scan_bwd unhide_act fuel p s.
Proof.
  unfold unhide, scan_bwd. f_equal. apply while_ext. intros [s' q].
  unfold unhide_act, top, ulink, dlink.
  destruct (vec_get (nodes s') q) as [nd|]; simpl; [|done].
  case_bool_decide; [done|].
  destruct (set_dlink _ _ _) as [s1|]; simpl; [|done].
  destruct (set_ulink _ _ _) as [s2|]; simpl; [|done].
  destruct (len _ _) as [l|]; simpl; [|done].
  by destruct (set_len _ _ _) as [s3|].
Qed.

Lemma hide_act_ok s q :
  vn s q → vn s (U s q) → vn s (Dn s q) → vn s (D s q) →
  hide_act (D s q) q s = Ok (unlink_node q s).
Proof.
  intros Hq Hu Hd Hx. unfold hide_act.
  rewrite (ulink_ok _ _ Hq), (dlink_ok _ _ Hq). simpl.
  rewrite (set_dlink_ok _ _ _ Hu). simpl.
  rewrite set_ulink_ok by vn_tac. simpl.
  rewrite len_ok by vn_tac. simpl.
  rewrite set_len_ok by vn_tac. done.
Qed.

Lemma unhide_act_ok s q :
  vn s q → vn s (U s q) → vn s (Dn s q) → vn s (D s q) →
  unhide_act (D s q) q s = Ok (relink_node q s).
Proof.
  intros Hq Hu Hd Hx. unfold unhide_act.
  rewrite (ulink_ok _ _ Hq), (dlink_ok _ _ Hq). simpl.
  rewrite (set_dlink_ok _ _ _ Hu). simpl.
  rewrite set_ulink_ok by vn_tac. simpl.
  rewrite len_ok by vn_tac. simpl.
  rewrite set_len_ok by vn_tac. done.
Qed.

Lemma unlink_self s q :
  vn s (U s q) → vn s (Dn s q) → vn s (D s q) → D s q ≠ q →
  D (unlink_node q s) q = D s q ∧ U (unlink_node q s) q = U s q ∧
  Dn (unlink_node q s) q = Dn s q.
Proof.
  intros Hu Hd Hx Hne.
  destruct (unlink_views s q Hu Hd Hx) as (Vn & Vu & Vd & _).
  rewrite Vn, Vu, Vd. repeat case_decide; split_and!; congruence.
Qed.

Lemma GInv_ext n rws s hs cols cols' :
  (∀ j, cols j = cols' j) → GInv n rws s hs cols → GInv n rws s hs cols'.
Proof.
  intros H [Hl Hh Hc]. split; [done..|].
  intros j Hj. rewrite <- H. by apply Hc.
Qed.

Lemma GInv_ncount n rws s hs cols c :
  GInv n rws s hs cols → GInv n rws (with_ncount s c) hs cols.
Proof. intros [[] Hh Hc]. split; [by split|done..]. Qed.

Lemma unlink_acts n rws s hs cols q j :
  GInv n rws s hs cols → real n rws q j → q ∈ cols j →
  hide_act j q s = Ok (unlink_node q s) ∧
  GInv n rws (unlink_node q s) hs (λ j', filter (λ x, x ≠ q) (cols j')) ∧
  ∀ c, unhide_act j q (with_ncount (unlink_node q s) c) = Ok (with_ncount s c).
Proof.
  intros Hg Hreal Hq.
  destruct (unlink_GInv _ _ _ _ _ _ _ Hg Hreal Hq)
    as (Hg' & Hre & Hvq & Hvu & Hvd & Hx & Hj).
  assert (Hvx : vn s (D s q)).
  { rewrite Hx. apply (item_vn _ _ _ (g_layout _ _ _ _ _ Hg)). lia. }
  assert (Hne : D s q ≠ q).
  { destruct (real_vn _ _ _ (g_layout _ _ _ _ _ Hg) _ _ Hreal). lia. }
  destruct (unlink_self s q Hvu Hvd Hvx Hne) as (E1 & E2 & E3).
  destruct (unlink_views s q Hvu Hvd Hvx) as (_ & _ & _ & _ & Vl & _).
  split_and!; [|done|].
  - rewrite <- Hx. by apply hide_act_ok.
  - intros c. rewrite <- Hre.
    set (s1 := with_ncount (unlink_node q s) c).
    assert (Hv : ∀ y, vn s y → vn s1 y).
    { intros y. change (vn s y → vn (unlink_node q s) y).
      unfold vn, inb. by rewrite Vl. }
    change (D s1 q = D s q) in E1. change (U s1 q = U s q) in E2.
    change (Dn s1 q = Dn s q) in E3.
    rewrite <- Hx, <- E1.
    apply unhide_act_ok; rewrite ?E1, ?E2, ?E3; by apply Hv.
Qed.

Lemma hide_spec n rws s hs cols r row t0 :
  GInv n rws s hs cols → rws !! r = Some row → (t0 < length row)%nat →
  (∀ t j, row !! t = Some j → t ≠ t0 → pos n rws r t ∈ cols j) →
  let p := pos n rws r t0 in
  let rm := others (sp n rws r + 1) (sp n rws r + Z.of_nat (length row)) p in
  ∀ fuel, (length row ≤ fuel)%nat →
  ∃ s', hide fuel p s = Ok s' ∧
    GInv n rws s' hs (λ j, filter (λ x, x ∉ rm) (cols j)) ∧
    ∀ c fuel', (length row ≤ fuel')%nat →
      unhide fuel' p (with_ncount s' c) = Ok (with_ncount s c).
Proof.
  intros Hg Hr Ht0 Hin p rm fuel Hfuel.
  destruct (scan_spec n rws hide_act unhide_act
    (λ rm s', GInv n rws s' hs (λ j, filter (λ x, x ∉ rm) (cols j)))
    r row t0 s Hr Ht0) with (fuel := fuel) as (s' & Hs & Hg' & Hb); [| | |done|].
  - intros rm' s1 H. apply H.
  - intros rm' s1 t j Hg1 Ht Hne Hnotin.
    assert (Hreal : real n rws (pos n rws r t) j) by (by exists r, row, t).
    assert (Hq : pos n rws r t ∈ filter (λ x, x ∉ rm') (cols j)).
    { apply list_elem_of_filter. split; [done|by apply Hin]. }
    destruct (unlink_acts _ _ _ _ _ _ _ Hg1 Hreal Hq) as (Hf & Hg2 & Hu).
    eexists. split_and!; [exact Hf| |exact Hu].
    eapply GInv_ext; [|exact Hg2].
    intros j'. simpl. rewrite list_filter_filter. apply list_filter_iff.
    intros x. rewrite elem_of_app, list_elem_of_singleton. tauto.
  - eapply GInv_ext; [|exact Hg]. intros j. simpl.
    induction (cols j) as [|y l IH]; [done|].
    rewrite filter_cons_True by apply not_elem_of_nil. by f_equal.
  - exists s'. rewrite hide_scan. split_and!; [done..|].
    intros c fuel' Hf'. rewrite unhide_scan. by apply Hb.
Qed.
(** ** An item taken out of the horizontal list, and put back *)

Definition hunlink (i : Z) (s : DLink) : DLink :=
  let l := Lh s i in
  let r := Rh s i in
  upd_hd (with_prev l) r (upd_hd (with_next r) l s).

Definition hrelink (i : Z) (s : DLink) : DLink :=
  let l := Lh s i in
  let r := Rh s i in
  upd_hd (with_prev i) r (upd_hd (with_next i) l s).

Definition hunlink_m (i : Z) (s : DLink) : result DLink :=
  l ← llink s i; r ← rlink s i;
  s ← set_rlink s l r;
  set_llink s r l.

Definition hrelink_m (i : Z) (s : DLink) : result DLink :=
  l ← llink s i; r ← rlink s i;
  s ← set_rlink s l i;
  set_llink s r i.

Definition Nh (s : DLink) (i : Z) : Z := data (cell (headers s) i).

Lemma Nh_upd_hd_prev x i s y : vh s i → Nh (upd_hd (with_prev x) i s) y = Nh s y.
Proof.
  intros H. unfold Nh. simpl. rewrite cell_put by done. case_decide; by subst.
Qed.
Lemma Nh_upd_hd_next x i s y : vh s i → Nh (upd_hd (with_next x) i s) y = Nh s y.
Proof.
  intros H. unfold Nh. simpl. rewrite cell_put by done. case_decide; by subst.
Qed.

Lemma hstate_ext s s' :
  nodes s = nodes s' → length (headers s) = length (headers s') →
  nrows s = nrows s' → ncount s = ncount s' →
  (∀ y, vh s y → Nh s y = Nh s' y ∧ Lh s y = Lh s' y ∧ Rh s y = Rh s' y) →
  s = s'.
Proof.
  intros Hn Hl Hr Hc H. apply DLink_ext; [done| |done..].
  apply vec_ext; [done|]. intros y Hy. destruct (H y Hy) as (?&?&?).
  by apply Node_ext.
Qed.

Lemma Cols_same n rws s s' cols :
  nodes s' = nodes s → Cols n rws s cols → Cols n rws s' cols.
Proof. unfold Cols, Dn, U, D. by intros ->. Qed.

Lemma Layout_same n rws s s' :
  nodes s' = nodes s → length (headers s') = length (headers s) →
  Layout n rws s → Layout n rws s'.
Proof.
  intros Hn Hh [L1 L2 L3 L4 L5 L6 L7 L8].
  split; unfold D, U, Dn in *; rewrite ?Hn, ?Hh; done.
Qed.

Lemma chain_next nx pv a xs1 q xs2 b :
  chain nx pv a (xs1 ++ q :: xs2) b →
  nx q = default b (head xs2) ∧ pv q = default a (last xs1).
Proof.
  revert a. induction xs1 as [|x xs1 IH]; intros a; simpl.
  - intros (H1 & H2 & H3). split; [|done].
    destruct xs2; simpl in *; by destruct H3.
  - intros (H1 & H2 & H3). destruct (IH _ H3) as [E1 E2]. split; [done|].
    rewrite E2. destruct xs1 as [|y ys]; [done|].
    rewrite last_cons_cons.
    destruct (last (y :: ys)) as [z|] eqn:E; [done|].
    by apply last_None in E.
Qed.

Lemma hunlink_spec n rws s hs cols i :
  GInv n rws s hs cols → i ∈ hs →
  hunlink_m i s = Ok (hunlink i s) ∧
  GInv n rws (hunlink i s) (filter (λ x, x ≠ i) hs) cols ∧
  ∀ c, hrelink_m i (with_ncount (hunlink i s) c) = Ok (with_ncount s c).
Proof.
  intros [Hl (Hch & Hnd & Hrg) Hc] Hi.
  pose proof (Hrg _ Hi) as Hir.
  assert (H0 : 0 ∉ hs) by (intros H; apply Hrg in H; lia).
  apply list_elem_of_split in Hi as (xs1 & xs2 & Hsplit). subst hs.
  destruct (chain_mid _ _ _ _ _ _ _ Hch) as (Hu & Hd & Hlu & Hld).
  assert (Hin : ∀ y, y ∈ 0 :: xs1 ++ i :: xs2 → vh s y).
  { intros y Hy. apply (item_vh _ _ _ Hl). apply elem_of_cons in Hy as [->|Hy].
    - pose proof (lay_n _ _ _ Hl). lia.
    - apply Hrg in Hy. lia. }
  assert (Hvi : vh s i) by (apply Hin; elem).
  assert (Hvl : vh s (Lh s i)) by (apply Hin; elem).
  assert (Hvr : vh s (Rh s i)) by (apply Hin; elem).
  assert (Hli : Lh s i ≠ i).
  { intros E. rewrite E in Hu. apply NoDup_app in Hnd as (_ & Hnd & _).
    apply elem_of_cons in Hu as [->|Hu]; [lia|]. apply (Hnd _ Hu). left. }
  assert (Hri : Rh s i ≠ i).
  { intros E. rewrite E in Hd. apply NoDup_app in Hnd as (_ & _ & Hnd).
    apply NoDup_cons in Hnd as [Hnd _].
    apply elem_of_app in Hd as [Hd|Hd]; [done|]. apply list_elem_of_singleton in Hd. lia. }
  assert (Vr : ∀ y, Rh (hunlink i s) y = if decide (y = Lh s i) then Rh s i else Rh s y).
  { intros y. unfold hunlink. by views. }
  assert (Vl : ∀ y, Lh (hunlink i s) y = if decide (y = Rh s i) then Lh s i else Lh s y).
  { intros y. unfold hunlink. by views. }
  split_and!.
  - unfold hunlink_m. rewrite (llink_ok _ _ Hvi), (rlink_ok _ _ Hvi). simpl.
    rewrite (set_rlink_ok _ _ _ Hvl). simpl.
    by rewrite set_llink_ok by vn_tac.
  - split.
    + eapply Layout_same; [| |exact Hl]; [done|].
      unfold hunlink. simpl. by rewrite !length_put.
    + split_and!.
      * rewrite filter_out_split by done.
        eapply chain_ext; [| |apply (chain_remove _ _ _ _ _ _ _ Hch)].
        -- intros y _. apply Vr.
        -- intros y _. apply Vl.
        -- by apply NoDup_cons.
        -- done.
      * by apply NoDup_filter.
      * intros y Hy. apply list_elem_of_filter in Hy as [_ Hy]. by apply Hrg.
    + by eapply Cols_same.
  - intros c. set (s1 := with_ncount (hunlink i s) c).
    assert (E1 : Lh s1 i = Lh s i).
    { change (Lh (hunlink i s) i = Lh s i). rewrite Vl. by rewrite decide_False. }
    assert (E2 : Rh s1 i = Rh s i).
    { change (Rh (hunlink i s) i = Rh s i). rewrite Vr. by rewrite decide_False. }
    assert (Hv : ∀ y, vh s y → vh s1 y).
    { intros y. unfold s1, vh, inb, hunlink. simpl. by rewrite !length_put. }
    unfold hrelink_m.
    rewrite (llink_ok s1 i), (rlink_ok s1 i) by (by apply Hv). simpl.
    rewrite E1, E2.
    rewrite (set_rlink_ok s1) by (by apply Hv). simpl.
    rewrite set_llink_ok by (rewrite vh_upd_hd; by apply Hv). simpl.
    f_equal. apply hstate_ext; simpl; try done.
    + unfold hunlink. simpl. by rewrite !length_put.
    + intros y Hy.
      assert (Hv1 : vh s1 (Lh s i)) by (by apply Hv).
      assert (Hv2 : vh s1 (Rh s i)) by (by apply Hv).
      rewrite !Nh_upd_hd_prev, !Nh_upd_hd_next by vn_tac.
      views.
      change (Nh s1 y) with (Nh (hunlink i s) y).
      change (Lh s1 y) with (Lh (hunlink i s) y).
      change (Rh s1 y) with (Rh (hunlink i s) y).
      rewrite Vl, Vr. unfold hunlink.
      rewrite !Nh_upd_hd_prev, !Nh_upd_hd_next by vn_tac.
      change (Nh (with_ncount s c) y) with (Nh s y).
      change (Lh (with_ncount s c) y) with (Lh s y).
      change (Rh (with_ncount s c) y) with (Rh s y).
      split_and!; [done| |]; repeat case_decide; subst; congruence.
Qed.
(** ** cover and uncover *)

Ltac elem_goal :=
  repeat (progress rewrite ?elem_of_cons, ?elem_of_app, ?list_elem_of_singleton,
            ?elem_of_nil);
  first [ done | tauto | auto 6 ].

Definition cover_body (F : nat) : DLink * Z → result (DLink * Z) :=
  λ '(s, p), s ← hide F p s; p ← dlink s p; Ok (s, p).
Definition uncover_body (F : nat) : DLink * Z → result (DLink * Z) :=
  λ '(s, p), s ← unhide F p s; p ← ulink s p; Ok (s, p).
Definition neq_cond (i : Z) : DLink * Z → result bool :=
  λ '(s, p), Ok (bool_decide (p ≠ i)).

(** [x] is a node, other than the pivot, of a row that has a pivot in [piv]. *)
Definition hidden_by (n : Z) (rws : list (list Z)) (piv : list Z) (x : Z) : Prop :=
  ∃ r row t0 t, rws !! r = Some row ∧ (t0 < length row)%nat ∧
    pos n rws r t0 ∈ piv ∧ (t < length row)%nat ∧ t ≠ t0 ∧ x = pos n rws r t.

(** Every other node of a row with a pivot in [piv] is linked into its
    column. *)
Definition linked_rows (n : Z) (rws : list (list Z)) (cols : Z → list Z)
    (piv : list Z) : Prop :=
  ∀ r row t0 t j, rws !! r = Some row → (t0 < length row)%nat →
    pos n rws r t0 ∈ piv → row !! t = Some j → t ≠ t0 →
    pos n rws r t ∈ cols j.

Lemma cover_unfold fuel i s :
  cover fuel i s =
  (p ← dlink s i;
   '(s, _) ← while fuel (neq_cond i) (cover_body fuel) (s, p);
   hunlink_m i s).
Proof. reflexivity. Qed.

Lemma uncover_unfold fuel i s :
  uncover fuel i s =
  (s ← hrelink_m i s; p ← ulink s i;
   fst <$> while fuel (neq_cond i) (uncover_body fuel) (s, p)).
Proof.
  unfold uncover, hrelink_m.
  destruct (llink s i); simpl; [|done].
  destruct (rlink s i); simpl; [|done].
  destruct (set_rlink _ _ _); simpl; [|done].
  by destruct (set_llink _ _ _).
Qed.

Lemma chain_ends nx pv a xs b :
  chain nx pv a xs b → nx a = default b (head xs) ∧ pv b = default a (last xs).
Proof.
  revert a. induction xs as [|x xs IH]; intros a; simpl; [done|].
  intros (H1 & H2 & H3). split; [done|]. destruct (IH _ H3) as [_ ->].
  destruct xs as [|y ys]; [done|]. rewrite last_cons_cons.
  destruct (last (y :: ys)) as [z|] eqn:E; [done|].
  by apply last_None in E.
Qed.

Lemma filter_all {A} (P : A → Prop) `{∀ x, Decision (P x)} (l : list A) :
  (∀ x, x ∈ l → P x) → filter P l = l.
Proof.
  induction l as [|y l IH]; intros Hall; [done|].
  rewrite filter_cons_True by (apply Hall; left). f_equal.
  apply IH. intros x Hx. apply Hall. by right.
Qed.

Lemma others_elem a b p x :
  a ≤ p ≤ b → x ∈ others a b p ↔ a ≤ x ≤ b ∧ x ≠ p.
Proof. intros H. unfold others. rewrite elem_of_app, !elem_of_seqZ. lia. Qed.

Lemma real_lookup n rws r row t j :
  rws !! r = Some row → (t < length row)%nat →
  real n rws (pos n rws r t) j → row !! t = Some j.
Proof.
  intros Hr Ht (r' & row' & t' & Hr' & Ht' & Heq).
  destruct (pos_inj _ _ _ _ _ _ _ _ Hr Ht Hr' (lookup_lt_Some _ _ _ Ht') Heq) as [-> ->].
  congruence.
Qed.

Lemma row_length n rws s r row :
  Layout n rws s → rws !! r = Some row → (length row ≤ length (nodes s))%nat.
Proof.
  intros Hl Hr.
  pose proof (lay_nodes _ _ _ Hl). pose proof (sp_S n _ _ _ Hr).
  pose proof (sp_lower n rws r). pose proof (lay_n _ _ _ Hl).
  pose proof (sp_mono n rws (S r) (length rws)
                ltac:(apply lookup_lt_Some in Hr; lia)). lia.
Qed.

Lemma col_length n rws s hs cols j :
  GInv n rws s hs cols → 1 ≤ j ≤ n → (length (cols j) ≤ length (nodes s))%nat.
Proof.
  intros [Hl _ Hc] Hj. destruct (Hc j Hj) as (_ & Hnd & Hm & _).
  assert (H : cols j ⊆+ seqZ 0 (Z.of_nat (length (nodes s)))).
  { apply NoDup_submseteq; [done|]. intros x Hx. apply elem_of_seqZ.
    destruct (real_vn _ _ _ Hl _ _ (Hm _ Hx)) as [Hv _]. unfold vn, inb in Hv. lia. }
  apply submseteq_length in H. rewrite length_seqZ in H. lia.
Qed.

Lemma hidden_not_pivot_col n rws s hs cols i piv x :
  GInv n rws s hs cols → 1 ≤ i ≤ n →
  (∀ y, y ∈ piv → y ∈ cols i) → hidden_by n rws piv x → x ∉ cols i.
Proof.
  intros [Hl _ Hc] Hi Hsub (r & row & t0 & t & Hr & Ht0 & Hp & Ht & Hne & ->) Hx.
  destruct (Hc i Hi) as (_ & _ & Hm & _).
  pose proof (real_lookup _ _ _ _ _ _ Hr Ht0 (Hm _ (Hsub _ Hp))) as E0.
  pose proof (real_lookup _ _ _ _ _ _ Hr Ht (Hm _ Hx)) as E1.
  apply Hne. eapply NoDup_lookup; [|exact E1|exact E0].
  eapply proj1, (lay_wf _ _ _ Hl row). by eapply list_elem_of_lookup_2.
Qed.

Section CoverLoop.
Variable n : Z.
Variable rws : list (list Z).
Variable s0 : DLink.
Variable hs : list Z.
Variable cols : Z → list Z.
Variable i : Z.
Hypothesis Hg0 : GInv n rws s0 hs cols.
Hypothesis Hi : 1 ≤ i ≤ n.
Hypothesis Hlinked : linked_rows n rws cols (cols i).

Let N := length (nodes s0).

Let Jc (done : list Z) (s : DLink) : Prop :=
  ∀ c F f, (N ≤ F)%nat → (length done ≤ f)%nat →
    while f (neq_cond i) (uncover_body F) (with_ncount s c, default i (last done))
    = Ok (with_ncount s0 c, i).

Lemma cover_col_same (rm piv : list Z) s :
  GInv n rws s hs (λ j, filter (λ x, x ∉ rm) (cols j)) →
  (∀ y, y ∈ piv → y ∈ cols i) →
  (∀ x, x ∈ rm ↔ hidden_by n rws piv x) →
  chain (Dn s) (U s) i (cols i) i.
Proof using Hg0 Hi.
  intros Hg Hsub Hrm. destruct (g_cols _ _ _ _ _ Hg i Hi) as (Hch & _).
  assert (E : filter (λ x, x ∉ rm) (cols i) = cols i).
  { apply filter_all. intros x Hx Hin. apply Hrm in Hin.
    revert Hx. eapply hidden_not_pivot_col; [exact Hg0|exact Hi|exact Hsub|exact Hin]. }
  simpl in Hch. by rewrite E in Hch.
Qed.

Lemma cover_loop todo : ∀ (done rm : list Z) s,
  cols i = done ++ todo →
  GInv n rws s hs (λ j, filter (λ x, x ∉ rm) (cols j)) →
  length (nodes s) = N →
  (∀ x, x ∈ rm ↔ hidden_by n rws done x) →
  Jc done s →
  ∀ fuel F, (length todo ≤ fuel)%nat → (N ≤ F)%nat →
  ∃ s' (rm' : list Z),
    while fuel (neq_cond i) (cover_body F) (s, default i (head todo)) = Ok (s', i) ∧
    GInv n rws s' hs (λ j, filter (λ x, x ∉ rm') (cols j)) ∧
    (∀ x, x ∈ rm' ↔ hidden_by n rws (cols i) x) ∧
    Jc (cols i) s'.
Proof using All.
  destruct (g_cols _ _ _ _ _ Hg0 i Hi) as (Hch0 & Hnd0 & Hm0 & _).
  pose proof (Cols_header_notin _ _ _ _ _ (g_layout _ _ _ _ _ Hg0) (g_cols _ _ _ _ _ Hg0) Hi) as Hni.
  induction todo as [|pk rest IH]; intros done rm s Hsplit Hg HN Hrm Hj fuel F Hfuel HF.
  - rewrite app_nil_r in Hsplit. subst done. exists s, rm. split_and!; try done.
    apply while_done. simpl. by rewrite bool_decide_eq_false_2 by (intros H; by apply H).
  - assert (Hpk : pk ∈ cols i) by (rewrite Hsplit; elem_goal).
    destruct (Hm0 _ Hpk) as (r & row & t0 & Hr & Ht0 & ->).
    pose proof (lookup_lt_Some _ _ _ Ht0) as Ht0l.
    pose proof (g_layout _ _ _ _ _ Hg) as Hl.
    assert (Hsub : ∀ y, y ∈ done → y ∈ cols i) by (intros y Hy; rewrite Hsplit; elem_goal).
    assert (Hnd : pos n rws r t0 ∉ done).
    { intros Hin. rewrite Hsplit in Hnd0. apply NoDup_app in Hnd0 as (_ & Hnd0 & _).
      apply (Hnd0 _ Hin). left. }
    assert (Hrl : (length row ≤ N)%nat) by (rewrite <- HN; by eapply row_length).
    destruct (hide_spec _ _ _ _ _ _ _ _ Hg Hr Ht0l) with (fuel := F)
      as (s2 & Hh & Hg2 & Hun); [|lia|].
    { intros t j Ht Hne. apply list_elem_of_filter. split.
      - intros Hin. apply Hrm in Hin.
        destruct Hin as (r' & row' & t0' & t' & Hr' & Ht0' & Hp' & Ht' & Hne' & Heq).
        destruct (pos_inj _ _ _ _ _ _ _ _ Hr (lookup_lt_Some _ _ _ Ht) Hr' Ht' Heq)
          as [<- <-].
        assert (row' = row) as -> by congruence.
        pose proof (real_lookup _ _ _ _ _ _ Hr Ht0' (Hm0 _ (Hsub _ Hp'))) as E0.
        assert (t0' = t0) as ->.
        { eapply NoDup_lookup; [|exact E0|exact Ht0].
          eapply proj1, (lay_wf _ _ _ Hl row). by eapply list_elem_of_lookup_2. }
        done.
      - by eapply (Hlinked r row t0 t j). }
    set (a := sp n rws r + 1) in *.
    set (b := sp n rws r + Z.of_nat (length row)) in *.
    set (p := pos n rws r t0) in *.
    assert (Hab : a ≤ p ≤ b) by (unfold a, b, p, pos; lia).
    set (rm' := rm ++ others a b p).
    assert (Hg2' : GInv n rws s2 hs (λ j, filter (λ x, x ∉ rm') (cols j))).
    { eapply GInv_ext; [|exact Hg2]. intros j. simpl.
      rewrite list_filter_filter. apply list_filter_iff.
      intros x. unfold rm'. rewrite elem_of_app. tauto. }
    assert (Hrm' : ∀ x, x ∈ rm' ↔ hidden_by n rws (done ++ [p]) x).
    { intros x. unfold rm'. rewrite elem_of_app, Hrm, (others_elem _ _ _ _ Hab). split.
      - intros [(r' & row' & t0' & t' & ? & ? & ? & ? & ? & ?)|[Hx Hxp]].
        + exists r', row', t0', t'. split_and!; try done. elem_goal.
        + exists r, row, t0, (Z.to_nat (x - a)). split_and!; try done.
          * elem_goal.
          * unfold a, b in *. lia.
          * intros E. apply Hxp. unfold p, pos, a in *. lia.
          * unfold pos, a in *. lia.
      - intros (r' & row' & t0' & t' & Hr' & Ht0' & Hp' & Ht' & Hne' & ->).
        apply elem_of_app in Hp' as [Hp'|Hp'].
        + left. by exists r', row', t0', t'.
        + right. apply list_elem_of_singleton in Hp'.
          destruct (pos_inj _ _ _ _ _ _ _ _ Hr Ht0l Hr' Ht0' (eq_sym Hp')) as [<- <-].
          assert (row' = row) as -> by congruence.
          unfold a, b, p, pos in *. split; [lia|]. lia. }
    assert (Hch : chain (Dn s) (U s) i (cols i) i).
    { eapply cover_col_same; [exact Hg|exact Hsub|exact Hrm]. }
    assert (Hch2 : chain (Dn s2) (U s2) i (cols i) i).
    { eapply (cover_col_same rm' (done ++ [p])); [exact Hg2'| |exact Hrm'].
      intros y Hy. rewrite Hsplit.
      apply elem_of_app in Hy as [Hy|Hy%list_elem_of_singleton]; [|subst y];
        elem_goal. }
    pose proof (g_layout _ _ _ _ _ Hg2) as Hl2.
    assert (HN2 : length (nodes s2) = N).
    { pose proof (lay_nodes _ _ _ Hl). pose proof (lay_nodes _ _ _ Hl2). lia. }
    assert (Hreal : real n rws p i) by (by apply Hm0).
    destruct (real_vn _ _ _ Hl2 _ _ Hreal) as (Hvp2 & _).
    destruct (real_vn _ _ _ Hl _ _ Hreal) as (Hvp & _).
    rewrite Hsplit in Hch, Hch2.
    destruct (chain_next _ _ _ _ _ _ _ Hch2) as [En2 _].
    destruct (chain_next _ _ _ _ _ _ _ Hch) as [_ Ep].
    destruct (IH (done ++ [p]) rm' s2) with (fuel := (fuel - 1)%nat) (F := F)
      as (s' & rmf & Hw & Hgf & Hrmf & Hjf); try done.
    + by rewrite <- app_assoc.
    + intros c F' f HF' Hf. rewrite last_snoc. simpl.
      rewrite length_app in Hf. simpl in Hf.
      destruct f as [|f]; [lia|].
      erewrite while_step; [apply Hj; [done|lia]| |].
      * simpl. rewrite bool_decide_eq_true_2; [done|]. intros ->. by apply Hni.
      * unfold uncover_body. rewrite Hun by lia. simpl.
        change (ulink (with_ncount s c) p) with (ulink s p).
        rewrite (ulink_ok _ _ Hvp). simpl. by rewrite Ep.
    + simpl in Hfuel. lia.
    + exists s', rmf. split_and!; try done.
      destruct fuel as [|fuel]; [simpl in Hfuel; lia|].
      simpl head. simpl default.
      erewrite while_step; [replace fuel with (S fuel - 1)%nat by lia; exact Hw| |].
      * simpl. rewrite bool_decide_eq_true_2; [done|]. intros ->. by apply Hni.
      * unfold cover_body. rewrite Hh. simpl.
        rewrite (dlink_ok _ _ Hvp2). simpl. by rewrite En2.
Qed.

Lemma cover_spec :
  i ∈ hs →
  ∀ fuel, (N ≤ fuel)%nat →
  ∃ s' (rm : list Z), cover fuel i s0 = Ok s' ∧
    GInv n rws s' (filter (λ x, x ≠ i) hs) (λ j, filter (λ x, x ∉ rm) (cols j)) ∧
    (∀ x, x ∈ rm ↔ hidden_by n rws (cols i) x) ∧
    ∀ c fuel', (N ≤ fuel')%nat →
      uncover fuel' i (with_ncount s' c) = Ok (with_ncount s0 c).
Proof using All.
  intros Hin fuel Hfuel.
  pose proof (g_layout _ _ _ _ _ Hg0) as Hl0.
  destruct (g_cols _ _ _ _ _ Hg0 i Hi) as (Hch0 & Hnd0 & Hm0 & _).
  pose proof (col_length _ _ _ _ _ _ Hg0 Hi) as Hcl. fold N in Hcl.
  destruct (cover_loop (cols i) [] [] s0) with (fuel := fuel) (F := fuel)
    as (sf & rm & Hw & Hgf & Hrm & Hjf); try done.
  - eapply GInv_ext; [|exact Hg0]. intros j. simpl.
    symmetry. apply filter_all. intros x _. apply not_elem_of_nil.
  - intros x. split; [by intros ?%elem_of_nil|].
    intros (r & row & t0 & t & _ & _ & H & _). by apply elem_of_nil in H.
  - intros c F f _ _. apply while_done. simpl.
    by rewrite bool_decide_eq_false_2 by (intros H; by apply H).
  - lia.
  - destruct (hunlink_spec _ _ _ _ _ _ Hgf Hin) as (Hu & Hgu & Hre).
    exists (hunlink i sf), rm. split_and!; try done.
    + rewrite cover_unfold.
      rewrite (dlink_ok _ _ (item_vn _ _ _ Hl0 i ltac:(lia))). simpl.
      destruct (chain_ends _ _ _ _ _ Hch0) as [-> _].
      rewrite Hw. simpl. done.
    + intros c fuel' Hfuel'. rewrite uncover_unfold, Hre. simpl.
      pose proof (g_layout _ _ _ _ _ Hgf) as Hlf.
      change (ulink (with_ncount sf c) i) with (ulink sf i).
      rewrite (ulink_ok _ _ (item_vn _ _ _ Hlf i ltac:(lia))). simpl.
      assert (Hchf : chain (Dn sf) (U sf) i (cols i) i).
      { eapply (cover_col_same rm (cols i)); [exact Hgf|done|exact Hrm]. }
      destruct (chain_ends _ _ _ _ _ Hchf) as [_ ->].
      rewrite Hjf; [done|done|lia].
Qed.

End CoverLoop.
(** ** Construction: init *)

Definition header0 (n i : Z) : Node := mkNode i (Z.rem (i + n) (n + 1)) (Z.rem (i + 1) (n + 1)).
Definition column0 (i : Z) : Node := mkNode 0 i i.

(** The matrix right after construction, in closed form. *)
Definition fresh (n : Z) : DLink :=
  mkDLink (header0 n <$> seqZ 0 (n + 1))
          ((column0 <$> seqZ 0 (n + 1)) ++ [mkNode 0 0 0]) 0 0.

Lemma for_each_app {A S} (xs ys : list A) (body : A → S → result S) st :
  for_each (xs ++ ys) body st = (st' ← for_each xs body st; for_each ys body st').
Proof.
  revert st. induction xs as [|x xs IH]; intros st; simpl; [done|].
  destruct (body x st); simpl; [apply IH|done].
Qed.

Lemma cell_lookup v q nd :
  0 ≤ q → v !! Z.to_nat q = Some nd → cell v q = nd.
Proof. intros H0 H. unfold cell. rewrite bool_decide_eq_true_2 by done. by rewrite H. Qed.

Lemma cell_app_l v w q : inb v q → cell (v ++ w) q = cell v q.
Proof.
  intros [H0 H1]. unfold cell. rewrite bool_decide_eq_true_2 by done.
  by rewrite lookup_app_l by lia.
Qed.

Lemma cell_app_r v nd : cell (v ++ [nd]) (Z.of_nat (length v)) = nd.
Proof.
  unfold cell. rewrite bool_decide_eq_true_2 by lia.
  rewrite Nat2Z.id. rewrite lookup_app_r by lia. by rewrite Nat.sub_diag.
Qed.

Lemma cell_fmap_seqZ (f : Z → Node) m q :
  0 ≤ q < m → cell (f <$> seqZ 0 m) q = f q.
Proof.
  intros H. apply cell_lookup; [lia|].
  rewrite list_lookup_fmap. rewrite lookup_seqZ_lt by lia. simpl. do 2 f_equal. lia.
Qed.

Lemma init_loop (n c : Z) (k : nat) : ∀ m,
  0 ≤ m → m + Z.of_nat k = n + 1 →
  for_each (seqZ m (Z.of_nat k)) (λ i s,
       let previous := Z.rem (i + n) (n + 1) in
       let next := Z.rem (i + 1) (n + 1) in
       h ← vec_set (λ _, mkNode i previous next) (headers s) i;
       v ← vec_set (λ _, mkNode 0 i i) (nodes s) i;
       Ok (mkDLink h v (nrows s) (ncount s)))
    (mkDLink ((header0 n <$> seqZ 0 m) ++ replicate k (mkNode 0 0 0))
             ((column0 <$> seqZ 0 m) ++ replicate k (mkNode 0 0 0)) 0 c)
  = Ok (mkDLink (header0 n <$> seqZ 0 (n + 1)) (column0 <$> seqZ 0 (n + 1)) 0 c).
Proof.
  induction k as [|k IH]; intros m Hm Hk.
  - simpl. rewrite !app_nil_r. replace m with (n + 1) by lia. done.
  - rewrite seqZ_cons by lia. simpl for_each.
    assert (Hlen : ∀ f : Z → Node, length (f <$> seqZ 0 m) = Z.to_nat m).
    { intros f. by rewrite length_fmap, length_seqZ. }
    assert (Hset : ∀ (f : Z → Node) g,
      vec_set g ((f <$> seqZ 0 m) ++ replicate (S k) (mkNode 0 0 0)) m
      = Ok ((f <$> seqZ 0 m) ++ g (mkNode 0 0 0) :: replicate k (mkNode 0 0 0))).
    { intros f g. rewrite vec_set_ok.
      - f_equal. unfold put. 
        replace (Z.to_nat m) with (length (f <$> seqZ 0 m) + 0)%nat by (rewrite Hlen; lia).
        rewrite insert_app_r. simpl. do 2 f_equal.
        unfold cell. rewrite bool_decide_eq_true_2 by lia.
        rewrite lookup_app_r by (rewrite Hlen; lia).
        by rewrite Hlen, Nat.sub_diag.
      - unfold inb. rewrite length_app, Hlen, length_replicate. lia. }
    cbn [headers nodes nrows ncount].
    rewrite (Hset (header0 n)). cbn [mbind result_bind].
    rewrite (Hset column0). cbn [mbind result_bind].
    replace (Z.pred (Z.of_nat (S k))) with (Z.of_nat k) by lia.
    specialize (IH (Z.succ m) ltac:(lia) ltac:(lia)).
    replace (seqZ 0 (Z.succ m)) with (seqZ 0 m ++ [m]) in IH.
    2:{ replace (Z.succ m) with (m + 1) by lia. by rewrite seqZ_snoc by lia. }
    rewrite !fmap_app, <- !app_assoc in IH. simpl in IH.
    exact IH.
Qed.

Lemma resize_nil n :
  0 ≤ n → resize [] n = Ok (replicate (Z.to_nat n) (mkNode 0 0 0)).
Proof.
  intros H. unfold resize. rewrite bool_decide_eq_false_2 by lia.
  rewrite take_nil. simpl. by rewrite Nat.sub_0_r.
Qed.

Lemma DLink_new_ok n : -1 ≤ n → DLink_new n = Ok (fresh n).
Proof.
  intros Hn. unfold DLink_new, init. simpl headers. simpl nodes.
  rewrite !resize_nil by lia. cbn [mbind result_bind].
  pose proof (init_loop n 0 (Z.to_nat (n + 1)) 0 ltac:(lia) ltac:(lia)) as H.
  rewrite Z2Nat.id in H by lia. simpl in H.
  simpl ncount. rewrite H. done.
Qed.

Lemma DLink_new_err n : n < -1 → DLink_new n = Err LengthError.
Proof.
  intros Hn. unfold DLink_new, init, resize. simpl.
  by rewrite bool_decide_eq_true_2 by lia.
Qed.

Lemma chain_seqZ nx pv a (k : nat) b :
  (∀ x, a ≤ x < a + Z.of_nat k → nx x = x + 1 ∧ pv (x + 1) = x) →
  nx (a + Z.of_nat k) = b → pv b = a + Z.of_nat k →
  chain nx pv a (seqZ (a + 1) (Z.of_nat k)) b.
Proof.
  revert a. induction k as [|k IH]; intros a Hs Hn Hp.
  - simpl. rewrite Z.add_0_r in *. done.
  - rewrite seqZ_cons by lia. simpl.
    destruct (Hs a ltac:(lia)) as [H1 H2]. split_and!; [done..|].
    replace (Z.pred (Z.of_nat (S k))) with (Z.of_nat k) by lia.
    replace (Z.succ (a + 1)) with ((a + 1) + 1) by lia.
    apply IH.
    + intros x Hx. apply Hs. lia.
    + rewrite <- Hn. f_equal. lia.
    + rewrite Hp. lia.
Qed.

Lemma fresh_views n :
  0 ≤ n →
  (∀ i, 0 ≤ i ≤ n → Nh (fresh n) i = i ∧ Lh (fresh n) i = Z.rem (i + n) (n + 1) ∧
                     Rh (fresh n) i = Z.rem (i + 1) (n + 1)) ∧
  (∀ i, 0 ≤ i ≤ n → D (fresh n) i = 0 ∧ U (fresh n) i = i ∧ Dn (fresh n) i = i) ∧
  D (fresh n) (n + 1) = 0 ∧ U (fresh n) (n + 1) = 0 ∧ Dn (fresh n) (n + 1) = 0 ∧
  length (headers (fresh n)) = Z.to_nat (n + 1) ∧
  length (nodes (fresh n)) = Z.to_nat (n + 2).
Proof.
  intros Hn. unfold Nh, Lh, Rh, D, U, Dn, fresh. simpl.
  assert (Hl : length (column0 <$> seqZ 0 (n + 1)) = Z.to_nat (n + 1)).
  { by rewrite length_fmap, length_seqZ. }
  split_and!.
  - intros i Hi. rewrite cell_fmap_seqZ by lia. done.
  - intros i Hi. rewrite cell_app_l by (unfold inb; rewrite Hl; lia).
    rewrite cell_fmap_seqZ by lia. done.
  - replace (n + 1) with (Z.of_nat (length (column0 <$> seqZ 0 (n + 1)))) at 2
      by (rewrite Hl; lia).
    by rewrite cell_app_r.
  - replace (n + 1) with (Z.of_nat (length (column0 <$> seqZ 0 (n + 1)))) at 2
      by (rewrite Hl; lia).
    by rewrite cell_app_r.
  - replace (n + 1) with (Z.of_nat (length (column0 <$> seqZ 0 (n + 1)))) at 2
      by (rewrite Hl; lia).
    by rewrite cell_app_r.
  - by rewrite length_fmap, length_seqZ.
  - rewrite length_app, Hl. simpl. lia.
Qed.

Lemma fresh_GInv n :
  0 ≤ n → GInv n [] (fresh n) (seqZ 1 n) (λ _, []).
Proof.
  intros Hn. destruct (fresh_views n Hn) as (Vh & Vc & Vs1 & Vs2 & Vs3 & Lh' & Ln').
  assert (Hreal : ∀ q j, ¬ real n [] q j).
  { intros q j (r & row & t & Hr & _). by rewrite lookup_nil in Hr. }
  split.
  - split; try done.
    + intros row Hrow. by apply elem_of_nil in Hrow.
    + rewrite Lh'. lia.
    + rewrite Ln'. unfold sp. rewrite rowbase_0. lia.
    + intros q j H. by apply Hreal in H.
    + intros r Hr. simpl in Hr. assert (r = 0)%nat as -> by lia.
      unfold sp. rewrite rowbase_0. rewrite Z.add_0_r. simpl. done.
  - split_and!.
    + replace n with (Z.of_nat (Z.to_nat n)) at 3 by lia.
      apply (chain_seqZ _ _ 0 (Z.to_nat n) 0).
      * intros x Hx. destruct (Vh x ltac:(lia)) as (_ & _ & ->).
        destruct (Vh (x + 1) ltac:(lia)) as (_ & -> & _).
        rewrite Z.rem_small by lia.
        replace (x + 1 + n) with (x + 1 * (n + 1)) by lia.
        rewrite Z.rem_add by lia. rewrite Z.rem_small by lia. done.
      * destruct (Vh (0 + Z.of_nat (Z.to_nat n)) ltac:(lia)) as (_ & _ & ->).
        replace (0 + Z.of_nat (Z.to_nat n) + 1) with (n + 1) by lia.
        apply Z.rem_same. lia.
      * destruct (Vh 0 ltac:(lia)) as (_ & -> & _).
        rewrite Z.rem_small by lia. lia.
    + apply NoDup_seqZ.
    + intros i Hi. apply elem_of_seqZ in Hi. lia.
  - intros j Hj. destruct (Vc j ltac:(lia)) as (E1 & E2 & E3).
    split_and!; simpl; try done.
    + apply NoDup_nil_2.
    + intros q Hq. by apply elem_of_nil in Hq.
Qed.
(** ** addrow *)

(** The items of a row: the positions, counted from 1, that hold '1'. *)
Fixpoint ones (base : Z) (cs : list ascii) : list Z :=
  match cs with
  | [] => []
  | c :: cs' =>
      (if bool_decide (c = "1"%char) then [base + 1] else []) ++ ones (base + 1) cs'
  end.

Definition items_of (str : string) : list Z := ones 0 (chars str).

(** The state of the node vector while [addrow] has appended the nodes
    [pend] of a new row and not yet its closing spacer. *)
Record Partial (n : Z) (rws : list (list Z)) (pend : list Z) (s : DLink) : Prop := {
  par_tops : Tops n (rws ++ [pend]) s;
  par_nodes : Z.of_nat (length (nodes s)) =
              sp n rws (length rws) + 1 + Z.of_nat (length pend);
  par_sp_top : ∀ r, (r ≤ length rws)%nat → D s (sp n rws r) = - Z.of_nat r;
  par_sp_up : ∀ r row, rws !! r = Some row → U s (sp n rws (S r)) = sp n rws r + 1;
  par_sp_dn : ∀ r row, rws !! r = Some row →
      Dn s (sp n rws r) = sp n rws r + Z.of_nat (length row)
}.

Definition addnode_pure (item : Z) (s : DLink) : DLink :=
  let u := U s item in
  let q := Z.of_nat (length (nodes s)) in
  upd_node (with_data (D s item + 1)) item
    (upd_node (with_prev q) item
       (upd_node (with_next q) u (push_node s (mkNode item u item)))).

Lemma sp_app n rws rws' r :
  (r ≤ length rws)%nat → sp n (rws ++ rws') r = sp n rws r.
Proof. intros H. unfold sp. by rewrite rowbase_app. Qed.

Lemma sp_snoc n rws pend :
  sp n (rws ++ [pend]) (S (length rws)) =
  sp n rws (length rws) + Z.of_nat (length pend) + 1.
Proof.
  rewrite (sp_S n (rws ++ [pend]) (length rws) pend).
  - by rewrite sp_app.
  - rewrite lookup_app_r by lia. by rewrite Nat.sub_diag.
Qed.

Lemma real_app n rws pend q j :
  real n (rws ++ [pend]) q j ↔
  real n rws q j ∨
  ∃ t, pend !! t = Some j ∧ q = sp n rws (length rws) + 1 + Z.of_nat t.
Proof.
  split.
  - intros (r & row & t & Hr & Ht & ->).
    destruct (decide (r < length rws)%nat) as [Hlt|Hge].
    + left. rewrite lookup_app_l in Hr by done.
      exists r, row, t. split_and!; [done..|]. unfold pos. by rewrite sp_app by lia.
    + right. rewrite lookup_app_r in Hr by lia.
      pose proof (lookup_lt_Some _ _ _ Hr) as Hl. simpl in Hl.
      assert (r = length rws) as -> by lia.
      rewrite Nat.sub_diag in Hr. injection Hr as <-.
      exists t. split; [done|]. unfold pos. by rewrite sp_app by lia.
  - intros [(r & row & t & Hr & Ht & ->)|(t & Ht & ->)].
    + exists r, row, t. pose proof (lookup_lt_Some _ _ _ Hr).
      split_and!; [by rewrite lookup_app_l|done|].
      unfold pos. by rewrite sp_app by lia.
    + exists (length rws), pend, t. split_and!; [|done|].
      * rewrite lookup_app_r by lia. by rewrite Nat.sub_diag.
      * unfold pos. by rewrite sp_app by lia.
Qed.

Lemma cell_push v nd y :
  cell (v ++ [nd]) y = if decide (y = Z.of_nat (length v)) then nd else cell v y.
Proof.
  case_decide as Hy.
  - subst. apply cell_app_r.
  - unfold cell. case_bool_decide; [|done].
    destruct (decide (Z.to_nat y < length v)%nat).
    + by rewrite lookup_app_l.
    + rewrite !lookup_ge_None_2; [done|lia|]. rewrite length_app. simpl. lia.
Qed.

Lemma vn_push s nd y :
  vn (push_node s nd) y ↔ vn s y ∨ y = Z.of_nat (length (nodes s)).
Proof. unfold vn, inb, push_node. simpl. rewrite length_app. simpl. lia. Qed.

Lemma addnode_views item s :
  vn s item → vn s (U s item) →
  let q := Z.of_nat (length (nodes s)) in
  let s' := addnode_pure item s in
  addnode item s = Ok s' ∧
  (∀ y, Dn s' y = if decide (y = U s item) then q
                  else if decide (y = q) then item else Dn s y) ∧
  (∀ y, U s' y = if decide (y = item) then q
                 else if decide (y = q) then U s item else U s y) ∧
  (∀ y, D s' y = if decide (y = item) then D s item + 1
                 else if decide (y = q) then item else D s y) ∧
  headers s' = headers s ∧ length (nodes s') = S (length (nodes s)) ∧
  nrows s' = nrows s ∧ ncount s' = ncount s.
Proof.
  intros Hi Hu q s'.
  set (s1 := push_node s (mkNode item (U s item) item)).
  assert (Hq1 : vn s1 q) by (apply vn_push; by right).
  assert (Hi1 : vn s1 item) by (apply vn_push; by left).
  assert (Hu1 : vn s1 (U s item)) by (apply vn_push; by left).
  assert (Hqi : q ≠ item) by (unfold vn, inb, q in *; lia).
  assert (Hqu : q ≠ U s item) by (unfold vn, inb, q in *; lia).
  assert (P1 : ∀ y, D s1 y = if decide (y = q) then item else D s y).
  { intros y. unfold D, s1, push_node. simpl. rewrite cell_push. fold q. by repeat case_decide. }
  assert (P2 : ∀ y, U s1 y = if decide (y = q) then U s item else U s y).
  { intros y. unfold U at 1, s1, push_node. simpl. rewrite cell_push. fold q. by repeat case_decide. }
  assert (P3 : ∀ y, Dn s1 y = if decide (y = q) then item else Dn s y).
  { intros y. unfold Dn, s1, push_node. simpl. rewrite cell_push. fold q. by repeat case_decide. }
  split_and!.
  - unfold addnode. rewrite (ulink_ok _ _ Hi). cbn [mbind result_bind].
    fold s1. change (lastindex s1) with (Z.of_nat (length (nodes s1)) - 1).
    replace (Z.of_nat (length (nodes s1)) - 1) with q.
    2:{ unfold s1, push_node, q. simpl. rewrite length_app. simpl. lia. }
    rewrite (ulink_ok _ _ Hq1). cbn [mbind result_bind].
    rewrite P2, decide_True by done.
    rewrite (set_dlink_ok _ _ _ Hu1). cbn [mbind result_bind].
    rewrite dlink_ok by vn_tac. cbn [mbind result_bind].
    rewrite Dn_set_next by done. rewrite decide_False by done.
    rewrite P3, decide_True by done.
    rewrite set_ulink_ok by vn_tac. cbn [mbind result_bind].
    rewrite len_ok by vn_tac. cbn [mbind result_bind].
    rewrite set_len_ok by vn_tac.
    rewrite D_set_prev, D_set_next by vn_tac.
    rewrite P1, decide_False by done. done.
  - intros y. unfold s', addnode_pure. fold q. fold s1. views. rewrite P3.
    repeat case_decide; done.
  - intros y. unfold s', addnode_pure. fold q. fold s1. views. rewrite P2.
    repeat case_decide; done.
  - intros y. unfold s', addnode_pure. fold q. fold s1. views. rewrite P1.
    repeat case_decide; done.
  - done.
  - unfold s', addnode_pure. simpl. rewrite !length_put, length_app. simpl. lia.
  - done.
  - done.
Qed.
Lemma real_mono n rws pend ext q j :
  real n (rws ++ [pend]) q j → real n (rws ++ [pend ++ ext]) q j.
Proof.
  rewrite !real_app. intros [H|(t & Ht & ->)]; [by left|right].
  exists t. split; [|done]. rewrite lookup_app_l; [done|]. by eapply lookup_lt_Some.
Qed.

Lemma addnode_spec n rws pend s hs cols item :
  Partial n rws pend s → Horiz n s hs → Cols n (rws ++ [pend]) s cols →
  1 ≤ item ≤ n → item ∉ pend →
  ∃ s', addnode item s = Ok s' ∧ Partial n rws (pend ++ [item]) s' ∧ Horiz n s' hs ∧
    Cols n (rws ++ [pend ++ [item]]) s'
      (λ j, if decide (j = item) then cols j ++ [Z.of_nat (length (nodes s))] else cols j) ∧
    nrows s' = nrows s ∧ ncount s' = ncount s ∧ headers s' = headers s.
Proof.
  intros [Ht Hpn Hst Hsu Hsd] Hh Hc Hitem Hnew.
  pose proof (item_vn_t _ _ _ Ht item ltac:(lia)) as Hvi.
  destruct (Hc item Hitem) as (Hch & Hnd & Hm & Hlen).
  destruct (chain_last _ _ _ _ _ Hch) as [Hu _].
  pose proof (Cols_incol _ _ _ _ _ _ Hc Hitem Hu) as Hiu.
  destruct (incol_vn_t _ _ _ _ _ Ht Hitem Hiu) as [Hvu _].
  destruct (addnode_views item s Hvi Hvu) as (Hok & Vn & Vu & Vd & Vh & Vl & Vr & Vc).
  set (q := Z.of_nat (length (nodes s))) in *.
  set (s' := addnode_pure item s) in *.
  assert (Hqv : ∀ y, vn s y → y ≠ q) by (intros y Hy; unfold vn, inb, q in *; lia).
  assert (Hsp : ∀ r, (r ≤ length rws)%nat → sp n rws r ≠ q ∧ sp n rws r ≠ item).
  { intros r Hr. pose proof (sp_mono n rws _ _ Hr). pose proof (sp_lower n rws r).
    unfold q. lia. }
  assert (Hold : ∀ y j, real n (rws ++ [pend]) y j → y ≠ q ∧ y ≠ item).
  { intros y j Hy. destruct (real_vn_t _ _ _ Ht _ _ Hy) as (Hv & ? & ?).
    split; [by apply Hqv|lia]. }
  exists s'. split_and!; try done.
  - split.
    + destruct Ht as [T1 T2 T3 T4 T5]. split; try done.
      * intros row Hrow. apply elem_of_app in Hrow as [Hrow|Hrow].
        -- apply T2. apply elem_of_app. by left.
        -- apply list_elem_of_singleton in Hrow as ->.
           destruct (T2 pend) as [Hpd Hpr]; [apply elem_of_app; right; by left|].
           split.
           ++ apply NoDup_app. split_and!; [done| |apply NoDup_singleton].
              intros y Hy Hy'. apply list_elem_of_singleton in Hy' as ->. done.
           ++ intros j Hj. apply elem_of_app in Hj as [Hj|Hj]; [by apply Hpr|].
              apply list_elem_of_singleton in Hj as ->. done.
      * rewrite Vl, length_app. cbn [length].
        replace (length rws + 1)%nat with (S (length rws)) by lia.
        rewrite sp_snoc, length_app. cbn [length]. lia.
      * intros y j Hy. rewrite Vd. apply real_app in Hy as [Hy|(t & Hy & ->)].
        -- assert (Hy' : real n (rws ++ [pend]) y j) by (apply real_app; by left).
           destruct (Hold _ _ Hy'). rewrite !decide_False by done. by apply T5.
        -- destruct (decide (t < length pend)%nat) as [Hlt|Hge].
           ++ rewrite lookup_app_l in Hy by done.
              assert (Hy' : real n (rws ++ [pend]) (sp n rws (length rws) + 1 + Z.of_nat t) j).
              { apply real_app. right. by exists t. }
              destruct (Hold _ _ Hy'). rewrite !decide_False by done. by apply T5.
           ++ rewrite lookup_app_r in Hy by lia.
              pose proof (lookup_lt_Some _ _ _ Hy) as Hl. simpl in Hl.
              assert (t = length pend) as -> by lia.
              rewrite Nat.sub_diag in Hy. injection Hy as <-.
              pose proof (sp_lower n rws (length rws)).
              rewrite decide_False by (unfold q; lia).
              rewrite decide_True; [done|]. unfold q. lia.
    + rewrite Vl, length_app. cbn [length]. lia.
    + intros r Hr. destruct (Hsp r Hr). rewrite Vd, !decide_False by done. by apply Hst.
    + intros r row Hr. destruct (Hsp (S r)) as [? ?]; [apply lookup_lt_Some in Hr; lia|].
      rewrite Vu, !decide_False by done. by eapply Hsu.
    + intros r row Hr.
      assert (Hrl : (r ≤ length rws)%nat) by (apply lookup_lt_Some in Hr; lia).
      destruct (Hsp r Hrl) as [? ?].
      rewrite Vn, decide_False, decide_False; [by eapply Hsd|done|].
      intros E. destruct Hiu as [Hiu|Hiu].
      * lia.
      * revert E. rewrite <- (sp_app n rws [pend]) by done.
        apply not_eq_sym. eapply real_not_sp. exact Hiu.
  - intros j Hj. destruct (decide (j = item)) as [->|Hne].
    + split_and!.
      * eapply chain_ext; [| |eapply (chain_snoc _ _ _ _ q); [exact Hch| | | |]].
        -- intros y _. simpl. rewrite Vn. repeat case_decide; subst; try done.
           exfalso. by eapply (Hqv (U s item)).
        -- intros y _. simpl. rewrite Vu. done.
        -- intros H. apply (Hqv q); [|done].
           apply (incol_vn_t _ _ _ _ _ Ht Hitem). by eapply Cols_incol.
        -- intros E. by apply (Hqv item).
        -- by eapply Cols_header_notin_t.
        -- apply NoDup_cons. split; [by eapply Cols_header_notin_t|done].
      * apply NoDup_app. split_and!; [done| |apply NoDup_singleton].
        intros y Hy Hy'. apply list_elem_of_singleton in Hy' as ->.
        destruct (real_vn_t _ _ _ Ht _ _ (Hm _ Hy)) as [Hv _]. by apply (Hqv q).
      * intros y Hy. apply elem_of_app in Hy as [Hy|Hy].
        -- apply (real_mono n rws pend [item]). by apply Hm.
        -- apply list_elem_of_singleton in Hy as ->. apply real_app. right.
           exists (length pend). split; [|unfold q; lia].
           rewrite lookup_app_r by lia. by rewrite Nat.sub_diag.
      * rewrite Vd, decide_True by done. rewrite Hlen, length_app. simpl. lia.
    + destruct (Hc j Hj) as (Hch' & Hnd' & Hm' & Hlen').
      split_and!; try done.
      * eapply chain_ext; [| |exact Hch'].
        -- intros y Hy. rewrite Vn.
           pose proof (Cols_incol _ _ _ _ _ _ Hc Hj Hy) as Hiy.
           rewrite decide_False, decide_False; [done| |].
           ++ apply Hqv. by apply (incol_vn_t _ _ _ _ _ Ht Hj).
           ++ intros ->. apply Hne. by eapply (incol_fun_t _ _ _ _ _ _ Ht Hj Hitem).
        -- intros y Hy. rewrite Vu.
           assert (Hy' : y ∈ j :: cols j).
           { apply elem_of_app in Hy as [Hy|Hy]; [by right|].
             apply list_elem_of_singleton in Hy as ->. by left. }
           pose proof (Cols_incol _ _ _ _ _ _ Hc Hj Hy') as Hiy.
           rewrite decide_False, decide_False; [done| |].
           ++ apply Hqv. by apply (incol_vn_t _ _ _ _ _ Ht Hj).
           ++ intros ->. apply Hne. eapply (incol_fun_t _ _ _ _ _ _ Ht Hj Hitem); [done|].
              by left.
      * intros y Hy. apply (real_mono n rws pend [item]). by apply Hm'.
      * rewrite Vd, !decide_False; [done| |done].
        apply Hqv. apply (item_vn_t _ _ _ Ht). lia.
Qed.
(** Every node of the rows is linked into the column of its item. *)
Definition Full (n : Z) (rws : list (list Z)) (cols : Z → list Z) : Prop :=
  ∀ q j, real n rws q j → q ∈ cols j.

Definition addrow_body : Z * ascii → DLink → result DLink :=
  λ '(i, c) s, if bool_decide (c = "1"%char) then addnode (i + 1) s else Ok s.

Lemma ones_bounds base cs j :
  j ∈ ones base cs → base < j ≤ base + Z.of_nat (length cs).
Proof.
  revert base. induction cs as [|c cs IH]; intros base; simpl.
  - by intros ?%elem_of_nil.
  - intros [H|H]%elem_of_app.
    + case_bool_decide; [|by apply elem_of_nil in H].
      apply list_elem_of_singleton in H. lia.
    + apply IH in H. lia.
Qed.

Lemma addrow_loop n rws hs cs : ∀ base pend s cols,
  Partial n rws pend s → Horiz n s hs → Cols n (rws ++ [pend]) s cols →
  Full n (rws ++ [pend]) cols →
  0 ≤ base → base + Z.of_nat (length cs) ≤ n → (∀ j, j ∈ pend → j ≤ base) →
  ∃ s' cols', for_each (indexed base cs) addrow_body s = Ok s' ∧
    Partial n rws (pend ++ ones base cs) s' ∧ Horiz n s' hs ∧
    Cols n (rws ++ [pend ++ ones base cs]) s' cols' ∧
    Full n (rws ++ [pend ++ ones base cs]) cols' ∧
    nrows s' = nrows s ∧ ncount s' = ncount s ∧ headers s' = headers s.
Proof.
  induction cs as [|c cs IH]; intros base pend s cols Hp Hh Hc Hf Hb Hn Hle.
  - simpl. rewrite app_nil_r. by exists s, cols.
  - simpl in Hn. simpl indexed. simpl for_each. simpl ones.
    unfold addrow_body at 1. case_bool_decide as Hc1.
    + assert (Hnew : base + 1 ∉ pend) by (intros H; apply Hle in H; lia).
      destruct (addnode_spec _ _ _ _ _ _ (base + 1) Hp Hh Hc ltac:(lia) Hnew)
        as (s1 & Hok & Hp1 & Hh1 & Hc1' & Hr1 & Hn1 & Hd1).
      rewrite Hok. cbn [mbind result_bind].
      destruct (IH (base + 1) (pend ++ [base + 1]) s1 _ Hp1 Hh1 Hc1')
        as (s' & cols' & Hfe & Hp' & Hh' & Hc' & Hf' & Hr' & Hn' & Hd'); try lia.
      * intros q j Hq. apply real_app in Hq as [Hq|(t & Ht & ->)].
        -- case_decide; [apply elem_of_app; left|]; apply Hf; apply real_app; by left.
        -- destruct (decide (t < length pend)%nat) as [Hlt|Hge].
           ++ rewrite lookup_app_l in Ht by done.
              case_decide; [apply elem_of_app; left|]; apply Hf; apply real_app; right;
                by exists t.
           ++ rewrite lookup_app_r in Ht by lia.
              pose proof (lookup_lt_Some _ _ _ Ht) as Hl. simpl in Hl.
              assert (t = length pend) as -> by lia.
              rewrite Nat.sub_diag in Ht. injection Ht as <-.
              rewrite decide_True by done. apply elem_of_app. right.
              apply list_elem_of_singleton.
              rewrite (par_nodes _ _ _ _ Hp). lia.
      * intros j Hj. apply elem_of_app in Hj as [Hj|Hj]; [apply Hle in Hj; lia|].
        apply list_elem_of_singleton in Hj. lia.
      * exists s', cols'. rewrite <- app_assoc in Hp', Hc', Hf'.
        split_and!; try done; congruence.
    + cbn [mbind result_bind]. simpl.
      destruct (IH (base + 1) pend s cols Hp Hh Hc Hf)
        as (s' & cols' & Hfe & Hp' & Hh' & Hc' & Hf' & Hr' & Hn' & Hd'); try lia.
      * intros j Hj. apply Hle in Hj. lia.
      * by exists s', cols'.
Qed.

Lemma addrow_loop_none cs : ∀ base s,
  ones base cs = [] → for_each (indexed base cs) addrow_body s = Ok s.
Proof.
  induction cs as [|c cs IH]; intros base s H; [done|].
  simpl in *. apply app_eq_nil in H as [H1 H2].
  unfold addrow_body at 1. case_bool_decide; [done|].
  cbn [mbind result_bind]. by apply IH.
Qed.

Lemma Layout_Partial n rws s : Layout n rws s → Partial n rws [] s.
Proof.
  intros Hl. pose proof (Layout_Tops _ _ _ Hl) as [T1 T2 T3 T4 T5].
  destruct Hl as [L1 L2 L3 L4 L5 L6 L7 L8].
  split; try done.
  - split; try done.
    + intros row [Hrow|Hrow]%elem_of_app; [by apply T2|].
      apply list_elem_of_singleton in Hrow as ->. split; [apply NoDup_nil_2|].
      by intros j ?%elem_of_nil.
    + rewrite length_app. cbn [length].
      replace (length rws + 1)%nat with (S (length rws)) by lia.
      rewrite sp_snoc. simpl. lia.
    + intros q j [H|(t & Ht & _)]%real_app; [by apply T5|].
      by rewrite lookup_nil in Ht.
  - simpl. lia.
Qed.

Lemma addrow_unfold str s :
  addrow str s =
  (assert (bool_decide (Z.of_nat (String.length str) ≤ nitems s));;
   let spacer := lastindex s in
   sp ← isspacer s spacer;
   assert sp;;
   let rowstart := spacer + 1 in
   s ← for_each (indexed 0 (chars str)) addrow_body s;
   let rowend := lastindex s in
   assert (bool_decide (rowend >= rowstart)%Z);;
   l ← len s spacer;
   let s := push_node s (mkNode (l - 1) rowstart 0) in
   s ← set_dlink s spacer rowend;
   Ok (mkDLink (headers s) (nodes s) (nrows s + 1) (ncount s))).
Proof. reflexivity. Qed.

Lemma chars_length str : length (chars str) = String.length str.
Proof. induction str as [|c str IH]; simpl; [done|]. by rewrite IH. Qed.

Lemma addrow_spec n rws s hs cols str :
  GInv n rws s hs cols → Full n rws cols →
  Z.of_nat (String.length str) ≤ n → items_of str ≠ [] →
  ∃ s' cols', addrow str s = Ok s' ∧
    GInv n (rws ++ [items_of str]) s' hs cols' ∧
    Full n (rws ++ [items_of str]) cols' ∧
    Z.of_nat (length (nodes s')) =
      Z.of_nat (length (nodes s)) + Z.of_nat (length (items_of str)) + 1 ∧
    (∀ j, 1 ≤ j ≤ n →
       D s' j = D s j + (if decide (j ∈ items_of str) then 1 else 0)) ∧
    nrows s' = nrows s + 1 ∧ ncount s' = ncount s ∧ headers s' = headers s.
Proof.
  intros [Hl Hh Hc] Hf Hlen Hne.
  pose proof (Layout_Partial _ _ _ Hl) as Hp.
  set (R := length rws).
  assert (Hsp : Z.of_nat (length (nodes s)) - 1 = sp n rws R).
  { rewrite (lay_nodes _ _ _ Hl). unfold R. lia. }
  assert (Hc0 : Cols n (rws ++ [[]]) s cols).
  { intros j Hj. destruct (Hc j Hj) as (H1 & H2 & H3 & H4). split_and!; try done.
    intros q Hq. apply real_app. left. by apply H3. }
  assert (Hf0 : Full n (rws ++ [[]]) cols).
  { intros q j [H|(t & Ht & _)]%real_app; [by apply Hf|]. by rewrite lookup_nil in Ht. }
  destruct (addrow_loop n rws hs (chars str) 0 [] s cols Hp Hh Hc0 Hf0)
    as (s1 & cols1 & Hfe & Hp1 & Hh1 & Hc1 & Hf1 & Hr1 & Hn1 & Hd1); try lia.
  { rewrite chars_length. lia. }
  { by intros j ?%elem_of_nil. }
  simpl in Hp1, Hc1, Hf1. fold (items_of str) in Hp1, Hc1, Hf1.
  set (pend := items_of str) in *.
  destruct Hp1 as [Ht1 Hpn1 Hst1 Hsu1 Hsd1].
  assert (Hpl : (0 < length pend)%nat) by (destruct pend; [done|simpl; lia]).
  set (q2 := Z.of_nat (length (nodes s1))).
  set (s1' := push_node s1 (mkNode (D s1 (sp n rws R) - 1) (sp n rws R + 1) 0)).
  set (s2 := upd_node (with_next (q2 - 1)) (sp n rws R) s1').
  assert (Hvsp : vn s1 (sp n rws R)).
  { unfold vn, inb. pose proof (sp_lower n rws R). fold R in Hpn1. lia. }
  assert (Hvsp' : vn s1' (sp n rws R)) by (apply vn_push; by left).
  assert (V1 : ∀ y, D s2 y = if decide (y = q2) then - Z.of_nat R - 1 else D s1 y).
  { intros y. unfold s2. rewrite D_set_next by done.
    unfold D at 1, s1', push_node. simpl. rewrite cell_push. fold q2.
    case_decide; [|done]. simpl. rewrite (Hst1 R) by (unfold R; lia). done. }
  assert (V2 : ∀ y, U s2 y = if decide (y = q2) then sp n rws R + 1 else U s1 y).
  { intros y. unfold s2. rewrite U_set_next by done.
    unfold U at 1, s1', push_node. simpl. rewrite cell_push. fold q2. by case_decide. }
  assert (V3 : ∀ y, Dn s2 y = if decide (y = sp n rws R) then q2 - 1
                              else if decide (y = q2) then 0 else Dn s1 y).
  { intros y. unfold s2. rewrite Dn_set_next by done. case_decide; [done|].
    unfold Dn at 1, s1', push_node. simpl. rewrite cell_push. fold q2. by case_decide. }
  assert (Hl2 : length (nodes s2) = S (length (nodes s1))).
  { unfold s2, s1', push_node. simpl. rewrite length_put, length_app. simpl. lia. }
  assert (Hqv : ∀ y, vn s1 y → y ≠ q2) by (intros y Hy; unfold vn, inb, q2 in *; lia).
  assert (Hq2 : q2 = sp n rws R + 1 + Z.of_nat (length pend)) by (unfold q2; done).
  assert (Hspq : ∀ r, (r ≤ R)%nat → sp n rws r ≠ q2).
  { intros r Hr. pose proof (sp_mono n rws _ _ Hr). lia. }
  set (sf := mkDLink (headers s2) (nodes s2) (nrows s2 + 1) (ncount s2)).
  exists sf, cols1. split_and!.
  - rewrite addrow_unfold.
    unfold nitems. rewrite (lay_headers _ _ _ Hl).
    rewrite bool_decide_eq_true_2 by lia. cbn [assert mbind result_bind].
    unfold isspacer, lastindex. rewrite Hsp.
    rewrite (top_ok _ _ (sp_vn _ _ _ Hl R ltac:(unfold R; lia))).
    cbn [mbind result_bind].
    rewrite (lay_sp_top _ _ _ Hl R) by (unfold R; lia).
    rewrite bool_decide_eq_true_2 by lia. cbn [assert mbind result_bind].
    rewrite Hfe. cbn [mbind result_bind]. fold q2.
    rewrite bool_decide_eq_true_2 by lia. cbn [assert mbind result_bind].
    rewrite (len_ok _ _ Hvsp). cbn [mbind result_bind]. fold s1'.
    rewrite (set_dlink_ok _ _ _ Hvsp'). cbn [mbind result_bind]. done.
  - split.
    + destruct Ht1 as [T1 T2 T3 T4 T5]. split; try done.
      * change (Z.of_nat (length (nodes s2)) = sp n (rws ++ [pend]) (length (rws ++ [pend])) + 1).
        rewrite Hl2, length_app. cbn [length].
        replace (length rws + 1)%nat with (S (length rws)) by lia.
        rewrite sp_snoc. fold R. lia.
      * intros y j Hy. change (D s2 y = j). rewrite V1.
        destruct (real_vn_t _ _ _ {| top_n := T1; top_wf := T2; top_headers := T3;
                    top_nodes := T4; top_top := T5 |} _ _ Hy) as [Hv _].
        rewrite decide_False by (by apply Hqv). by apply T5.
      * intros r Hr. change (D s2 (sp n (rws ++ [pend]) r) = - Z.of_nat r).
        rewrite length_app in Hr. simpl in Hr. rewrite V1.
        destruct (decide (r ≤ R)%nat) as [Hle|Hgt].
        -- rewrite sp_app by done. rewrite decide_False by (by apply Hspq).
           by apply Hst1.
        -- assert (r = S R) as -> by (unfold R in *; lia).
           unfold R. rewrite sp_snoc. fold R.
           rewrite decide_True by lia. lia.
      * intros r row Hr. change (U s2 (sp n (rws ++ [pend]) (S r)) = sp n (rws ++ [pend]) r + 1).
        rewrite V2. destruct (decide (r < R)%nat) as [Hlt|Hge].
        -- rewrite lookup_app_l in Hr by done. rewrite !sp_app by (unfold R in *; lia).
           rewrite decide_False by (apply Hspq; lia). by eapply Hsu1.
        -- pose proof (lookup_lt_Some _ _ _ Hr) as Hrl. rewrite length_app in Hrl.
           simpl in Hrl. assert (r = R) as -> by (unfold R in *; lia).
           unfold R. rewrite sp_snoc, sp_app by lia. fold R.
           rewrite decide_True by lia. done.
      * intros r row Hr.
        change (Dn s2 (sp n (rws ++ [pend]) r) = sp n (rws ++ [pend]) r + Z.of_nat (length row)).
        rewrite V3. destruct (decide (r < R)%nat) as [Hlt|Hge].
        -- rewrite lookup_app_l in Hr by done. rewrite !sp_app by (unfold R in *; lia).
           pose proof (sp_S n rws r row Hr). pose proof (sp_mono n rws (S r) R ltac:(lia)).
           rewrite decide_False by lia. rewrite decide_False by (apply Hspq; lia).
           by eapply Hsd1.
        -- pose proof (lookup_lt_Some _ _ _ Hr) as Hrl. rewrite length_app in Hrl.
           simpl in Hrl. assert (r = R) as -> by (unfold R in *; lia).
           rewrite lookup_app_r in Hr by (unfold R; lia).
           unfold R in Hr. rewrite Nat.sub_diag in Hr. injection Hr as <-.
           rewrite sp_app by (unfold R; lia).
           rewrite decide_True by done. lia.
    + by apply (Horiz_same _ s1).
    + intros j Hj. destruct (Hc1 j Hj) as (Hch & Hnd & Hm & Hlenj).
      split_and!; try done.
      * eapply chain_ext; [| |exact Hch].
        -- intros y Hy. change (Dn s2 y = Dn s1 y). rewrite V3.
           pose proof (Cols_incol _ _ _ _ _ _ Hc1 Hj Hy) as Hiy.
           destruct (incol_vn_t _ _ _ _ _ Ht1 Hj Hiy) as [Hv _].
           rewrite decide_False, decide_False; [done|by apply Hqv|].
           rewrite <- (sp_app n rws [pend]) by (unfold R; lia).
           destruct Hiy as [->|Hiy].
           ++ pose proof (sp_lower n (rws ++ [pend]) R). lia.
           ++ by eapply real_not_sp.
        -- intros y Hy. change (U s2 y = U s1 y). rewrite V2.
           assert (Hy' : y ∈ j :: cols1 j).
           { apply elem_of_app in Hy as [Hy|Hy]; [by right|].
             apply list_elem_of_singleton in Hy as ->. by left. }
           pose proof (Cols_incol _ _ _ _ _ _ Hc1 Hj Hy') as Hiy.
           destruct (incol_vn_t _ _ _ _ _ Ht1 Hj Hiy) as [Hv _].
           rewrite decide_False; [done|by apply Hqv].
      * change (D s2 j = Z.of_nat (length (cols1 j))). rewrite V1.
        rewrite decide_False; [done|]. apply Hqv. apply (item_vn_t _ _ _ Ht1). lia.
  - done.
  - change (Z.of_nat (length (nodes s2)) =
            Z.of_nat (length (nodes s)) + Z.of_nat (length pend) + 1).
    rewrite Hl2. fold R in Hpn1. lia.
  - intros j Hj. change (D s2 j = D s j + (if decide (j ∈ pend) then 1 else 0)).
    rewrite V1, decide_False
      by (apply Hqv; apply (item_vn_t _ _ _ Ht1); lia).
    destruct (Hc1 j Hj) as (_ & Hnd1 & Hm1 & ->).
    destruct (Hc j Hj) as (_ & Hnd0 & Hm0 & ->).
    case_decide as Hjp.
    + apply list_elem_of_lookup in Hjp as [t Ht].
      set (qn := sp n rws R + 1 + Z.of_nat t).
      assert (Hnew : qn ∉ cols j).
      { intros Hin. apply Hm0 in Hin.
        destruct (real_range _ _ _ _ (lay_wf _ _ _ Hl) Hin) as [Hrg _].
        fold R in Hrg. unfold qn in Hrg. lia. }
      assert (Hperm : cols1 j ≡ₚ qn :: cols j).
      { apply NoDup_Permutation; [done|by apply NoDup_cons|].
        intros x. rewrite elem_of_cons. split.
        - intros Hx. apply Hm1 in Hx. apply real_app in Hx as [Hx|(t' & Ht' & ->)].
          + right. by apply Hf.
          + left. unfold qn. do 2 f_equal.
            eapply NoDup_lookup; [|exact Ht'|exact Ht].
            eapply proj1, (top_wf _ _ _ Ht1). apply elem_of_app. right. by left.
        - intros [->|Hx]; apply Hf1, real_app.
          + right. by exists t.
          + left. by apply Hm0. }
      rewrite Hperm. simpl. lia.
    + assert (Hperm : cols1 j ≡ₚ cols j).
      { apply NoDup_Permutation; [done..|].
        intros x. split.
        - intros Hx. apply Hm1 in Hx. apply real_app in Hx as [Hx|(t' & Ht' & ->)].
          + by apply Hf.
          + exfalso. apply Hjp. by eapply list_elem_of_lookup_2.
        - intros Hx. apply Hf1, real_app. left. by apply Hm0. }
      rewrite Hperm. lia.
  - simpl. lia.
  - simpl. done.
  - simpl. done.
Qed.
(** ** Matrices built by the constructor and a sequence of addrow calls *)

Definition built (n : Z) (strs : list string) (s : DLink) : Prop :=
  (dl ← DLink_new n; for_each strs addrow dl) = Ok s.

Definition rows_nonempty (rws : list (list Z)) : Prop :=
  ∀ row, row ∈ rws → row ≠ [].

Lemma addrow_long s str :
  nitems s < Z.of_nat (String.length str) → addrow str s = Err AssertFail.
Proof.
  intros H. rewrite addrow_unfold. by rewrite bool_decide_eq_false_2 by lia.
Qed.

Lemma addrow_empty n rws s str :
  Layout n rws s → Z.of_nat (String.length str) ≤ n → items_of str = [] →
  addrow str s = Err AssertFail.
Proof.
  intros Hl Hlen Hemp. rewrite addrow_unfold.
  unfold nitems. rewrite (lay_headers _ _ _ Hl).
  rewrite bool_decide_eq_true_2 by lia. cbn [assert mbind result_bind].
  assert (Hsp : lastindex s = sp n rws (length rws)).
  { unfold lastindex. rewrite (lay_nodes _ _ _ Hl). lia. }
  unfold isspacer. rewrite Hsp.
  rewrite (top_ok _ _ (sp_vn _ _ _ Hl (length rws) (le_n _))). cbn [mbind result_bind].
  rewrite (lay_sp_top _ _ _ Hl (length rws)) by lia.
  rewrite bool_decide_eq_true_2 by lia. cbn [assert mbind result_bind].
  rewrite (addrow_loop_none _ _ _ Hemp). cbn [mbind result_bind].
  rewrite Hsp. by rewrite bool_decide_eq_false_2 by lia.
Qed.

Lemma built_snoc n strs str s :
  built n (strs ++ [str]) s ↔ ∃ s0, built n strs s0 ∧ addrow str s0 = Ok s.
Proof.
  unfold built. destruct (DLink_new n) as [dl|]; simpl.
  - rewrite for_each_app. destruct (for_each strs addrow dl) as [s0|]; simpl.
    + destruct (addrow str s0) as [s1|] eqn:E; simpl.
      * split; [intros [= <-]; by exists s0|]. intros (s0' & [= <-] & H). congruence.
      * split; [done|]. intros (s0' & [= <-] & H). congruence.
    + split; [done|]. by intros (s0' & H & _).
  - split; [done|]. by intros (s0' & H & _).
Qed.

Lemma built_inv n strs s :
  0 ≤ n → built n strs s →
  ∃ cols, GInv n (items_of <$> strs) s (seqZ 1 n) cols ∧
    Full n (items_of <$> strs) cols ∧ rows_nonempty (items_of <$> strs) ∧
    ncount s = 0 ∧ nrows s = Z.of_nat (length strs) ∧
    Forall (λ str, Z.of_nat (String.length str) ≤ n) strs.
Proof.
  intros Hn. revert s. induction strs as [|str strs IH] using rev_ind; intros s Hb.
  - unfold built in Hb. rewrite DLink_new_ok in Hb by lia. simpl in Hb.
    injection Hb as <-. exists (λ _, []). split_and!; try done.
    + by apply fresh_GInv.
    + intros q j (r & row & t & Hr & _). simpl in Hr. by rewrite lookup_nil in Hr.
    + by intros row ?%elem_of_nil.
  - apply built_snoc in Hb as (s0 & Hb0 & Ha).
    destruct (IH _ Hb0) as (cols & Hg & Hf & Hne & Hc & Hr & Hall).
    destruct (decide (Z.of_nat (String.length str) ≤ n)) as [Hlen|Hlen].
    2:{ rewrite addrow_long in Ha; [done|]. unfold nitems.
        rewrite (lay_headers _ _ _ (g_layout _ _ _ _ _ Hg)). lia. }
    destruct (decide (items_of str = [])) as [He|He].
    { by rewrite (addrow_empty _ _ _ _ (g_layout _ _ _ _ _ Hg) Hlen He) in Ha. }
    destruct (addrow_spec _ _ _ _ _ _ Hg Hf Hlen He)
      as (s' & cols' & Hok & Hg' & Hf' & _ & _ & Hr' & Hc' & _).
    rewrite Hok in Ha. injection Ha as <-.
    exists cols'. rewrite fmap_app. simpl. split_and!; try done.
    + intros row [Hrow|Hrow]%elem_of_app; [by apply Hne|].
      by apply list_elem_of_singleton in Hrow as ->.
    + congruence.
    + rewrite Hr', Hr, length_app. simpl. lia.
    + apply Forall_app. split; [done|]. by apply Forall_singleton.
Qed.
(** ** chooseitem *)

(** [b] has the least value of [f] in [hs], and is the first such element. *)
Definition leftmost_min (f : Z → Z) (hs : list Z) (b : Z) : Prop :=
  ∃ pre post, hs = pre ++ b :: post ∧
    (∀ j, j ∈ pre → f b < f j) ∧ (∀ j, j ∈ post → f b ≤ f j).

(** The items met when following next links from [i] until the root. *)
Fixpoint walk (fuel : nat) (s : DLink) (i : Z) : list Z :=
  match fuel with
  | O => []
  | S fuel' => if decide (i = 0) then [] else i :: walk fuel' s (Rh s i)
  end.

(** The active items, in the order of the horizontal list. *)
Definition active (s : DLink) : list Z := walk (length (headers s)) s (Rh s 0).

Definition choose_body (s : DLink) : Z * Z * Z → result (Z * Z * Z) :=
  λ '(i, best, bestlen),
    l ← len s i;
    let '(best, bestlen) :=
      if bool_decide (l < bestlen) then (i, l) else (best, bestlen) in
    i ← rlink s i;
    Ok (i, best, bestlen).

Definition choose_cond : Z * Z * Z → result bool :=
  λ '(i, best, bestlen), Ok (bool_decide (i ≠ 0)).

Lemma chooseitem_unfold fuel s :
  chooseitem fuel s =
  (i ← rlink s 0; bestlen ← len s i;
   '(_, best, _) ← while fuel choose_cond (choose_body s) (i, i, bestlen);
   Ok best).
Proof. reflexivity. Qed.

Lemma walk_chain s pv xs : ∀ a fuel,
  chain (Rh s) pv a xs 0 → 0 ∉ xs → (length xs < fuel)%nat →
  walk fuel s (Rh s a) = xs.
Proof.
  induction xs as [|x xs IH]; intros a fuel Hch H0 Hf; simpl in *.
  - destruct Hch as [-> _]. destruct fuel; [lia|]. simpl. done.
  - destruct Hch as (-> & _ & Hch). destruct fuel as [|fuel]; [lia|]. simpl.
    apply not_elem_of_cons in H0 as [H0 H0'].
    rewrite decide_False by done. f_equal. apply IH; [done..|lia].
Qed.

Lemma Horiz_length n s hs :
  Horiz n s hs → 0 ≤ n → (length hs ≤ Z.to_nat n)%nat.
Proof.
  intros (_ & Hnd & Hrg) Hn.
  assert (H : hs ⊆+ seqZ 1 n).
  { apply NoDup_submseteq; [done|]. intros x Hx. apply elem_of_seqZ.
    apply Hrg in Hx. lia. }
  apply submseteq_length in H. by rewrite length_seqZ in H.
Qed.

Lemma active_GInv n rws s hs cols : GInv n rws s hs cols → active s = hs.
Proof.
  intros [Hl Hh Hc]. pose proof Hh as (Hch & Hnd & Hrg). unfold active.
  eapply walk_chain; [exact Hch| |].
  - intros H. apply Hrg in H. lia.
  - pose proof (Horiz_length _ _ _ Hh (lay_n _ _ _ Hl)).
    pose proof (lay_headers _ _ _ Hl). pose proof (lay_n _ _ _ Hl). lia.
Qed.

Section Choose.
Variable n : Z.
Variable rws : list (list Z).
Variable s : DLink.
Variable hs : list Z.
Variable cols : Z → list Z.
Hypothesis Hg : GInv n rws s hs cols.

Lemma choose_loop todo : ∀ done best fuel,
  hs = done ++ todo →
  (done = [] → best = default 0 (head todo)) →
  (done ≠ [] → leftmost_min (D s) done best) →
  (length todo ≤ fuel)%nat →
  ∃ b, while fuel choose_cond (choose_body s) (default 0 (head todo), best, D s best)
       = Ok (0, b, D s b) ∧
       (hs ≠ [] → leftmost_min (D s) hs b).
Proof using Hg.
  destruct Hg as [Hl (Hch & Hnd & Hrg) Hc].
  induction todo as [|x rest IH]; intros done best fuel Hsplit Hd0 Hd1 Hfuel.
  - exists best. split.
    + by apply while_done.
    + intros Hne. rewrite app_nil_r in Hsplit. subst done. by apply Hd1.
  - simpl in Hfuel. destruct fuel as [|fuel]; [lia|].
    assert (Hx : 1 ≤ x ≤ n) by (apply Hrg; rewrite Hsplit; elem_goal).
    pose proof (item_vn _ _ _ Hl x ltac:(lia)) as Hvx.
    pose proof (item_vh _ _ _ Hl x ltac:(lia)) as Hhx.
    rewrite Hsplit in Hch.
    destruct (chain_next _ _ _ _ _ _ _ Hch) as [Enx _].
    set (best' := if bool_decide (D s x < D s best) then x else best).
    destruct (IH (done ++ [x]) best' fuel) as (b & Hw & Hb).
    + by rewrite <- app_assoc.
    + intros E. by destruct done.
    + intros _. unfold best'. destruct done as [|d0 done'].
      * rewrite (Hd0 eq_refl). simpl.
        rewrite bool_decide_eq_false_2 by lia.
        exists [], []. split_and!; [done| |]; by intros j ?%elem_of_nil.
      * destruct (Hd1 ltac:(done)) as (pre & post & E & Hpre & Hpost).
        case_bool_decide as Hlt.
        -- exists (d0 :: done'), []. split_and!; [done| |by intros j ?%elem_of_nil].
           intros j Hj. rewrite E in Hj.
           apply elem_of_app in Hj as [Hj|Hj]; [apply Hpre in Hj; lia|].
           apply elem_of_cons in Hj as [->|Hj]; [lia|]. apply Hpost in Hj. lia.
        -- exists pre, (post ++ [x]). split_and!; [|done|].
           ++ rewrite E. by rewrite <- app_assoc.
           ++ intros j [Hj|Hj]%elem_of_app; [by apply Hpost|].
              apply list_elem_of_singleton in Hj as ->. lia.
    + lia.
    + exists b. split; [|done].
      erewrite while_step; [exact Hw| |].
      * simpl. rewrite bool_decide_eq_true_2; [done|lia].
      * simpl. unfold choose_body. rewrite (len_ok _ _ Hvx). cbn [mbind result_bind].
        rewrite (rlink_ok _ _ Hhx). rewrite Enx. unfold best'.
        case_bool_decide; simpl; done.
Qed.

Lemma chooseitem_spec fuel :
  hs ≠ [] → (length hs ≤ fuel)%nat →
  ∃ b, chooseitem fuel s = Ok b ∧ leftmost_min (D s) hs b.
Proof using Hg.
  intros Hne Hfuel.
  pose proof Hg as [Hl (Hch & Hnd & Hrg) Hc].
  destruct (choose_loop hs [] (default 0 (head hs)) fuel) as (b & Hw & Hb); try done.
  exists b. split; [|by apply Hb].
  rewrite chooseitem_unfold.
  rewrite (rlink_ok _ _ (item_vh _ _ _ Hl 0 ltac:(pose proof (lay_n _ _ _ Hl); lia))).
  cbn [mbind result_bind].
  destruct (chain_ends _ _ _ _ _ Hch) as [-> _].
  assert (Hv : vn s (default 0 (head hs))).
  { apply (item_vn _ _ _ Hl). destruct hs as [|h hs']; [done|]. simpl.
    pose proof (Hrg h ltac:(left)). lia. }
  rewrite (len_ok _ _ Hv). cbn [mbind result_bind].
  rewrite Hw. done.
Qed.

End Choose.

Lemma leftmost_min_elem f hs b : leftmost_min f hs b → b ∈ hs.
Proof. intros (pre & post & -> & _). elem_goal. Qed.
(** ** The invariant of the search

    [C] lists the items covered so far.  An item is active when it is not
    in [C]; a row is live when none of its items is in [C]; the column of an
    active item holds exactly the nodes of the live rows. *)

Definition row_live (C : list Z) (row : list Z) : Prop := ∀ j, j ∈ row → j ∉ C.

Record SInv (n : Z) (rws : list (list Z)) (s : DLink) (C : list Z)
    (hs : list Z) (cols : Z → list Z) : Prop := {
  s_ginv : GInv n rws s hs cols;
  s_active : ∀ i, i ∈ hs ↔ 1 ≤ i ≤ n ∧ i ∉ C;
  s_live : ∀ r row t j, rws !! r = Some row → row !! t = Some j → j ∉ C →
           (pos n rws r t ∈ cols j ↔ row_live C row)
}.

Lemma with_ncount_id s : with_ncount s (ncount s) = s.
Proof. by destruct s. Qed.

Lemma SInv_ncount n rws s C hs cols c :
  SInv n rws s C hs cols → SInv n rws (with_ncount s c) C hs cols.
Proof. intros [H1 H2 H3]. split; [by apply GInv_ncount|done..]. Qed.

Lemma SInv_perm n rws s C C' hs cols :
  (∀ x, x ∈ C ↔ x ∈ C') → SInv n rws s C hs cols → SInv n rws s C' hs cols.
Proof.
  intros HC [H1 H2 H3]. split; [done| |].
  - intros i. rewrite H2, HC. done.
  - intros r row t j Hr Ht Hj. rewrite (H3 r row t j Hr Ht) by (by rewrite HC).
    unfold row_live. split; intros H x Hx; specialize (H x Hx); by rewrite ?HC, <- ?HC in *.
Qed.

Lemma row_items_range n rws s r row t j :
  Layout n rws s → rws !! r = Some row → row !! t = Some j → 1 ≤ j ≤ n.
Proof.
  intros Hl Hr Ht. eapply (lay_wf _ _ _ Hl row).
  - by eapply list_elem_of_lookup_2.
  - by eapply list_elem_of_lookup_2.
Qed.

Lemma row_NoDup n rws s r row :
  Layout n rws s → rws !! r = Some row → NoDup row.
Proof.
  intros Hl Hr. eapply proj1, (lay_wf _ _ _ Hl row). by eapply list_elem_of_lookup_2.
Qed.

Lemma SInv_linked n rws s C hs cols i :
  SInv n rws s C hs cols → i ∈ hs → linked_rows n rws cols (cols i).
Proof.
  intros [Hg Ha Hlive] Hi r row t0 t j Hr Ht0 Hp Ht Hne.
  pose proof (g_layout _ _ _ _ _ Hg) as Hl.
  apply Ha in Hi as [Hir HiC].
  destruct (g_cols _ _ _ _ _ Hg i Hir) as (_ & _ & Hm & _).
  pose proof (real_lookup _ _ _ _ _ _ Hr Ht0 (Hm _ Hp)) as E0.
  pose proof (proj1 (Hlive r row t0 i Hr E0 HiC) Hp) as Hrl.
  apply (Hlive r row t j Hr Ht); [|done].
  apply Hrl. by eapply list_elem_of_lookup_2.
Qed.

Lemma SInv_cover n rws s C hs cols i fuel :
  SInv n rws s C hs cols → i ∈ hs → (length (nodes s) ≤ fuel)%nat →
  ∃ s' hs' cols', cover fuel i s = Ok s' ∧ SInv n rws s' (i :: C) hs' cols' ∧
    cols' i = cols i ∧ length (nodes s') = length (nodes s) ∧
    (∀ c fuel', (length (nodes s) ≤ fuel')%nat →
       uncover fuel' i (with_ncount s' c) = Ok (with_ncount s c)).
Proof.
  intros Hs Hi Hfuel. pose proof Hs as [Hg Ha Hlive].
  pose proof (g_layout _ _ _ _ _ Hg) as Hl.
  pose proof (proj1 (Ha i) Hi) as [Hir HiC].
  pose proof (SInv_linked _ _ _ _ _ _ _ Hs Hi) as Hlk.
  destruct (cover_spec n rws s hs cols i Hg Hir Hlk Hi fuel Hfuel)
    as (s' & rm & Hc & Hg' & Hrm & Hun).
  destruct (g_cols _ _ _ _ _ Hg i Hir) as (_ & _ & Hmi & _).
  assert (Hsame : filter (λ x, x ∉ rm) (cols i) = cols i).
  { apply filter_all. intros x Hx Hin. apply Hrm in Hin. revert Hx.
    eapply hidden_not_pivot_col; [exact Hg|exact Hir|done|exact Hin]. }
  exists s', (filter (λ x, x ≠ i) hs), (λ j, filter (λ x, x ∉ rm) (cols j)).
  split_and!; try done.
  - split; [done| |].
    + intros x. rewrite list_elem_of_filter, Ha, not_elem_of_cons. tauto.
    + intros r row t j Hr Ht HjC. apply not_elem_of_cons in HjC as [Hji HjC].
      rewrite list_elem_of_filter, (Hlive r row t j Hr Ht HjC), Hrm.
      pose proof (lookup_lt_Some _ _ _ Ht) as Htl.
      split.
      * intros [Hnh Hrl] x Hx. apply not_elem_of_cons. split; [|by apply Hrl].
        intros ->. apply Hnh.
        apply list_elem_of_lookup in Hx as [t0 Ht0].
        exists r, row, t0, t. split_and!; try done.
        -- by eapply lookup_lt_Some.
        -- apply (Hlive r row t0 i Hr Ht0 HiC). done.
        -- intros ->. congruence.
      * intros Hrl. split.
        -- intros (r' & row' & t0' & t' & Hr' & Ht0' & Hp' & Ht' & Hne' & Heq).
           destruct (pos_inj _ _ _ _ _ _ _ _ Hr Htl Hr' Ht' Heq) as [<- <-].
           assert (row' = row) as -> by congruence.
           pose proof (real_lookup _ _ _ _ _ _ Hr Ht0' (Hmi _ Hp')) as E0.
           apply (Hrl i); [by eapply list_elem_of_lookup_2|left].
        -- intros x Hx. specialize (Hrl x Hx). by apply not_elem_of_cons in Hrl as [_ ?].
  - pose proof (lay_nodes _ _ _ Hl). pose proof (lay_nodes _ _ _ (g_layout _ _ _ _ _ Hg')).
    lia.
Qed.
(** ** The two row loops of rdance *)

Lemma cover_row_scan fuel k s :
  cover_row fuel k s = scan_fwd (λ x _ s, cover fuel x s) fuel k s.
Proof. reflexivity. Qed.

Lemma uncover_row_scan fuel k s :
  uncover_row fuel k s = scan_bwd (λ x _ s, uncover fuel x s) fuel k s.
Proof. reflexivity. Qed.

Section CoverRow.
Variable n : Z.
Variable rws : list (list Z).
Variable s0 : DLink.
Variable C : list Z.
Variable r : nat.
Variable row : list Z.
Variable t0 : nat.
Variable i : Z.
Hypothesis Hr : rws !! r = Some row.
Hypothesis Ht0 : row !! t0 = Some i.
Hypothesis HiC : i ∈ C.
Hypothesis Hfree : ∀ t j, row !! t = Some j → t ≠ t0 → j ∉ C.

Let N := length (nodes s0).

Let Irow (rm : list Z) (s : DLink) : Prop :=
  length (nodes s) = N ∧
  ∃ C' hs' cols', SInv n rws s C' hs' cols' ∧
    ∀ x, x ∈ C' ↔ x ∈ C ∨ ∃ t, pos n rws r t ∈ rm ∧ row !! t = Some x.

Lemma cover_row_step F F' (rm : list Z) s t j :
  (N ≤ F)%nat → (N ≤ F')%nat →
  Irow rm s → row !! t = Some j → t ≠ t0 → pos n rws r t ∉ rm →
  ∃ s', cover F j s = Ok s' ∧ Irow (rm ++ [pos n rws r t]) s' ∧
    ∀ c, uncover F' j (with_ncount s' c) = Ok (with_ncount s c).
Proof using Hr Ht0 HiC Hfree.
  intros HF HF' (HN & C' & hs' & cols' & Hs & HC') Ht Hne Hnotin.
  pose proof (g_layout _ _ _ _ _ (s_ginv _ _ _ _ _ _ Hs)) as Hl.
  assert (Hj : j ∈ hs').
  { apply (s_active _ _ _ _ _ _ Hs). split; [by eapply row_items_range|].
    rewrite HC'. intros [HjC|(t' & Hp & Ht')]; [by eapply Hfree|].
    assert (t' = t) as -> by (eapply NoDup_lookup; [by eapply row_NoDup|done..]).
    done. }
  destruct (SInv_cover _ _ _ _ _ _ j F Hs Hj ltac:(lia))
    as (s' & hs'' & cols'' & Hc & Hs' & _ & HN' & Hun).
  exists s'. split_and!; [done| |].
  - split; [lia|]. exists (j :: C'), hs'', cols''. split; [done|].
    intros x. rewrite elem_of_cons, HC'. split.
    + intros [->|[H|(t' & Hp & Ht')]].
      * right. exists t. split; [elem_goal|done].
      * by left.
      * right. exists t'. split; [elem_goal|done].
    + intros [H|(t' & Hp & Ht')]; [right; by left|].
      apply elem_of_app in Hp as [Hp|Hp].
      * right. right. by exists t'.
      * apply list_elem_of_singleton in Hp.
        destruct (pos_inj _ _ _ _ _ _ _ _ Hr (lookup_lt_Some _ _ _ Ht') Hr
                    (lookup_lt_Some _ _ _ Ht) Hp) as [_ ->].
        left. congruence.
  - intros c. apply Hun. lia.
Qed.

Lemma cover_row_spec fuel hs cols :
  SInv n rws s0 C hs cols → (N ≤ fuel)%nat →
  ∃ s' C' hs' cols', cover_row fuel (pos n rws r t0) s0 = Ok s' ∧
    SInv n rws s' C' hs' cols' ∧ (∀ x, x ∈ C' ↔ x ∈ C ∨ x ∈ row) ∧
    length (nodes s') = N ∧
    ∀ c fuel', (N ≤ fuel')%nat →
      uncover_row fuel' (pos n rws r t0) (with_ncount s' c) = Ok (with_ncount s0 c).
Proof using Hr Ht0 HiC Hfree.
  intros Hs Hfuel.
  pose proof (g_layout _ _ _ _ _ (s_ginv _ _ _ _ _ _ Hs)) as Hl.
  pose proof (lookup_lt_Some _ _ _ Ht0) as Ht0l.
  assert (Hrl : (length row ≤ N)%nat) by (by eapply row_length).
  assert (HI0 : Irow [] s0).
  { split; [done|]. exists C, hs, cols. split; [done|].
    intros x. split; [by left|]. intros [H|(t & Hp & _)]; [done|].
    by apply elem_of_nil in Hp. }
  assert (HIl : ∀ rm s, Irow rm s → Layout n rws s).
  { intros rm s (_ & C' & hs' & cols' & Hs' & _).
    exact (g_layout _ _ _ _ _ (s_ginv _ _ _ _ _ _ Hs')). }
  destruct (scan_spec n rws (λ x _ s, cover fuel x s) (λ x _ s, uncover fuel x s)
              Irow r row t0 s0 Hr Ht0l HIl) with (fuel := fuel)
    as (s' & Hf & HI' & _); [|done|lia|].
  { intros rm s t j HI Ht Hne Hnotin.
    by eapply (cover_row_step fuel fuel). }
  destruct HI' as (HN' & C' & hs' & cols' & Hs' & HC').
  exists s', C', hs', cols'. split_and!; [by rewrite cover_row_scan|done| |done|].
  - intros x. rewrite HC'. split.
    + intros [H|(t & Hp & Ht)]; [by left|right; by eapply list_elem_of_lookup_2].
    + intros [H|H]; [by left|].
      apply list_elem_of_lookup in H as [t Ht].
      destruct (decide (t = t0)) as [->|Hne]; [left; congruence|].
      right. exists t. split; [|done].
      pose proof (lookup_lt_Some _ _ _ Ht).
      apply others_elem; unfold pos; lia.
  - intros c F HF.
    destruct (scan_spec n rws (λ x _ s, cover fuel x s) (λ x _ s, uncover F x s)
                Irow r row t0 s0 Hr Ht0l HIl) with (fuel := fuel)
      as (s'' & Hf' & _ & Hb); [|done|lia|].
    { intros rm s t j HI Ht Hne Hnotin.
      by eapply (cover_row_step fuel F). }
    rewrite Hf in Hf'. injection Hf' as <-.
    rewrite uncover_row_scan. apply Hb. lia.
Qed.

End CoverRow.
(** ** The search *)

(** Node [k] belongs to the row with index [r]. *)
Definition node_row (n : Z) (rws : list (list Z)) (k : Z) (r : nat) : Prop :=
  ∃ row t, rws !! r = Some row ∧ (t < length row)%nat ∧ k = pos n rws r t.

Definition rowitems (rws : list (list Z)) (r : nat) : list Z := default [] (rws !! r).

(** What is known of the callbacks [tr] (each with the matrix and the
    stack it was given) of a search entered with choice stack [stack] and
    active items [hs]: every stack extends [stack] by nodes of rows that
    partition [hs], and every set of rows that partitions [hs] is found. *)
Definition Post (n : Z) (rws : list (list Z)) (stack hs : list Z)
    (tr : list (DLink * list Z)) : Prop :=
  (∀ d stk, (d, stk) ∈ tr →
     Layout n rws d ∧
     ∃ ks rs, stk = stack ++ ks ∧ Forall2 (node_row n rws) ks rs ∧
              concat (rowitems rws <$> rs) ≡ₚ hs) ∧
  (∀ rs, Forall (λ r, r < length rws)%nat rs →
     concat (rowitems rws <$> rs) ≡ₚ hs →
     ∃ d ks rs', (d, stack ++ ks) ∈ tr ∧ Forall2 (node_row n rws) ks rs' ∧ rs' ≡ₚ rs).

Lemma concat_elem {A} (x : A) (ls : list (list A)) :
  x ∈ concat ls ↔ ∃ l, l ∈ ls ∧ x ∈ l.
Proof.
  induction ls as [|l ls IH]; simpl.
  - split; [by intros ?%elem_of_nil|]. by intros (l & ?%elem_of_nil & _).
  - rewrite elem_of_app, IH. split.
    + intros [H|(l' & H1 & H2)]; [exists l; split; [left|done]|].
      exists l'. split; [by right|done].
    + intros (l' & [->|H1]%elem_of_cons & H2); [by left|right; by exists l'].
Qed.

Lemma concat_fmap_perm {A B} (f : A → list B) (rs rs' : list A) :
  rs ≡ₚ rs' → concat (f <$> rs) ≡ₚ concat (f <$> rs').
Proof.
  induction 1 as [|x l l' _ IH|x y l|l1 l2 l3 _ IH1 _ IH2]; simpl.
  - done.
  - by rewrite IH.
  - rewrite !app_assoc. f_equiv. apply Permutation_app_comm.
  - by rewrite IH1.
Qed.

Lemma pop_back_snoc (l : list Z) k : pop_back (l ++ [k]) = Ok l.
Proof.
  unfold pop_back. rewrite removelast_last. by destruct l.
Qed.

Lemma bind_ret_r {A} (m : result A) : (x ← m; Ok x) = m.
Proof. by destruct m. Qed.

Lemma bind_assoc {A B C} (m : result A) (f : A → result B) (g : B → result C) :
  ((m ≫= f) ≫= g) = (x ← m; f x ≫= g).
Proof. by destruct m. Qed.

Section Visits.
Context {V : Type} `{!Visitor V}.

(** The callbacks [tr] made one after the other on a visitor. *)
Definition visits (tr : list (DLink * list Z)) (v : V) : result V :=
  for_each tr (λ '(d, stk) v, visit d stk v) v.

Lemma visits_app tr1 tr2 v :
  visits (tr1 ++ tr2) v = (v' ← visits tr1 v; visits tr2 v').
Proof. apply for_each_app. Qed.

Definition kbody (choose : nat → DLink → result Z) (fuel f : nat) (i : Z) :
    Search V * Z → result (Search V * Z) :=
  λ '(st, k),
    t ← top (mat st) k;
    assert (bool_decide (t = i));;
    s ← cover_row fuel k (mat st);
    st ← rdance_with choose f (mkSearch s (stack st ++ [k]) (vis st));
    stk ← pop_back (stack st);
    s ← uncover_row fuel k (mat st);
    k ← dlink s k;
    Ok (mkSearch s stk (vis st), k).

Definition kcond (i : Z) : Search V * Z → result bool :=
  λ '(st, k), Ok (bool_decide (k ≠ i)).

Lemma rdance_unfold choose f st :
  rdance_with choose (S f) st =
  (let s := with_ncount (mat st) (ncount (mat st) + 1) in
   r ← rlink s 0;
   if bool_decide (r = 0) then
     v ← visit s (stack st) (vis st);
     Ok (mkSearch s (stack st) v)
   else
     i ← choose (S f) s;
     s ← cover (S f) i s;
     k ← dlink s i;
     '(st, _) ← while (S f) (kcond i) (kbody choose (S f) f i)
                  (mkSearch s (stack st) (vis st), k);
     s ← uncover (S f) i (mat st);
     Ok (mkSearch s (stack st) (vis st))).
Proof. reflexivity. Qed.

End Visits.
Lemma while_S {S} fuel (cond : S → result bool) body st :
  while (Datatypes.S fuel) cond body st =
  (b ← cond st; if b : bool then st' ← body st; while fuel cond body st' else Ok st).
Proof. reflexivity. Qed.

Section Search.
Context {V : Type} `{!Visitor V}.
Variable choose : nat → DLink → result Z.
Variable n : Z.
Variable rws : list (list Z).
Hypothesis choose_ok : ∀ s hs cols fuel,
  GInv n rws s hs cols → hs ≠ [] → (length (nodes s) ≤ fuel)%nat →
  ∃ i, choose fuel s = Ok i ∧ i ∈ hs.
Hypothesis Hne : rows_nonempty rws.

Definition Spec (f : nat) : Prop :=
  ∀ s C hs cols stk0 (v : V),
    SInv n rws s C hs cols → (length (nodes s) + length hs + 1 ≤ f)%nat →
    ∃ tr c', rdance_with choose f (mkSearch s stk0 v)
             = (v' ← visits tr v; Ok (mkSearch (with_ncount s c') stk0 v')) ∧
             Post n rws stk0 hs tr.

Section Loop.
Variable f : nat.
Hypothesis IH : Spec f.
Variable s2 : DLink.
Variables C hs hs2 stk0 colsi : list Z.
Variable cols2 : Z → list Z.
Variable i : Z.
Hypothesis Hs2 : SInv n rws s2 (i :: C) hs2 cols2.
Hypothesis Hcolsi : cols2 i = colsi.
Hypothesis Hi : 1 ≤ i ≤ n.
Hypothesis HiC : i ∉ C.
Hypothesis Hnd : NoDup hs.
Hypothesis Hhs : ∀ x, x ∈ hs ↔ 1 ≤ x ≤ n ∧ x ∉ C.
Hypothesis Hlive : ∀ r row t, rws !! r = Some row → row !! t = Some i →
  (pos n rws r t ∈ colsi ↔ row_live C row).
Hypothesis Hfuel : (length (nodes s2) + length hs + 1 ≤ S f)%nat.

Definition Pk (k : Z) (tr_k : list (DLink * list Z)) : Prop :=
  ∃ r row t0 hs3, rws !! r = Some row ∧ row !! t0 = Some i ∧ k = pos n rws r t0 ∧
    hs ≡ₚ row ++ hs3 ∧ Post n rws (stk0 ++ [k]) hs3 tr_k.

Lemma kloop todo : ∀ done c (v : V),
  colsi = done ++ todo →
  ∀ fuel, (length todo ≤ fuel)%nat →
  ∃ trs c',
    while fuel (kcond i) (kbody choose (S f) f i)
      (mkSearch (with_ncount s2 c) stk0 v, default i (head todo))
    = (v' ← visits (concat trs) v; Ok (mkSearch (with_ncount s2 c') stk0 v', i)) ∧
    Forall2 Pk todo trs.
Proof using All.
  pose proof (s_ginv _ _ _ _ _ _ Hs2) as Hg2.
  pose proof (g_layout _ _ _ _ _ Hg2) as Hl2.
  destruct (g_cols _ _ _ _ _ Hg2 i Hi) as (Hch & Hndc & Hm & _).
  rewrite Hcolsi in Hch, Hndc, Hm.
  pose proof (Cols_header_notin _ _ _ _ _ Hl2 (g_cols _ _ _ _ _ Hg2) Hi) as Hni.
  rewrite Hcolsi in Hni.
  induction todo as [|k rest IHt]; intros done c v Hsplit fuel Hf.
  - exists [], c. split; [|constructor]. simpl.
    apply while_done. simpl. by rewrite bool_decide_eq_false_2 by (intros H; by apply H).
  - simpl in Hf. destruct fuel as [|fuel]; [lia|].
    assert (Hk : k ∈ colsi) by (rewrite Hsplit; elem_goal).
    destruct (Hm _ Hk) as (r & row & t0 & Hr & Ht0 & ->).
    set (k := pos n rws r t0) in *.
    assert (Hreal : real n rws k i) by (by apply Hm).
    pose proof (proj1 (Hlive r row t0 Hr Ht0) Hk) as Hrl.
    pose proof (row_NoDup _ _ _ _ _ Hl2 Hr) as Hrnd.
    assert (Hfree : ∀ t j, row !! t = Some j → t ≠ t0 → j ∉ i :: C).
    { intros t j Ht Hne' [->|HjC]%elem_of_cons.
      - apply Hne'. by eapply NoDup_lookup.
      - revert HjC. apply Hrl. by eapply list_elem_of_lookup_2. }
    destruct (cover_row_spec n rws (with_ncount s2 c) (i :: C) r row t0 i Hr Ht0
                ltac:(left) Hfree (S f) hs2 cols2 (SInv_ncount _ _ _ _ _ _ c Hs2)
                ltac:(simpl; lia))
      as (s3 & C3 & hs3 & cols3 & Hcr & Hs3 & HC3 & HN3 & Hun).
    simpl in HN3. fold k in Hcr, Hun.
    assert (Hperm : hs ≡ₚ row ++ hs3).
    { pose proof (s_ginv _ _ _ _ _ _ Hs3) as Hg3.
      destruct (g_horiz _ _ _ _ _ Hg3) as (_ & Hnd3 & _).
      symmetry. apply NoDup_Permutation; [|done|].
      - apply NoDup_app. split_and!; [done| |done].
        intros x Hx Hx3. apply (s_active _ _ _ _ _ _ Hs3) in Hx3 as [_ Hx3].
        apply Hx3, HC3. by right.
      - intros x. rewrite elem_of_app, Hhs, (s_active _ _ _ _ _ _ Hs3 x), HC3.
        rewrite elem_of_cons. split.
        + intros [Hx|[Hx Hx']].
          * split; [|by apply Hrl].
            apply list_elem_of_lookup in Hx as [t Ht]. by eapply row_items_range.
          * split; [done|]. tauto.
        + intros [Hx HxC]. destruct (decide (x ∈ row)); [by left|right].
          split; [done|]. intros [[->|?]|?]; [|done..].
          apply n0. by eapply list_elem_of_lookup_2. }
    assert (Hlen3 : (length hs3 < length hs)%nat).
    { rewrite Hperm, length_app. destruct row; [done|]. simpl. lia. }
    destruct (IH s3 C3 hs3 cols3 (stk0 ++ [k]) v Hs3 ltac:(lia))
      as (tr_k & c3 & Hrd & Hpost).
    assert (HPk : Pk k tr_k) by (by exists r, row, t0, hs3).
    destruct (real_vn _ _ _ Hl2 _ _ Hreal) as (Hvk & _).
    rewrite Hsplit in Hch.
    destruct (chain_next _ _ _ _ _ _ _ Hch) as [Enx _].
    assert (Hbody : kbody choose (S f) f i (mkSearch (with_ncount s2 c) stk0 v, k)
              = (v1 ← visits tr_k v;
                 Ok (mkSearch (with_ncount s2 c3) stk0 v1, default i (head rest)))).
    { unfold kbody. cbn [mat stack vis].
      change (top (with_ncount s2 c) k) with (top s2 k).
      rewrite (top_ok _ _ Hvk). cbn [mbind result_bind].
      rewrite (lay_top _ _ _ Hl2 _ _ Hreal).
      rewrite bool_decide_eq_true_2 by done. cbn [assert mbind result_bind].
      rewrite Hcr. cbn [mbind result_bind]. rewrite Hrd.
      destruct (visits tr_k v) as [v1|e]; cbn [mbind result_bind mat stack vis]; [|done].
      rewrite pop_back_snoc. cbn [mbind result_bind].
      rewrite (Hun c3) by (simpl; lia). cbn [mbind result_bind].
      change (dlink (with_ncount (with_ncount s2 c) c3) k) with (dlink s2 k).
      rewrite (dlink_ok _ _ Hvk). cbn [mbind result_bind]. by rewrite Enx. }
    assert (Hcond : kcond i (mkSearch (with_ncount s2 c) stk0 v, k) = Ok true).
    { unfold kcond. rewrite bool_decide_eq_true_2; [done|].
      intros E. apply Hni. by rewrite <- E. }
    destruct (visits tr_k v) as [v1|e] eqn:Ev.
    + destruct (IHt (done ++ [k]) c3 v1 ltac:(by rewrite <- app_assoc) fuel ltac:(lia))
        as (trs & c' & Hw & HF).
      exists (tr_k :: trs), c'. split; [|by constructor].
      simpl head. simpl default.
      rewrite while_S, Hcond. cbn [mbind result_bind].
      rewrite Hbody. cbn [mbind result_bind].
      rewrite Hw. simpl concat. rewrite visits_app, Ev. done.
    + destruct (IHt (done ++ [k]) c v ltac:(by rewrite <- app_assoc) fuel ltac:(lia))
        as (trs & c' & _ & HF).
      exists (tr_k :: trs), c'. split; [|by constructor].
      simpl head. simpl default.
      rewrite while_S, Hcond. cbn [mbind result_bind].
      rewrite Hbody. cbn [mbind result_bind].
      simpl concat. rewrite visits_app, Ev. done.
Qed.

End Loop.

Lemma Post_of_loop stk0 C hs cols i trs :
  NoDup hs → (∀ x, x ∈ hs ↔ 1 ≤ x ≤ n ∧ x ∉ C) → i ∈ hs →
  (∀ r row t, rws !! r = Some row → row !! t = Some i →
     (pos n rws r t ∈ cols i ↔ row_live C row)) →
  Forall2 (Pk hs stk0 i) (cols i) trs →
  Post n rws stk0 hs (concat trs).
Proof using Hne.
  intros Hnd Hhs Hi Hlive HF. split.
  - intros d stk Hin. apply concat_elem in Hin as (tr_k & Htr & Hin).
    apply list_elem_of_lookup in Htr as [idx Hidx].
    destruct (Forall2_lookup_r _ _ _ _ _ HF Hidx) as (k & Hk & HPk).
    destruct HPk as (r & row & t0 & hs3 & Hr & Ht0 & -> & Hperm & [Hsound _]).
    destruct (Hsound _ _ Hin) as (Hl & ks & rs & -> & Hks & Hcc).
    split; [done|]. exists (pos n rws r t0 :: ks), (r :: rs).
    split_and!.
    + by rewrite <- app_assoc.
    + constructor; [|done]. exists row, t0. split_and!; [done| |done].
      by eapply lookup_lt_Some.
    + simpl. unfold rowitems at 1. rewrite Hr. simpl. by rewrite Hcc, Hperm.
  - intros rs Hvalid Hcc.
    assert (Hic : i ∈ concat (rowitems rws <$> rs)) by (by rewrite Hcc).
    apply concat_elem in Hic as (row & Hrow & Hir).
    apply list_elem_of_fmap in Hrow as (r & -> & Hrin).
    pose proof Hrin as Hrin'.
    apply elem_of_Permutation in Hrin' as [rs0 Hrs].
    rewrite Forall_forall in Hvalid.
    destruct (lookup_lt_is_Some_2 rws r (Hvalid _ Hrin)) as [row Hr].
    unfold rowitems in Hir. rewrite Hr in Hir. simpl in Hir.
    apply list_elem_of_lookup in Hir as [t0 Ht0].
    assert (Hcc' : row ++ concat (rowitems rws <$> rs0) ≡ₚ hs).
    { rewrite <- Hcc, (concat_fmap_perm _ _ _ Hrs). simpl.
      unfold rowitems at 2. by rewrite Hr. }
    assert (Hrl : row_live C row).
    { intros x Hx. apply (Hhs x). rewrite <- Hcc'. apply elem_of_app. by left. }
    pose proof (proj2 (Hlive r row t0 Hr Ht0) Hrl) as Hk.
    apply list_elem_of_lookup in Hk as [idx Hidx].
    destruct (Forall2_lookup_l _ _ _ _ _ HF Hidx) as (tr_k & Htr & HPk).
    destruct HPk as (r' & row' & t0' & hs3 & Hr' & Ht0' & Heq & Hperm & [_ Hcomplete]).
    destruct (pos_inj _ _ _ _ _ _ _ _ Hr (lookup_lt_Some _ _ _ Ht0) Hr'
                (lookup_lt_Some _ _ _ Ht0') Heq) as [<- <-].
    assert (row' = row) as -> by congruence.
    assert (Hcc3 : concat (rowitems rws <$> rs0) ≡ₚ hs3).
    { eapply Permutation_app_inv_l. by rewrite Hcc', Hperm. }
    destruct (Hcomplete rs0) as (d & ks & rs' & Hin & Hks & Hrs'); [|done|].
    { apply Forall_forall. intros x Hx. apply Hvalid. rewrite Hrs. by right. }
    exists d, (pos n rws r t0 :: ks), (r :: rs'). split_and!.
    + apply concat_elem. exists tr_k. split; [by eapply list_elem_of_lookup_2|].
      by rewrite <- app_assoc in Hin.
    + constructor; [|done]. exists row, t0. split_and!; [done| |done].
      by eapply lookup_lt_Some.
    + by rewrite Hrs, Hrs'.
Qed.

Lemma rdance_spec : ∀ f, Spec f.
Proof using All.
  induction f as [|f IH]; intros s C hs cols stk0 v Hs Hf; [lia|].
  pose proof Hs as [Hg Ha Hlive].
  pose proof (g_layout _ _ _ _ _ Hg) as Hl.
  pose proof (g_horiz _ _ _ _ _ Hg) as (Hch & Hnd & Hrg).
  pose proof (lay_n _ _ _ Hl) as Hn0.
  rewrite rdance_unfold. cbn [mat stack vis]. cbv zeta.
  set (s1 := with_ncount s (ncount s + 1)).
  change (rlink s1 0) with (rlink s 0).
  rewrite (rlink_ok _ _ (item_vh _ _ _ Hl 0 ltac:(lia))). cbn [mbind result_bind].
  destruct (chain_ends _ _ _ _ _ Hch) as [-> _].
  destruct hs as [|h hs'].
  - simpl default. rewrite bool_decide_eq_true_2 by done.
    exists [(s1, stk0)], (ncount s + 1). split.
    + unfold visits. simpl. by destruct (visit s1 stk0 v).
    + split.
      * intros d stk Hin. apply list_elem_of_singleton in Hin. injection Hin as -> ->.
        split; [exact (g_layout _ _ _ _ _ (GInv_ncount _ _ _ _ _ _ Hg))|].
        exists [], []. split_and!; [by rewrite app_nil_r|constructor|done].
      * intros rs Hvalid Hcc. exists s1, [], []. split_and!; [|constructor|].
        -- rewrite app_nil_r. left.
        -- destruct rs as [|r rs]; [done|]. exfalso.
           apply Forall_cons in Hvalid as [Hr _].
           destruct (lookup_lt_is_Some_2 rws r Hr) as [row Hrow].
           simpl in Hcc. unfold rowitems at 1 in Hcc. rewrite Hrow in Hcc. simpl in Hcc.
           apply Permutation_nil_r in Hcc. apply app_eq_nil in Hcc as [-> _].
           eapply Hne; [|done]. by eapply list_elem_of_lookup_2.
  - simpl default.
    assert (Hh : 1 ≤ h ≤ n) by (apply Hrg; left).
    rewrite bool_decide_eq_false_2 by lia.
    assert (Hs1 : SInv n rws s1 C (h :: hs') cols) by (by apply SInv_ncount).
    destruct (choose_ok s1 (h :: hs') cols (S f)) as (i & Hci & Hi);
      [exact (s_ginv _ _ _ _ _ _ Hs1)|done|simpl; simpl in Hf; lia|].
    rewrite Hci. cbn [mbind result_bind].
    destruct (SInv_cover _ _ _ _ _ _ i (S f) Hs1 Hi ltac:(simpl; lia))
      as (s2 & hs2 & cols2 & Hcv & Hs2 & Hcolsi & HN2 & Hun).
    rewrite Hcv. cbn [mbind result_bind].
    pose proof (proj1 (Ha i) Hi) as [Hir HiC].
    pose proof (s_ginv _ _ _ _ _ _ Hs2) as Hg2.
    pose proof (g_layout _ _ _ _ _ Hg2) as Hl2.
    destruct (g_cols _ _ _ _ _ Hg2 i Hir) as (Hch2 & _).
    rewrite Hcolsi in Hch2.
    rewrite (dlink_ok _ _ (item_vn _ _ _ Hl2 i ltac:(lia))). cbn [mbind result_bind].
    destruct (chain_ends _ _ _ _ _ Hch2) as [-> _].
    assert (Hlive' : ∀ r row t, rws !! r = Some row → row !! t = Some i →
              (pos n rws r t ∈ cols i ↔ row_live C row)).
    { intros r row t Hr Ht. by apply Hlive. }
    pose proof (col_length _ _ _ _ _ _ Hg Hir) as Hcl.
    simpl in HN2.
    destruct (kloop f IH s2 C (h :: hs') hs2 stk0 (cols i) cols2 i Hs2 Hcolsi Hir HiC
                Hnd Ha Hlive' ltac:(lia) (cols i) [] (ncount s2) v eq_refl (S f)
                ltac:(lia))
      as (trs & c' & Hw & HF).
    rewrite with_ncount_id in Hw. rewrite Hw.
    exists (concat trs), c'. split.
    + destruct (visits (concat trs) v) as [v'|e]; cbn [mbind result_bind mat stack vis];
        [|done].
      rewrite (Hun c') by (simpl; lia). done.
    + by eapply Post_of_loop.
Qed.

End Search.
(** ** Reachable states *)

(** The states the search moves through: a matrix as built, any number of
    covers of items that are active at the time, and any value of the call
    counter. *)
Inductive reachable (n : Z) (strs : list string) : DLink → Prop :=
| reach_built s : built n strs s → reachable n strs s
| reach_cover s i fuel s' :
    reachable n strs s → i ∈ active s → (length (nodes s) ≤ fuel)%nat →
    cover fuel i s = Ok s' → reachable n strs s'
| reach_count s c : reachable n strs s → reachable n strs (with_ncount s c).

Lemma built_SInv n strs s :
  0 ≤ n → built n strs s →
  ∃ cols, SInv n (items_of <$> strs) s [] (seqZ 1 n) cols ∧
          rows_nonempty (items_of <$> strs).
Proof.
  intros Hn Hb. destruct (built_inv _ _ _ Hn Hb) as (cols & Hg & Hf & Hne & _).
  exists cols. split; [|done]. split; [done| |].
  - intros i. rewrite elem_of_seqZ. split; [|lia]. intros H. split; [lia|].
    apply not_elem_of_nil.
  - intros r row t j Hr Ht _. split.
    + intros _ x _. apply not_elem_of_nil.
    + intros _. apply Hf. by exists r, row, t.
Qed.

Lemma reachable_SInv n strs s :
  0 ≤ n → reachable n strs s →
  ∃ C hs cols, SInv n (items_of <$> strs) s C hs cols.
Proof.
  intros Hn. induction 1 as [s Hb|s i fuel s' _ IH Hi Hf Hc|s c _ IH].
  - destruct (built_SInv _ _ _ Hn Hb) as (cols & Hs & _). by exists [], (seqZ 1 n), cols.
  - destruct IH as (C & hs & cols & Hs).
    rewrite (active_GInv _ _ _ _ _ (s_ginv _ _ _ _ _ _ Hs)) in Hi.
    destruct (SInv_cover _ _ _ _ _ _ i fuel Hs Hi Hf) as (s2 & hs2 & cols2 & Hc2 & Hs2 & _).
    rewrite Hc in Hc2. injection Hc2 as <-. by exists (i :: C), hs2, cols2.
  - destruct IH as (C & hs & cols & Hs). exists C, hs, cols. by apply SInv_ncount.
Qed.

(** ** getoption *)

Lemma getoption_scan n rws d r row (k : nat) : ∀ q,
  Layout n rws d → rws !! r = Some row →
  q = sp n rws (S r) - Z.of_nat k → sp n rws r < q →
  ∀ fuel, (k ≤ fuel)%nat →
  while fuel (λ p, t ← top d p; Ok (bool_decide (t >= 0)%Z)) (λ p, Ok (p + 1)) q
  = Ok (sp n rws (S r)).
Proof.
  intros q Hl Hr. revert q. induction k as [|k IH]; intros q Hq Hlo fuel Hf.
  - replace q with (sp n rws (S r)) by lia.
    assert (Hrl : (S r ≤ length rws)%nat) by (apply lookup_lt_Some in Hr; lia).
    apply while_done. rewrite (top_ok _ _ (sp_vn _ _ _ Hl _ Hrl)).
    cbn [mbind result_bind]. rewrite (lay_sp_top _ _ _ Hl _ Hrl).
    by rewrite bool_decide_eq_false_2 by lia.
  - destruct fuel as [|fuel]; [lia|].
    pose proof (sp_S n rws r row Hr) as HS.
    set (t := Z.to_nat (q - sp n rws r - 1)).
    assert (Htl : (t < length row)%nat) by (unfold t; lia).
    destruct (lookup_lt_is_Some_2 row t Htl) as [j Hj].
    assert (Hreal : real n rws q j).
    { exists r, row, t. split_and!; [done..|]. unfold pos, t. lia. }
    destruct (real_vn _ _ _ Hl _ _ Hreal) as (Hv & _ & Hjr).
    rewrite (while_step _ _ _ _ (q + 1)); [apply IH; lia| |done].
    rewrite (top_ok _ _ Hv). cbn [mbind result_bind].
    rewrite (lay_top _ _ _ Hl _ _ Hreal). by rewrite bool_decide_eq_true_2 by lia.
Qed.

Lemma getoption_spec n rws d k r :
  Layout n rws d → node_row n rws k r → getoption d k = Ok (Z.of_nat r).
Proof.
  intros Hl (row & t & Hr & Ht & ->). unfold getoption.
  pose proof (sp_S n rws r row Hr) as HS.
  assert (Hrl : (S r ≤ length rws)%nat) by (apply lookup_lt_Some in Hr; lia).
  rewrite (getoption_scan n rws d r row (length row - t)%nat); try done.
  - cbn [mbind result_bind]. rewrite (top_ok _ _ (sp_vn _ _ _ Hl _ Hrl)).
    cbn [mbind result_bind]. rewrite (lay_sp_top _ _ _ Hl _ Hrl). f_equal. lia.
  - unfold pos. lia.
  - unfold pos. lia.
  - pose proof (row_length _ _ _ _ _ Hl Hr). lia.
Qed.

Lemma stack_options_spec n rws d ks rs :
  Layout n rws d → Forall2 (node_row n rws) ks rs →
  stack_options d ks = Ok (Z.of_nat <$> rs).
Proof.
  intros Hl HF. unfold stack_options.
  enough (H : ∀ acc, for_each ks
            (λ p options, opt ← getoption d p; Ok (options ++ [opt])) acc
            = Ok (acc ++ (Z.of_nat <$> rs))) by apply (H []).
  induction HF as [|k r ks rs Hk _ IH]; intros acc; simpl.
  - by rewrite app_nil_r.
  - rewrite (getoption_spec _ _ _ _ _ Hl Hk). cbn [mbind result_bind].
    rewrite IH. by rewrite <- app_assoc.
Qed.

(** ** Exact covers *)

(** Option [o] of the input contains item [i]: its string holds '1' at
    position [i - 1]. *)
Definition has_item (strs : list string) (i : Z) (o : Z) : Prop :=
  ∃ str, 0 ≤ o ∧ strs !! Z.to_nat o = Some str ∧ 1 ≤ i ∧
         String.get (Z.to_nat (i - 1)) str = Some "1"%char.

Global Instance has_item_dec strs i o : Decision (has_item strs i o).
Proof.
  unfold has_item.
  destruct (decide (0 ≤ o)) as [Ho|Ho]; [|right; by intros (? & ? & _)].
  destruct (strs !! Z.to_nat o) as [str|] eqn:E; [|right; by intros (? & _ & ? & _)].
  destruct (decide (1 ≤ i)) as [Hi|Hi]; [|right; by intros (? & _ & _ & ? & _)].
  destruct (decide (String.get (Z.to_nat (i - 1)) str = Some "1"%char)) as [Hg|Hg].
  - left. by exists str.
  - right. intros (str' & _ & [= <-] & _ & H). done.
Defined.

(** The chosen options [opts] are options of the input, and every item
    from 1 to [n] is in exactly one of them. *)
Definition exact_cover (n : Z) (strs : list string) (opts : list Z) : Prop :=
  Forall (λ o, 0 ≤ o < Z.of_nat (length strs)) opts ∧
  ∀ i, 1 ≤ i ≤ n → length (filter (has_item strs i) opts) = 1%nat.

Lemma string_get_chars str t : String.get t str = chars str !! t.
Proof.
  revert t. induction str as [|c str IH]; intros t; [by destruct t|].
  destruct t as [|t]; simpl; [done|]. apply IH.
Qed.

Lemma ones_elem cs : ∀ base j,
  j ∈ ones base cs ↔ ∃ t, cs !! t = Some "1"%char ∧ j = base + 1 + Z.of_nat t.
Proof.
  induction cs as [|c cs IH]; intros base j; simpl.
  - split; [by intros ?%elem_of_nil|]. by intros (t & Ht & _).
  - rewrite elem_of_app, IH. split.
    + intros [H|(t & Ht & ->)].
      * case_bool_decide as Hc; [|by apply elem_of_nil in H].
        apply list_elem_of_singleton in H as ->. exists 0%nat. subst c. split; [done|lia].
      * exists (S t). split; [done|lia].
    + intros ([|t] & Ht & ->).
      * left. simpl in Ht. injection Ht as ->.
        rewrite bool_decide_eq_true_2 by done. apply list_elem_of_singleton. lia.
      * right. exists t. split; [done|lia].
Qed.

Lemma has_item_items strs i (r : nat) :
  has_item strs i (Z.of_nat r) ↔ i ∈ rowitems (items_of <$> strs) r.
Proof.
  unfold has_item, rowitems. rewrite Nat2Z.id, list_lookup_fmap.
  destruct (strs !! r) as [str|]; simpl.
  - unfold items_of. rewrite ones_elem. split.
    + intros (str' & _ & [= <-] & Hi & Hg). rewrite string_get_chars in Hg.
      exists (Z.to_nat (i - 1)). split; [done|lia].
    + intros (t & Ht & ->). exists str. split_and!; [lia|done|lia|].
      rewrite string_get_chars. by replace (Z.to_nat (0 + 1 + Z.of_nat t - 1)) with t by lia.
  - split; [by intros (? & _ & ? & _)|by intros ?%elem_of_nil].
Qed.

Lemma count_NoDup (i : Z) (l : list Z) :
  NoDup l → length (filter (λ x, x = i) l) = if decide (i ∈ l) then 1%nat else 0%nat.
Proof.
  induction 1 as [|x l Hx Hnd IH]; [done|].
  destruct (decide (x = i)) as [->|Hne].
  - rewrite filter_cons_True by done. simpl. rewrite IH.
    rewrite decide_False by done. rewrite decide_True by left. done.
  - rewrite filter_cons_False by done. rewrite IH.
    destruct (decide (i ∈ l)) as [Hi|Hi].
    + rewrite decide_True by (by right). done.
    + rewrite decide_False; [done|]. intros [->|?]%elem_of_cons; done.
Qed.

Lemma count_concat strs (i : Z) (rs : list nat) :
  (∀ row, row ∈ (items_of <$> strs) → NoDup row) →
  length (filter (has_item strs i) (Z.of_nat <$> rs)) =
  length (filter (λ x, x = i) (concat (rowitems (items_of <$> strs) <$> rs))).
Proof.
  intros Hnd.
  induction rs as [|r rs IH]; [done|]. rewrite !fmap_cons. cbn [concat].
  rewrite filter_app, length_app, <- IH.
  assert (Hrow : NoDup (rowitems (items_of <$> strs) r)).
  { unfold rowitems. destruct ((items_of <$> strs) !! r) as [row|] eqn:E; simpl.
    - apply Hnd. by eapply list_elem_of_lookup_2.
    - apply NoDup_nil_2. }
  rewrite (count_NoDup _ _ Hrow).
  destruct (decide (has_item strs i (Z.of_nat r))) as [Hh|Hh].
  - rewrite filter_cons_True by done. simpl.
    rewrite decide_True by (by apply has_item_items). done.
  - rewrite filter_cons_False by done.
    rewrite decide_False by (by rewrite <- has_item_items). done.
Qed.

Lemma exact_cover_of_perm n strs s (rs : list nat) ks :
  Layout n (items_of <$> strs) s →
  Forall2 (node_row n (items_of <$> strs)) ks rs →
  concat (rowitems (items_of <$> strs) <$> rs) ≡ₚ seqZ 1 n →
  exact_cover n strs (Z.of_nat <$> rs).
Proof.
  intros Hl HF Hperm. split.
  - apply Forall_fmap. apply Forall_forall. intros r Hr. simpl.
    apply list_elem_of_lookup in Hr as [idx Hidx].
    destruct (Forall2_lookup_r _ _ _ _ _ HF Hidx) as (k & _ & row & t & Hrow & _).
    apply lookup_lt_Some in Hrow. rewrite length_fmap in Hrow. lia.
  - intros i Hi. rewrite count_concat.
    2:{ intros row Hrow. by apply (lay_wf _ _ _ Hl). }
    rewrite Hperm, count_NoDup by apply NoDup_seqZ.
    rewrite decide_True; [done|]. apply elem_of_seqZ. lia.
Qed.
(** ** More fuel, another call counter: the same run

    A run that succeeds with some fuel succeeds with any larger fuel, and
    on any matrix that differs in the call counter only, with the same
    result up to that counter. *)

Definition same_matrix (s1 s2 : DLink) : Prop :=
  headers s1 = headers s2 ∧ nodes s1 = nodes s2 ∧ nrows s1 = nrows s2.

Definition leq_res {A B} (R : A → B → Prop) (r1 : result A) (r2 : result B) : Prop :=
  ∀ a, r1 = Ok a → ∃ b, r2 = Ok b ∧ R a b.

Lemma leq_res_bind {A B A' B'} (R : A → B → Prop) (R' : A' → B' → Prop)
    m1 m2 (f1 : A → result A') (f2 : B → result B') :
  leq_res R m1 m2 → (∀ a b, R a b → leq_res R' (f1 a) (f2 b)) →
  leq_res R' (m1 ≫= f1) (m2 ≫= f2).
Proof.
  intros Hm Hf a' H. destruct m1 as [a|e]; [|done]. simpl in H.
  destruct (Hm a eq_refl) as (b & -> & Hab). simpl. by apply (Hf a b).
Qed.

Lemma leq_res_ret {A B} (R : A → B → Prop) a b : R a b → leq_res R (Ok a) (Ok b).
Proof. intros H a' [= <-]. by exists b. Qed.

Lemma leq_res_eq {A} (m : result A) : leq_res eq m m.
Proof. intros a ->. by exists a. Qed.

Lemma leq_res_fmap {A B A' B'} (R : A → B → Prop) (R' : A' → B' → Prop)
    m1 m2 (f1 : A → A') (f2 : B → B') :
  leq_res R m1 m2 → (∀ a b, R a b → R' (f1 a) (f2 b)) →
  leq_res R' (f1 <$> m1) (f2 <$> m2).
Proof.
  intros Hm Hf a' H. destruct m1 as [a|e]; [|done]. simpl in H. injection H as <-.
  destruct (Hm a eq_refl) as (b & -> & Hab). simpl. exists (f2 b). split; [done|].
  by apply Hf.
Qed.

Lemma while_sim {S T} (R : S → T → Prop) cond1 cond2 body1 body2 :
  (∀ a b, R a b → cond1 a = cond2 b) →
  (∀ a b, R a b → leq_res R (body1 a) (body2 b)) →
  ∀ f1 f2 a b, (f1 ≤ f2)%nat → R a b →
  leq_res R (while f1 cond1 body1 a) (while f2 cond2 body2 b).
Proof.
  intros Hc Hb. induction f1 as [|f1 IH]; intros f2 a b Hf Hab r H.
  - simpl in H. rewrite (Hc a b Hab) in H.
    destruct (cond2 b) as [[]|] eqn:E; simpl in H; try done.
    injection H as <-. exists b. split; [|done]. by apply while_done.
  - destruct f2 as [|f2]; [lia|]. simpl in H |- *. rewrite (Hc a b Hab) in H.
    destruct (cond2 b) as [[]|] eqn:E; simpl in H |- *; try done.
    + destruct (body1 a) as [a'|] eqn:Ea; simpl in H; [|done].
      destruct (Hb a b Hab a' Ea) as (b' & -> & Hab'). simpl.
      apply (IH f2 a' b'); [lia|done|done].
    + injection H as <-. by exists b.
Qed.

Section SameMatrix.
Variables s1 s2 : DLink.
Hypothesis Hsm : same_matrix s1 s2.

Lemma sm_top q : top s1 q = top s2 q.
Proof using Hsm. unfold top. by destruct Hsm as (_ & -> & _). Qed.
Lemma sm_ulink q : ulink s1 q = ulink s2 q.
Proof using Hsm. unfold ulink. by destruct Hsm as (_ & -> & _). Qed.
Lemma sm_dlink q : dlink s1 q = dlink s2 q.
Proof using Hsm. unfold dlink. by destruct Hsm as (_ & -> & _). Qed.
Lemma sm_len q : len s1 q = len s2 q.
Proof using Hsm. apply sm_top. Qed.
Lemma sm_llink q : llink s1 q = llink s2 q.
Proof using Hsm. unfold llink. by destruct Hsm as (-> & _). Qed.
Lemma sm_rlink q : rlink s1 q = rlink s2 q.
Proof using Hsm. unfold rlink. by destruct Hsm as (-> & _). Qed.

Lemma sm_set_dlink q x : leq_res same_matrix (set_dlink s1 q x) (set_dlink s2 q x).
Proof using Hsm.
  unfold set_dlink. destruct Hsm as (Hh & Hn & Hr). rewrite Hn.
  eapply leq_res_fmap; [apply leq_res_eq|]. intros v ? <-. by split.
Qed.
Lemma sm_set_ulink q x : leq_res same_matrix (set_ulink s1 q x) (set_ulink s2 q x).
Proof using Hsm.
  unfold set_ulink. destruct Hsm as (Hh & Hn & Hr). rewrite Hn.
  eapply leq_res_fmap; [apply leq_res_eq|]. intros v ? <-. by split.
Qed.
Lemma sm_set_len q x : leq_res same_matrix (set_len s1 q x) (set_len s2 q x).
Proof using Hsm.
  unfold set_len. destruct Hsm as (Hh & Hn & Hr). rewrite Hn.
  eapply leq_res_fmap; [apply leq_res_eq|]. intros v ? <-. by split.
Qed.
Lemma sm_set_llink q x : leq_res same_matrix (set_llink s1 q x) (set_llink s2 q x).
Proof using Hsm.
  unfold set_llink. destruct Hsm as (Hh & Hn & Hr). rewrite Hh.
  eapply leq_res_fmap; [apply leq_res_eq|]. intros v ? <-. by split.
Qed.
Lemma sm_set_rlink q x : leq_res same_matrix (set_rlink s1 q x) (set_rlink s2 q x).
Proof using Hsm.
  unfold set_rlink. destruct Hsm as (Hh & Hn & Hr). rewrite Hh.
  eapply leq_res_fmap; [apply leq_res_eq|]. intros v ? <-. by split.
Qed.

End SameMatrix.

Definition sm_pos (a b : DLink * Z) : Prop := same_matrix a.1 b.1 ∧ a.2 = b.2.

Ltac sim_step :=
  first
    [ apply leq_res_ret
    | eapply leq_res_bind;
        [ first [ erewrite sm_top by eassumption; apply leq_res_eq
                | erewrite sm_ulink by eassumption; apply leq_res_eq
                | erewrite sm_dlink by eassumption; apply leq_res_eq
                | erewrite sm_len by eassumption; apply leq_res_eq
                | erewrite sm_llink by eassumption; apply leq_res_eq
                | erewrite sm_rlink by eassumption; apply leq_res_eq
                | apply sm_set_dlink; eassumption
                | apply sm_set_ulink; eassumption
                | apply sm_set_len; eassumption
                | apply sm_set_llink; eassumption
                | apply sm_set_rlink; eassumption ]
        | intros ? ? ? ] ].

Lemma hide_sim f1 f2 p s1 s2 :
  (f1 ≤ f2)%nat → same_matrix s1 s2 →
  leq_res same_matrix (hide f1 p s1) (hide f2 p s2).
Proof.
  intros Hf Hs. unfold hide.
  eapply (leq_res_fmap sm_pos); [|by intros ?? [? _]].
  apply while_sim; [| |done|by split].
  - intros [a q] [b q'] [_ E]. simpl in E. by subst.
  - intros [a q] [b q'] [Hab E]. simpl in *. subst q'.
    sim_step; subst. sim_step; subst. sim_step; subst.
    case_bool_decide; [apply leq_res_ret; by split|].
    sim_step. sim_step. sim_step; subst. sim_step. apply leq_res_ret. by split.
Qed.

Lemma unhide_sim f1 f2 p s1 s2 :
  (f1 ≤ f2)%nat → same_matrix s1 s2 →
  leq_res same_matrix (unhide f1 p s1) (unhide f2 p s2).
Proof.
  intros Hf Hs. unfold unhide.
  eapply (leq_res_fmap sm_pos); [|by intros ?? [? _]].
  apply while_sim; [| |done|by split].
  - intros [a q] [b q'] [_ E]. simpl in E. by subst.
  - intros [a q] [b q'] [Hab E]. simpl in *. subst q'.
    sim_step; subst. sim_step; subst. sim_step; subst.
    case_bool_decide; [apply leq_res_ret; by split|].
    sim_step. sim_step. sim_step; subst. sim_step. apply leq_res_ret. by split.
Qed.

Lemma cover_sim f1 f2 i s1 s2 :
  (f1 ≤ f2)%nat → same_matrix s1 s2 →
  leq_res same_matrix (cover f1 i s1) (cover f2 i s2).
Proof.
  intros Hf Hs. unfold cover.
  sim_step; subst.
  eapply (leq_res_bind sm_pos).
  - apply while_sim; [| |done|by split].
    + intros [x q] [y q'] [_ E]. simpl in E. by subst.
    + intros [x q] [y q'] [Hxy E]. simpl in *. subst q'.
      eapply leq_res_bind; [by apply hide_sim|]. intros x' y' Hxy'.
      sim_step; subst. apply leq_res_ret. by split.
  - intros [x q] [y q'] [Hxy E]. simpl in *.
    sim_step; subst. sim_step; subst. sim_step. by apply sm_set_llink.
Qed.

Lemma uncover_sim f1 f2 i s1 s2 :
  (f1 ≤ f2)%nat → same_matrix s1 s2 →
  leq_res same_matrix (uncover f1 i s1) (uncover f2 i s2).
Proof.
  intros Hf Hs. unfold uncover.
  sim_step; subst. sim_step; subst. sim_step. sim_step. sim_step; subst.
  eapply (leq_res_fmap sm_pos); [|by intros ?? [? _]].
  apply while_sim; [| |done|by split].
  - intros [x q] [y q'] [_ E]. simpl in E. by subst.
  - intros [x q] [y q'] [Hxy E]. simpl in *. subst q'.
    eapply leq_res_bind; [by apply unhide_sim|]. intros x' y' Hxy'.
    sim_step; subst. apply leq_res_ret. by split.
Qed.

Lemma cover_row_sim f1 f2 k s1 s2 :
  (f1 ≤ f2)%nat → same_matrix s1 s2 →
  leq_res same_matrix (cover_row f1 k s1) (cover_row f2 k s2).
Proof.
  intros Hf Hs. unfold cover_row.
  eapply (leq_res_fmap sm_pos); [|by intros ?? [? _]].
  apply while_sim; [| |done|by split].
  - intros [x q] [y q'] [_ E]. simpl in E. by subst.
  - intros [x q] [y q'] [Hxy E]. simpl in *. subst q'.
    sim_step; subst. case_bool_decide.
    + sim_step; subst. apply leq_res_ret. by split.
    + eapply leq_res_bind; [by apply cover_sim|]. intros x' y' Hxy'.
      apply leq_res_ret. by split.
Qed.

Lemma uncover_row_sim f1 f2 k s1 s2 :
  (f1 ≤ f2)%nat → same_matrix s1 s2 →
  leq_res same_matrix (uncover_row f1 k s1) (uncover_row f2 k s2).
Proof.
  intros Hf Hs. unfold uncover_row.
  eapply (leq_res_fmap sm_pos); [|by intros ?? [? _]].
  apply while_sim; [| |done|by split].
  - intros [x q] [y q'] [_ E]. simpl in E. by subst.
  - intros [x q] [y q'] [Hxy E]. simpl in *. subst q'.
    sim_step; subst. case_bool_decide.
    + sim_step; subst. apply leq_res_ret. by split.
    + eapply leq_res_bind; [by apply uncover_sim|]. intros x' y' Hxy'.
      apply leq_res_ret. by split.
Qed.

Lemma chooseitem_sim f1 f2 s1 s2 :
  (f1 ≤ f2)%nat → same_matrix s1 s2 →
  leq_res eq (chooseitem f1 s1) (chooseitem f2 s2).
Proof.
  intros Hf Hs. unfold chooseitem.
  sim_step; subst. sim_step; subst.
  eapply (leq_res_bind eq).
  - apply while_sim; [| |done|done].
    + by intros x y ->.
    + intros [[i best] bl] ? <-.
      sim_step; subst. destruct (bool_decide _); sim_step; subst; apply leq_res_eq.
  - intros [[i best] bl] ? <-. apply leq_res_eq.
Qed.

Lemma firstitem_sim f1 f2 s1 s2 :
  (f1 ≤ f2)%nat → same_matrix s1 s2 →
  leq_res eq (firstitem f1 s1) (firstitem f2 s2).
Proof. intros Hf Hs. unfold firstitem. erewrite sm_rlink by done. apply leq_res_eq. Qed.

Section RdanceSim.
Context {V : Type} `{!Visitor V}.
Variable Rv : V → V → Prop.
Variable choose : nat → DLink → result Z.
Hypothesis visit_sim : ∀ d d' stk v v',
  same_matrix d d' → Rv v v' → leq_res Rv (visit d stk v) (visit d' stk v').
Hypothesis choose_sim : ∀ f1 f2 s1 s2,
  (f1 ≤ f2)%nat → same_matrix s1 s2 → leq_res eq (choose f1 s1) (choose f2 s2).

Definition sim_search (a b : Search V) : Prop :=
  same_matrix (mat a) (mat b) ∧ stack a = stack b ∧ Rv (vis a) (vis b).

Lemma rdance_sim f1 : ∀ f2 st1 st2,
  (f1 ≤ f2)%nat → sim_search st1 st2 →
  leq_res sim_search (rdance_with choose f1 st1) (rdance_with choose f2 st2).
Proof using All.
  induction f1 as [|f1 IH]; intros f2 st1 st2 Hf (Hm & Hst & Hv); [done|].
  destruct f2 as [|f2]; [lia|].
  rewrite !rdance_unfold. cbv zeta.
  assert (Hm' : same_matrix (with_ncount (mat st1) (ncount (mat st1) + 1))
                            (with_ncount (mat st2) (ncount (mat st2) + 1))).
  { destruct Hm as (?&?&?). by split. }
  set (a := with_ncount (mat st1) (ncount (mat st1) + 1)) in *.
  set (b := with_ncount (mat st2) (ncount (mat st2) + 1)) in *.
  sim_step; subst. rewrite <- Hst. case_bool_decide.
  - eapply leq_res_bind; [by apply visit_sim|]. intros v v' Hvv.
    apply leq_res_ret. by split.
  - eapply leq_res_bind; [by apply choose_sim|]. intros i ? <-.
    eapply leq_res_bind; [by apply cover_sim|]. intros a' b' Hab'.
    sim_step; subst.
    eapply (leq_res_bind (λ x y, sim_search x.1 y.1 ∧ x.2 = y.2)).
    + apply while_sim; [| |done|by split].
      * intros [x k] [y k'] [_ E]. simpl in E. by subst.
      * intros [x k] [y k'] [(Hxm & Hxs & Hxv) E]. simpl in *. subst k'.
        sim_step; subst.
        eapply leq_res_bind; [apply leq_res_eq|]. intros _ _ _.
        eapply leq_res_bind; [by apply cover_row_sim|]. intros x' y' Hxy'.
        eapply leq_res_bind.
        { apply IH; [lia|]. split_and!; simpl; [done|by rewrite Hxs|done]. }
        intros x'' y'' (Hm2 & Hs2 & Hv2).
        rewrite Hs2.
        eapply leq_res_bind; [apply leq_res_eq|]. intros stk ? <-.
        eapply leq_res_bind; [by apply uncover_row_sim|]. intros x3 y3 H3.
        sim_step; subst. apply leq_res_ret. by split.
    + intros [x k] [y k'] [(Hxm & Hxs & Hxv) E]. simpl in *.
      eapply leq_res_bind; [by apply uncover_sim|]. intros x' y' Hxy'.
      apply leq_res_ret. by split.
Qed.

End RdanceSim.
(** ** The call counter is left alone by cover and uncover *)

Lemma while_inv {S} (P : S → Prop) (cnd : S → result bool) (body : S → result S) :
  (∀ a a', P a → body a = Ok a' → P a') →
  ∀ f a r, P a → while f cnd body a = Ok r → P r.
Proof.
  intros Hb. induction f as [|f IH]; intros a r Ha H; simpl in H.
  - destruct (cnd a) as [[]|]; simpl in H; try done. by injection H as <-.
  - destruct (cnd a) as [[]|]; simpl in H; try done.
    + destruct (body a) as [a'|] eqn:E; simpl in H; [|done].
      eapply IH; [|exact H]. by eapply Hb.
    + by injection H as <-.
Qed.

Lemma set_nodes_ncount f s q s' :
  with_nodes s <$> vec_set f (nodes s) q = Ok s' → ncount s' = ncount s.
Proof. destruct (vec_set f (nodes s) q); simpl; [|done]. by intros [= <-]. Qed.

Lemma set_headers_ncount f s q s' :
  with_headers s <$> vec_set f (headers s) q = Ok s' → ncount s' = ncount s.
Proof. destruct (vec_set f (headers s) q); simpl; [|done]. by intros [= <-]. Qed.

Ltac bind_inv H :=
  match type of H with
  | (?m ≫= _) = Ok _ =>
      let E := fresh "E" in
      destruct m eqn:E; cbn [mbind result_bind] in H; [|discriminate H]
  end.

Ltac count_step H :=
  repeat (bind_inv H;
          try match goal with
              | E : set_dlink _ _ _ = Ok _ |- _ => apply set_nodes_ncount in E
              | E : set_ulink _ _ _ = Ok _ |- _ => apply set_nodes_ncount in E
              | E : set_len _ _ _ = Ok _ |- _ => apply set_nodes_ncount in E
              | E : set_rlink _ _ _ = Ok _ |- _ => apply set_headers_ncount in E
              | E : set_llink _ _ _ = Ok _ |- _ => apply set_headers_ncount in E
              end).

Lemma hide_ncount fuel p s s' : hide fuel p s = Ok s' → ncount s' = ncount s.
Proof.
  unfold hide. intros H.
  destruct (while _ _ _ _) as [[s1 q1]|] eqn:E; simpl in H; [|done].
  injection H as <-.
  apply (while_inv (λ a, ncount a.1 = ncount s)) in E; [done| |done].
  intros [x q] [x' q'] Hx Hb. simpl in *.
  count_step Hb. case_bool_decide.
  - by injection Hb as <- _.
  - count_step Hb. injection Hb as <- _. congruence.
Qed.

Lemma unhide_ncount fuel p s s' : unhide fuel p s = Ok s' → ncount s' = ncount s.
Proof.
  unfold unhide. intros H.
  destruct (while _ _ _ _) as [[s1 q1]|] eqn:E; simpl in H; [|done].
  injection H as <-.
  apply (while_inv (λ a, ncount a.1 = ncount s)) in E; [done| |done].
  intros [x q] [x' q'] Hx Hb. simpl in *.
  count_step Hb. case_bool_decide.
  - by injection Hb as <- _.
  - count_step Hb. injection Hb as <- _. congruence.
Qed.

Lemma cover_ncount fuel i s s' : cover fuel i s = Ok s' → ncount s' = ncount s.
Proof.
  unfold cover. intros H. bind_inv H.
  destruct (while _ _ _ _) as [[s1 q1]|] eqn:Ew; cbn [mbind result_bind] in H; [|done].
  apply (while_inv (λ a, ncount a.1 = ncount s)) in Ew; [| |done].
  - simpl in Ew. count_step H. apply set_headers_ncount in H. congruence.
  - intros [x q] [x' q'] Hx Hb. simpl in *.
    bind_inv Hb.
    match goal with E : hide _ _ _ = Ok _ |- _ => apply hide_ncount in E end.
    bind_inv Hb. injection Hb as <- _. congruence.
Qed.

Lemma uncover_ncount fuel i s s' : uncover fuel i s = Ok s' → ncount s' = ncount s.
Proof.
  unfold uncover. intros H. count_step H.
  destruct (while _ _ _ _) as [[s1 q1]|] eqn:Ew; simpl in H; [|done].
  injection H as <-.
  apply (while_inv (λ a, ncount a.1 = ncount s)) in Ew; [done| |simpl; congruence].
  intros [x q] [x' q'] Hx Hb. simpl in *.
  bind_inv Hb.
    match goal with E : unhide _ _ _ = Ok _ |- _ => apply unhide_ncount in E end.
    bind_inv Hb. injection Hb as <- _. congruence.
Qed.
(** ** The search on a built matrix *)

(** Fuel that is enough for a search of matrix [s]. *)
Definition search_fuel (s : DLink) : nat := 2 * length (nodes s).

(** A visitor that records the matrix and the stack of every callback. *)
Definition Recorder : Type := list (DLink * list Z).

Global Instance Recorder_Visitor : Visitor Recorder :=
  λ d stk v, Ok (v ++ [(d, stk)]).

Lemma visits_recorder (tr : list (DLink * list Z)) (v : Recorder) :
  visits tr v = Ok (v ++ tr).
Proof.
  unfold visits. revert v. induction tr as [|[d stk] tr IH]; intros v; simpl.
  - by rewrite app_nil_r.
  - unfold visit at 1, Recorder_Visitor. cbn [mbind result_bind].
    rewrite IH. by rewrite <- app_assoc.
Qed.

Lemma visits_err {V} `{!Visitor V} tr (v : V) e :
  visits tr v = Err e → ∃ d stk v0, visit d stk v0 = Err e.
Proof.
  unfold visits. revert v. induction tr as [|[d stk] tr IH]; intros v; simpl; [done|].
  destruct (visit d stk v) as [v'|e'] eqn:E; simpl.
  - apply IH.
  - intros [= <-]. by exists d, stk, v.
Qed.

Lemma chooseitem_ok n rws s hs cols fuel :
  GInv n rws s hs cols → hs ≠ [] → (length (nodes s) ≤ fuel)%nat →
  ∃ i, chooseitem fuel s = Ok i ∧ i ∈ hs.
Proof.
  intros Hg Hne Hf.
  pose proof (g_layout _ _ _ _ _ Hg) as Hl.
  pose proof (Horiz_length _ _ _ (g_horiz _ _ _ _ _ Hg) (lay_n _ _ _ Hl)) as Hlen.
  pose proof (lay_nodes _ _ _ Hl). pose proof (sp_lower n rws (length rws)).
  destruct (chooseitem_spec _ _ _ _ _ Hg fuel Hne ltac:(lia)) as (b & Hb & Hmin).
  exists b. split; [done|]. by eapply leftmost_min_elem.
Qed.

Lemma firstitem_ok n rws s hs cols fuel :
  GInv n rws s hs cols → hs ≠ [] → (length (nodes s) ≤ fuel)%nat →
  ∃ i, firstitem fuel s = Ok i ∧ i ∈ hs.
Proof.
  intros Hg Hne Hf.
  pose proof (g_layout _ _ _ _ _ Hg) as Hl.
  destruct (g_horiz _ _ _ _ _ Hg) as (Hch & _).
  destruct (chain_ends _ _ _ _ _ Hch) as [E _].
  unfold firstitem.
  rewrite (rlink_ok _ _ (item_vh _ _ _ Hl 0 ltac:(pose proof (lay_n _ _ _ Hl); lia))).
  rewrite E. destruct hs as [|h hs']; [done|]. exists h. split; [done|left].
Qed.

Lemma built_fun n strs s s' : built n strs s → built n strs s' → s = s'.
Proof. unfold built. intros -> [= ->]. done. Qed.

Lemma search_built {V} `{!Visitor V} (choose : nat → DLink → result Z) n strs s stk0
    (v : V) fuel :
  (∀ s hs cols fuel, GInv n (items_of <$> strs) s hs cols → hs ≠ [] →
     (length (nodes s) ≤ fuel)%nat → ∃ i, choose fuel s = Ok i ∧ i ∈ hs) →
  0 ≤ n → built n strs s → (search_fuel s ≤ fuel)%nat →
  ∃ tr c, rdance_with choose fuel (mkSearch s stk0 v)
          = (v' ← visits tr v; Ok (mkSearch (with_ncount s c) stk0 v')) ∧
          Post n (items_of <$> strs) stk0 (seqZ 1 n) tr.
Proof.
  intros Hch Hn Hb Hf. destruct (built_SInv _ _ _ Hn Hb) as (cols & Hs & Hne).
  apply (rdance_spec choose n (items_of <$> strs) Hch Hne fuel s [] (seqZ 1 n) cols);
    [done|].
  pose proof (g_layout _ _ _ _ _ (s_ginv _ _ _ _ _ _ Hs)) as Hl.
  pose proof (lay_nodes _ _ _ Hl). pose proof (sp_lower n (items_of <$> strs) (length (items_of <$> strs))).
  rewrite length_seqZ. unfold search_fuel in Hf. lia.
Qed.

Lemma Post_exact n strs tr :
  Post n (items_of <$> strs) [] (seqZ 1 n) tr →
  ∀ d stk, (d, stk) ∈ tr →
  ∃ opts, stack_options d stk = Ok opts ∧ exact_cover n strs opts.
Proof.
  intros [Hsound _] d stk Hin.
  destruct (Hsound d stk Hin) as (Hl & ks & rs & -> & HF & Hperm).
  exists (Z.of_nat <$> rs). split.
  - by eapply stack_options_spec.
  - by eapply exact_cover_of_perm.
Qed.

(** The example of the specification. *)
Definition ex_rows : list string :=
  ["1001001"; "1001000"; "0001101"; "0010110"; "0110011"; "0100001"]%string.

Definition ex_matrix : DLink :=
  match (dl ← DLink_new 7; for_each ex_rows addrow dl) with
  | Ok s => s
  | Err _ => mkDLink [] [] 0 0
  end.

(** Two traces of one search problem report the same sets of options. *)
Definition solution_in (tr : list (DLink * list Z)) (S : gset Z) : Prop :=
  ∃ d stk opts, (d, stk) ∈ tr ∧ stack_options d stk = Ok opts ∧ S = list_to_set opts.

Lemma node_row_lt n rws k r : node_row n rws k r → (r < length rws)%nat.
Proof. intros (row & t & Hr & _). by eapply lookup_lt_Some. Qed.

Lemma Post_same_solutions n rws hs tr1 tr2 S :
  Post n rws [] hs tr1 → Post n rws [] hs tr2 →
  solution_in tr1 S → solution_in tr2 S.
Proof.
  intros [Hs1 _] [Hs2 Hc2] (d & stk & opts & Hin & Hopts & ->).
  destruct (Hs1 d stk Hin) as (Hl & ks & rs & -> & HF & Hperm). simpl in Hopts.
  rewrite (stack_options_spec _ _ _ _ _ Hl HF) in Hopts. injection Hopts as <-.
  destruct (Hc2 rs) as (d' & ks' & rs' & Hin' & HF' & Hp'); [|done|].
  { apply Forall_forall. intros r Hr.
    apply list_elem_of_lookup in Hr as [i Hi].
    destruct (Forall2_lookup_r _ _ _ _ _ HF Hi) as (k & _ & Hk).
    by eapply node_row_lt. }
  simpl in Hin'. destruct (Hs2 d' ks' Hin') as (Hl' & _).
  exists d', ks', (Z.of_nat <$> rs'). split_and!; [done| |].
  - by eapply stack_options_spec.
  - apply list_to_set_perm_L. by rewrite Hp'.
Qed.

(** Two records of callbacks that agree up to the call counter. *)
Definition same_record (v1 v2 : Recorder) : Prop :=
  Forall2 (λ a b, same_matrix a.1 b.1 ∧ a.2 = b.2) v1 v2.

Lemma same_record_stacks v1 v2 : same_record v1 v2 → v1.*2 = v2.*2.
Proof.
  induction 1 as [|[d stk] [d' stk'] v1 v2 [_ E] _ IH]; simpl in *; [done|].
  by f_equal.
Qed.

Lemma recorder_visit_sim d d' stk (v v' : Recorder) :
  same_matrix d d' → same_record v v' →
  leq_res same_record (visit d stk v) (visit d' stk v').
Proof.
  intros Hd Hv a [= <-]. eexists. split; [reflexivity|].
  apply Forall2_app; [done|]. constructor; [by split|constructor].
Qed.

Lemma same_matrix_refl s : same_matrix s s.
Proof. by split. Qed.

Lemma same_matrix_ncount s c : same_matrix s (with_ncount s c).
Proof. by split. Qed.
(** ** Rows *)

Lemma ones_nil cs : ∀ base, ones base cs = [] ↔ "1"%char ∉ cs.
Proof.
  induction cs as [|c cs IH]; intros base; simpl.
  - split; [intros _; apply not_elem_of_nil|done].
  - rewrite not_elem_of_cons. case_bool_decide as Hc; simpl.
    + split; [done|]. intros [H _]. by destruct H.
    + rewrite IH. split; [by split; [congruence|]|by intros [_ ?]].
Qed.

Lemma ones_length cs : ∀ base,
  length (ones base cs) = length (filter (λ c, c = "1"%char) cs).
Proof.
  induction cs as [|c cs IH]; intros base; simpl; [done|].
  rewrite filter_cons. case_bool_decide as Hc; case_decide; try done; simpl;
    by rewrite IH.
Qed.

(** A row with every character other than '1' replaced by '0'. *)
Fixpoint to_bits (str : string) : string :=
  match str with
  | EmptyString => EmptyString
  | String c str' =>
      String (if bool_decide (c = "1"%char) then "1"%char else "0"%char) (to_bits str')
  end.

Lemma to_bits_length str : String.length (to_bits str) = String.length str.
Proof. induction str as [|c str IH]; simpl; [done|]. by rewrite IH. Qed.

Lemma addrow_body_bit base c s :
  addrow_body (base, if bool_decide (c = "1"%char) then "1"%char else "0"%char) s
  = addrow_body (base, c) s.
Proof.
  unfold addrow_body. destruct (bool_decide (c = "1"%char)).
  - by rewrite bool_decide_true.
  - by rewrite bool_decide_false.
Qed.

Lemma to_bits_loop str : ∀ base s,
  for_each (indexed base (chars (to_bits str))) addrow_body s
  = for_each (indexed base (chars str)) addrow_body s.
Proof.
  induction str as [|c str IH]; intros base s; [done|].
  change (chars (to_bits (String c str)))
    with ((if bool_decide (c = "1"%char) then "1"%char else "0"%char)
          :: chars (to_bits str)).
  change (chars (String c str)) with (c :: chars str).
  cbn [indexed for_each]. rewrite addrow_body_bit.
  destruct (addrow_body (base, c) s); cbn [mbind result_bind]; [apply IH|done].
Qed.

Lemma addrow_to_bits str s : addrow (to_bits str) s = addrow str s.
Proof. by rewrite !addrow_unfold, to_bits_length, to_bits_loop. Qed.

Lemma built_Layout n strs s :
  0 ≤ n → built n strs s →
  ∃ cols, GInv n (items_of <$> strs) s (seqZ 1 n) cols ∧ Full n (items_of <$> strs) cols.
Proof.
  intros Hn Hb. destruct (built_inv _ _ _ Hn Hb) as (cols & Hg & HF & _).
  by exists cols.
Qed.

Lemma nitems_Layout n rws s : Layout n rws s → nitems s = n.
Proof. intros Hl. unfold nitems. rewrite (lay_headers _ _ _ Hl). lia. Qed.

Lemma addrow_accepts n strs s str :
  0 ≤ n → built n strs s →
  (∃ s', addrow str s = Ok s') ↔
  Z.of_nat (String.length str) ≤ n ∧ "1"%char ∈ chars str.
Proof.
  intros Hn Hb. destruct (built_Layout _ _ _ Hn Hb) as (cols & Hg & HF).
  pose proof (g_layout _ _ _ _ _ Hg) as Hl.
  split.
  - intros [s' Hs'].
    destruct (decide (Z.of_nat (String.length str) ≤ n)) as [Hlen|Hlen].
    + split; [done|].
      destruct (decide ("1"%char ∈ chars str)) as [H1|H1]; [done|].
      apply (ones_nil _ 0) in H1.
      rewrite (addrow_empty _ _ _ _ Hl Hlen H1) in Hs'. done.
    + rewrite addrow_long in Hs'; [done|]. rewrite (nitems_Layout _ _ _ Hl). lia.
  - intros [Hlen H1].
    destruct (addrow_spec _ _ _ _ _ str Hg HF Hlen) as (s' & _ & Hs' & _).
    + intros H0. by apply (ones_nil _ 0) in H0.
    + by exists s'.
Qed.

Lemma for_each_err {A S} (xs : list A) (body : A → S → result S) x :
  x ∈ xs → (∀ st, ∃ e, body x st = Err e) → ∀ st, ∃ e, for_each xs body st = Err e.
Proof.
  intros Hx Hbody. induction xs as [|y xs IH]; intros st; [by apply elem_of_nil in Hx|].
  simpl. apply elem_of_cons in Hx as [<-|Hx].
  - destruct (Hbody st) as [e ->]. by exists e.
  - destruct (body y st) as [st'|e]; simpl; [by apply IH|by exists e].
Qed.

(** ** The constructor over [int] *)

Lemma int_add_ok a b : int_min ≤ a + b ≤ int_max → int_add a b = Ok (a + b).
Proof. intros H. unfold int_add. by rewrite bool_decide_eq_true_2. Qed.

Lemma int_add_err a b : ¬ (int_min ≤ a + b ≤ int_max) → int_add a b = Err Overflow.
Proof. intros H. unfold int_add. by rewrite bool_decide_eq_false_2. Qed.

Lemma for_each_ext_in {A S} (xs : list A) (f g : A → S → result S) :
  (∀ x st, x ∈ xs → f x st = g x st) → ∀ st, for_each xs f st = for_each xs g st.
Proof.
  induction xs as [|x xs IH]; intros Hfg st; [done|].
  simpl. rewrite (Hfg x st) by left.
  destruct (g x st) as [st'|e]; simpl; [|done].
  apply IH. intros y st0 Hy. apply Hfg. by right.
Qed.

(** A loop whose body fails at [x], for every state, and runs through the
    elements before [x] under an invariant, ends in that failure. *)
Lemma for_each_stops {A S} (I : S → Prop) (body : A → S → result S) xs x ys e :
  (∀ y st, y ∈ xs → I st → ∃ st', body y st = Ok st' ∧ I st') →
  (∀ st, body x st = Err e) →
  ∀ st, I st → for_each (xs ++ x :: ys) body st = Err e.
Proof.
  intros Hpre Hx. induction xs as [|y xs IH]; intros st HI.
  - simpl. by rewrite Hx.
  - simpl. destruct (Hpre y st ltac:(left) HI) as (st' & -> & HI'). simpl.
    apply IH; [|done]. intros z st0 Hz. apply Hpre. by right.
Qed.

(** Below [2 ^ 30] no expression of [init] leaves the range of [int]: the
    constructor over [int] is the constructor over [Z]. *)
Lemma DLink_new_int_small n :
  int_min ≤ n < 2 ^ 30 → DLink_new_int n = DLink_new n.
Proof.
  unfold int_min. intros Hn.
  unfold DLink_new_int, init_int, DLink_new, init. cbn [headers nodes ncount].
  rewrite !(int_add_ok n 1) by (unfold int_min, int_max; lia).
  cbn [mbind result_bind].
  destruct (resize [] (n + 1)) as [h|e]; cbn [mbind result_bind]; [|done].
  f_equal. apply for_each_ext_in. intros i st Hi.
  apply elem_of_seqZ in Hi.
  rewrite !int_add_ok by (unfold int_min, int_max; lia).
  reflexivity.
Qed.

(** From [2 ^ 30] on an expression of [init] overflows: [nitems+1] at
    [int_max], before the first [resize]; otherwise [i+nitems], in the
    loop, at [i = 2 ^ 31 - nitems]. *)
Lemma DLink_new_int_overflow n :
  2 ^ 30 ≤ n ≤ int_max → DLink_new_int n = Err Overflow.
Proof.
  unfold int_max. intros Hn.
  unfold DLink_new_int, init_int. cbn [headers nodes ncount].
  destruct (decide (n = 2 ^ 31 - 1)) as [->|Hne].
  { rewrite int_add_err; [reflexivity|]. unfold int_min, int_max. lia. }
  rewrite !(int_add_ok n 1) by (unfold int_min, int_max; lia).
  cbn [mbind result_bind].
  rewrite resize_nil by lia. cbn [mbind result_bind].
  set (i0 := 2 ^ 31 - n).
  assert (Hsplit : seqZ 0 (n + 1) = seqZ 0 i0 ++ i0 :: seqZ (i0 + 1) (n - i0)).
  { replace (n + 1) with (i0 + (1 + (n - i0))) by lia.
    rewrite seqZ_app by (unfold i0; lia). f_equal.
    rewrite Z.add_0_l. rewrite seqZ_cons by (unfold i0; lia). f_equal.
    f_equal; lia. }
  rewrite Hsplit.
  match goal with
  | |- for_each ?l ?body ?st0 ≫= _ = _ =>
      assert (Hrun : for_each l body st0 = Err Overflow); [|by rewrite Hrun]
  end.
  apply (for_each_stops
           (λ st, Z.of_nat (length (headers st)) = n + 1 ∧
                  Z.of_nat (length (nodes st)) = n + 1)).
  - intros y st Hy [Hh Hv]. apply elem_of_seqZ in Hy.
    rewrite !int_add_ok by (unfold int_min, int_max, i0 in *; lia).
    cbn [mbind result_bind].
    rewrite vec_set_ok by (unfold inb, i0 in *; lia). cbn [mbind result_bind].
    rewrite vec_set_ok by (unfold inb, i0 in *; lia). cbn [mbind result_bind].
    eexists. split; [reflexivity|]. cbn [headers nodes]. by rewrite !length_put.
  - intros st. rewrite (int_add_err i0 n); [reflexivity|].
    unfold int_min, int_max, i0. lia.
  - cbn [headers nodes]. rewrite length_replicate. lia.
Qed.

Lemma keep_line_positive row :
  keep_line row = true → 0 < Z.of_nat (String.length row).
Proof. destruct row; [done|]. simpl. lia. Qed.

(** [main] constructs only with a positive item count. *)
Lemma main_constructs_positive fuel input :
  (List.filter keep_line input = [] ∧ main fuel input = Err OutOfRange) ∨
  (∃ row0 rest, List.filter keep_line input = row0 :: rest ∧
     0 < Z.of_nat (String.length row0) ∧
     main fuel input
     = (dl ← build (Z.of_nat (String.length row0)) (row0 :: rest);
        st ← rdance fuel (mkSearch dl [] (mkCounter 0 (row0 :: rest) []));
        Ok (output (vis st)))).
Proof.
  unfold main. destruct (List.filter keep_line input) as [|row0 rest] eqn:E.
  - left. done.
  - right. exists row0, rest. split; [done|].
    assert (Hk : keep_line row0 = true).
    { assert (Hin : In row0 (List.filter keep_line input)) by (rewrite E; left; done).
      by apply filter_In in Hin as [_ ?]. }
    apply keep_line_positive in Hk. split; [done|].
    cbn [list_get]. unfold list_get. simpl lookup. cbn [bool_decide].
    rewrite bool_decide_eq_true_2 by lia. cbn [mbind result_bind].
    rewrite bool_decide_eq_true_2 by lia. reflexivity.
Qed.

(** * The properties of the specification, C1 to C10 *)

(** C1. In every reachable state, for every active item [i], [cover(i)]
    followed at once by [uncover(i)] returns, and gives back the very state
    [cover(i)] started from: both vectors with every field of every node
    (the horizontal links of the items, the vertical links of the nodes, the
    stored lengths), the row count and the call counter. *)
Theorem cover_uncover_restores n strs s i fuel :
  0 ≤ n → reachable n strs s → i ∈ active s → (length (nodes s) ≤ fuel)%nat →
  ∃ s', cover fuel i s = Ok s' ∧ uncover fuel i s' = Ok s.
Proof.
  intros Hn Hr Hi Hf.
  destruct (reachable_SInv _ _ _ Hn Hr) as (C & hs & cols & Hs).
  rewrite (active_GInv _ _ _ _ _ (s_ginv _ _ _ _ _ _ Hs)) in Hi.
  destruct (SInv_cover _ _ _ _ _ _ i fuel Hs Hi Hf)
    as (s' & _ & _ & Hc & _ & _ & _ & Hun).
  exists s'. split; [done|].
  specialize (Hun (ncount s) fuel Hf).
  rewrite <- (cover_ncount _ _ _ _ Hc) in Hun at 1.
  by rewrite !with_ncount_id in Hun.
Qed.

Lemma cover_uncover_restores_witness :
  ∃ s', cover 32 1 ex_matrix = Ok s' ∧ uncover 32 1 s' = Ok ex_matrix.
Proof.
  apply (cover_uncover_restores 7 ex_rows ex_matrix 1 32).
  - lia.
  - apply reach_built. vm_compute. reflexivity.
  - vm_compute. left.
  - vm_compute. lia.
Defined.

(** C2. On a matrix built by the constructor and any sequence of [addrow]
    calls, the search with any visitor behaves as the visits, in order, of a
    list [tr] of callbacks (matrix and choice stack), and in each of them
    the options read off the stack, as [visit] reads them with [getoption],
    are rows of the matrix such that each of the [n] items is in exactly one
    of them.  With the recording visitor the search returns, and [tr] is
    what it recorded. *)
Theorem reported_solutions_exact_cover {V} `{!Visitor V} n strs s (v : V) fuel :
  0 ≤ n → built n strs s → (search_fuel s ≤ fuel)%nat →
  (∃ tr c, rdance fuel (mkSearch s [] v)
           = (v' ← visits tr v; Ok (mkSearch (with_ncount s c) [] v')) ∧
     ∀ d stk, (d, stk) ∈ tr →
       ∃ opts, stack_options d stk = Ok opts ∧ exact_cover n strs opts) ∧
  (∃ st, rdance fuel (mkSearch s [] ([] : Recorder)) = Ok st ∧
     ∀ d stk, (d, stk) ∈ vis st →
       ∃ opts, stack_options d stk = Ok opts ∧ exact_cover n strs opts).
Proof.
  intros Hn Hb Hf. split.
  - destruct (search_built chooseitem n strs s [] v fuel
                (chooseitem_ok n (items_of <$> strs)) Hn Hb Hf) as (tr & c & Hrun & HP).
    exists tr, c. split; [done|]. by apply Post_exact.
  - destruct (search_built chooseitem n strs s [] ([] : Recorder) fuel
                (chooseitem_ok n (items_of <$> strs)) Hn Hb Hf) as (tr & c & Hrun & HP).
    rewrite visits_recorder in Hrun. simpl in Hrun.
    eexists. split; [exact Hrun|]. simpl. by apply Post_exact.
Qed.

Lemma reported_solutions_exact_cover_witness :
  (∃ tr c, rdance 64 (mkSearch ex_matrix [] (mkCounter 0 ex_rows []))
           = (v' ← visits tr (mkCounter 0 ex_rows []);
              Ok (mkSearch (with_ncount ex_matrix c) [] v')) ∧
     ∀ d stk, (d, stk) ∈ tr →
       ∃ opts, stack_options d stk = Ok opts ∧ exact_cover 7 ex_rows opts) ∧
  (∃ st, rdance 64 (mkSearch ex_matrix [] ([] : Recorder)) = Ok st ∧
     ∀ d stk, (d, stk) ∈ vis st →
       ∃ opts, stack_options d stk = Ok opts ∧ exact_cover 7 ex_rows opts).
Proof.
  apply (reported_solutions_exact_cover 7 ex_rows ex_matrix (mkCounter 0 ex_rows []) 64).
  - lia.
  - vm_compute. reflexivity.
  - vm_compute. lia.
Defined.

(** C3. On a matrix built by the constructor and any sequence of [addrow]
    calls, the top-level call of the search either returns, and then both
    vectors of the matrix (every horizontal link, vertical link and length)
    and the row count are what they were before the call, and so is the
    choice stack, however many callbacks were made; or it is cut short by a
    failure, and that failure is one raised by the visitor. *)
Theorem search_restores_matrix {V} `{!Visitor V} n strs s stk0 (v : V) fuel :
  0 ≤ n → built n strs s → (search_fuel s ≤ fuel)%nat →
  (∃ st, rdance fuel (mkSearch s stk0 v) = Ok st ∧
         headers (mat st) = headers s ∧ nodes (mat st) = nodes s ∧
         nrows (mat st) = nrows s ∧ stack st = stk0) ∨
  (∃ e d stk v0, rdance fuel (mkSearch s stk0 v) = Err e ∧ visit d stk v0 = Err e).
Proof.
  intros Hn Hb Hf.
  destruct (search_built chooseitem n strs s stk0 v fuel
              (chooseitem_ok n (items_of <$> strs)) Hn Hb Hf) as (tr & c & Hrun & _).
  unfold rdance. rewrite Hrun.
  destruct (visits tr v) as [v'|e] eqn:E; cbn [mbind result_bind].
  - left. eexists. split; [reflexivity|]. by split_and!.
  - right. destruct (visits_err _ _ _ E) as (d & stk & v0 & Hv).
    by exists e, d, stk, v0.
Qed.

Lemma search_restores_matrix_witness :
  (∃ st, rdance 64 (mkSearch ex_matrix [] ([] : Recorder)) = Ok st ∧
         headers (mat st) = headers ex_matrix ∧ nodes (mat st) = nodes ex_matrix ∧
         nrows (mat st) = nrows ex_matrix ∧ stack st = []) ∨
  (∃ e d stk v0, rdance 64 (mkSearch ex_matrix [] ([] : Recorder)) = Err e ∧
                 visit d stk v0 = Err e).
Proof.
  apply (search_restores_matrix 7 ex_rows ex_matrix [] ([] : Recorder) 64).
  - lia.
  - vm_compute. reflexivity.
  - vm_compute. lia.
Defined.

(** C4. On the instance with seven items and the six options 1001001,
    1001000, 0001101, 0010110, 0110011, 0100001 added in that order, the
    search calls the visitor exactly once; the options read off the choice
    stack, sorted as [visit] sorts them, are 1, 3 and 5 counted from zero;
    the counter ends at 1 and the only line written is 1321223, by [rdance]
    with the visitor of the source and by [main] on these six lines. *)
Example worked_example :
  built 7 ex_rows ex_matrix ∧
  (∃ st d stk,
     rdance 64 (mkSearch ex_matrix [] ([] : Recorder)) = Ok st ∧
     vis st = [(d, stk)] ∧
     merge_sort Z.le <$> stack_options d stk = Ok [1; 3; 5]) ∧
  (∃ st,
     rdance 64 (mkSearch ex_matrix [] (mkCounter 0 ex_rows [])) = Ok st ∧
     getcounter (vis st) = 1 ∧ output (vis st) = ["1321223"%string]) ∧
  main 64 ex_rows = Ok ["1321223"%string].
Proof.
  split_and!.
  - vm_compute. reflexivity.
  - eexists _, _, _. split_and!; vm_compute; reflexivity.
  - eexists. split_and!; vm_compute; reflexivity.
  - vm_compute. reflexivity.
Qed.

(** The stored lengths of two items compared, both read with [len]. *)
Definition len_lt (s : DLink) (i j : Z) : Prop :=
  ∃ li lj, len s i = Ok li ∧ len s j = Ok lj ∧ li < lj.
Definition len_le (s : DLink) (i j : Z) : Prop :=
  ∃ li lj, len s i = Ok li ∧ len s j = Ok lj ∧ li ≤ lj.

(** C5. In every reachable state whose list of active items is not empty,
    [chooseitem] returns an active item [b] such that every active item met
    before [b] on the way from the root along the next links is strictly
    longer than [b], and every active item met after it is at least as
    long: [b] has the least stored length, and is the leftmost such item. *)
Theorem chooseitem_leftmost_min n strs s fuel :
  0 ≤ n → reachable n strs s → active s ≠ [] → (length (active s) ≤ fuel)%nat →
  ∃ b pre post, chooseitem fuel s = Ok b ∧ active s = pre ++ b :: post ∧
    (∀ j, j ∈ pre → len_lt s b j) ∧ (∀ j, j ∈ post → len_le s b j).
Proof.
  intros Hn Hr Hne Hf.
  destruct (reachable_SInv _ _ _ Hn Hr) as (C & hs & cols & Hs).
  pose proof (s_ginv _ _ _ _ _ _ Hs) as Hg.
  pose proof (g_layout _ _ _ _ _ Hg) as Hl.
  rewrite (active_GInv _ _ _ _ _ Hg) in *.
  destruct (chooseitem_spec _ _ _ _ _ Hg fuel Hne Hf) as (b & Hb & pre & post & -> & Hpre & Hpost).
  destruct (g_horiz _ _ _ _ _ Hg) as (_ & _ & Hrg).
  assert (Hlen : ∀ j, j ∈ pre ++ b :: post → len s j = Ok (D s j)).
  { intros j Hj. apply len_ok, (item_vn _ _ _ Hl). specialize (Hrg j Hj). lia. }
  exists b, pre, post. split_and!; [done..| |].
  - intros j Hj. exists (D s b), (D s j). split_and!.
    + apply Hlen. elem_goal.
    + apply Hlen. elem_goal.
    + by apply Hpre.
  - intros j Hj. exists (D s b), (D s j). split_and!.
    + apply Hlen. elem_goal.
    + apply Hlen. elem_goal.
    + by apply Hpost.
Qed.

Lemma chooseitem_leftmost_min_witness :
  ∃ b pre post, chooseitem 7 ex_matrix = Ok b ∧ active ex_matrix = pre ++ b :: post ∧
    (∀ j, j ∈ pre → len_lt ex_matrix b j) ∧ (∀ j, j ∈ post → len_le ex_matrix b j).
Proof.
  apply (chooseitem_leftmost_min 7 ex_rows ex_matrix 7).
  - lia.
  - apply reach_built. vm_compute. reflexivity.
  - vm_compute. discriminate.
  - vm_compute. lia.
Defined.

(** C6, as the claim states it, fails: on a matrix of two items [addrow]
    is given a row of length one, which differs from the item count, and it
    appends the row instead of aborting. *)
Lemma addrow_short_row_accepted :
  built 2 [] (fresh 2) ∧ String.length "1" ≠ 2%nat ∧
  ∃ s', addrow "1" (fresh 2) = Ok s' ∧ nrows s' = 1.
Proof.
  split_and!.
  - vm_compute. reflexivity.
  - discriminate.
  - eexists. split; vm_compute; reflexivity.
Qed.

(** C6, amended. On a matrix built with [n] items, [addrow] aborts, on an
    assert, exactly when the row is longer than [n] or holds no '1'; a row
    of at most [n] characters with a '1' in it is appended, also when it is
    shorter than [n].  The rows of a length other than [n] are turned down
    by the loop of [main] that calls [addrow]. *)
Theorem addrow_abort_iff n strs s str :
  0 ≤ n → built n strs s →
  (addrow str s = Err AssertFail ↔
     n < Z.of_nat (String.length str) ∨ "1"%char ∉ chars str) ∧
  ((∃ s', addrow str s = Ok s' ∧ nrows s' = nrows s + 1) ↔
     Z.of_nat (String.length str) ≤ n ∧ "1"%char ∈ chars str) ∧
  (∀ rows, str ∈ rows → Z.of_nat (String.length str) ≠ n →
     ∃ e, build n rows = Err e).
Proof.
  intros Hn Hb. destruct (built_Layout _ _ _ Hn Hb) as (cols & Hg & HF).
  pose proof (g_layout _ _ _ _ _ Hg) as Hl.
  pose proof (addrow_accepts n strs s str Hn Hb) as Hacc.
  split_and!.
  - split.
    + intros He.
      destruct (decide (n < Z.of_nat (String.length str))) as [?|Hlen]; [by left|].
      right. intros H1. destruct (proj2 Hacc) as [s' Hs']; [split; [lia|done]|].
      congruence.
    + intros [Hlen|H1].
      * apply addrow_long. rewrite (nitems_Layout _ _ _ Hl). lia.
      * destruct (decide (n < Z.of_nat (String.length str))) as [Hlen|Hlen].
        { apply addrow_long. rewrite (nitems_Layout _ _ _ Hl). lia. }
        apply (addrow_empty _ _ _ _ Hl); [lia|]. by apply ones_nil.
  - split.
    + intros (s' & Hs' & _). apply Hacc. by exists s'.
    + intros [Hlen H1].
      destruct (addrow_spec _ _ _ _ _ str Hg HF Hlen)
        as (s' & _ & Hs' & _ & _ & _ & _ & Hnr & _).
      * intros H0. by apply (ones_nil _ 0) in H0.
      * by exists s'.
  - intros rws Hin Hne. unfold build.
    destruct (DLink_new n) as [dl|e]; cbn [mbind result_bind]; [|by exists e].
    apply (for_each_err rws _ str Hin). intros st.
    rewrite bool_decide_false by done. by exists AssertFail.
Qed.

Lemma addrow_abort_iff_witness :
  (addrow "000" ex_matrix = Err AssertFail ↔
     7 < Z.of_nat (String.length "000") ∨ "1"%char ∉ chars "000") ∧
  ((∃ s', addrow "000" ex_matrix = Ok s' ∧ nrows s' = nrows ex_matrix + 1) ↔
     Z.of_nat (String.length "000") ≤ 7 ∧ "1"%char ∈ chars "000") ∧
  (∀ rows, "000"%string ∈ rows → Z.of_nat (String.length "000") ≠ 7 →
     ∃ e, build 7 rows = Err e).
Proof.
  apply (addrow_abort_iff 7 ex_rows ex_matrix "000").
  - lia.
  - vm_compute. reflexivity.
Defined.

(** C7, as the claim states it, fails: the constructor is given the item
    count 0, which is not positive, and it succeeds. *)
Lemma DLink_new_zero_succeeds :
  DLink_new 0 = Ok (mkDLink [mkNode 0 0 0] [mkNode 0 0 0; mkNode 0 0 0] 0 0) ∧
  ¬ ((∃ e, DLink_new 0 = Err e) ↔ 0 ≤ 0).
Proof.
  assert (H : DLink_new 0
              = Ok (mkDLink [mkNode 0 0 0] [mkNode 0 0 0; mkNode 0 0 0] 0 0))
    by (vm_compute; reflexivity).
  split; [exact H|]. intros [_ Hf]. destruct Hf as [e He]; [lia|]. congruence.
Qed.

(** C7, amended. The constructor has no check of the item count, which
    is an [int].  It fails on a count below -1, where a vector is resized
    to a negative size, and on a count from [2 ^ 30] on, where the [int]
    arithmetic of [init] overflows ([nitems+1] at [int_max], [i+nitems]
    before that), and on no other count.  For every count [n] from 0 to
    [2 ^ 30 - 1], so for every positive one in that range, it succeeds, as
    the constructor over [Z] does, with [n + 1] item slots and [n + 2]
    nodes; slot [i] is named [i], its links are those of one circular list
    through the root and the items in order, so that the active items are
    1 to [n]; every item has length 0 and a vertical list that holds it
    alone; the node after the items is one spacer, with top 0; both
    counters are 0.  The check that the count is positive is the caller's:
    [main] keeps the lines that are not empty and asserts [nitems > 0]
    before it constructs, so that with no row it reads [rows[0]] outside
    the vector, and otherwise it constructs with the length of the first
    row, which is positive. *)
Theorem DLink_new_spec n :
  int_min ≤ n ≤ int_max →
  (DLink_new_int n = Err LengthError ↔ n < -1) ∧
  (DLink_new_int n = Err Overflow ↔ 2 ^ 30 ≤ n) ∧
  ((∃ e, DLink_new_int n = Err e) ↔ n < -1 ∨ 2 ^ 30 ≤ n) ∧
  (0 ≤ n < 2 ^ 30 →
   ∃ s, DLink_new_int n = Ok s ∧ DLink_new n = Ok s ∧
     Z.of_nat (length (headers s)) = n + 1 ∧
     Z.of_nat (length (nodes s)) = n + 2 ∧
     (∀ i, 0 ≤ i ≤ n →
        name s i = Ok i ∧
        llink s i = Ok (if decide (i = 0) then n else i - 1) ∧
        rlink s i = Ok (if decide (i = n) then 0 else i + 1) ∧
        len s i = Ok 0 ∧ ulink s i = Ok i ∧ dlink s i = Ok i) ∧
     active s = seqZ 1 n ∧
     top s (n + 1) = Ok 0 ∧ isspacer s (lastindex s) = Ok true ∧
     ulink s (n + 1) = Ok 0 ∧ dlink s (n + 1) = Ok 0 ∧
     nrows s = 0 ∧ ncount s = 0) ∧
  (∀ fuel input,
     (List.filter keep_line input = [] ∧ main fuel input = Err OutOfRange) ∨
     (∃ row0 rest, List.filter keep_line input = row0 :: rest ∧
        0 < Z.of_nat (String.length row0) ∧
        main fuel input
        = (dl ← build (Z.of_nat (String.length row0)) (row0 :: rest);
           st ← rdance fuel (mkSearch dl [] (mkCounter 0 (row0 :: rest) []));
           Ok (output (vis st))))).
Proof.
  intros Hint.
  assert (Hcases :
    (n < -1 ∧ DLink_new_int n = Err LengthError) ∨
    (-1 ≤ n < 2 ^ 30 ∧ DLink_new_int n = Ok (fresh n)) ∨
    (2 ^ 30 ≤ n ∧ DLink_new_int n = Err Overflow)).
  { destruct (decide (n < -1)) as [Hlo|Hlo].
    - left. split; [done|].
      rewrite DLink_new_int_small by (unfold int_min in *; lia).
      by apply DLink_new_err.
    - destruct (decide (n < 2 ^ 30)) as [Hhi|Hhi].
      + right. left. split; [lia|].
        rewrite DLink_new_int_small by (unfold int_min in *; lia).
        apply DLink_new_ok. lia.
      + right. right. split; [lia|].
        apply DLink_new_int_overflow. unfold int_max in *. lia. }
  split_and!.
  - split.
    + intros He. destruct Hcases as [[? _]|[[_ H]|[_ H]]]; [done|congruence..].
    + intros Hn. destruct Hcases as [[_ H]|[[? _]|[? _]]]; [done|lia..].
  - split.
    + intros He. destruct Hcases as [[_ H]|[[_ H]|[? _]]]; [congruence..|done].
    + intros Hn. destruct Hcases as [[? _]|[[? _]|[_ H]]]; [lia..|done].
  - split.
    + intros [e He]. destruct Hcases as [[? _]|[[_ H]|[? _]]];
        [by left|congruence|by right].
    + intros Hn. destruct Hcases as [[_ H]|[[? _]|[_ H]]];
        [by exists LengthError|lia|by exists Overflow].
  - intros Hn. exists (fresh n).
    split; [destruct Hcases as [[? _]|[[_ H]|[? _]]]; [lia|done|lia]|].
    split; [apply DLink_new_ok; lia|].
    assert (Hn0 : 0 ≤ n) by lia.
    destruct (fresh_views n Hn0) as (Hh & Hv & Hd & Hu & Hdn & Hlh & Hln).
    pose proof (fresh_GInv n Hn0) as Hg.
    pose proof (g_layout _ _ _ _ _ Hg) as Hl.
    assert (Hsp : vn (fresh n) (n + 1)).
    { unfold vn, inb. rewrite Hln. lia. }
    split_and!.
    + rewrite Hlh. lia.
    + rewrite Hln. lia.
    + intros i Hi. destruct (Hh i Hi) as (Hnm & Hll & Hrl).
      destruct (Hv i Hi) as (HD & HU & HDn).
      pose proof (item_vh _ _ _ Hl i Hi) as Hvh.
      pose proof (item_vn _ _ _ Hl i Hi) as Hvn.
      split_and!.
      * unfold name. rewrite (vec_get_ok _ _ Hvh). simpl. f_equal. exact Hnm.
      * rewrite (llink_ok _ _ Hvh), Hll. f_equal.
        rewrite Z.rem_mod_nonneg by lia. symmetry. case_decide.
        -- apply (Z.mod_unique_pos _ _ 0); lia.
        -- apply (Z.mod_unique_pos _ _ 1); lia.
      * rewrite (rlink_ok _ _ Hvh), Hrl. f_equal.
        rewrite Z.rem_mod_nonneg by lia. symmetry. case_decide.
        -- apply (Z.mod_unique_pos _ _ 1); lia.
        -- apply (Z.mod_unique_pos _ _ 0); lia.
      * by rewrite (len_ok _ _ Hvn), HD.
      * by rewrite (ulink_ok _ _ Hvn), HU.
      * by rewrite (dlink_ok _ _ Hvn), HDn.
    + by apply (active_GInv _ _ _ _ _ Hg).
    + by rewrite (top_ok _ _ Hsp), Hd.
    + unfold isspacer, lastindex. rewrite Hln.
      replace (Z.of_nat (Z.to_nat (n + 2)) - 1) with (n + 1) by lia.
      rewrite (top_ok _ _ Hsp), Hd. done.
    + by rewrite (ulink_ok _ _ Hsp), Hu.
    + by rewrite (dlink_ok _ _ Hsp), Hdn.
    + done.
    + done.
  - intros fuel input. apply main_constructs_positive.
Qed.

Lemma DLink_new_spec_witness :
  ∃ s, DLink_new_int 7 = Ok s ∧ DLink_new 7 = Ok s ∧
     Z.of_nat (length (headers s)) = 7 + 1 ∧
     Z.of_nat (length (nodes s)) = 7 + 2 ∧
     (∀ i, 0 ≤ i ≤ 7 →
        name s i = Ok i ∧
        llink s i = Ok (if decide (i = 0) then 7 else i - 1) ∧
        rlink s i = Ok (if decide (i = 7) then 0 else i + 1) ∧
        len s i = Ok 0 ∧ ulink s i = Ok i ∧ dlink s i = Ok i) ∧
     active s = seqZ 1 7 ∧
     top s (7 + 1) = Ok 0 ∧ isspacer s (lastindex s) = Ok true ∧
     ulink s (7 + 1) = Ok 0 ∧ dlink s (7 + 1) = Ok 0 ∧
     nrows s = 0 ∧ ncount s = 0.
Proof.
  apply (proj1 (proj2 (proj2 (proj2
          (DLink_new_spec 7 ltac:(unfold int_min, int_max; lia)))))).
  lia.
Defined.

(** C8. On a matrix built by the constructor and [addrow], the search that
    chooses with [chooseitem] and the search that always chooses the first
    active item, the root's next link, both return, and the sets of options
    they report to a recording visitor are the same: a set of options is
    reported by the one exactly when it is reported by the other. *)
Theorem first_item_same_solutions n strs s fuel :
  0 ≤ n → built n strs s → (search_fuel s ≤ fuel)%nat →
  ∃ st1 st2,
    rdance_with chooseitem fuel (mkSearch s [] ([] : Recorder)) = Ok st1 ∧
    rdance_with firstitem fuel (mkSearch s [] ([] : Recorder)) = Ok st2 ∧
    ∀ S : gset Z, solution_in (vis st1) S ↔ solution_in (vis st2) S.
Proof.
  intros Hn Hb Hf.
  destruct (search_built chooseitem n strs s [] ([] : Recorder) fuel
              (chooseitem_ok n (items_of <$> strs)) Hn Hb Hf) as (tr1 & c1 & Hrun1 & HP1).
  destruct (search_built firstitem n strs s [] ([] : Recorder) fuel
              (firstitem_ok n (items_of <$> strs)) Hn Hb Hf) as (tr2 & c2 & Hrun2 & HP2).
  rewrite visits_recorder in Hrun1, Hrun2. simpl in Hrun1, Hrun2.
  eexists _, _. split_and!; [exact Hrun1|exact Hrun2|]. simpl.
  intros S. split; by eapply Post_same_solutions.
Qed.

Lemma first_item_same_solutions_witness :
  ∃ st1 st2,
    rdance_with chooseitem 64 (mkSearch ex_matrix [] ([] : Recorder)) = Ok st1 ∧
    rdance_with firstitem 64 (mkSearch ex_matrix [] ([] : Recorder)) = Ok st2 ∧
    ∀ S : gset Z, solution_in (vis st1) S ↔ solution_in (vis st2) S.
Proof.
  apply (first_item_same_solutions 7 ex_rows ex_matrix 64).
  - lia.
  - vm_compute. reflexivity.
  - vm_compute. lia.
Defined.

(** C9. When [addrow] accepts a string on a built matrix, it does what it
    does on the string with every character other than '1' replaced by
    '0': no other character is told apart from '0', none is refused.  It
    appends one node for each '1' and one spacer; the new nodes, in order,
    belong to the items at the positions of the '1's; and the length of
    item [j] grows by one when position [j - 1] of the string holds '1',
    and is unchanged otherwise. *)
Theorem addrow_only_ones n strs s str s' :
  0 ≤ n → built n strs s → addrow str s = Ok s' →
  addrow (to_bits str) s = Ok s' ∧
  Z.of_nat (length (nodes s'))
    = Z.of_nat (length (nodes s))
      + Z.of_nat (length (filter (λ c, c = "1"%char) (chars str))) + 1 ∧
  (∀ t j, items_of str !! t = Some j →
     top s' (Z.of_nat (length (nodes s)) + Z.of_nat t) = Ok j ∧
     String.get (Z.to_nat (j - 1)) str = Some "1"%char) ∧
  (∀ j, 1 ≤ j ≤ n →
     ∃ l, len s j = Ok l ∧
          len s' j = Ok (l + if decide (String.get (Z.to_nat (j - 1)) str
                                        = Some "1"%char) then 1 else 0)).
Proof.
  intros Hn Hb Hs'. destruct (built_Layout _ _ _ Hn Hb) as (cols & Hg & HF).
  pose proof (g_layout _ _ _ _ _ Hg) as Hl.
  destruct (proj1 (addrow_accepts n strs s str Hn Hb)) as [Hlen H1]; [by exists s'|].
  destruct (addrow_spec _ _ _ _ _ str Hg HF Hlen)
    as (s'' & cols' & Hs'' & Hg' & _ & Hnodes & HD & _).
  { intros H0. by apply (ones_nil _ 0) in H0. }
  rewrite Hs' in Hs''. injection Hs'' as <-.
  pose proof (g_layout _ _ _ _ _ Hg') as Hl'.
  assert (Hitem : ∀ j, j ∈ items_of str ↔
                       1 ≤ j ∧ String.get (Z.to_nat (j - 1)) str = Some "1"%char).
  { intros j. unfold items_of. rewrite ones_elem. split.
    - intros (t & Ht & ->). rewrite string_get_chars.
      replace (Z.to_nat (0 + 1 + Z.of_nat t - 1)) with t by lia. split; [lia|done].
    - intros [Hj Hget]. exists (Z.to_nat (j - 1)).
      rewrite <- string_get_chars. split; [done|lia]. }
  split_and!.
  - by rewrite addrow_to_bits.
  - rewrite Hnodes. unfold items_of. by rewrite ones_length.
  - intros t j Ht. split.
    + assert (Hreal : real n ((items_of <$> strs) ++ [items_of str])
                        (Z.of_nat (length (nodes s)) + Z.of_nat t) j).
      { apply real_app. right. exists t. split; [done|].
        rewrite (lay_nodes _ _ _ Hl). lia. }
      destruct (real_vn _ _ _ Hl' _ _ Hreal) as (Hvn & _).
      rewrite (top_ok _ _ Hvn). f_equal. by apply (lay_top _ _ _ Hl').
    + apply Hitem. by eapply list_elem_of_lookup_2.
  - intros j Hj. exists (D s j). split.
    + apply len_ok, (item_vn _ _ _ Hl). lia.
    + rewrite (len_ok s' j) by (apply (item_vn _ _ _ Hl'); lia).
      rewrite (HD j Hj). f_equal. f_equal.
      destruct (decide (j ∈ items_of str)) as [Hin|Hin]; case_decide as Hg1; try done.
      * apply Hitem in Hin as [_ ?]. done.
      * destruct Hin. apply Hitem. split; [lia|done].
Qed.

Lemma addrow_only_ones_witness :
  ∃ s', addrow "10x0001" ex_matrix = Ok s' ∧
  addrow (to_bits "10x0001") ex_matrix = Ok s' ∧
  Z.of_nat (length (nodes s'))
    = Z.of_nat (length (nodes ex_matrix))
      + Z.of_nat (length (filter (λ c, c = "1"%char) (chars "10x0001"))) + 1 ∧
  (∀ t j, items_of "10x0001" !! t = Some j →
     top s' (Z.of_nat (length (nodes ex_matrix)) + Z.of_nat t) = Ok j ∧
     String.get (Z.to_nat (j - 1)) "10x0001" = Some "1"%char) ∧
  (∀ j, 1 ≤ j ≤ 7 →
     ∃ l, len ex_matrix j = Ok l ∧
          len s' j = Ok (l + if decide (String.get (Z.to_nat (j - 1)) "10x0001"
                                        = Some "1"%char) then 1 else 0)).
Proof.
  eexists. split; [vm_compute; reflexivity|].
  apply (addrow_only_ones 7 ex_rows ex_matrix "10x0001").
  - lia.
  - vm_compute. reflexivity.
  - vm_compute. reflexivity.
Defined.

(** C10. Two top-level runs of the search on matrices built by the same
    constructor call and the same [addrow] inputs, and a run on the matrix
    that an earlier run left behind, all return, whatever (sufficient) fuel
    each is given, and make the same sequence of callbacks: as many, in the
    same order, each with the same choice stack. *)
Theorem search_deterministic n strs s1 s2 fuel1 fuel2 :
  0 ≤ n → built n strs s1 → built n strs s2 →
  (search_fuel s1 ≤ fuel1)%nat → (search_fuel s2 ≤ fuel2)%nat →
  ∃ st1 st2 st3,
    rdance fuel1 (mkSearch s1 [] ([] : Recorder)) = Ok st1 ∧
    rdance fuel2 (mkSearch s2 [] ([] : Recorder)) = Ok st2 ∧
    rdance fuel2 (mkSearch (mat st1) [] ([] : Recorder)) = Ok st3 ∧
    (vis st2).*2 = (vis st1).*2 ∧ (vis st3).*2 = (vis st1).*2.
Proof.
  intros Hn Hb1 Hb2 Hf1 Hf2. pose proof (built_fun _ _ _ _ Hb1 Hb2) as <-.
  destruct (search_built chooseitem n strs s1 [] ([] : Recorder) (search_fuel s1)
              (chooseitem_ok n (items_of <$> strs)) Hn Hb1 (le_n _))
    as (tr & c & Hrun & _).
  rewrite visits_recorder in Hrun. simpl in Hrun.
  pose proof (rdance_sim same_record chooseitem recorder_visit_sim chooseitem_sim) as Hsim.
  destruct (Hsim (search_fuel s1) fuel1 (mkSearch s1 [] []) (mkSearch s1 [] []) Hf1)
    with (a := mkSearch (with_ncount s1 c) [] tr) as (st1 & Hr1 & Hm1 & _ & Hv1);
    [by split_and!; [apply same_matrix_refl| |constructor]|done|].
  destruct (Hsim (search_fuel s1) fuel2 (mkSearch s1 [] []) (mkSearch s1 [] []) Hf2)
    with (a := mkSearch (with_ncount s1 c) [] tr) as (st2 & Hr2 & _ & _ & Hv2);
    [by split_and!; [apply same_matrix_refl| |constructor]|done|].
  destruct (Hsim (search_fuel s1) fuel2 (mkSearch s1 [] []) (mkSearch (mat st1) [] []) Hf2)
    with (a := mkSearch (with_ncount s1 c) [] tr) as (st3 & Hr3 & _ & _ & Hv3);
    [|done|].
  { split_and!; simpl; [|done|constructor].
    destruct Hm1 as (E1 & E2 & E3). simpl in *. by split_and!. }
  exists st1, st2, st3. split_and!; [done..| |].
  - apply same_record_stacks in Hv1, Hv2. simpl in *. congruence.
  - apply same_record_stacks in Hv1, Hv3. simpl in *. congruence.
Qed.

Lemma search_deterministic_witness :
  ∃ st1 st2 st3,
    rdance 64 (mkSearch ex_matrix [] ([] : Recorder)) = Ok st1 ∧
    rdance 100 (mkSearch ex_matrix [] ([] : Recorder)) = Ok st2 ∧
    rdance 100 (mkSearch (mat st1) [] ([] : Recorder)) = Ok st3 ∧
    (vis st2).*2 = (vis st1).*2 ∧ (vis st3).*2 = (vis st1).*2.
Proof.
  apply (search_deterministic 7 ex_rows ex_matrix ex_matrix 64 100).
  - lia.
  - vm_compute. reflexivity.
  - vm_compute. reflexivity.
  - vm_compute. lia.
  - vm_compute. lia.
Defined.

(** * Further properties of the code *)

(** ** Columns *)

(** The nodes met when following down links from [p] until [i]. *)
Fixpoint vwalk (fuel : nat) (s : DLink) (i p : Z) : list Z :=
  match fuel with
  | O => []
  | S fuel' => if decide (p = i) then [] else p :: vwalk fuel' s i (Dn s p)
  end.

(** The nodes linked into the column of item [i], from top to bottom: what
    [for (p = dlink(i); p != i; p = dlink(p))] walks through. *)
Definition column (s : DLink) (i : Z) : list Z :=
  vwalk (length (nodes s)) s i (Dn s i).

Lemma vwalk_chain s pv xs b : ∀ a fuel,
  chain (Dn s) pv a xs b → b ∉ xs → (length xs < fuel)%nat →
  vwalk fuel s b (Dn s a) = xs.
Proof.
  induction xs as [|x xs IH]; intros a fuel Hch Hb Hf; simpl in *.
  - destruct Hch as [-> _]. destruct fuel; [lia|]. simpl. by rewrite decide_True.
  - destruct Hch as (-> & _ & Hch). destruct fuel as [|fuel]; [lia|]. simpl.
    apply not_elem_of_cons in Hb as [Hb Hb'].
    rewrite decide_False by done. f_equal. apply IH; [done..|lia].
Qed.

Lemma column_GInv n rws s hs cols j :
  GInv n rws s hs cols → 1 ≤ j ≤ n → column s j = cols j.
Proof.
  intros Hg Hj. pose proof (g_layout _ _ _ _ _ Hg) as Hl.
  destruct (g_cols _ _ _ _ _ Hg j Hj) as (Hch & Hnd & Hreal & Hlen).
  unfold column. eapply vwalk_chain; [exact Hch| |].
  - intros Hin. apply Hreal in Hin.
    destruct (real_vn _ _ _ Hl _ _ Hin) as (_ & ? & _). lia.
  - assert (Hsub : cols j ⊆+ seqZ (n + 1) (Z.of_nat (length (nodes s)) - (n + 1))).
    { apply NoDup_submseteq; [done|]. intros q Hq. apply Hreal in Hq.
      destruct (real_vn _ _ _ Hl _ _ Hq) as (Hvn & ? & _).
      apply elem_of_seqZ. unfold vn, inb in Hvn. lia. }
    apply submseteq_length in Hsub. rewrite length_seqZ in Hsub.
    pose proof (lay_nodes _ _ _ Hl). pose proof (sp_lower n rws (length rws)). lia.
Qed.

(** What the invariant of the search says of an active item, in terms of
    the walks over the matrix. *)
Lemma reachable_views n strs s :
  0 ≤ n → reachable n strs s →
  ∃ C cols, SInv n (items_of <$> strs) s C (active s) cols ∧
            ∀ j, 1 ≤ j ≤ n → column s j = cols j.
Proof.
  intros Hn Hr. destruct (reachable_SInv _ _ _ Hn Hr) as (C & hs & cols & Hs).
  pose proof (s_ginv _ _ _ _ _ _ Hs) as Hg.
  exists C, cols. rewrite (active_GInv _ _ _ _ _ Hg). split; [done|].
  intros j Hj. by eapply column_GInv.
Qed.

Lemma active_range n rws s C hs cols i :
  SInv n rws s C hs cols → i ∈ hs → 1 ≤ i ≤ n.
Proof. intros Hs Hi. by apply (s_active _ _ _ _ _ _ Hs). Qed.

(** A node in the column of an active item lies in a live row: every node
    of that row is linked into the column of its item. *)
Lemma column_node_live n rws s C hs cols i p :
  SInv n rws s C hs cols → i ∈ hs → p ∈ cols i →
  ∃ r row t0, rws !! r = Some row ∧ row !! t0 = Some i ∧ p = pos n rws r t0 ∧
    ∀ t j, row !! t = Some j → j ∈ hs ∧ pos n rws r t ∈ cols j.
Proof.
  intros Hs Hi Hp. pose proof (s_ginv _ _ _ _ _ _ Hs) as Hg.
  pose proof (g_layout _ _ _ _ _ Hg) as Hl.
  pose proof (proj1 (s_active _ _ _ _ _ _ Hs i) Hi) as [Hir HiC].
  destruct (g_cols _ _ _ _ _ Hg i Hir) as (_ & _ & Hreal & _).
  destruct (Hreal p Hp) as (r & row & t0 & Hr & Ht0 & ->).
  exists r, row, t0. split_and!; [done..|].
  pose proof (proj1 (s_live _ _ _ _ _ _ Hs r row t0 i Hr Ht0 HiC) Hp) as Hlive.
  intros t j Ht.
  assert (HjC : j ∉ C) by (apply Hlive; by eapply list_elem_of_lookup_2).
  split.
  - apply (s_active _ _ _ _ _ _ Hs). split; [|done].
    by eapply row_items_range.
  - by apply (s_live _ _ _ _ _ _ Hs r row t j Hr Ht HjC).
Qed.

(** In every reachable state, for a node [p] in the column of an active
    item, [hide(p)] followed by [unhide(p)] returns and gives back the state
    [hide(p)] started from. *)
Theorem hide_unhide_restores n strs s i p fuel :
  0 ≤ n → reachable n strs s → i ∈ active s → p ∈ column s i →
  (length (nodes s) ≤ fuel)%nat →
  ∃ s', hide fuel p s = Ok s' ∧ unhide fuel p s' = Ok s.
Proof.
  intros Hn Hr Hi Hp Hf.
  destruct (reachable_views _ _ _ Hn Hr) as (C & cols & Hs & Hcol).
  pose proof (s_ginv _ _ _ _ _ _ Hs) as Hg.
  pose proof (g_layout _ _ _ _ _ Hg) as Hl.
  rewrite (Hcol i (active_range _ _ _ _ _ _ _ Hs Hi)) in Hp.
  destruct (column_node_live _ _ _ _ _ _ _ _ Hs Hi Hp)
    as (r & row & t0 & Hr0 & Ht0 & -> & Hrow).
  pose proof (row_length _ _ _ _ _ Hl Hr0) as Hrl.
  destruct (hide_spec _ _ _ _ _ r row t0 Hg Hr0 (lookup_lt_Some _ _ _ Ht0))
    with (fuel := fuel) as (s' & Hh & _ & Hun); [|lia|].
  { intros t j Ht _. by apply Hrow. }
  exists s'. split; [done|].
  specialize (Hun (ncount s) fuel ltac:(lia)).
  rewrite <- (hide_ncount _ _ _ _ Hh) in Hun at 1.
  by rewrite !with_ncount_id in Hun.
Qed.

Lemma hide_unhide_restores_witness :
  ∃ s', hide 32 9 ex_matrix = Ok s' ∧ unhide 32 9 s' = Ok ex_matrix.
Proof.
  apply (hide_unhide_restores 7 ex_rows ex_matrix 1 9 32).
  - lia.
  - apply reach_built. vm_compute. reflexivity.
  - vm_compute. left.
  - vm_compute. left.
  - vm_compute. lia.
Defined.
(** ** Both lists are doubly linked *)

Lemma chain_circular nx pv a xs x :
  chain nx pv a xs a → x ∈ a :: xs →
  nx (pv x) = x ∧ pv (nx x) = x ∧ pv x ∈ a :: xs ∧ nx x ∈ a :: xs.
Proof.
  intros Hch Hx. apply elem_of_cons in Hx as [->|Hx].
  - destruct (chain_last _ _ _ _ _ Hch) as [Hp Hn].
    assert (Hn' : nx a ∈ a :: xs).
    { apply elem_of_app in Hn as [Hn|Hn%list_elem_of_singleton].
      - by right.
      - rewrite Hn. left. }
    split_and!; [| |done|done].
    + destruct (chain_ends _ _ _ _ _ Hch) as [_ Hl].
      destruct (last xs) as [xl|] eqn:El; simpl in Hl.
      * apply last_Some in El as [xs' ->].
        destruct (chain_next _ _ _ _ _ _ _ Hch) as [Hq _]. simpl in Hq.
        by rewrite Hl.
      * apply last_None in El as ->. simpl in Hch. destruct Hch as [H1 H2].
        by rewrite H2.
    + destruct xs as [|x1 xs']; simpl in Hch.
      * destruct Hch as [H1 H2]. by rewrite H1.
      * destruct Hch as (H1 & H2 & _). by rewrite H1.
  - apply list_elem_of_split in Hx as (xs1 & xs2 & ->).
    destruct (chain_mid _ _ _ _ _ _ _ Hch) as (Hp & Hn & H1 & H2).
    split_and!; [done..| |].
    + apply elem_of_cons in Hp as [->|Hp]; [left|right]. elem_goal.
    + apply elem_of_app in Hn as [Hn|Hn%list_elem_of_singleton].
      * right. elem_goal.
      * rewrite Hn. left.
Qed.

(** In every reachable state the horizontal list through the root and the
    active items is doubly linked: for the root and every active item [x],
    the left link of its right neighbour and the right link of its left
    neighbour are [x], and both neighbours are the root or active.  These
    are the asserts of [print]. *)
Theorem horizontal_links_consistent n strs s x :
  0 ≤ n → reachable n strs s → x ∈ 0 :: active s →
  ∃ l r, llink s x = Ok l ∧ rlink s x = Ok r ∧
         rlink s l = Ok x ∧ llink s r = Ok x ∧
         l ∈ 0 :: active s ∧ r ∈ 0 :: active s.
Proof.
  intros Hn Hr Hx.
  destruct (reachable_views _ _ _ Hn Hr) as (C & cols & Hs & _).
  pose proof (s_ginv _ _ _ _ _ _ Hs) as Hg.
  pose proof (g_layout _ _ _ _ _ Hg) as Hl.
  destruct (g_horiz _ _ _ _ _ Hg) as (Hch & _ & Hrg).
  assert (Hvh : ∀ y, y ∈ 0 :: active s → vh s y).
  { intros y [->|Hy]%elem_of_cons; apply (item_vh _ _ _ Hl); [lia|].
    apply Hrg in Hy. lia. }
  destruct (chain_circular _ _ _ _ _ Hch Hx) as (H1 & H2 & H3 & H4).
  exists (Lh s x), (Rh s x).
  rewrite (llink_ok _ _ (Hvh _ Hx)), (rlink_ok _ _ (Hvh _ Hx)).
  rewrite (rlink_ok _ _ (Hvh _ H3)), (llink_ok _ _ (Hvh _ H4)), H1, H2.
  done.
Qed.

Lemma horizontal_links_consistent_witness :
  ∃ l r, llink ex_matrix 0 = Ok l ∧ rlink ex_matrix 0 = Ok r ∧
         rlink ex_matrix l = Ok 0 ∧ llink ex_matrix r = Ok 0 ∧
         l ∈ 0 :: active ex_matrix ∧ r ∈ 0 :: active ex_matrix.
Proof.
  apply (horizontal_links_consistent 7 ex_rows ex_matrix 0).
  - lia.
  - apply reach_built. vm_compute. reflexivity.
  - left.
Defined.

(** In every reachable state the column of every active item [i] is a
    doubly linked circular list through [i]: for [i] and every node [p] of
    the column, the up link of its lower neighbour and the down link of its
    upper neighbour are [p]; every node of the column has [i] as its top;
    and the stored length of [i] is the number of nodes in the column. *)
Theorem column_consistent n strs s i :
  0 ≤ n → reachable n strs s → i ∈ active s →
  len s i = Ok (Z.of_nat (length (column s i))) ∧
  (∀ p, p ∈ column s i → top s p = Ok i) ∧
  (∀ p, p ∈ i :: column s i →
     ∃ u d, ulink s p = Ok u ∧ dlink s p = Ok d ∧
            dlink s u = Ok p ∧ ulink s d = Ok p ∧
            u ∈ i :: column s i ∧ d ∈ i :: column s i).
Proof.
  intros Hn Hr Hi.
  destruct (reachable_views _ _ _ Hn Hr) as (C & cols & Hs & Hcol).
  pose proof (s_ginv _ _ _ _ _ _ Hs) as Hg.
  pose proof (g_layout _ _ _ _ _ Hg) as Hl.
  pose proof (active_range _ _ _ _ _ _ _ Hs Hi) as Hir.
  rewrite (Hcol i Hir).
  destruct (g_cols _ _ _ _ _ Hg i Hir) as (Hch & _ & Hreal & Hlen).
  assert (Hvn : ∀ y, y ∈ i :: cols i → vn s y).
  { intros y [->|Hy]%elem_of_cons; [apply (item_vn _ _ _ Hl); lia|].
    by destruct (real_vn _ _ _ Hl _ _ (Hreal _ Hy)). }
  split_and!.
  - rewrite (len_ok _ _ (Hvn i ltac:(left))). by rewrite Hlen.
  - intros p Hp. rewrite (top_ok _ _ (Hvn p ltac:(by right))).
    f_equal. apply (lay_top _ _ _ Hl). by apply Hreal.
  - intros p Hp.
    destruct (chain_circular _ _ _ _ _ Hch Hp) as (H1 & H2 & H3 & H4).
    exists (U s p), (Dn s p).
    rewrite (ulink_ok _ _ (Hvn _ Hp)), (dlink_ok _ _ (Hvn _ Hp)).
    rewrite (dlink_ok _ _ (Hvn _ H3)), (ulink_ok _ _ (Hvn _ H4)), H1, H2.
    done.
Qed.

Lemma column_consistent_witness :
  len ex_matrix 4 = Ok (Z.of_nat (length (column ex_matrix 4))) ∧
  (∀ p, p ∈ column ex_matrix 4 → top ex_matrix p = Ok 4) ∧
  (∀ p, p ∈ 4 :: column ex_matrix 4 →
     ∃ u d, ulink ex_matrix p = Ok u ∧ dlink ex_matrix p = Ok d ∧
            dlink ex_matrix u = Ok p ∧ ulink ex_matrix d = Ok p ∧
            u ∈ 4 :: column ex_matrix 4 ∧ d ∈ 4 :: column ex_matrix 4).
Proof.
  apply (column_consistent 7 ex_rows ex_matrix 4).
  - lia.
  - apply reach_built. vm_compute. reflexivity.
  - vm_compute. do 3 right. left.
Defined.

(** In every reachable state, [getoption] of a node in the column of an
    active item [i] returns the index, counted from zero, of a row that was
    added with a '1' at the position of [i]. *)
Theorem getoption_column n strs s i p :
  0 ≤ n → reachable n strs s → i ∈ active s → p ∈ column s i →
  ∃ r, getoption s p = Ok r ∧ has_item strs i r.
Proof.
  intros Hn Hr Hi Hp.
  destruct (reachable_views _ _ _ Hn Hr) as (C & cols & Hs & Hcol).
  pose proof (s_ginv _ _ _ _ _ _ Hs) as Hg.
  pose proof (g_layout _ _ _ _ _ Hg) as Hl.
  rewrite (Hcol i (active_range _ _ _ _ _ _ _ Hs Hi)) in Hp.
  destruct (column_node_live _ _ _ _ _ _ _ _ Hs Hi Hp)
    as (r & row & t0 & Hr0 & Ht0 & -> & _).
  exists (Z.of_nat r). split.
  - apply (getoption_spec _ _ _ _ _ Hl). exists row, t0.
    split_and!; [done| |done]. by eapply lookup_lt_Some.
  - apply has_item_items. unfold rowitems. rewrite Hr0. simpl.
    by eapply list_elem_of_lookup_2.
Qed.

Lemma getoption_column_witness :
  ∃ r, getoption ex_matrix 9 = Ok r ∧ has_item ex_rows 1 r.
Proof.
  apply (getoption_column 7 ex_rows ex_matrix 1 9).
  - lia.
  - apply reach_built. vm_compute. reflexivity.
  - vm_compute. left.
  - vm_compute. left.
Defined.
(** ** What cover takes out *)

(** In every reachable state, [cover(i)] of an active item [i] returns;
    afterwards the active items are the ones before without [i], in the
    same order; no node is added or dropped; the column of [i] itself is
    kept as it was; and the column of every other active item [j] keeps, in
    order, exactly its nodes whose row has no node in the column of [i]
    (rows being told apart by [getoption]). *)
Theorem cover_effect n strs s i fuel :
  0 ≤ n → reachable n strs s → i ∈ active s → (length (nodes s) ≤ fuel)%nat →
  ∃ s', cover fuel i s = Ok s' ∧
    active s' = filter (λ x, x ≠ i) (active s) ∧
    length (nodes s') = length (nodes s) ∧
    column s' i = column s i ∧
    ∀ j, j ∈ active s' →
      column s' j `sublist_of` column s j ∧
      ∀ q, q ∈ column s' j ↔
           q ∈ column s j ∧
           ¬ ∃ p, p ∈ column s i ∧ getoption s p = getoption s q.
Proof.
  intros Hn Hr Hi Hf.
  destruct (reachable_views _ _ _ Hn Hr) as (C & cols & Hs & Hcol).
  pose proof (s_ginv _ _ _ _ _ _ Hs) as Hg.
  pose proof (g_layout _ _ _ _ _ Hg) as Hl.
  pose proof (active_range _ _ _ _ _ _ _ Hs Hi) as Hir.
  pose proof (SInv_linked _ _ _ _ _ _ _ Hs Hi) as Hlk.
  destruct (cover_spec _ _ _ _ _ i Hg Hir Hlk Hi fuel Hf) as (s' & rm & Hc & Hg' & Hrm & _).
  destruct (SInv_cover _ _ _ _ _ _ i fuel Hs Hi Hf) as (s2 & _ & _ & Hc2 & _ & _ & HN & _).
  rewrite Hc in Hc2. injection Hc2 as <-.
  pose proof (g_layout _ _ _ _ _ Hg') as Hl'.
  destruct (g_cols _ _ _ _ _ Hg i Hir) as (_ & _ & Hreal_i & _).
  assert (Hopt : ∀ j q, 1 ≤ j ≤ n → q ∈ cols j →
                 ∃ r row t, (items_of <$> strs) !! r = Some row ∧ row !! t = Some j ∧
                            q = pos n (items_of <$> strs) r t ∧
                            getoption s q = Ok (Z.of_nat r)).
  { intros j q Hj Hq. destruct (g_cols _ _ _ _ _ Hg j Hj) as (_ & _ & Hreal & _).
    destruct (Hreal q Hq) as (r & row & t & Hr0 & Ht & ->).
    exists r, row, t. split_and!; [done..|].
    apply (getoption_spec _ _ _ _ _ Hl). exists row, t.
    split_and!; [done| |done]. by eapply lookup_lt_Some. }
  exists s'. split_and!; [done| |done| |].
  - by rewrite (active_GInv _ _ _ _ _ Hg').
  - rewrite (column_GInv _ _ _ _ _ _ Hg' Hir), (Hcol i Hir).
    apply filter_all. intros x Hx Hin. apply Hrm in Hin.
    by eapply (hidden_not_pivot_col _ _ _ _ _ i (cols i) x Hg Hir).
  - intros j Hj. rewrite (active_GInv _ _ _ _ _ Hg') in Hj.
    apply list_elem_of_filter in Hj as [Hji Hj].
    pose proof (active_range _ _ _ _ _ _ _ Hs Hj) as Hjr.
    rewrite (column_GInv _ _ _ _ _ _ Hg' Hjr), (Hcol j Hjr), (Hcol i Hir).
    split; [apply sublist_filter|].
    intros q. rewrite list_elem_of_filter, Hrm. split.
    + intros [Hnh Hq]. split; [done|]. intros (p & Hp & Heq).
      destruct (Hopt i p Hir Hp) as (r & row & t0 & Hr0 & Ht0 & -> & Hp').
      destruct (Hopt j q Hjr Hq) as (r' & row' & t & Hr1 & Ht & -> & Hq').
      rewrite Hp', Hq' in Heq. injection Heq as Heq. apply Nat2Z.inj in Heq. subst r'.
      rewrite Hr0 in Hr1. injection Hr1 as <-.
      apply Hnh. exists r, row, t0, t. split_and!; [done| |done| | |done].
      * by eapply lookup_lt_Some.
      * by eapply lookup_lt_Some.
      * intros ->. congruence.
    + intros [Hq Hno]. split; [|done].
      intros (r & row & t0 & t & Hr0 & Ht0 & Hp & Ht & Hne & ->).
      apply Hno. exists (pos n (items_of <$> strs) r t0). split; [done|].
      assert (Hg0 : ∀ t1, (t1 < length row)%nat →
                getoption s (pos n (items_of <$> strs) r t1) = Ok (Z.of_nat r)).
      { intros t1 Ht1. apply (getoption_spec _ _ _ _ _ Hl). by exists row, t1. }
      by rewrite !Hg0.
Qed.

Lemma cover_effect_witness :
  ∃ s', cover 32 1 ex_matrix = Ok s' ∧
    active s' = filter (λ x, x ≠ 1) (active ex_matrix) ∧
    length (nodes s') = length (nodes ex_matrix) ∧
    column s' 1 = column ex_matrix 1 ∧
    ∀ j, j ∈ active s' →
      column s' j `sublist_of` column ex_matrix j ∧
      ∀ q, q ∈ column s' j ↔
           q ∈ column ex_matrix j ∧
           ¬ ∃ p, p ∈ column ex_matrix 1 ∧ getoption ex_matrix p = getoption ex_matrix q.
Proof.
  apply (cover_effect 7 ex_rows ex_matrix 1 32).
  - lia.
  - apply reach_built. vm_compute. reflexivity.
  - vm_compute. left.
  - vm_compute. lia.
Defined.

(** ** chooseitem on an empty list *)

(** In every reachable state [chooseitem] returns; it returns the root 0
    exactly when no item is active, which is also exactly when the root's
    right link is the root, the test [rdance] makes before it reports a
    solution. *)
Theorem chooseitem_root_iff_empty n strs s fuel :
  0 ≤ n → reachable n strs s → (length (active s) ≤ fuel)%nat →
  ∃ b, chooseitem fuel s = Ok b ∧ (b = 0 ↔ active s = []) ∧
       (rlink s 0 = Ok 0 ↔ active s = []).
Proof.
  intros Hn Hr Hf.
  destruct (reachable_views _ _ _ Hn Hr) as (C & cols & Hs & _).
  pose proof (s_ginv _ _ _ _ _ _ Hs) as Hg.
  pose proof (g_layout _ _ _ _ _ Hg) as Hl.
  destruct (g_horiz _ _ _ _ _ Hg) as (Hch & _ & Hrg).
  destruct (chain_ends _ _ _ _ _ Hch) as [Hhd _].
  pose proof (item_vh _ _ _ Hl 0 ltac:(lia)) as Hv0.
  assert (Hroot : rlink s 0 = Ok 0 ↔ active s = []).
  { rewrite (rlink_ok _ _ Hv0), Hhd. destruct (active s) as [|h hs'] eqn:E; simpl.
    - done.
    - split; [|done]. intros [= ->].
      specialize (Hrg 0 ltac:(left)). lia. }
  destruct (decide (active s = [])) as [He|Hne].
  - exists 0. split_and!; [|done|done].
    rewrite chooseitem_unfold, (proj2 Hroot He). cbn [mbind result_bind].
    rewrite (len_ok _ _ (item_vn _ _ _ Hl 0 ltac:(lia))). cbn [mbind result_bind].
    rewrite (while_done fuel choose_cond (choose_body s) (0, 0, D s 0)); [done|].
    unfold choose_cond. by rewrite bool_decide_false by (intros ?; done).
  - destruct (chooseitem_spec _ _ _ _ _ Hg fuel Hne Hf) as (b & Hb & Hmin).
    exists b. split_and!; [done| |done].
    split; [|done]. intros ->.
    apply leftmost_min_elem in Hmin. apply Hrg in Hmin. lia.
Qed.

Lemma chooseitem_root_iff_empty_witness :
  ∃ b, chooseitem 7 ex_matrix = Ok b ∧ (b = 0 ↔ active ex_matrix = []) ∧
       (rlink ex_matrix 0 = Ok 0 ↔ active ex_matrix = []).
Proof.
  apply (chooseitem_root_iff_empty 7 ex_rows ex_matrix 7).
  - lia.
  - apply reach_built. vm_compute. reflexivity.
  - vm_compute. lia.
Defined.

(** ** The search, for any property of the callbacks

    The run of [rdance] once more, with the property of the callbacks left
    open: it has to hold of the one callback made when no item is active,
    and of the callbacks of a state when it holds below every node of the
    chosen column. *)

Section SearchQ.
Context {V : Type} `{!Visitor V}.
Variable choose : nat → DLink → result Z.
Variable n : Z.
Variable rws : list (list Z).
Hypothesis choose_ok : ∀ s hs cols fuel,
  GInv n rws s hs cols → hs ≠ [] → (length (nodes s) ≤ fuel)%nat →
  ∃ i, choose fuel s = Ok i ∧ i ∈ hs.
Variable Q : list Z → list Z → list (DLink * list Z) → Prop.

(** A node of the column of [i] chosen at a state with active items [hs]:
    its row takes its items out of [hs], and [Q] holds of the callbacks
    made below it. *)
Definition PkQ (hs stk0 : list Z) (i k : Z) (tr_k : list (DLink * list Z)) : Prop :=
  ∃ r row t0 hs3, rws !! r = Some row ∧ row !! t0 = Some i ∧ k = pos n rws r t0 ∧
    hs ≡ₚ row ++ hs3 ∧ Q (stk0 ++ [k]) hs3 tr_k.

Hypothesis Hne : rows_nonempty rws.
Hypothesis Q_leaf : ∀ d stk0, Layout n rws d → Q stk0 [] [(d, stk0)].
Hypothesis Q_node : ∀ s C hs cols stk0 i trs,
  SInv n rws s C hs cols → i ∈ hs →
  Forall2 (PkQ hs stk0 i) (cols i) trs → Q stk0 hs (concat trs).

Definition SpecQ (f : nat) : Prop :=
  ∀ s C hs cols stk0 (v : V),
    SInv n rws s C hs cols → (length (nodes s) + length hs + 1 ≤ f)%nat →
    ∃ tr c', rdance_with choose f (mkSearch s stk0 v)
             = (v' ← visits tr v; Ok (mkSearch (with_ncount s c') stk0 v')) ∧
             Q stk0 hs tr.

Section LoopQ.
Variable f : nat.
Hypothesis IH : SpecQ f.
Variable s2 : DLink.
Variables C hs hs2 stk0 colsi : list Z.
Variable cols2 : Z → list Z.
Variable i : Z.
Hypothesis Hs2 : SInv n rws s2 (i :: C) hs2 cols2.
Hypothesis Hcolsi : cols2 i = colsi.
Hypothesis Hi : 1 ≤ i ≤ n.
Hypothesis HiC : i ∉ C.
Hypothesis Hnd : NoDup hs.
Hypothesis Hhs : ∀ x, x ∈ hs ↔ 1 ≤ x ≤ n ∧ x ∉ C.
Hypothesis Hlive : ∀ r row t, rws !! r = Some row → row !! t = Some i →
  (pos n rws r t ∈ colsi ↔ row_live C row).
Hypothesis Hfuel : (length (nodes s2) + length hs + 1 ≤ S f)%nat.

Lemma kloopQ todo : ∀ done c (v : V),
  colsi = done ++ todo →
  ∀ fuel, (length todo ≤ fuel)%nat →
  ∃ trs c',
    while fuel (kcond i) (kbody choose (S f) f i)
      (mkSearch (with_ncount s2 c) stk0 v, default i (head todo))
    = (v' ← visits (concat trs) v; Ok (mkSearch (with_ncount s2 c') stk0 v', i)) ∧
    Forall2 (PkQ hs stk0 i) todo trs.
Proof using All.
  pose proof (s_ginv _ _ _ _ _ _ Hs2) as Hg2.
  pose proof (g_layout _ _ _ _ _ Hg2) as Hl2.
  destruct (g_cols _ _ _ _ _ Hg2 i Hi) as (Hch & Hndc & Hm & _).
  rewrite Hcolsi in Hch, Hndc, Hm.
  pose proof (Cols_header_notin _ _ _ _ _ Hl2 (g_cols _ _ _ _ _ Hg2) Hi) as Hni.
  rewrite Hcolsi in Hni.
  induction todo as [|k rest IHt]; intros done c v Hsplit fuel Hf.
  - exists [], c. split; [|constructor]. simpl.
    apply while_done. simpl. by rewrite bool_decide_eq_false_2 by (intros H; by apply H).
  - simpl in Hf. destruct fuel as [|fuel]; [lia|].
    assert (Hk : k ∈ colsi) by (rewrite Hsplit; elem_goal).
    destruct (Hm _ Hk) as (r & row & t0 & Hr & Ht0 & ->).
    set (k := pos n rws r t0) in *.
    assert (Hreal : real n rws k i) by (by apply Hm).
    pose proof (proj1 (Hlive r row t0 Hr Ht0) Hk) as Hrl.
    pose proof (row_NoDup _ _ _ _ _ Hl2 Hr) as Hrnd.
    assert (Hfree : ∀ t j, row !! t = Some j → t ≠ t0 → j ∉ i :: C).
    { intros t j Ht Hne' [->|HjC]%elem_of_cons.
      - apply Hne'. by eapply NoDup_lookup.
      - revert HjC. apply Hrl. by eapply list_elem_of_lookup_2. }
    destruct (cover_row_spec n rws (with_ncount s2 c) (i :: C) r row t0 i Hr Ht0
                ltac:(left) Hfree (S f) hs2 cols2 (SInv_ncount _ _ _ _ _ _ c Hs2)
                ltac:(simpl; lia))
      as (s3 & C3 & hs3 & cols3 & Hcr & Hs3 & HC3 & HN3 & Hun).
    simpl in HN3. fold k in Hcr, Hun.
    assert (Hperm : hs ≡ₚ row ++ hs3).
    { pose proof (s_ginv _ _ _ _ _ _ Hs3) as Hg3.
      destruct (g_horiz _ _ _ _ _ Hg3) as (_ & Hnd3 & _).
      symmetry. apply NoDup_Permutation; [|done|].
      - apply NoDup_app. split_and!; [done| |done].
        intros x Hx Hx3. apply (s_active _ _ _ _ _ _ Hs3) in Hx3 as [_ Hx3].
        apply Hx3, HC3. by right.
      - intros x. rewrite elem_of_app, Hhs, (s_active _ _ _ _ _ _ Hs3 x), HC3.
        rewrite elem_of_cons. split.
        + intros [Hx|[Hx Hx']].
          * split; [|by apply Hrl].
            apply list_elem_of_lookup in Hx as [t Ht]. by eapply row_items_range.
          * split; [done|]. tauto.
        + intros [Hx HxC]. destruct (decide (x ∈ row)); [by left|right].
          split; [done|]. intros [[->|?]|?]; [|done..].
          apply n0. by eapply list_elem_of_lookup_2. }
    assert (Hlen3 : (length hs3 < length hs)%nat).
    { rewrite Hperm, length_app. destruct row; [done|]. simpl. lia. }
    destruct (IH s3 C3 hs3 cols3 (stk0 ++ [k]) v Hs3 ltac:(lia))
      as (tr_k & c3 & Hrd & Hpost).
    assert (HPk : PkQ hs stk0 i k tr_k) by (by exists r, row, t0, hs3).
    destruct (real_vn _ _ _ Hl2 _ _ Hreal) as (Hvk & _).
    rewrite Hsplit in Hch.
    destruct (chain_next _ _ _ _ _ _ _ Hch) as [Enx _].
    assert (Hbody : kbody choose (S f) f i (mkSearch (with_ncount s2 c) stk0 v, k)
              = (v1 ← visits tr_k v;
                 Ok (mkSearch (with_ncount s2 c3) stk0 v1, default i (head rest)))).
    { unfold kbody. cbn [mat stack vis].
      change (top (with_ncount s2 c) k) with (top s2 k).
      rewrite (top_ok _ _ Hvk). cbn [mbind result_bind].
      rewrite (lay_top _ _ _ Hl2 _ _ Hreal).
      rewrite bool_decide_eq_true_2 by done. cbn [assert mbind result_bind].
      rewrite Hcr. cbn [mbind result_bind]. rewrite Hrd.
      destruct (visits tr_k v) as [v1|e]; cbn [mbind result_bind mat stack vis]; [|done].
      rewrite pop_back_snoc. cbn [mbind result_bind].
      rewrite (Hun c3) by (simpl; lia). cbn [mbind result_bind].
      change (dlink (with_ncount (with_ncount s2 c) c3) k) with (dlink s2 k).
      rewrite (dlink_ok _ _ Hvk). cbn [mbind result_bind]. by rewrite Enx. }
    assert (Hcond : kcond i (mkSearch (with_ncount s2 c) stk0 v, k) = Ok true).
    { unfold kcond. rewrite bool_decide_eq_true_2; [done|].
      intros E. apply Hni. by rewrite <- E. }
    destruct (visits tr_k v) as [v1|e] eqn:Ev.
    + destruct (IHt (done ++ [k]) c3 v1 ltac:(by rewrite <- app_assoc) fuel ltac:(lia))
        as (trs & c' & Hw & HF).
      exists (tr_k :: trs), c'. split; [|by constructor].
      simpl head. simpl default.
      rewrite while_S, Hcond. cbn [mbind result_bind].
      rewrite Hbody. cbn [mbind result_bind].
      rewrite Hw. simpl concat. rewrite visits_app, Ev. done.
    + destruct (IHt (done ++ [k]) c v ltac:(by rewrite <- app_assoc) fuel ltac:(lia))
        as (trs & c' & _ & HF).
      exists (tr_k :: trs), c'. split; [|by constructor].
      simpl head. simpl default.
      rewrite while_S, Hcond. cbn [mbind result_bind].
      rewrite Hbody. cbn [mbind result_bind].
      simpl concat. rewrite visits_app, Ev. done.
Qed.

End LoopQ.

Lemma rdance_specQ : ∀ f, SpecQ f.
Proof using All.
  induction f as [|f IH]; intros s C hs cols stk0 v Hs Hf; [lia|].
  pose proof Hs as [Hg Ha Hlive].
  pose proof (g_layout _ _ _ _ _ Hg) as Hl.
  pose proof (g_horiz _ _ _ _ _ Hg) as (Hch & Hnd & Hrg).
  pose proof (lay_n _ _ _ Hl) as Hn0.
  rewrite rdance_unfold. cbn [mat stack vis]. cbv zeta.
  set (s1 := with_ncount s (ncount s + 1)).
  change (rlink s1 0) with (rlink s 0).
  rewrite (rlink_ok _ _ (item_vh _ _ _ Hl 0 ltac:(lia))). cbn [mbind result_bind].
  destruct (chain_ends _ _ _ _ _ Hch) as [-> _].
  destruct hs as [|h hs'].
  - simpl default. rewrite bool_decide_eq_true_2 by done.
    exists [(s1, stk0)], (ncount s + 1). split.
    + unfold visits. simpl. by destruct (visit s1 stk0 v).
    + apply Q_leaf. exact (g_layout _ _ _ _ _ (GInv_ncount _ _ _ _ _ _ Hg)).
  - simpl default.
    assert (Hh : 1 ≤ h ≤ n) by (apply Hrg; left).
    rewrite bool_decide_eq_false_2 by lia.
    assert (Hs1 : SInv n rws s1 C (h :: hs') cols) by (by apply SInv_ncount).
    destruct (choose_ok s1 (h :: hs') cols (S f)) as (i & Hci & Hi);
      [exact (s_ginv _ _ _ _ _ _ Hs1)|done|simpl; simpl in Hf; lia|].
    rewrite Hci. cbn [mbind result_bind].
    destruct (SInv_cover _ _ _ _ _ _ i (S f) Hs1 Hi ltac:(simpl; lia))
      as (s2 & hs2 & cols2 & Hcv & Hs2 & Hcolsi & HN2 & Hun).
    rewrite Hcv. cbn [mbind result_bind].
    pose proof (proj1 (Ha i) Hi) as [Hir HiC].
    pose proof (s_ginv _ _ _ _ _ _ Hs2) as Hg2.
    pose proof (g_layout _ _ _ _ _ Hg2) as Hl2.
    destruct (g_cols _ _ _ _ _ Hg2 i Hir) as (Hch2 & _).
    rewrite Hcolsi in Hch2.
    rewrite (dlink_ok _ _ (item_vn _ _ _ Hl2 i ltac:(lia))). cbn [mbind result_bind].
    destruct (chain_ends _ _ _ _ _ Hch2) as [-> _].
    assert (Hlive' : ∀ r row t, rws !! r = Some row → row !! t = Some i →
              (pos n rws r t ∈ cols i ↔ row_live C row)).
    { intros r row t Hr Ht. by apply Hlive. }
    pose proof (col_length _ _ _ _ _ _ Hg Hir) as Hcl.
    simpl in HN2.
    destruct (kloopQ f IH s2 C (h :: hs') hs2 stk0 (cols i) cols2 i Hs2 Hcolsi Hir HiC
                Hnd Ha Hlive' ltac:(lia) (cols i) [] (ncount s2) v eq_refl (S f)
                ltac:(lia))
      as (trs & c' & Hw & HF).
    rewrite with_ncount_id in Hw. rewrite Hw.
    exists (concat trs), c'. split.
    + destruct (visits (concat trs) v) as [v'|e]; cbn [mbind result_bind mat stack vis];
        [|done].
      rewrite (Hun c') by (simpl; lia). done.
    + by eapply (Q_node s1 C (h :: hs') cols).
Qed.

End SearchQ.

(** ** No solution is reported twice *)

Lemma node_row_fun n rws k r r' :
  node_row n rws k r → node_row n rws k r' → r = r'.
Proof.
  intros (row & t & Hr & Ht & ->) (row' & t' & Hr' & Ht' & E).
  by destruct (pos_inj _ _ _ _ _ _ _ _ Hr Ht Hr' Ht' E).
Qed.

Lemma node_rows_fun n rws ks : ∀ rs rs',
  Forall2 (node_row n rws) ks rs → Forall2 (node_row n rws) ks rs' → rs = rs'.
Proof.
  induction ks as [|k ks IH]; intros rs rs' H1 H2.
  - apply Forall2_nil_inv_l in H1, H2. by subst.
  - apply Forall2_cons_inv_l in H1 as (r & rs0 & Hr & H1 & ->).
    apply Forall2_cons_inv_l in H2 as (r' & rs0' & Hr' & H2 & ->).
    f_equal; [by eapply node_row_fun|by apply IH].
Qed.

(** The callbacks [tr] of a search entered with stack [stk0] have pairwise
    different stacks, and two of them whose stacks stand for the same rows,
    in any order, have the same stack. *)
Definition Uniq (n : Z) (rws : list (list Z)) (stk0 : list Z)
    (tr : list (DLink * list Z)) : Prop :=
  NoDup (tr.*2) ∧
  ∀ d1 ks1 rs1 d2 ks2 rs2,
    (d1, stk0 ++ ks1) ∈ tr → (d2, stk0 ++ ks2) ∈ tr →
    Forall2 (node_row n rws) ks1 rs1 → Forall2 (node_row n rws) ks2 rs2 →
    rs1 ≡ₚ rs2 → ks1 = ks2.

Definition Post2 (n : Z) (rws : list (list Z)) (stk0 hs : list Z)
    (tr : list (DLink * list Z)) : Prop :=
  Post n rws stk0 hs tr ∧ Uniq n rws stk0 tr.

Lemma Post_leaf n rws d stk0 :
  rows_nonempty rws → Layout n rws d → Post n rws stk0 [] [(d, stk0)].
Proof.
  intros Hne Hl. split.
  - intros d' stk Hin. apply list_elem_of_singleton in Hin. injection Hin as -> ->.
    split; [done|]. exists [], []. split_and!; [by rewrite app_nil_r|constructor|done].
  - intros rs Hvalid Hcc. exists d, [], []. split_and!; [|constructor|].
    + rewrite app_nil_r. left.
    + destruct rs as [|r rs]; [done|]. exfalso.
      apply Forall_cons in Hvalid as [Hr _].
      destruct (lookup_lt_is_Some_2 rws r Hr) as [row Hrow].
      simpl in Hcc. unfold rowitems at 1 in Hcc. rewrite Hrow in Hcc. simpl in Hcc.
      apply Permutation_nil_r in Hcc. apply app_eq_nil in Hcc as [-> _].
      eapply Hne; [|done]. by eapply list_elem_of_lookup_2.
Qed.

Lemma Post2_leaf n rws d stk0 :
  rows_nonempty rws → Layout n rws d → Post2 n rws stk0 [] [(d, stk0)].
Proof.
  intros Hne Hl. split; [by apply Post_leaf|]. split.
  - simpl. apply NoDup_singleton.
  - intros d1 ks1 rs1 d2 ks2 rs2 H1 H2 _ _ _.
    apply list_elem_of_singleton in H1, H2.
    injection H1 as _ H1. injection H2 as _ H2.
    rewrite <- (app_nil_r stk0) in H1 at 2. rewrite <- (app_nil_r stk0) in H2 at 2.
    apply app_inv_head in H1, H2. by subst.
Qed.

(** The stacks below the node [k] all go on with [k]. *)
Lemma Pk_stacks n rws hs stk0 i k tr_k d stk :
  PkQ n rws (Post2 n rws) hs stk0 i k tr_k → (d, stk) ∈ tr_k →
  ∃ ks, stk = stk0 ++ k :: ks.
Proof.
  intros (r & row & t0 & hs3 & _ & _ & _ & _ & [[Hsound _] _]) Hin.
  destruct (Hsound d stk Hin) as (_ & ks & _ & -> & _).
  exists ks. by rewrite <- app_assoc.
Qed.

Lemma NoDup_concat_stacks n rws hs stk0 i ks trs :
  NoDup ks → Forall2 (PkQ n rws (Post2 n rws) hs stk0 i) ks trs →
  NoDup ((concat trs).*2).
Proof.
  intros Hnd HF. induction HF as [|k tr_k ks trs HPk HF IH]; simpl.
  - apply NoDup_nil_2.
  - apply NoDup_cons in Hnd as [Hk Hnd]. rewrite fmap_app. apply NoDup_app.
    split_and!.
    + by destruct HPk as (_ & _ & _ & _ & _ & _ & _ & _ & [_ [H _]]).
    + intros stk H1 H2.
      apply list_elem_of_fmap in H1 as ([d1 stk1] & -> & H1).
      apply list_elem_of_fmap in H2 as ([d2 stk2] & E & H2). simpl in *. subst stk2.
      destruct (Pk_stacks _ _ _ _ _ _ _ _ _ HPk H1) as [ks1 E1].
      apply concat_elem in H2 as (tr' & Htr' & H2).
      apply list_elem_of_lookup in Htr' as [a Ha].
      destruct (Forall2_lookup_r _ _ _ _ _ HF Ha) as (k' & Hk' & HPk').
      destruct (Pk_stacks _ _ _ _ _ _ _ _ _ HPk' H2) as [ks2 E2].
      rewrite E1 in E2. apply app_inv_head in E2. injection E2 as -> _.
      apply Hk. by eapply list_elem_of_lookup_2.
    + by apply IH.
Qed.

Lemma Post2_node n rws s C hs cols stk0 i trs :
  rows_nonempty rws →
  SInv n rws s C hs cols → i ∈ hs →
  Forall2 (PkQ n rws (Post2 n rws) hs stk0 i) (cols i) trs →
  Post2 n rws stk0 hs (concat trs).
Proof.
  intros Hne Hs Hi HF.
  pose proof (s_ginv _ _ _ _ _ _ Hs) as Hg.
  pose proof (g_layout _ _ _ _ _ Hg) as Hl.
  destruct (g_horiz _ _ _ _ _ Hg) as (_ & Hnd & _).
  pose proof (proj1 (s_active _ _ _ _ _ _ Hs i) Hi) as [Hir HiC].
  destruct (g_cols _ _ _ _ _ Hg i Hir) as (_ & Hndc & _).
  split.
  - apply (Post_of_loop n rws Hne stk0 C hs cols i trs Hnd
             (s_active _ _ _ _ _ _ Hs) Hi).
    + intros r row t Hr Ht. by apply (s_live _ _ _ _ _ _ Hs).
    + eapply Forall2_impl; [exact HF|].
      intros k tr_k (r & row & t0 & hs3 & ? & ? & ? & ? & [? _]).
      by exists r, row, t0, hs3.
  - split; [by eapply NoDup_concat_stacks|].
    intros d1 ks1 rs1 d2 ks2 rs2 H1 H2 F1 F2 Hperm.
    assert (Hdec : ∀ d ks rs, (d, stk0 ++ ks) ∈ concat trs →
              Forall2 (node_row n rws) ks rs →
              ∃ a k tr_k r row t0 hs3 ks' rs',
                cols i !! a = Some k ∧ trs !! a = Some tr_k ∧
                rws !! r = Some row ∧ row !! t0 = Some i ∧ k = pos n rws r t0 ∧
                hs ≡ₚ row ++ hs3 ∧ Post2 n rws (stk0 ++ [k]) hs3 tr_k ∧
                ks = k :: ks' ∧ rs = r :: rs' ∧
                (d, (stk0 ++ [k]) ++ ks') ∈ tr_k ∧
                Forall2 (node_row n rws) ks' rs' ∧
                concat (rowitems rws <$> rs') ≡ₚ hs3).
    { intros d ks rs Hin Fr.
      apply concat_elem in Hin as (tr_k & Htr & Hin).
      apply list_elem_of_lookup in Htr as [a Ha].
      destruct (Forall2_lookup_r _ _ _ _ _ HF Ha) as (k & Hk & HPk).
      destruct HPk as (r & row & t0 & hs3 & Hr & Ht0 & -> & Hp & HP2).
      pose proof HP2 as [[Hsound _] _].
      destruct (Hsound _ _ Hin) as (_ & ks' & rs' & E & Fr' & Hcc).
      rewrite <- app_assoc in E. apply app_inv_head in E. simpl in E. subst ks.
      apply Forall2_cons_inv_l in Fr as (r0 & rs0 & Hr0 & Fr0 & ->).
      assert (r0 = r) as ->.
      { eapply node_row_fun; [exact Hr0|]. exists row, t0.
        split_and!; [done| |done]. by eapply lookup_lt_Some. }
      rewrite (node_rows_fun _ _ _ _ _ Fr0 Fr').
      exists a, (pos n rws r t0), tr_k, r, row, t0, hs3, ks', rs'.
      split_and!; try done. by rewrite <- app_assoc. }
    destruct (Hdec _ _ _ H1 F1)
      as (a1 & k1 & tr1 & r1 & row1 & t1 & hs31 & ks1' & rs1' & Hc1 & Ht1 & Hr1 & Hi1
          & -> & Hp1 & HP1 & -> & -> & Hin1 & F1' & Hcc1).
    destruct (Hdec _ _ _ H2 F2)
      as (a2 & k2 & tr2 & r2 & row2 & t2 & hs32 & ks2' & rs2' & Hc2 & Ht2 & Hr2 & Hi2
          & -> & Hp2 & HP2 & -> & -> & Hin2 & F2' & Hcc2).
    assert (Hr12 : r1 = r2).
    { assert (Hin : r1 ∈ r2 :: rs2') by (rewrite <- Hperm; left).
      apply elem_of_cons in Hin as [?|Hin]; [done|]. exfalso.
      assert (Hi3 : i ∈ hs32).
      { rewrite <- Hcc2. apply concat_elem. exists row1. split.
        - apply list_elem_of_fmap. exists r1. split; [|done].
          unfold rowitems. by rewrite Hr1.
        - by eapply list_elem_of_lookup_2. }
      rewrite Hp2 in Hnd. apply NoDup_app in Hnd as (_ & Hdisj & _).
      apply (Hdisj i); [|done]. by eapply list_elem_of_lookup_2. }
    subst r2. rewrite Hr1 in Hr2. injection Hr2 as <-.
    assert (t1 = t2) as <-.
    { eapply NoDup_lookup; [|exact Hi1|exact Hi2]. by eapply row_NoDup. }
    assert (a1 = a2) as <- by (eapply NoDup_lookup; [exact Hndc|exact Hc1|exact Hc2]).
    rewrite Ht1 in Ht2. injection Ht2 as <-.
    f_equal. destruct HP1 as [_ [_ Hinj]].
    apply (Hinj d1 ks1' rs1' d2 ks2' rs2'); [done..|].
    by eapply Permutation_cons_inv.
Qed.

Lemma search_built2 {V} `{!Visitor V} (choose : nat → DLink → result Z) n strs s
    (v : V) fuel :
  (∀ s hs cols fuel, GInv n (items_of <$> strs) s hs cols → hs ≠ [] →
     (length (nodes s) ≤ fuel)%nat → ∃ i, choose fuel s = Ok i ∧ i ∈ hs) →
  0 ≤ n → built n strs s → (search_fuel s ≤ fuel)%nat →
  ∃ tr c, rdance_with choose fuel (mkSearch s [] v)
          = (v' ← visits tr v; Ok (mkSearch (with_ncount s c) [] v')) ∧
          Post2 n (items_of <$> strs) [] (seqZ 1 n) tr.
Proof.
  intros Hch Hn Hb Hf. destruct (built_SInv _ _ _ Hn Hb) as (cols & Hs & Hne).
  apply (rdance_specQ choose n (items_of <$> strs) Hch (Post2 n (items_of <$> strs))
           Hne) with (C := []) (cols := cols).
  - intros d stk0 Hl. by apply Post2_leaf.
  - intros s0 C hs cols0 stk0 i trs Hs0 Hi HF. by eapply Post2_node.
  - done.
  - pose proof (g_layout _ _ _ _ _ (s_ginv _ _ _ _ _ _ Hs)) as Hl.
    pose proof (lay_nodes _ _ _ Hl).
    pose proof (sp_lower n (items_of <$> strs) (length (items_of <$> strs))).
    rewrite length_seqZ. unfold search_fuel in Hf. lia.
Qed.

(** ** Every exact cover is reported, once *)

Lemma NoDup_count (l : list Z) :
  (∀ x, x ∈ l → (length (filter (λ y, y = x) l) ≤ 1)%nat) → NoDup l.
Proof.
  induction l as [|a l IH]; intros H; [apply NoDup_nil_2|].
  apply NoDup_cons. split.
  - intros Ha. specialize (H a ltac:(left)).
    rewrite filter_cons_True in H by done. simpl in H.
    assert (Hin : a ∈ filter (λ y, y = a) l) by (by apply list_elem_of_filter).
    destruct (filter _ l); [by apply elem_of_nil in Hin|simpl in H; lia].
  - apply IH. intros x Hx. specialize (H x ltac:(by right)).
    rewrite filter_cons in H. destruct (decide (a = x)); simpl in H; lia.
Qed.

Lemma rowitems_range n rws r x :
  rows_wf n rws → x ∈ rowitems rws r → 1 ≤ x ≤ n.
Proof.
  intros Hwf Hx. unfold rowitems in Hx.
  destruct (rws !! r) as [row|] eqn:E; simpl in Hx; [|by apply elem_of_nil in Hx].
  by apply (Hwf row (list_elem_of_lookup_2 _ _ _ E)).
Qed.

Lemma perm_of_exact_cover n strs (rs : list nat) :
  rows_wf n (items_of <$> strs) → exact_cover n strs (Z.of_nat <$> rs) →
  Forall (λ r, r < length (items_of <$> strs))%nat rs ∧
  concat (rowitems (items_of <$> strs) <$> rs) ≡ₚ seqZ 1 n.
Proof.
  intros Hwf [HF Hone]. split.
  - rewrite Forall_fmap in HF. eapply Forall_impl; [exact HF|].
    intros r Hr. simpl in Hr. rewrite length_fmap. lia.
  - assert (Hnd : ∀ row, row ∈ (items_of <$> strs) → NoDup row).
    { intros row Hrow. by apply (Hwf row). }
    assert (Hrange : ∀ x, x ∈ concat (rowitems (items_of <$> strs) <$> rs) → 1 ≤ x ≤ n).
    { intros x Hx. apply concat_elem in Hx as (l & Hl & Hx).
      apply list_elem_of_fmap in Hl as (r & -> & _). by eapply rowitems_range. }
    apply NoDup_Permutation.
    + apply NoDup_count. intros x Hx.
      rewrite <- (count_concat strs x rs Hnd). rewrite Hone by (by apply Hrange). done.
    + apply NoDup_seqZ.
    + intros x. rewrite elem_of_seqZ. split.
      * intros Hx. apply Hrange in Hx. lia.
      * intros Hx. specialize (Hone x ltac:(lia)).
        destruct (filter (has_item strs x) (Z.of_nat <$> rs)) as [|o l] eqn:Ef; [done|].
        assert (Ho : o ∈ filter (has_item strs x) (Z.of_nat <$> rs)) by (rewrite Ef; left).
        apply list_elem_of_filter in Ho as [Hh Ho].
        apply list_elem_of_fmap in Ho as (r & -> & Hr).
        apply concat_elem. exists (rowitems (items_of <$> strs) r). split.
        -- apply list_elem_of_fmap. by exists r.
        -- by apply has_item_items.
Qed.

Lemma of_to_nat_list (opts : list Z) :
  Forall (λ o, 0 ≤ o) opts → Z.of_nat <$> (Z.to_nat <$> opts) = opts.
Proof.
  induction 1 as [|o l Ho _ IH]; [done|]. rewrite !fmap_cons, IH. f_equal. lia.
Qed.

Lemma to_of_nat_list (rs : list nat) : Z.to_nat <$> (Z.of_nat <$> rs) = rs.
Proof.
  induction rs as [|r rs IH]; [done|]. rewrite !fmap_cons, IH. f_equal. lia.
Qed.

Lemma exact_cover_nat n strs opts :
  exact_cover n strs opts → opts = Z.of_nat <$> (Z.to_nat <$> opts).
Proof.
  intros [HF _]. symmetry. apply of_to_nat_list.
  eapply Forall_impl; [exact HF|]. intros o Ho. simpl in Ho. lia.
Qed.

Lemma of_nat_perm_inv (rs rs' : list nat) :
  Z.of_nat <$> rs ≡ₚ Z.of_nat <$> rs' → rs ≡ₚ rs'.
Proof.
  intros H. apply (fmap_Permutation Z.to_nat) in H.
  by rewrite !to_of_nat_list in H.
Qed.

(** What the callbacks of a search from a built matrix stand for. *)
Lemma Post2_callbacks n strs tr :
  rows_wf n (items_of <$> strs) →
  Post2 n (items_of <$> strs) [] (seqZ 1 n) tr →
  (∀ d stk, (d, stk) ∈ tr → Layout n (items_of <$> strs) d ∧
     ∃ opts, stack_options d stk = Ok opts ∧ exact_cover n strs opts) ∧
  (∀ opts, exact_cover n strs opts →
     ∃ d stk opts', (d, stk) ∈ tr ∧ stack_options d stk = Ok opts' ∧ opts' ≡ₚ opts) ∧
  (∀ a b d1 stk1 d2 stk2 o1 o2,
     tr !! a = Some (d1, stk1) → tr !! b = Some (d2, stk2) →
     stack_options d1 stk1 = Ok o1 → stack_options d2 stk2 = Ok o2 →
     o1 ≡ₚ o2 → a = b).
Proof.
  intros Hwf [HP [Hnd Hinj]]. pose proof HP as [Hsound Hcomplete]. split_and!.
  - intros d stk Hin. split; [by apply (Hsound d stk Hin)|]. by eapply Post_exact.
  - intros opts Hex. pose proof (exact_cover_nat _ _ _ Hex) as Hnat.
    rewrite Hnat in Hex.
    destruct (perm_of_exact_cover _ _ _ Hwf Hex) as [Hvalid Hperm].
    destruct (Hcomplete _ Hvalid Hperm) as (d & ks & rs' & Hin & HF & Hrs).
    simpl in Hin. destruct (Hsound _ _ Hin) as (Hl & _).
    exists d, ks, (Z.of_nat <$> rs'). split_and!; [done| |].
    + by eapply stack_options_spec.
    + rewrite Hnat. by rewrite Hrs.
  - intros a b d1 stk1 d2 stk2 o1 o2 Ha Hb Ho1 Ho2 Hperm.
    destruct (Hsound _ _ (list_elem_of_lookup_2 _ _ _ Ha)) as (Hl1 & ks1 & rs1 & E1 & F1 & _).
    destruct (Hsound _ _ (list_elem_of_lookup_2 _ _ _ Hb)) as (Hl2 & ks2 & rs2 & E2 & F2 & _).
    simpl in E1, E2. subst stk1 stk2.
    rewrite (stack_options_spec _ _ _ _ _ Hl1 F1) in Ho1. injection Ho1 as <-.
    rewrite (stack_options_spec _ _ _ _ _ Hl2 F2) in Ho2. injection Ho2 as <-.
    apply of_nat_perm_inv in Hperm.
    assert (ks1 = ks2) as <-.
    { apply (Hinj d1 ks1 rs1 d2 ks2 rs2); [|by eapply list_elem_of_lookup_2|done..].
      by eapply list_elem_of_lookup_2. }
    eapply NoDup_lookup; [exact Hnd| |].
    + rewrite list_lookup_fmap, Ha. done.
    + rewrite list_lookup_fmap, Hb. done.
Qed.

Lemma built_rows_wf n strs s :
  0 ≤ n → built n strs s → rows_wf n (items_of <$> strs).
Proof.
  intros Hn Hb. destruct (built_Layout _ _ _ Hn Hb) as (cols & Hg & _).
  exact (lay_wf _ _ _ (g_layout _ _ _ _ _ Hg)).
Qed.

(** On a matrix built by the constructor and [addrow], the search reports
    every exact cover: for every list of options in which each of the [n]
    items occurs exactly once, some callback has a stack whose options,
    read with [getoption], are that list up to order. *)
Theorem search_reports_every_cover n strs s fuel :
  0 ≤ n → built n strs s → (search_fuel s ≤ fuel)%nat →
  ∃ st, rdance fuel (mkSearch s [] ([] : Recorder)) = Ok st ∧
    ∀ opts, exact_cover n strs opts →
      ∃ d stk opts', (d, stk) ∈ vis st ∧ stack_options d stk = Ok opts' ∧
                     opts' ≡ₚ opts.
Proof.
  intros Hn Hb Hf.
  destruct (search_built2 chooseitem n strs s ([] : Recorder) fuel
              (chooseitem_ok n (items_of <$> strs)) Hn Hb Hf) as (tr & c & Hrun & HP).
  rewrite visits_recorder in Hrun. simpl in Hrun.
  eexists. split; [exact Hrun|]. simpl.
  by apply (Post2_callbacks n strs tr (built_rows_wf _ _ _ Hn Hb) HP).
Qed.

Lemma search_reports_every_cover_witness :
  ∃ st, rdance 64 (mkSearch ex_matrix [] ([] : Recorder)) = Ok st ∧
    ∀ opts, exact_cover 7 ex_rows opts →
      ∃ d stk opts', (d, stk) ∈ vis st ∧ stack_options d stk = Ok opts' ∧
                     opts' ≡ₚ opts.
Proof.
  apply (search_reports_every_cover 7 ex_rows ex_matrix 64).
  - lia.
  - vm_compute. reflexivity.
  - vm_compute. lia.
Defined.

(** On a matrix built by the constructor and [addrow], the search reports
    no exact cover twice: two callbacks whose stacks give the same options
    up to order are one and the same callback. *)
Theorem search_reports_no_cover_twice n strs s fuel :
  0 ≤ n → built n strs s → (search_fuel s ≤ fuel)%nat →
  ∃ st, rdance fuel (mkSearch s [] ([] : Recorder)) = Ok st ∧
    ∀ a b d1 stk1 d2 stk2 o1 o2,
      vis st !! a = Some (d1, stk1) → vis st !! b = Some (d2, stk2) →
      stack_options d1 stk1 = Ok o1 → stack_options d2 stk2 = Ok o2 →
      o1 ≡ₚ o2 → a = b.
Proof.
  intros Hn Hb Hf.
  destruct (search_built2 chooseitem n strs s ([] : Recorder) fuel
              (chooseitem_ok n (items_of <$> strs)) Hn Hb Hf) as (tr & c & Hrun & HP).
  rewrite visits_recorder in Hrun. simpl in Hrun.
  eexists. split; [exact Hrun|]. simpl.
  by apply (Post2_callbacks n strs tr (built_rows_wf _ _ _ Hn Hb) HP).
Qed.

Lemma search_reports_no_cover_twice_witness :
  ∃ st, rdance 64 (mkSearch ex_matrix [] ([] : Recorder)) = Ok st ∧
    ∀ a b d1 stk1 d2 stk2 o1 o2,
      vis st !! a = Some (d1, stk1) → vis st !! b = Some (d2, stk2) →
      stack_options d1 stk1 = Ok o1 → stack_options d2 stk2 = Ok o2 →
      o1 ≡ₚ o2 → a = b.
Proof.
  apply (search_reports_no_cover_twice 7 ex_rows ex_matrix 64).
  - lia.
  - vm_compute. reflexivity.
  - vm_compute. lia.
Defined.

(** ** The visitor of the source *)

Definition paint_body (row : string) (i : Z) : Z → list ascii → result (list ascii) :=
  λ j config,
    ch ← string_at row j;
    if bool_decide (ch = "1"%char) then
      cj ← list_get config j;
      assert (bool_decide (cj = "0"%char));;
      let k := i + 1 in
      Ok (<[Z.to_nat j := digit k]> config)
    else Ok config.

Definition visit_body (options : list Z) (rws : list string) (N : Z)
    : Z → list ascii → result (list ascii) :=
  λ i config,
    opt ← list_get options i;
    row ← list_get rws opt;
    for_each (seqZ 0 N) (paint_body row i) config.

Lemma Counter_visit_unfold dl stack c :
  Counter_visit dl stack c =
  (options ← stack_options dl stack;
   let options := merge_sort Z.le options in
   let N := nitems dl in
   config ← for_each (seqZ 0 (Z.of_nat (length stack)))
              (visit_body options (rows c) N) (replicate (Z.to_nat N) "0"%char);
   Ok (mkCounter (counter c + 1) (rows c) (output c ++ [c_str config]))).
Proof. reflexivity. Qed.

Lemma paint_body_eq row i j config :
  paint_body row i j config =
  (ch ← string_at row j;
   if bool_decide (ch = "1"%char) then
     cj ← list_get config j;
     assert (bool_decide (cj = "0"%char));;
     Ok (<[Z.to_nat j := digit (i + 1)]> config)
   else Ok config).
Proof. reflexivity. Qed.

Lemma list_get_ok {A} (l : list A) t x :
  l !! t = Some x → list_get l (Z.of_nat t) = Ok x.
Proof.
  intros H. unfold list_get. rewrite bool_decide_true by lia.
  by rewrite Nat2Z.id, H.
Qed.

Lemma string_get_lt row t :
  (t < String.length row)%nat → ∃ c, String.get t row = Some c.
Proof.
  intros H. rewrite string_get_chars. apply lookup_lt_is_Some_2.
  by rewrite chars_length.
Qed.

Lemma string_at_ok row t c :
  String.get t row = Some c → string_at row (Z.of_nat t) = Ok c.
Proof.
  intros H. unfold string_at. rewrite bool_decide_true by lia.
  by rewrite Nat2Z.id, H.
Qed.

Lemma seqZ_S a (m : nat) :
  seqZ a (Z.of_nat (S m)) = a :: seqZ (a + 1) (Z.of_nat m).
Proof.
  rewrite seqZ_cons by lia. f_equal. f_equal; lia.
Qed.

(** The inner loop of [visit] writes the digit [k] at the positions where
    the row holds '1', provided the line still holds '0' there. *)
Lemma paint_loop row i : ∀ (m a : nat) cfg,
  (a + m ≤ length cfg)%nat → (length cfg ≤ String.length row)%nat →
  (∀ t, (a ≤ t < a + m)%nat → String.get t row = Some "1"%char →
        cfg !! t = Some "0"%char) →
  ∃ cfg', for_each (seqZ (Z.of_nat a) (Z.of_nat m)) (paint_body row i) cfg = Ok cfg' ∧
    length cfg' = length cfg ∧
    ∀ t, cfg' !! t =
         if decide ((a ≤ t < a + m)%nat ∧ String.get t row = Some "1"%char)
         then Some (digit (i + 1)) else cfg !! t.
Proof.
  induction m as [|m IH]; intros a cfg Hlen Hrow Hfree.
  - exists cfg. split_and!; [done..|]. intros t. rewrite decide_False; [done|lia].
  - rewrite seqZ_S. cbn [for_each].
    destruct (string_get_lt row a ltac:(lia)) as [c Hc].
    rewrite paint_body_eq.
    rewrite (string_at_ok _ _ _ Hc). cbn [mbind result_bind].
    replace (Z.of_nat a + 1) with (Z.of_nat (S a)) by lia.
    case_bool_decide as H1.
    + subst c. rewrite (list_get_ok _ _ _ (Hfree a ltac:(lia) Hc)).
      cbn [mbind result_bind]. rewrite bool_decide_true by done.
      cbn [assert mbind result_bind]. rewrite Nat2Z.id.
      destruct (IH (S a) (<[a := digit (i + 1)]> cfg)) as (cfg' & Hrun & Hl' & Hget).
      * rewrite length_insert. lia.
      * rewrite length_insert. lia.
      * intros t Ht Hg. rewrite list_lookup_insert_ne by lia. apply Hfree; [lia|done].
      * exists cfg'. split_and!; [done|by rewrite Hl', length_insert|].
        intros t. rewrite Hget. destruct (decide (t = a)) as [->|Hne].
        -- rewrite decide_False by lia. rewrite decide_True by (split; [lia|done]).
           apply list_lookup_insert_eq. lia.
        -- rewrite list_lookup_insert_ne by done.
           destruct (decide ((S a ≤ t < S a + m)%nat ∧ _)) as [[? ?]|Hn].
           ++ by rewrite decide_True by (split; [lia|done]).
           ++ rewrite decide_False; [done|]. intros [? ?]. apply Hn. split; [lia|done].
    + destruct (IH (S a) cfg) as (cfg' & Hrun & Hl' & Hget).
      * lia.
      * done.
      * intros t Ht Hg. apply Hfree; [lia|done].
      * exists cfg'. split_and!; [done..|].
        intros t. rewrite Hget.
        destruct (decide ((S a ≤ t < S a + m)%nat ∧ _)) as [[? ?]|Hn].
        -- by rewrite decide_True by (split; [lia|done]).
        -- rewrite decide_False; [done|]. intros [? Hg]. apply Hn. split; [|done].
           destruct (decide (t = a)) as [->|?]; [congruence|lia].
Qed.

Lemma has_item_get strs r str (t : nat) :
  strs !! r = Some str →
  has_item strs (Z.of_nat t + 1) (Z.of_nat r) ↔ String.get t str = Some "1"%char.
Proof.
  intros Hr. unfold has_item. rewrite Nat2Z.id.
  replace (Z.to_nat (Z.of_nat t + 1 - 1)) with t by lia. split.
  - intros (str' & _ & Hs & _ & Hg). congruence.
  - intros Hg. exists str. split_and!; [lia|done|lia|done].
Qed.

Lemma filter_two {A} (P : A → Prop) `{!∀ x, Decision (P x)} (l : list A) i1 i2 x1 x2 :
  l !! i1 = Some x1 → l !! i2 = Some x2 → (i1 < i2)%nat → P x1 → P x2 →
  (2 ≤ length (filter P l))%nat.
Proof.
  revert i1 i2. induction l as [|y l IH]; intros i1 i2 H1 H2 Hlt P1 P2; [done|].
  destruct i2 as [|i2]; [lia|]. destruct i1 as [|i1]; simpl in *.
  - injection H1 as ->. rewrite filter_cons_True by done. simpl.
    assert (Hin : x2 ∈ filter P l).
    { apply list_elem_of_filter. split; [done|]. by eapply list_elem_of_lookup_2. }
    destruct (filter P l); [by apply elem_of_nil in Hin|simpl; lia].
  - specialize (IH i1 i2 H1 H2 ltac:(lia) P1 P2).
    rewrite filter_cons. destruct (decide (P y)); simpl; lia.
Qed.

Lemma filter_one_unique {A} (P : A → Prop) `{!∀ x, Decision (P x)} (l : list A)
    i1 i2 x1 x2 :
  (length (filter P l) ≤ 1)%nat →
  l !! i1 = Some x1 → l !! i2 = Some x2 → P x1 → P x2 → i1 = i2.
Proof.
  intros Hlen H1 H2 P1 P2.
  destruct (decide (i1 = i2)) as [|Hne]; [done|].
  destruct (decide (i1 < i2)%nat).
  - pose proof (filter_two P l i1 i2 x1 x2 H1 H2 ltac:(lia) P1 P2). lia.
  - pose proof (filter_two P l i2 i1 x2 x1 H2 H1 ltac:(lia) P2 P1). lia.
Qed.

Section VisitLoop.
Variable strs : list string.
Variable N : nat.
Variable sopts : list Z.
Hypothesis Hrows : ∀ o, o ∈ sopts →
  ∃ r str, o = Z.of_nat r ∧ strs !! r = Some str ∧ String.length str = N.
Hypothesis Hone : ∀ t, (t < N)%nat →
  (length (filter (has_item strs (Z.of_nat t + 1)) sopts) ≤ 1)%nat.

(** The outer loop of [visit], from option [a] on: no assert fails, and
    every position of the line covered by one of the options gets the
    digit of that option's rank. *)
Lemma visit_loop : ∀ (m a : nat) cfg,
  (a + m ≤ length sopts)%nat → length cfg = N →
  (∀ t, (t < N)%nat →
     (∀ i' o, (i' < a)%nat → sopts !! i' = Some o →
              ¬ has_item strs (Z.of_nat t + 1) o) →
     cfg !! t = Some "0"%char) →
  ∃ cfg', for_each (seqZ (Z.of_nat a) (Z.of_nat m))
            (visit_body sopts strs (Z.of_nat N)) cfg = Ok cfg' ∧
    length cfg' = N ∧
    ∀ t, (t < N)%nat →
      (∀ i' o, (a ≤ i' < a + m)%nat → sopts !! i' = Some o →
               has_item strs (Z.of_nat t + 1) o →
               cfg' !! t = Some (digit (Z.of_nat i' + 1))) ∧
      ((∀ i' o, (a ≤ i' < a + m)%nat → sopts !! i' = Some o →
                ¬ has_item strs (Z.of_nat t + 1) o) →
       cfg' !! t = cfg !! t).
Proof using Hrows Hone.
  induction m as [|m IH]; intros a cfg Ham Hlen Hinv.
  - exists cfg. split_and!; [done..|]. intros t Ht. split; [intros; lia|done].
  - rewrite seqZ_S. cbn [for_each].
    destruct (lookup_lt_is_Some_2 sopts a ltac:(lia)) as [o Ho].
    destruct (Hrows o (list_elem_of_lookup_2 _ _ _ Ho)) as (r & str & -> & Hr & Hsl).
    change (visit_body sopts strs (Z.of_nat N) (Z.of_nat a) cfg)
      with (opt ← list_get sopts (Z.of_nat a); row ← list_get strs opt;
            for_each (seqZ 0 (Z.of_nat N)) (paint_body row (Z.of_nat a)) cfg).
    rewrite (list_get_ok _ _ _ Ho). cbn [mbind result_bind].
    rewrite (list_get_ok _ _ _ Hr). cbn [mbind result_bind].
    destruct (paint_loop str (Z.of_nat a) N 0 cfg) as (cfg1 & Hrun1 & Hl1 & Hget1).
    { lia. }
    { lia. }
    { intros t Ht Hg. apply Hinv; [lia|]. intros i' o' Hi' Ho' Hh.
      assert (i' = a); [|lia].
      eapply (filter_one_unique (has_item strs (Z.of_nat t + 1)) sopts _ _ _ _ (Hone t ltac:(lia)) Ho' Ho Hh).
      by apply (has_item_get _ _ _ _ Hr). }
    change (Z.of_nat 0) with 0 in Hrun1. rewrite Hrun1. cbn [mbind result_bind].
    replace (Z.of_nat a + 1) with (Z.of_nat (S a)) by lia.
    destruct (IH (S a) cfg1) as (cfg' & Hrun & Hl' & Hpost).
    { lia. }
    { lia. }
    { intros t Ht Hno. rewrite Hget1. rewrite decide_False.
      - apply Hinv; [done|]. intros i' o' Hi'. apply Hno. lia.
      - intros [_ Hg]. apply (Hno a (Z.of_nat r)); [lia|done|].
        by apply (has_item_get _ _ _ _ Hr). }
    exists cfg'. split_and!; [done..|]. intros t Ht.
    destruct (Hpost t Ht) as [Hp1 Hp2]. split.
    + intros i' o' Hi' Ho' Hh. destruct (decide (i' = a)) as [->|Hne].
      * rewrite Hp2.
        -- rewrite Hget1. rewrite decide_True; [by replace (Z.of_nat a + 1) with (Z.of_nat a + 1) by lia|].
           split; [lia|]. rewrite Ho in Ho'. injection Ho' as <-.
           by apply (has_item_get _ _ _ _ Hr).
        -- intros i2 o2 Hi2 Ho2 Hh2.
           pose proof (filter_one_unique (has_item strs (Z.of_nat t + 1)) sopts _ _ _ _ (Hone t Ht) Ho2 Ho' Hh2 Hh). lia.
      * apply (Hp1 i' o'); [lia|done..].
    + intros Hno. rewrite Hp2.
      * rewrite Hget1. rewrite decide_False; [done|].
        intros [_ Hg]. apply (Hno a (Z.of_nat r)); [lia|done|].
        by apply (has_item_get _ _ _ _ Hr).
      * intros i' o' Hi'. apply Hno. lia.
Qed.

End VisitLoop.

(** The line [visit] builds for the sorted options [opts]: position [j]
    holds the digit of the rank, counted from 1, of the first option that
    contains item [j + 1], and '0' when there is none. *)
Definition render (n : Z) (strs : list string) (opts : list Z) : list ascii :=
  (λ j, match list_find (has_item strs (j + 1)) opts with
        | Some (i, _) => digit (Z.of_nat i + 1)
        | None => "0"%char
        end) <$> seqZ 0 n.




(** ** The search with the visitor of the source *)











(** ** Building a matrix *)

(** A row [addrow] takes on a matrix of [n] items. *)
Definition row_ok (n : Z) (str : string) : Prop :=
  Z.of_nat (String.length str) ≤ n ∧ "1"%char ∈ chars str.

Global Instance row_ok_dec n str : Decision (row_ok n str).
Proof. unfold row_ok. apply _. Defined.

Lemma built_nil n : 0 ≤ n → built n [] (fresh n).
Proof. intros Hn. unfold built. rewrite DLink_new_ok by lia. done. Qed.


(** The nodes the rows take: one for each '1' and one spacer for each row. *)
Definition row_nodes (strs : list string) : Z :=
  foldr (λ str acc, Z.of_nat (length (items_of str)) + 1 + acc) 0 strs.

Lemma rowbase_all strs :
  rowbase (items_of <$> strs) (length (items_of <$> strs)) = row_nodes strs.
Proof.
  unfold rowbase, row_nodes. rewrite firstn_all.
  induction strs as [|str strs IH]; [done|].
  rewrite fmap_cons. cbn [foldr]. by rewrite IH.
Qed.

Lemma built_counts n strs s :
  0 ≤ n → built n strs s →
  nitems s = n ∧ nrows s = Z.of_nat (length strs) ∧
  nnodes s = n + 2 + row_nodes strs.
Proof.
  intros Hn Hb. destruct (built_inv _ _ _ Hn Hb) as (cols & Hg & _ & _ & _ & Hnr & _).
  pose proof (g_layout _ _ _ _ _ Hg) as Hl. split_and!.
  - by eapply nitems_Layout.
  - done.
  - unfold nnodes. rewrite (lay_nodes _ _ _ Hl). unfold sp. rewrite rowbase_all. lia.
Qed.








(** ** main *)





(** ** The two row loops of rdance undo each other *)

Lemma cover_row_ncount fuel k s s' : cover_row fuel k s = Ok s' → ncount s' = ncount s.
Proof.
  unfold cover_row. intros H.
  destruct (while _ _ _ _) as [[s1 q1]|] eqn:E; simpl in H; [|done].
  injection H as <-.
  apply (while_inv (λ a, ncount a.1 = ncount s)) in E; [done| |done].
  intros [x q] [x' q'] Hx Hb. simpl in *.
  bind_inv Hb. case_bool_decide.
  - bind_inv Hb. by injection Hb as <- _.
  - bind_inv Hb.
    match goal with E : cover _ _ _ = Ok _ |- _ => apply cover_ncount in E end.
    injection Hb as <- _. congruence.
Qed.

(** In a reachable state let [i] be an active item, [k] a node of its
    column and [s1] the state after [cover(i)].  Then the loop of [rdance]
    that covers the other items of the row of [k] returns, the loop that
    uncovers them in reverse order gives back [s1], and in between the
    active items are those of the state before [cover(i)] that the row of
    [k] does not contain. *)
Theorem cover_row_uncover_row_restores n strs s i k fuel s1 :
  0 ≤ n → reachable n strs s → i ∈ active s → k ∈ column s i →
  (length (nodes s) ≤ fuel)%nat → cover fuel i s = Ok s1 →
  ∃ s2 r, cover_row fuel k s1 = Ok s2 ∧ uncover_row fuel k s2 = Ok s1 ∧
    getoption s k = Ok r ∧
    ∀ j, j ∈ active s2 ↔ j ∈ active s ∧ ¬ has_item strs j r.
Proof.
  intros Hn Hr Hi Hk Hf Hc.
  destruct (reachable_views _ _ _ Hn Hr) as (C & cols & Hs & Hcol).
  pose proof (s_ginv _ _ _ _ _ _ Hs) as Hg.
  pose proof (g_layout _ _ _ _ _ Hg) as Hl.
  pose proof (active_range _ _ _ _ _ _ _ Hs Hi) as Hir.
  rewrite (Hcol i Hir) in Hk.
  destruct (column_node_live _ _ _ _ _ _ _ _ Hs Hi Hk)
    as (r & row & t0 & Hr0 & Ht0 & -> & Hrow).
  destruct (SInv_cover _ _ _ _ _ _ i fuel Hs Hi Hf)
    as (s1' & hs1 & cols1 & Hc' & Hs1 & _ & HN1 & _).
  rewrite Hc in Hc'. injection Hc' as <-.
  pose proof (row_NoDup _ _ _ _ _ Hl Hr0) as Hrnd.
  assert (Hfree : ∀ t j, row !! t = Some j → t ≠ t0 → j ∉ i :: C).
  { intros t j Ht Hne [->|HjC]%elem_of_cons.
    - apply Hne. by eapply NoDup_lookup.
    - destruct (Hrow t j Ht) as [Hj _].
      by apply (s_active _ _ _ _ _ _ Hs) in Hj as [_ ?]. }
  destruct (cover_row_spec _ _ s1 (i :: C) r row t0 i Hr0 Ht0 ltac:(left) Hfree
              fuel hs1 cols1 Hs1 ltac:(lia))
    as (s2 & C2 & hs2 & cols2 & Hcr & Hs2 & HC2 & HN2 & Hun).
  exists s2, (Z.of_nat r). split_and!.
  - done.
  - specialize (Hun (ncount s1) fuel ltac:(lia)).
    rewrite <- (cover_row_ncount _ _ _ _ Hcr) in Hun at 1.
    by rewrite !with_ncount_id in Hun.
  - apply (getoption_spec _ _ _ _ _ Hl). exists row, t0.
    split_and!; [done| |done]. by eapply lookup_lt_Some.
  - intros j. rewrite (active_GInv _ _ _ _ _ (s_ginv _ _ _ _ _ _ Hs2)).
    rewrite (s_active _ _ _ _ _ _ Hs2 j), (s_active _ _ _ _ _ _ Hs j), HC2.
    rewrite has_item_items. unfold rowitems. rewrite Hr0. simpl.
    rewrite elem_of_cons. split.
    + intros [Hj Hno]. split; [split; [exact Hj|]|]; intros ?; apply Hno; tauto.
    + intros [[Hj HjC] Hjr]. split; [exact Hj|]. intros [[->|?]|?]; [|done..].
      apply Hjr. by eapply list_elem_of_lookup_2.
Qed.

Lemma cover_row_uncover_row_restores_witness :
  let s1 := match cover 32 1 ex_matrix with Ok s1 => s1 | Err _ => ex_matrix end in
  ∃ s2 r, cover_row 32 9 s1 = Ok s2 ∧ uncover_row 32 9 s2 = Ok s1 ∧
    getoption ex_matrix 9 = Ok r ∧
    ∀ j, j ∈ active s2 ↔ j ∈ active ex_matrix ∧ ¬ has_item ex_rows j r.
Proof.
  intros s1.
  apply (cover_row_uncover_row_restores 7 ex_rows ex_matrix 1 9 32 s1).
  - lia.
  - apply reach_built. vm_compute. reflexivity.
  - vm_compute. left.
  - vm_compute. left.
  - vm_compute. lia.
  - vm_compute. reflexivity.
Defined.

From Stdlib Require Import DecimalString.

(** * stats and print *)

(** [printf] with the conversions [%d] and [%ld]. *)
Definition dec (z : Z) : string := NilZero.string_of_int (Z.to_int z).

Definition nl : string := String "010"%char EmptyString.

(** [stats]: the line it writes to stderr. *)
Definition stats (s : DLink) : string :=
  (dec (nitems s) ++ " items, " ++ dec (nrows s) ++ " rows, "
     ++ dec (Z.of_nat (length (nodes s))) ++ " nodes" ++ nl)%string.

(** [for (int i = rlink(0); i != 0; i = rlink(i)) body]: the loop over the
    active items that [print] runs three times. *)
Definition for_items {A : Type} (fuel : nat) (s : DLink)
    (body : Z → A → result A) (acc : A) : result A :=
  i ← rlink s 0;
  snd <$> while fuel (λ '(i, acc), Ok (bool_decide (i ≠ 0)))
    (λ '(i, acc), acc ← body i acc; i ← rlink s i; Ok (i, acc))
    (i, acc).

(** The body of the loop of [print] over the rows, for the row after
    [spacer]. *)
Definition print_row (fuel : nat) (s : DLink) (spacer : Z) (out : string)
    : result string :=
  let node := spacer + 1 in
  '(node, out) ← for_items fuel s (λ i '(node, out),
     node ← while fuel
       (λ node, t ← top s node;
                if bool_decide (t > 0) then t ← top s node; Ok (bool_decide (t < i))
                else Ok false)
       (λ node, Ok (node + 1)) node;
     t ← top s node;
     Ok (node, (out ++ if bool_decide (t = i) then "1" else "0")%string))
     (node, out);
  Ok (out ++ nl)%string.

(** [print]: what it writes to stdout. *)
Definition print (fuel : nat) (s : DLink) : result string :=
  out ← for_items fuel s (λ i out,
     r ← rlink s i; lr ← llink s r;
     assert (bool_decide (lr = i));;
     l ← llink s i; rl ← rlink s l;
     assert (bool_decide (rl = i));;
     Ok (out ++ dec i)%string) EmptyString;
  let out := (out ++ nl)%string in
  out ← for_items fuel s (λ i out, l ← len s i; Ok (out ++ dec l)%string) out;
  let out := (out ++ nl)%string in
  let spacer := nitems s + 1 in
  t ← top s spacer;
  assert (bool_decide (t = 0));;
  '(_, out) ← while fuel
    (λ '(spacer, out), d ← dlink s spacer; Ok (bool_decide (d ≠ 0)))
    (λ '(spacer, out),
       out ← print_row fuel s spacer out;
       d ← dlink s spacer;
       Ok (d + 1, out))
    (spacer, out);
  Ok (out ++ nl)%string.


(** ** The last node

    The last node of the vector is the spacer after the last row: its down
    link is 0, which is what ends the loop of [print] over the rows, and no
    up link points to it.  Both are kept by every write of [addrow], [hide]
    and [cover]. *)

Definition Tail (s : DLink) : Prop :=
  Dn s (lastindex s) = 0 ∧ ∀ q, U s q < lastindex s.

Lemma read_inv (v : list Node) q nd : vec_get v q = Ok nd → inb v q ∧ nd = cell v q.
Proof.
  intros H. destruct (decide (inb v q)) as [Hq|Hq].
  - rewrite (vec_get_ok _ _ Hq) in H. by injection H as <-.
  - by rewrite (vec_get_err _ _ Hq) in H.
Qed.

Lemma top_inv s q x : top s q = Ok x → vn s q ∧ x = D s q.
Proof.
  unfold top. destruct (vec_get (nodes s) q) as [nd|] eqn:E; simpl; [|done].
  intros [= <-]. apply read_inv in E as [? ->]. done.
Qed.
Lemma ulink_inv s q x : ulink s q = Ok x → vn s q ∧ x = U s q.
Proof.
  unfold ulink. destruct (vec_get (nodes s) q) as [nd|] eqn:E; simpl; [|done].
  intros [= <-]. apply read_inv in E as [? ->]. done.
Qed.
Lemma dlink_inv s q x : dlink s q = Ok x → vn s q ∧ x = Dn s q.
Proof.
  unfold dlink. destruct (vec_get (nodes s) q) as [nd|] eqn:E; simpl; [|done].
  intros [= <-]. apply read_inv in E as [? ->]. done.
Qed.
Lemma rlink_inv s q x : rlink s q = Ok x → vh s q ∧ x = Rh s q.
Proof.
  unfold rlink. destruct (vec_get (headers s) q) as [nd|] eqn:E; simpl; [|done].
  intros [= <-]. apply read_inv in E as [? ->]. done.
Qed.
Lemma llink_inv s q x : llink s q = Ok x → vh s q ∧ x = Lh s q.
Proof.
  unfold llink. destruct (vec_get (headers s) q) as [nd|] eqn:E; simpl; [|done].
  intros [= <-]. apply read_inv in E as [? ->]. done.
Qed.

Lemma write_inv f (v : list Node) q v' : vec_set f v q = Ok v' → inb v q ∧ v' = put f q v.
Proof.
  intros H. destruct (decide (inb v q)) as [Hq|Hq].
  - rewrite (vec_set_ok _ _ _ Hq) in H. by injection H as <-.
  - unfold vec_set in H. by rewrite (vec_get_err _ _ Hq) in H.
Qed.

Lemma set_node_inv f s q s' :
  with_nodes s <$> vec_set f (nodes s) q = Ok s' → vn s q ∧ s' = upd_node f q s.
Proof.
  destruct (vec_set f (nodes s) q) as [v'|] eqn:E; simpl; [|done].
  intros [= <-]. apply write_inv in E as [? ->]. done.
Qed.

Lemma set_hd_inv f s q s' :
  with_headers s <$> vec_set f (headers s) q = Ok s' → vh s q ∧ s' = upd_hd f q s.
Proof.
  destruct (vec_set f (headers s) q) as [v'|] eqn:E; simpl; [|done].
  intros [= <-]. apply write_inv in E as [? ->]. done.
Qed.

Lemma lastindex_upd_node f q s : lastindex (upd_node f q s) = lastindex s.
Proof. unfold lastindex. simpl. by rewrite length_put. Qed.

(** One pass of the loop of [hide] keeps the last node as it is. *)
Lemma hide_act_Tail x q s s' :
  Tail s → x = D s q → hide_act x q s = Ok s' →
  Tail s' ∧ lastindex s' = lastindex s.
Proof.
  intros [HT1 HT2] Hx H. unfold hide_act in H.
  bind_inv H. apply ulink_inv in E as [Hq ->].
  bind_inv H. apply dlink_inv in E as [_ ->].
  bind_inv H. apply set_node_inv in E as [Hu ->].
  bind_inv H. apply set_node_inv in E as [Hd ->].
  bind_inv H. apply set_node_inv in H as [Hvx ->].
  assert (Hl : ∀ f1 f2 f3 q1 q2 q3,
            lastindex (upd_node f1 q1 (upd_node f2 q2 (upd_node f3 q3 s))) = lastindex s).
  { intros. by rewrite !lastindex_upd_node. }
  split; [|apply Hl]. unfold Tail. rewrite Hl. split.
  - rewrite Dn_set_data by done. rewrite Dn_set_prev by done.
    rewrite Dn_set_next by vn_tac. rewrite decide_False; [done|].
    specialize (HT2 q). lia.
  - intros y. rewrite U_set_data by done. rewrite U_set_prev by done.
    rewrite U_set_next by vn_tac. case_decide; apply HT2.
Qed.

Lemma hide_Tail fuel p s s' :
  Tail s → hide fuel p s = Ok s' → Tail s' ∧ lastindex s' = lastindex s.
Proof.
  intros HT. rewrite hide_scan. unfold scan_fwd. intros H.
  destruct (while _ _ _ _) as [[s1 q1]|] eqn:E; simpl in H; [|done].
  injection H as <-.
  apply (while_inv (λ a, Tail a.1 ∧ lastindex a.1 = lastindex s)) in E; [done| |done].
  intros [x q] [x' q'] [Hx Hl] Hb. simpl in *.
  bind_inv Hb. apply top_inv in E0 as [_ ->]. case_bool_decide.
  - bind_inv Hb. by injection Hb as <- _.
  - bind_inv Hb. injection Hb as <- _.
    match goal with E : hide_act _ _ _ = Ok _ |- _ =>
      apply (hide_act_Tail _ _ _ _ Hx eq_refl) in E as [? E] end.
    split; [done|congruence].
Qed.

Lemma Tail_upd_hd f i s : Tail s → Tail (upd_hd f i s).
Proof. done. Qed.

Lemma cover_Tail fuel i s s' :
  Tail s → cover fuel i s = Ok s' → Tail s' ∧ lastindex s' = lastindex s.
Proof.
  intros HT H. unfold cover in H. bind_inv H.
  destruct (while _ _ _ _) as [[s1 q1]|] eqn:Ew; cbn [mbind result_bind] in H; [|done].
  apply (while_inv (λ a, Tail a.1 ∧ lastindex a.1 = lastindex s)) in Ew; [| |done].
  - simpl in Ew. destruct Ew as [HT1 Hl1].
    bind_inv H. bind_inv H. bind_inv H.
    match goal with E : set_rlink _ _ _ = Ok _ |- _ =>
      apply set_hd_inv in E as [_ ->] end.
    apply set_hd_inv in H as [_ ->]. done.
  - intros [x q] [x' q'] [Hx Hl] Hb. simpl in *.
    bind_inv Hb.
    match goal with E : hide _ _ _ = Ok _ |- _ =>
      apply (hide_Tail _ _ _ _ Hx) in E as [? E] end.
    bind_inv Hb. injection Hb as <- _. split; [done|congruence].
Qed.

Lemma assert_inv b u : assert b = Ok u → b = true.
Proof. by destruct b. Qed.

Lemma for_each_inv {A S} (P : S → Prop) (body : A → S → result S) (xs : list A) :
  (∀ x a a', P a → body x a = Ok a' → P a') →
  ∀ a r, P a → for_each xs body a = Ok r → P r.
Proof.
  intros Hb. induction xs as [|x xs IH]; intros a r Ha H; simpl in H.
  - by injection H as <-.
  - destruct (body x a) as [a'|] eqn:E; simpl in H; [|done].
    eapply IH; [|exact H]. by eapply Hb.
Qed.

Lemma U_push s nd y :
  U (push_node s nd) y = if decide (y = Z.of_nat (length (nodes s))) then prev nd else U s y.
Proof. unfold U, push_node. simpl. rewrite cell_push. by case_decide. Qed.

Lemma Dn_push s nd y :
  Dn (push_node s nd) y = if decide (y = Z.of_nat (length (nodes s))) then next nd else Dn s y.
Proof. unfold Dn, push_node. simpl. rewrite cell_push. by case_decide. Qed.

Lemma lastindex_push s nd : lastindex (push_node s nd) = lastindex s + 1.
Proof. unfold lastindex, push_node. simpl. rewrite length_app. simpl. lia. Qed.

(** While [addrow] appends the nodes of a row, no up link points beyond
    the last node. *)
Lemma addnode_uplinks item s s' :
  (∀ q, U s q ≤ lastindex s) → addnode item s = Ok s' →
  (∀ q, U s' q ≤ lastindex s') ∧ lastindex s ≤ lastindex s'.
Proof.
  intros HQ H. unfold addnode in H.
  bind_inv H. apply ulink_inv in E as [Hitem ->]. cbv zeta in H.
  set (s1 := push_node s (mkNode item (U s item) item)) in *.
  bind_inv H. apply ulink_inv in E as [Hidx ->].
  bind_inv H. apply set_node_inv in E as [Hu ->].
  bind_inv H. apply dlink_inv in E as [_ ->].
  bind_inv H. apply set_node_inv in E as [Hd ->].
  bind_inv H. apply set_node_inv in H as [Hvx ->].
  assert (Hl : ∀ f1 f2 f3 q1 q2 q3,
            lastindex (upd_node f1 q1 (upd_node f2 q2 (upd_node f3 q3 s1))) =
            lastindex s + 1).
  { intros. rewrite !lastindex_upd_node. apply lastindex_push. }
  rewrite Hl. split; [|lia]. intros y.
  rewrite U_set_data by done. rewrite U_set_prev by done.
  rewrite U_set_next by done.
  assert (HU1 : ∀ z, U s1 z = if decide (z = Z.of_nat (length (nodes s)))
                              then U s item else U s z).
  { intros z. unfold s1. by rewrite U_push. }
  assert (Hl1 : lastindex s1 = lastindex s + 1) by apply lastindex_push.
  case_decide.
  - lia.
  - rewrite HU1. case_decide; [specialize (HQ item)|specialize (HQ y)]; lia.
Qed.

Lemma fresh_Tail n : 0 ≤ n → Tail (fresh n).
Proof.
  intros Hn. destruct (fresh_views n Hn) as (_ & Hv & _ & Hu & Hdn & _ & Hln).
  assert (Hlast : lastindex (fresh n) = n + 1) by (unfold lastindex; rewrite Hln; lia).
  split; rewrite Hlast; [done|]. intros q.
  destruct (decide (0 ≤ q ≤ n)) as [Hq|Hq].
  - destruct (Hv q Hq) as (_ & -> & _). lia.
  - destruct (decide (q = n + 1)) as [->|Hne]; [rewrite Hu; lia|].
    unfold U, cell. case_bool_decide; [|simpl; lia].
    rewrite lookup_ge_None_2; [simpl; lia|]. rewrite Hln. lia.
Qed.

Lemma Tail_nodes s s' : nodes s' = nodes s → Tail s → Tail s'.
Proof. unfold Tail, Dn, U, lastindex. by intros ->. Qed.

Lemma addrow_Tail str s s' : Tail s → addrow str s = Ok s' → Tail s'.
Proof.
  intros [HT1 HT2] H. rewrite addrow_unfold in H.
  bind_inv H. bind_inv H. bind_inv H. cbv zeta in H.
  bind_inv H. bind_inv H. bind_inv H. bind_inv H.
  apply assert_inv, bool_decide_eq_true_1 in E3.
  apply set_node_inv in E5 as [Hsp ->]. injection H as <-.
  apply (for_each_inv (λ x, (∀ q, U x q ≤ lastindex x) ∧ lastindex s ≤ lastindex x))
    in E2.
  - destruct E2 as [HQ Hle].
    set (s3 := push_node a2 (mkNode (a4 - 1) (lastindex s + 1) 0)) in *.
    apply (Tail_nodes (upd_node (with_next (lastindex a2)) (lastindex s) s3)); [done|].
    assert (Hl3 : lastindex s3 = lastindex a2 + 1) by apply lastindex_push.
    assert (Hlen : Z.of_nat (length (nodes a2)) = lastindex a2 + 1)
      by (unfold lastindex; lia).
    unfold Tail. rewrite lastindex_upd_node, Hl3. split.
    + rewrite Dn_set_next by done.
      rewrite (decide_False (P := lastindex a2 + 1 = lastindex s)) by (clear -Hle; lia).
      unfold s3. rewrite Dn_push. rewrite decide_True by (clear -Hlen; lia). done.
    + intros y. rewrite U_set_next by done. unfold s3. rewrite U_push. cbn [prev].
      destruct (decide (y = Z.of_nat (length (nodes a2)))); [clear -E3; lia|].
      specialize (HQ y). clear -HQ. lia.
  - intros [i c] x x' [HQ Hle] Hb. unfold addrow_body in Hb.
    case_bool_decide.
    + destruct (addnode_uplinks _ _ _ HQ Hb) as [HQ' Hle']. split; [done|lia].
    + by injection Hb as <-.
  - split; [|lia]. intros q. specialize (HT2 q). lia.
Qed.

Lemma built_Tail n strs s : 0 ≤ n → built n strs s → Tail s.
Proof.
  intros Hn. revert s. induction strs as [|str strs IH] using rev_ind; intros s Hb.
  - rewrite (built_fun _ _ _ _ Hb (built_nil n Hn)). by apply fresh_Tail.
  - apply built_snoc in Hb as (s0 & Hb0 & Hadd).
    eapply addrow_Tail; [|exact Hadd]. by apply IH.
Qed.

Lemma reachable_Tail n strs s : 0 ≤ n → reachable n strs s → Tail s.
Proof.
  intros Hn. induction 1 as [s Hb|s i fuel s' _ IH _ _ Hc|s c _ IH].
  - by eapply built_Tail.
  - by destruct (cover_Tail _ _ _ _ IH Hc).
  - done.
Qed.

(** ** Strings written piece by piece *)

Lemma append_cons x (a b : string) : (String x a ++ b = String x (a ++ b))%string.
Proof. reflexivity. Qed.

Lemma append_assoc (a b c : string) : ((a ++ b) ++ c = a ++ (b ++ c))%string.
Proof. induction a as [|x a IH]; [done|]. rewrite !append_cons. by f_equal. Qed.

Lemma append_nil_r (a : string) : (a ++ "" = a)%string.
Proof. induction a as [|x a IH]; [done|]. rewrite append_cons. by f_equal. Qed.

(** The pieces [l] one after the other. *)
Definition cat (l : list string) : string := foldr String.append EmptyString l.

Lemma cat_app l1 l2 : cat (l1 ++ l2) = (cat l1 ++ cat l2)%string.
Proof.
  induction l1 as [|x l1 IH]; [done|].
  change (cat ((x :: l1) ++ l2)) with (x ++ cat (l1 ++ l2))%string.
  change (cat (x :: l1)) with (x ++ cat l1)%string.
  rewrite IH. symmetry. apply append_assoc.
Qed.

Lemma for_each_pure {A S} (f : A → S → S) (body : A → S → result S) (xs : list A) :
  (∀ x a, x ∈ xs → body x a = Ok (f x a)) →
  ∀ a, for_each xs body a = Ok (foldl (λ a x, f x a) a xs).
Proof.
  induction xs as [|x xs IH]; intros Hb a; [done|]. simpl.
  rewrite Hb by left. cbn [mbind result_bind]. apply IH.
  intros y b Hy. apply Hb. by right.
Qed.

Lemma foldl_cat {A} (f : A → string) (xs : list A) : ∀ out,
  foldl (λ out x, (out ++ f x)%string) out xs = (out ++ cat (f <$> xs))%string.
Proof.
  induction xs as [|x xs IH]; intros out.
  - simpl. by rewrite append_nil_r.
  - rewrite fmap_cons. cbn [foldl].
    change (cat (f x :: (f <$> xs))) with (f x ++ cat (f <$> xs))%string.
    rewrite IH. apply append_assoc.
Qed.

(** ** The loop over the active items *)

Lemma for_items_chain {A} s pv (body : Z → A → result A) hs : ∀ a acc fuel,
  chain (Rh s) pv a hs 0 → 0 ∉ hs → (∀ x, x ∈ hs → vh s x) →
  (length hs ≤ fuel)%nat →
  while fuel (λ '(i, acc), Ok (bool_decide (i ≠ 0)))
    (λ '(i, acc), acc ← body i acc; i ← rlink s i; Ok (i, acc)) (Rh s a, acc)
  = (acc' ← for_each hs body acc; Ok (0, acc')).
Proof.
  induction hs as [|x hs IH]; intros a acc fuel Hch H0 Hv Hf; simpl in Hch.
  - destruct Hch as [-> _]. simpl. apply while_done.
    by rewrite bool_decide_false by (intros ?; done).
  - destruct Hch as (-> & _ & Hch). apply not_elem_of_cons in H0 as [Hx0 H0].
    destruct fuel as [|fuel]; [simpl in Hf; lia|].
    rewrite while_S. rewrite bool_decide_true by done. cbn [mbind result_bind for_each].
    destruct (body x acc) as [acc1|e]; cbn [mbind result_bind]; [|done].
    rewrite (rlink_ok _ _ (Hv x ltac:(left))). cbn [mbind result_bind].
    apply IH; [done..| |simpl in Hf; lia]. intros y Hy. apply Hv. by right.
Qed.

Lemma for_items_spec {A} n rws s hs cols (body : Z → A → result A) acc fuel :
  GInv n rws s hs cols → (length hs ≤ fuel)%nat →
  for_items fuel s body acc = for_each hs body acc.
Proof.
  intros Hg Hf. pose proof (g_layout _ _ _ _ _ Hg) as Hl.
  destruct (g_horiz _ _ _ _ _ Hg) as (Hch & _ & Hrg).
  unfold for_items.
  rewrite (rlink_ok _ _ (item_vh _ _ _ Hl 0 ltac:(pose proof (lay_n _ _ _ Hl); lia))).
  cbn [mbind result_bind].
  rewrite (for_items_chain s _ body hs 0 acc fuel Hch); [|..|done].
  - by destruct (for_each hs body acc).
  - intros H. apply Hrg in H. lia.
  - intros x Hx. apply (item_vh _ _ _ Hl). apply Hrg in Hx. lia.
Qed.

(** ** The active items and the items of a row are in ascending order *)

Lemma ascending_seqZ (len : nat) : ∀ m, StronglySorted Z.lt (seqZ m (Z.of_nat len)).
Proof.
  induction len as [|len IH]; intros m.
  - constructor.
  - rewrite seqZ_S. constructor; [apply IH|].
    apply Forall_forall. intros x Hx. apply elem_of_seqZ in Hx. lia.
Qed.

Lemma ascending_filter (P : Z → Prop) `{!∀ x, Decision (P x)} l :
  StronglySorted Z.lt l → StronglySorted Z.lt (filter P l).
Proof.
  induction 1 as [|x l Hs IH Hx]; [constructor|].
  rewrite filter_cons. case_decide; [|done]. constructor; [done|].
  apply Forall_forall. intros y Hy. apply list_elem_of_filter in Hy as [_ Hy].
  rewrite Forall_forall in Hx. by apply Hx.
Qed.

Lemma ascending_ones cs : ∀ base, StronglySorted Z.lt (ones base cs).
Proof.
  induction cs as [|c cs IH]; intros base; simpl; [constructor|].
  case_bool_decide; simpl; [|apply IH]. constructor; [apply IH|].
  apply Forall_forall. intros x Hx. apply ones_bounds in Hx. lia.
Qed.

Lemma reachable_ascending n strs s :
  0 ≤ n → reachable n strs s → StronglySorted Z.lt (active s).
Proof.
  intros Hn. induction 1 as [s Hb|s i fuel s' Hr IH Hi Hf Hc|s c Hr IH].
  - destruct (built_inv _ _ _ Hn Hb) as (cols & Hg & _).
    rewrite (active_GInv _ _ _ _ _ Hg).
    replace n with (Z.of_nat (Z.to_nat n)) by lia. apply ascending_seqZ.
  - destruct (reachable_views _ _ _ Hn Hr) as (C & cols & Hs & _).
    pose proof (s_ginv _ _ _ _ _ _ Hs) as Hg.
    pose proof (active_range _ _ _ _ _ _ _ Hs Hi) as Hir.
    pose proof (SInv_linked _ _ _ _ _ _ _ Hs Hi) as Hlk.
    destruct (cover_spec _ _ _ _ _ i Hg Hir Hlk Hi fuel Hf) as (s2 & rm & Hc2 & Hg' & _).
    rewrite Hc in Hc2. injection Hc2 as <-.
    rewrite (active_GInv _ _ _ _ _ Hg'). by apply ascending_filter.
  - destruct (reachable_views _ _ _ Hn Hr) as (C & cols & Hs & _).
    pose proof (GInv_ncount _ _ _ _ _ c (s_ginv _ _ _ _ _ _ Hs)) as Hg.
    by rewrite (active_GInv _ _ _ _ _ Hg).
Qed.

Lemma ascending_lookup (l : list Z) : ∀ a b x y,
  StronglySorted Z.lt l → l !! a = Some x → l !! b = Some y → (a < b)%nat → x < y.
Proof.
  induction l as [|z l IH]; intros a b x y Hs Ha Hb Hab; [done|].
  apply StronglySorted_inv in Hs as [Hs Hz]. rewrite Forall_forall in Hz.
  destruct b as [|b]; [lia|]. simpl in Hb. destruct a as [|a]; simpl in Ha.
  - injection Ha as <-. apply Hz. by eapply list_elem_of_lookup_2.
  - apply (IH a b); [done..|lia].
Qed.

(** ** One row of print *)

(** What [print] writes for item [i] in the line of the row [row]. *)
Definition bit (row : list Z) (i : Z) : string :=
  if bool_decide (i ∈ row) then "1"%string else "0"%string.

Definition scan_cond (s : DLink) (i : Z) : Z → result bool :=
  λ node, t ← top s node;
          if bool_decide (t > 0) then t ← top s node; Ok (bool_decide (t < i))
          else Ok false.

Definition row_body (fuel : nat) (s : DLink) : Z → Z * string → result (Z * string) :=
  λ i '(node, out),
    node ← while fuel (scan_cond s i) (λ node, Ok (node + 1)) node;
    t ← top s node;
    Ok (node, (out ++ if bool_decide (t = i) then "1" else "0")%string).

Lemma scan_cond_eq s i node :
  scan_cond s i node =
  (t ← top s node;
   if bool_decide (t > 0) then t ← top s node; Ok (bool_decide (t < i)) else Ok false).
Proof. reflexivity. Qed.

Lemma print_row_unfold fuel s spacer out :
  print_row fuel s spacer out =
  ('(node, out) ← for_items fuel s (row_body fuel s) (spacer + 1, out);
   Ok (out ++ nl)%string).
Proof. reflexivity. Qed.

Section PrintRow.
Variable n : Z.
Variable rws : list (list Z).
Variable s : DLink.
Variable r : nat.
Variable row : list Z.
Hypothesis Hl : Layout n rws s.
Hypothesis Hr : rws !! r = Some row.
Hypothesis Hrow : StronglySorted Z.lt row.

Lemma pos_end : pos n rws r (length row) = sp n rws (S r).
Proof using Hr. rewrite (sp_S _ _ _ _ Hr). unfold pos. lia. Qed.

Lemma top_pos t x : row !! t = Some x → top s (pos n rws r t) = Ok x ∧ 1 ≤ x ≤ n.
Proof using Hl Hr.
  intros Ht. assert (Hreal : real n rws (pos n rws r t) x) by (by exists r, row, t).
  destruct (real_vn _ _ _ Hl _ _ Hreal) as (Hv & _ & Hx).
  by rewrite (top_ok _ _ Hv), (lay_top _ _ _ Hl _ _ Hreal).
Qed.

Lemma top_end : top s (pos n rws r (length row)) = Ok (- Z.of_nat (S r)).
Proof using Hl Hr.
  rewrite pos_end.
  assert (Hle : (S r ≤ length rws)%nat) by (apply lookup_lt_Some in Hr; lia).
  by rewrite (top_ok _ _ (sp_vn _ _ _ Hl _ Hle)), (lay_sp_top _ _ _ Hl _ Hle).
Qed.

(** [while (top(node) > 0 && top(node) < i) node++] stops at the first node
    of the row, from [t] on, whose item is not below [i], or at the spacer
    after the row. *)
Lemma advance i : ∀ (m t fuel : nat),
  (t + m = length row)%nat → (m ≤ fuel)%nat →
  ∃ t', (t ≤ t' ≤ length row)%nat ∧
    while fuel (scan_cond s i) (λ node, Ok (node + 1)) (pos n rws r t)
    = Ok (pos n rws r t') ∧
    (∀ k x, (t ≤ k < t')%nat → row !! k = Some x → x < i) ∧
    (∀ x, row !! t' = Some x → i ≤ x).
Proof using Hl Hr.
  induction m as [|m IH]; intros t fuel Htm Hf.
  - exists t. split; [lia|]. split; [|split; [intros; lia|]].
    + apply while_done. unfold scan_cond.
      replace t with (length row) by lia. rewrite top_end. cbn [mbind result_bind].
      by rewrite bool_decide_false by lia.
    + intros x Hx. apply lookup_lt_Some in Hx. lia.
  - destruct (lookup_lt_is_Some_2 row t ltac:(lia)) as [x Hx].
    destruct (top_pos t x Hx) as [Htop Hxr].
    destruct (decide (x < i)) as [Hlt|Hge].
    + destruct fuel as [|fuel]; [lia|].
      destruct (IH (S t) fuel ltac:(lia) ltac:(lia)) as (t' & Ht' & Hw & Hlow & Hhigh).
      exists t'. split; [lia|]. split; [|split; [|done]].
      * rewrite while_S. rewrite scan_cond_eq. rewrite Htop. cbn [mbind result_bind].
        rewrite bool_decide_true by lia. cbn [mbind result_bind].
        rewrite bool_decide_true by done. cbn [mbind result_bind].
        replace (pos n rws r t + 1) with (pos n rws r (S t)) by (unfold pos; lia).
        exact Hw.
      * intros k y Hk Hy. destruct (decide (k = t)) as [->|Hne].
        -- rewrite Hx in Hy. by injection Hy as <-.
        -- apply (Hlow k y); [lia|done].
    + exists t. split; [lia|]. split; [|split; [intros; lia|]].
      * apply while_done. unfold scan_cond. rewrite Htop. cbn [mbind result_bind].
        rewrite bool_decide_true by lia. cbn [mbind result_bind].
        by rewrite bool_decide_false by done.
      * intros y Hy. rewrite Hx in Hy. injection Hy as <-. lia.
Qed.

(** The loop of [print] over the active items, for one row. *)
Lemma row_loop fuel : ∀ hs (t : nat) out,
  (length row ≤ fuel)%nat → StronglySorted Z.lt hs → (∀ i, i ∈ hs → 1 ≤ i) →
  (t ≤ length row)%nat →
  (∀ k x i, (k < t)%nat → row !! k = Some x → i ∈ hs → x < i) →
  ∃ t', for_each hs (row_body fuel s) (pos n rws r t, out)
        = Ok (pos n rws r t', (out ++ cat (bit row <$> hs))%string).
Proof using Hl Hr Hrow.
  induction hs as [|i hs IH]; intros t out Hf Hasc Hpos Ht Hinv.
  - exists t. simpl. by rewrite append_nil_r.
  - apply StronglySorted_inv in Hasc as [Hasc Hi].
    rewrite Forall_forall in Hi.
    destruct (advance i (length row - t) t fuel ltac:(lia) ltac:(lia))
      as (t' & Ht' & Hw & Hlow & Hhigh).
    assert (Hbit : ∃ x, top s (pos n rws r t') = Ok x ∧
              (if bool_decide (x = i) then "1" else "0")%string = bit row i).
    { destruct (decide (t' < length row)%nat) as [Hlt|Hge].
      - destruct (lookup_lt_is_Some_2 row t' Hlt) as [x Hx].
        destruct (top_pos t' x Hx) as [Htop _]. exists x. split; [done|].
        unfold bit. pose proof (Hhigh x Hx) as Hix.
        destruct (decide (x = i)) as [->|Hne].
        + rewrite bool_decide_true by done.
          by rewrite bool_decide_true by (by eapply list_elem_of_lookup_2).
        + rewrite bool_decide_false by done. rewrite bool_decide_false; [done|].
          intros Hin. apply list_elem_of_lookup in Hin as [k Hk].
          destruct (decide (k < t)%nat).
          { pose proof (Hinv k i i ltac:(lia) Hk ltac:(left)). lia. }
          destruct (decide (k < t')%nat).
          { pose proof (Hlow k i ltac:(lia) Hk). lia. }
          destruct (decide (k = t')) as [->|]; [congruence|].
          pose proof (ascending_lookup row t' k x i Hrow Hx Hk ltac:(lia)). lia.
      - exists (- Z.of_nat (S r)). replace t' with (length row) by lia.
        split; [apply top_end|].
        rewrite bool_decide_false by (specialize (Hpos i ltac:(left)); lia).
        unfold bit. rewrite bool_decide_false; [done|].
        intros Hin. apply list_elem_of_lookup in Hin as [k Hk].
        pose proof (lookup_lt_Some _ _ _ Hk).
        destruct (decide (k < t)%nat).
        { pose proof (Hinv k i i ltac:(lia) Hk ltac:(left)). lia. }
        pose proof (Hlow k i ltac:(lia) Hk). lia. }
    destruct Hbit as (x & Htop & Hbit).
    destruct (IH t' (out ++ bit row i)%string Hf Hasc) as (t'' & Hrun).
    { intros j Hj. apply Hpos. by right. }
    { lia. }
    { intros k y j Hk Hy Hj. specialize (Hi j Hj).
      destruct (decide (k < t)%nat).
      - pose proof (Hinv k y i ltac:(lia) Hy ltac:(left)). lia.
      - pose proof (Hlow k y ltac:(lia) Hy). lia. }
    exists t''. cbn [for_each].
    change (row_body fuel s i (pos n rws r t, out))
      with (node ← while fuel (scan_cond s i) (λ node, Ok (node + 1)) (pos n rws r t);
            t ← top s node;
            Ok (node, (out ++ if bool_decide (t = i) then "1" else "0")%string)).
    rewrite Hw. cbn [mbind result_bind]. rewrite Htop. cbn [mbind result_bind].
    rewrite Hbit, Hrun. rewrite fmap_cons.
    change (cat (bit row i :: (bit row <$> hs)))
      with (bit row i ++ cat (bit row <$> hs))%string.
    by rewrite append_assoc.
Qed.

End PrintRow.

(** ** print *)

Definition rows_cond (s : DLink) : Z * string → result bool :=
  λ '(spacer, out), d ← dlink s spacer; Ok (bool_decide (d ≠ 0)).

Definition rows_body (fuel : nat) (s : DLink) : Z * string → result (Z * string) :=
  λ '(spacer, out),
    out ← print_row fuel s spacer out;
    d ← dlink s spacer;
    Ok (d + 1, out).

Definition check_body (s : DLink) : Z → string → result string :=
  λ i out,
    r ← rlink s i; lr ← llink s r;
    assert (bool_decide (lr = i));;
    l ← llink s i; rl ← rlink s l;
    assert (bool_decide (rl = i));;
    Ok (out ++ dec i)%string.

Definition len_body (s : DLink) : Z → string → result string :=
  λ i out, l ← len s i; Ok (out ++ dec l)%string.

Lemma print_unfold fuel s :
  print fuel s =
  (out ← for_items fuel s (check_body s) EmptyString;
   let out := (out ++ nl)%string in
   out ← for_items fuel s (len_body s) out;
   let out := (out ++ nl)%string in
   let spacer := nitems s + 1 in
   t ← top s spacer;
   assert (bool_decide (t = 0));;
   '(_, out) ← while fuel (rows_cond s) (rows_body fuel s) (spacer, out);
   Ok (out ++ nl)%string).
Proof. reflexivity. Qed.

(** The line of a row: a '1' or a '0' for each of the items [hs]. *)
Definition row_line (hs : list Z) (row : list Z) : string :=
  (cat (bit row <$> hs) ++ nl)%string.

(** What [print] writes: the active items, their lengths, and the rows. *)
Definition print_out (hs lens : list Z) (rows : list (list Z)) : string :=
  (cat (dec <$> hs) ++ nl ++ cat (dec <$> lens) ++ nl
     ++ cat (row_line hs <$> rows) ++ nl)%string.

Lemma rowbase_ge rws r : (r ≤ length rws)%nat → Z.of_nat r ≤ rowbase rws r.
Proof.
  induction r as [|r IH]; intros Hr; [rewrite rowbase_0; lia|].
  destruct (lookup_lt_is_Some_2 rws r ltac:(lia)) as [row Hrow].
  rewrite (rowbase_S _ _ _ Hrow). specialize (IH ltac:(lia)). lia.
Qed.

Section PrintAll.
Variable n : Z.
Variable rws : list (list Z).
Variable s : DLink.
Variable hs : list Z.
Variable cols : Z → list Z.
Variable fuel : nat.
Hypothesis Hg : GInv n rws s hs cols.
Hypothesis Hasc : StronglySorted Z.lt hs.
Hypothesis Hrows : ∀ r row, rws !! r = Some row → StronglySorted Z.lt row.
Hypothesis HT : Tail s.
Hypothesis Hfuel : (length (nodes s) ≤ fuel)%nat.

Lemma rows_loop : ∀ (m r f : nat) out,
  (r + m = length rws)%nat → (m ≤ f)%nat →
  while f (rows_cond s) (rows_body fuel s) (sp n rws r, out)
  = Ok (sp n rws (length rws),
        (out ++ cat (row_line hs <$> drop r rws))%string).
Proof using All.
  pose proof (g_layout _ _ _ _ _ Hg) as Hl.
  induction m as [|m IH]; intros r f out Hrm Hf.
  - replace r with (length rws) by lia. rewrite drop_all. simpl.
    rewrite append_nil_r. apply while_done. unfold rows_cond.
    rewrite (dlink_ok _ _ (sp_vn _ _ _ Hl _ (le_n _))). cbn [mbind result_bind].
    destruct HT as [HT1 _]. unfold lastindex in HT1.
    rewrite (lay_nodes _ _ _ Hl) in HT1.
    replace (sp n rws (length rws) + 1 - 1) with (sp n rws (length rws)) in HT1 by lia.
    rewrite HT1. by rewrite bool_decide_false by (intros ?; done).
  - destruct f as [|f]; [lia|].
    destruct (lookup_lt_is_Some_2 rws r ltac:(lia)) as [row Hr].
    rewrite (drop_S _ _ _ Hr). rewrite fmap_cons.
    change (cat (row_line hs row :: (row_line hs <$> drop (S r) rws)))
      with (row_line hs row ++ cat (row_line hs <$> drop (S r) rws))%string.
    assert (Hvsp : vn s (sp n rws r)).
    { apply (sp_vn _ _ _ Hl). apply lookup_lt_Some in Hr. lia. }
    assert (Hdn : dlink s (sp n rws r) = Ok (sp n rws r + Z.of_nat (length row))).
    { by rewrite (dlink_ok _ _ Hvsp), (lay_sp_dn _ _ _ Hl _ _ Hr). }
    pose proof (sp_lower n rws r) as Hlow. pose proof (lay_n _ _ _ Hl) as Hn.
    rewrite while_S.
    change (rows_cond s (sp n rws r, out))
      with (d ← dlink s (sp n rws r); Ok (bool_decide (d ≠ 0))).
    rewrite Hdn. cbn [mbind result_bind]. rewrite bool_decide_true by lia.
    change (rows_body fuel s (sp n rws r, out))
      with (out' ← print_row fuel s (sp n rws r) out;
            d ← dlink s (sp n rws r); Ok (d + 1, out')).
    rewrite print_row_unfold.
    destruct (g_horiz _ _ _ _ _ Hg) as (_ & _ & Hrg).
    pose proof (Horiz_length _ _ _ (g_horiz _ _ _ _ _ Hg) Hn) as Hhl.
    pose proof (lay_nodes _ _ _ Hl) as Hnodes.
    pose proof (sp_lower n rws (length rws)) as Hlow'.
    rewrite (for_items_spec _ _ _ _ _ _ _ _ Hg) by lia.
    pose proof (row_length _ _ _ _ _ Hl Hr) as Hrl.
    destruct (row_loop n rws s r row Hl Hr (Hrows _ _ Hr) fuel hs 0 out) as (t' & Hrun).
    { lia. }
    { done. }
    { intros i Hi. apply Hrg in Hi. lia. }
    { lia. }
    { intros; lia. }
    replace (sp n rws r + 1) with (pos n rws r 0) by (unfold pos; lia).
    rewrite Hrun. cbn [mbind result_bind]. rewrite Hdn. cbn [mbind result_bind].
    replace (sp n rws r + Z.of_nat (length row) + 1) with (sp n rws (S r))
      by (rewrite (sp_S _ _ _ _ Hr); lia).
    rewrite (IH (S r) f) by lia. unfold row_line at 2.
    by rewrite !append_assoc.
Qed.

Lemma print_GInv :
  print fuel s = Ok (print_out hs (D s <$> hs) rws).
Proof using All.
  pose proof (g_layout _ _ _ _ _ Hg) as Hl.
  pose proof (lay_n _ _ _ Hl) as Hn.
  destruct (g_horiz _ _ _ _ _ Hg) as (Hch & _ & Hrg).
  pose proof (Horiz_length _ _ _ (g_horiz _ _ _ _ _ Hg) Hn) as Hhl.
  pose proof (lay_nodes _ _ _ Hl) as Hnodes.
  pose proof (sp_lower n rws (length rws)) as Hlow'.
  assert (Hvh : ∀ y, y ∈ 0 :: hs → vh s y).
  { intros y [->|Hy]%elem_of_cons; apply (item_vh _ _ _ Hl); [lia|].
    apply Hrg in Hy. lia. }
  rewrite print_unfold.
  rewrite (for_items_spec _ _ _ _ _ _ _ _ Hg) by lia.
  rewrite (for_each_pure (λ i out, (out ++ dec i)%string)).
  2:{ intros i out Hi. unfold check_body.
      assert (Hi' : i ∈ 0 :: hs) by (by right).
      destruct (chain_circular _ _ _ _ _ Hch Hi') as (H1 & H2 & H3 & H4).
      rewrite (rlink_ok _ _ (Hvh _ Hi')). cbn [mbind result_bind].
      rewrite (llink_ok _ _ (Hvh _ H4)), H2. cbn [mbind result_bind].
      rewrite bool_decide_true by done. cbn [assert mbind result_bind].
      rewrite (llink_ok _ _ (Hvh _ Hi')). cbn [mbind result_bind].
      rewrite (rlink_ok _ _ (Hvh _ H3)), H1. cbn [mbind result_bind].
      by rewrite bool_decide_true by done. }
  cbn [mbind result_bind]. cbv zeta.
  rewrite (for_items_spec _ _ _ _ _ _ _ _ Hg) by lia.
  rewrite (for_each_pure (λ i out, (out ++ dec (D s i))%string)).
  2:{ intros i out Hi. unfold len_body.
      rewrite (len_ok s i); [done|]. apply (item_vn _ _ _ Hl). apply Hrg in Hi. lia. }
  cbn [mbind result_bind].
  rewrite (nitems_Layout _ _ _ Hl).
  replace (n + 1) with (sp n rws 0) by (unfold sp; rewrite rowbase_0; lia).
  rewrite (top_ok _ _ (sp_vn _ _ _ Hl 0 ltac:(lia))), (lay_sp_top _ _ _ Hl 0 ltac:(lia)).
  cbn [mbind result_bind]. rewrite bool_decide_true by done.
  cbn [assert mbind result_bind].
  pose proof (rowbase_ge rws (length rws) (le_n _)) as Hrb.
  unfold sp in Hnodes.
  rewrite (rows_loop (length rws) 0 fuel) by lia.
  cbn [mbind result_bind]. rewrite drop_0. f_equal.
  rewrite !foldl_cat. unfold print_out. rewrite <- list_fmap_compose.
  change (EmptyString ++ ?x)%string with x. by rewrite !append_assoc.
Qed.

End PrintAll.

Lemma bits_to_bits str : ∀ base,
  cat (bit (ones base (chars str)) <$> seqZ (base + 1) (Z.of_nat (String.length str)))
  = to_bits str.
Proof.
  induction str as [|c str IH]; intros base; [done|].
  change (chars (String c str)) with (c :: chars str).
  change (String.length (String c str)) with (S (String.length str)).
  rewrite seqZ_S, fmap_cons.
  change (to_bits (String c str))
    with (String (if bool_decide (c = "1"%char) then "1"%char else "0"%char)
                 (to_bits str)).
  rewrite <- (IH (base + 1)).
  change (cat (?x :: ?l)) with (x ++ cat l)%string.
  assert (Hhead : bit (ones base (c :: chars str)) (base + 1)
                  = String (if bool_decide (c = "1"%char) then "1"%char else "0"%char)
                           EmptyString).
  { unfold bit. cbn [ones]. destruct (decide (c = "1"%char)) as [Hc|Hc].
    - rewrite (bool_decide_true (c = "1"%char)) by done.
      by rewrite bool_decide_true by (apply elem_of_app; left; left).
    - rewrite (bool_decide_false (c = "1"%char)) by done.
      rewrite bool_decide_false; [done|]. simpl. intros Hin.
      apply ones_bounds in Hin. lia. }
  rewrite Hhead. rewrite append_cons. f_equal.
  change (EmptyString ++ ?x)%string with x. f_equal.
  apply list_fmap_ext. intros k j Hj.
  apply list_elem_of_lookup_2, elem_of_seqZ in Hj.
  unfold bit. apply (f_equal (λ b : bool, if b then "1"%string else "0"%string)).
  apply bool_decide_ext. cbn [ones]. rewrite elem_of_app. split; [|by right].
  intros [Hin|Hin]; [|done].
  destruct (bool_decide (c = "1"%char)); [|by apply elem_of_nil in Hin].
  apply list_elem_of_singleton in Hin. lia.
Qed.

(** In every reachable state [print] returns, none of its asserts failing.
    It writes the active items, the number of nodes in the column of each,
    and one line for every row added, which holds for each active item, in
    order, a '1' when the row contains the item and a '0' when not; then an
    empty line. *)
Theorem print_reachable n strs s fuel :
  0 ≤ n → reachable n strs s → (length (nodes s) ≤ fuel)%nat →
  print fuel s
  = Ok (print_out (active s) ((λ i, Z.of_nat (length (column s i))) <$> active s)
          (items_of <$> strs)).
Proof.
  intros Hn Hr Hf.
  destruct (reachable_views _ _ _ Hn Hr) as (C & cols & Hs & Hcol).
  pose proof (s_ginv _ _ _ _ _ _ Hs) as Hg.
  rewrite (print_GInv n (items_of <$> strs) s (active s) cols fuel Hg
             (reachable_ascending _ _ _ Hn Hr)); [| |by eapply reachable_Tail|done].
  - f_equal. f_equal. apply list_fmap_ext. intros k i Hi.
    apply list_elem_of_lookup_2 in Hi.
    pose proof (active_range _ _ _ _ _ _ _ Hs Hi) as Hir.
    rewrite (Hcol i Hir). by destruct (g_cols _ _ _ _ _ Hg i Hir) as (_ & _ & _ & ->).
  - intros r row Hrow. rewrite list_lookup_fmap in Hrow.
    destruct (strs !! r) as [str|]; simpl in Hrow; [|done].
    injection Hrow as <-. apply ascending_ones.
Qed.

Lemma print_reachable_witness :
  print 32 ex_matrix
  = Ok (print_out (active ex_matrix)
          ((λ i, Z.of_nat (length (column ex_matrix i))) <$> active ex_matrix)
          (items_of <$> ex_rows)).
Proof.
  apply (print_reachable 7 ex_rows ex_matrix 32).
  - lia.
  - apply reach_built. vm_compute. reflexivity.
  - vm_compute. lia.
Defined.

(** On a matrix built from rows of [n] characters each, [print] gives the
    rows back: after the line of the items 1 to [n] and the line of their
    lengths it writes the rows in the order they were added, every
    character other than '1' shown as '0'. *)
Theorem print_built n strs s fuel :
  0 ≤ n → built n strs s →
  Forall (λ str, Z.of_nat (String.length str) = n) strs →
  (length (nodes s) ≤ fuel)%nat →
  print fuel s
  = Ok (cat (dec <$> seqZ 1 n) ++ nl
        ++ cat (dec <$> ((λ i, Z.of_nat (length (column s i))) <$> seqZ 1 n)) ++ nl
        ++ cat ((λ str, to_bits str ++ nl) <$> strs) ++ nl)%string.
Proof.
  intros Hn Hb Hlen Hf.
  destruct (built_inv _ _ _ Hn Hb) as (cols & Hg & _).
  pose proof (reach_built n strs s Hb) as Hr.
  rewrite (print_GInv n (items_of <$> strs) s (seqZ 1 n) cols fuel Hg);
    [| | |by eapply reachable_Tail|done].
  - unfold print_out. do 5 f_equal.
    + f_equal. apply list_fmap_ext. intros k i Hi.
      apply list_elem_of_lookup_2, elem_of_seqZ in Hi.
      rewrite (column_GInv _ _ _ _ _ _ Hg) by lia.
      by destruct (g_cols _ _ _ _ _ Hg i ltac:(lia)) as (_ & _ & _ & ->).
    + do 2 f_equal. rewrite <- list_fmap_compose. apply list_fmap_ext.
      intros k str Hstr. simpl. unfold row_line. f_equal.
      rewrite Forall_forall in Hlen.
      rewrite <- (Hlen str (list_elem_of_lookup_2 _ _ _ Hstr)).
      apply (bits_to_bits str 0).
  - replace n with (Z.of_nat (Z.to_nat n)) by lia. apply ascending_seqZ.
  - intros r row Hrow. rewrite list_lookup_fmap in Hrow.
    destruct (strs !! r) as [str|]; simpl in Hrow; [|done].
    injection Hrow as <-. apply ascending_ones.
Qed.

Lemma print_built_witness :
  print 32 ex_matrix
  = Ok (cat (dec <$> seqZ 1 7) ++ nl
        ++ cat (dec <$> ((λ i, Z.of_nat (length (column ex_matrix i))) <$> seqZ 1 7)) ++ nl
        ++ cat ((λ str, to_bits str ++ nl) <$> ex_rows) ++ nl)%string.
Proof.
  apply (print_built 7 ex_rows ex_matrix 32).
  - lia.
  - vm_compute. reflexivity.
  - vm_compute. repeat constructor.
  - vm_compute. lia.
Defined.

(** On a matrix built from the rows [strs], [stats] reports the item count
    the constructor was given, the number of rows added, and the number of
    nodes: one for the root, one for each item, the first spacer, and for
    each row one node for each '1' and one spacer. *)
Theorem stats_built n strs s :
  0 ≤ n → built n strs s →
  stats s = (dec n ++ " items, " ++ dec (Z.of_nat (length strs)) ++ " rows, "
             ++ dec (n + 2 + row_nodes strs) ++ " nodes" ++ nl)%string.
Proof.
  intros Hn Hb. destruct (built_counts n strs s Hn Hb) as (H1 & H2 & H3).
  unfold stats. unfold nnodes in H3. by rewrite H1, H2, H3.
Qed.

Lemma stats_built_witness :
  stats ex_matrix
  = (dec 7 ++ " items, " ++ dec (Z.of_nat (length ex_rows)) ++ " rows, "
     ++ dec (7 + 2 + row_nodes ex_rows) ++ " nodes" ++ nl)%string.
Proof.
  apply (stats_built 7 ex_rows ex_matrix).
  - lia.
  - vm_compute. reflexivity.
Defined.

(** ** The lengths count the rows *)

Lemma items_of_get str j :
  j ∈ items_of str ↔ 1 ≤ j ∧ String.get (Z.to_nat (j - 1)) str = Some "1"%char.
Proof.
  unfold items_of. rewrite ones_elem. split.
  - intros (t & Ht & ->). rewrite string_get_chars.
    replace (Z.to_nat (0 + 1 + Z.of_nat t - 1)) with t by lia. split; [lia|done].
  - intros [Hj Hget]. exists (Z.to_nat (j - 1)).
    rewrite <- string_get_chars. split; [done|lia].
Qed.

Lemma built_lengths n strs : ∀ s j,
  0 ≤ n → built n strs s → 1 ≤ j ≤ n →
  D s j = Z.of_nat (length (filter (λ str, String.get (Z.to_nat (j - 1)) str
                                             = Some "1"%char) strs)).
Proof.
  induction strs as [|str strs IH] using rev_ind; intros s j Hn Hb Hj.
  - rewrite (built_fun _ _ _ _ Hb (built_nil n Hn)).
    destruct (fresh_views n Hn) as (_ & Hv & _). by destruct (Hv j ltac:(lia)) as (-> & _).
  - apply built_snoc in Hb as (s0 & Hb0 & Hadd).
    destruct (built_Layout _ _ _ Hn Hb0) as (cols & Hg & HF).
    destruct (proj1 (addrow_accepts n strs s0 str Hn Hb0)) as [Hlen H1]; [by exists s|].
    destruct (addrow_spec _ _ _ _ _ str Hg HF Hlen)
      as (s' & cols' & Hs' & _ & _ & _ & HD & _).
    { intros H0. by apply (ones_nil _ 0) in H0. }
    rewrite Hadd in Hs'. injection Hs' as <-.
    rewrite (HD j Hj), (IH s0 j Hn Hb0 Hj), filter_app, length_app.
    rewrite filter_cons, filter_nil.
    destruct (decide (j ∈ items_of str)) as [Hin|Hin]; case_decide as Hg1; simpl; try lia.
    + apply items_of_get in Hin as [_ ?]. done.
    + destruct Hin. apply items_of_get. split; [lia|done].
Qed.

(** On a built matrix the stored length of item [j] is the number of rows
    added that hold '1' at the position of [j]. *)
Theorem len_counts_rows n strs s j :
  0 ≤ n → built n strs s → 1 ≤ j ≤ n →
  len s j = Ok (Z.of_nat (length (filter (λ str, String.get (Z.to_nat (j - 1)) str
                                                  = Some "1"%char) strs))).
Proof.
  intros Hn Hb Hj. destruct (built_Layout _ _ _ Hn Hb) as (cols & Hg & _).
  rewrite (len_ok s j).
  - by rewrite (built_lengths n strs s j Hn Hb Hj).
  - apply (item_vn _ _ _ (g_layout _ _ _ _ _ Hg)). lia.
Qed.

Lemma len_counts_rows_witness :
  len ex_matrix 4
  = Ok (Z.of_nat (length (filter (λ str, String.get (Z.to_nat (4 - 1)) str
                                          = Some "1"%char) ex_rows))).
Proof.
  apply (len_counts_rows 7 ex_rows ex_matrix 4).
  - lia.
  - vm_compute. reflexivity.
  - lia.
Defined.

(** ** getoption at any position *)

Definition opt_cond (d : DLink) : Z → result bool :=
  λ p, t ← top d p; Ok (bool_decide (t >= 0)%Z).

Lemma getoption_unfold d p :
  getoption d p =
  (p ← while (length (nodes d)) (opt_cond d) (λ p, Ok (p + 1)) p;
   t ← top d p; Ok (- t - 1)).
Proof. reflexivity. Qed.

(** Every position after the first spacer lies in a row or is the spacer
    that closes it. *)
Lemma position_row n rws : ∀ (R : nat) p,
  (R ≤ length rws)%nat → sp n rws 0 < p ≤ sp n rws R →
  ∃ r row, rws !! r = Some row ∧ sp n rws r < p ≤ sp n rws (S r).
Proof.
  induction R as [|R IH]; intros p HR Hp; [lia|].
  destruct (lookup_lt_is_Some_2 rws R ltac:(lia)) as [row Hrow].
  destruct (decide (p ≤ sp n rws R)) as [Hle|Hgt].
  - apply IH; [lia|lia].
  - exists R, row. split; [done|lia].
Qed.

Section GetOption.
Variable n : Z.
Variable rws : list (list Z).
Variable d : DLink.
Variable hs : list Z.
Variable cols : Z → list Z.
Hypothesis Hg : GInv n rws d hs cols.

(** From an item on, [getoption] walks over the items and the first spacer,
    whose tops are not negative, into the first row. *)
Lemma header_scan : ∀ (k : nat) p fuel,
  p = sp n rws 0 - Z.of_nat k → 1 ≤ p →
  while (S k + fuel) (opt_cond d) (λ p, Ok (p + 1)) p
  = while fuel (opt_cond d) (λ p, Ok (p + 1)) (sp n rws 0 + 1).
Proof using Hg.
  pose proof (g_layout _ _ _ _ _ Hg) as Hl. pose proof (lay_n _ _ _ Hl) as Hn.
  assert (Hsp0 : sp n rws 0 = n + 1) by (unfold sp; rewrite rowbase_0; lia).
  induction k as [|k IH]; intros p fuel Hp H1.
  - replace p with (sp n rws 0) by lia. cbn [Nat.add].
    apply while_step; [|done]. unfold opt_cond.
    rewrite (top_ok _ _ (sp_vn _ _ _ Hl 0 ltac:(lia))), (lay_sp_top _ _ _ Hl 0 ltac:(lia)).
    cbn [mbind result_bind]. by rewrite bool_decide_true by lia.
  - change (S (S k) + fuel)%nat with (S (S k + fuel)).
    rewrite (while_step _ _ _ _ (p + 1)); [apply IH; lia| |done].
    unfold opt_cond. rewrite (top_ok _ _ (item_vn _ _ _ Hl p ltac:(lia))).
    cbn [mbind result_bind].
    destruct (g_cols _ _ _ _ _ Hg p ltac:(lia)) as (_ & _ & _ & ->).
    by rewrite bool_decide_true by lia.
Qed.

Lemma getoption_any p :
  1 ≤ p < Z.of_nat (length (nodes d)) →
  (rws = [] → getoption d p = Err OutOfRange) ∧
  (rws ≠ [] → ∃ r, getoption d p = Ok (Z.of_nat r) ∧ (r < length rws)%nat ∧
                   (p ≤ n + 1 → r = 0%nat)).
Proof using Hg.
  intros Hp.
  pose proof (g_layout _ _ _ _ _ Hg) as Hl. pose proof (lay_n _ _ _ Hl) as Hn.
  pose proof (lay_nodes _ _ _ Hl) as Hnodes.
  assert (Hsp0 : sp n rws 0 = n + 1) by (unfold sp; rewrite rowbase_0; lia).
  assert (Hrow : ∀ r row q, rws !! r = Some row → sp n rws r < q ≤ sp n rws (S r) →
            ∀ fuel, (length row ≤ fuel)%nat →
            (q' ← while fuel (opt_cond d) (λ p, Ok (p + 1)) q; t ← top d q'; Ok (- t - 1))
            = Ok (Z.of_nat r)).
  { intros r row q Hr Hq fuel Hf.
    pose proof (sp_S n rws r row Hr) as HS.
    rewrite (getoption_scan n rws d r row (Z.to_nat (sp n rws (S r) - q)) q Hl Hr)
      by lia.
    cbn [mbind result_bind].
    assert (Hle : (S r ≤ length rws)%nat) by (apply lookup_lt_Some in Hr; lia).
    rewrite (top_ok _ _ (sp_vn _ _ _ Hl _ Hle)), (lay_sp_top _ _ _ Hl _ Hle).
    cbn [mbind result_bind]. f_equal. lia. }
  split.
  - intros E. rewrite E in Hnodes. cbn [length] in Hnodes.
    unfold sp in Hnodes. rewrite rowbase_0 in Hnodes. rewrite getoption_unfold.
    replace (length (nodes d))
      with (S (Z.to_nat (n + 1 - p)) + (length (nodes d) - S (Z.to_nat (n + 1 - p))))%nat
      by lia.
    rewrite (header_scan (Z.to_nat (n + 1 - p)) p) by lia.
    rewrite Hsp0.
    assert (Herr : opt_cond d (n + 1 + 1) = Err OutOfRange).
    { unfold opt_cond, top. rewrite vec_get_err; [done|]. unfold inb. lia. }
    destruct (length (nodes d) - S (Z.to_nat (n + 1 - p)))%nat; simpl; by rewrite Herr.
  - intros Hne.
    assert (Hlen0 : (0 < length rws)%nat).
    { destruct (decide (length rws = 0)%nat) as [H0|]; [|lia].
      by apply nil_length_inv in H0. }
    destruct (lookup_lt_is_Some_2 rws 0 Hlen0) as [row0 Hr0].
    pose proof (sp_S n rws 0 row0 Hr0) as HS0.
    pose proof (sp_mono n rws 1 (length rws) ltac:(lia)) as Hm.
    rewrite getoption_unfold.
    destruct (decide (p ≤ n + 1)) as [Hhd|Hnode].
    + exists 0%nat. split; [|split; [lia|done]].
      replace (length (nodes d))
        with (S (Z.to_nat (n + 1 - p)) + (length (nodes d) - S (Z.to_nat (n + 1 - p))))%nat
        by lia.
      rewrite (header_scan (Z.to_nat (n + 1 - p)) p) by lia.
      apply (Hrow 0%nat row0); [done|lia|lia].
    + destruct (position_row n rws (length rws) p (le_n _) ltac:(lia))
        as (r & row & Hr & Hq).
      exists r. split; [|split; [by eapply lookup_lt_Some|lia]].
      apply (Hrow r row); [done..|]. by eapply row_length.
Qed.

End GetOption.

(** In every reachable state, for every position [p] of the node vector
    other than 0: with no row added, [getoption(p)] reads beyond the
    vector; with some row added it returns the index of an added row, the
    row of [p] for a node or the spacer that closes it, and 0 for an item or
    the first spacer. *)
Theorem getoption_positions n strs s p :
  0 ≤ n → reachable n strs s → 1 ≤ p < nnodes s →
  (strs = [] → getoption s p = Err OutOfRange) ∧
  (strs ≠ [] → ∃ r, getoption s p = Ok r ∧ 0 ≤ r < Z.of_nat (length strs) ∧
                    (p ≤ n + 1 → r = 0)).
Proof.
  intros Hn Hr Hp.
  destruct (reachable_views _ _ _ Hn Hr) as (C & cols & Hs & _).
  destruct (getoption_any n (items_of <$> strs) s (active s) cols
              (s_ginv _ _ _ _ _ _ Hs) p Hp) as [H1 H2].
  split.
  - intros ->. by apply H1.
  - intros Hne. destruct H2 as (r & Hget & Hlt & H0).
    { by destruct strs. }
    exists (Z.of_nat r). rewrite length_fmap in Hlt. split_and!; [done|lia|lia|].
    intros Hle. rewrite (H0 Hle). done.
Qed.

Lemma getoption_positions_witness :
  (ex_rows = [] → getoption ex_matrix 3 = Err OutOfRange) ∧
  (ex_rows ≠ [] → ∃ r, getoption ex_matrix 3 = Ok r ∧
                       0 ≤ r < Z.of_nat (length ex_rows) ∧ (3 ≤ 7 + 1 → r = 0)).
Proof.
  apply (getoption_positions 7 ex_rows ex_matrix 3).
  - lia.
  - apply reach_built. vm_compute. reflexivity.
  - vm_compute. split; [discriminate|reflexivity].
Defined.

(** ** The assert of visit *)

Lemma digit_not_zero k : 1 ≤ k < 217 → digit k ≠ "0"%char.
Proof.
  intros Hk. unfold digit. intros H.
  set (x := (if bool_decide (k < 10) then k + 48 else k - 10 + 97)) in *.
  assert (Hx : 0 ≤ x `mod` 256 < 256) by (apply Z.mod_pos_bound; lia).
  assert (Hne : x `mod` 256 ≠ 48).
  { unfold x. case_bool_decide.
    - rewrite Z.mod_small by lia. lia.
    - destruct (decide (k - 10 + 97 < 256)).
      + rewrite Z.mod_small by lia. lia.
      + replace (k - 10 + 97) with ((k - 169) + 1 * 256) by lia.
        rewrite Z.mod_add by lia. rewrite Z.mod_small by lia. lia. }
  apply (f_equal N_of_ascii) in H. rewrite N_ascii_embedding in H by lia.
  change (N_of_ascii "0") with 48%N in H. lia.
Qed.

Lemma filter_two_inv {A} (P : A → Prop) `{!∀ x, Decision (P x)} (l : list A) :
  (2 ≤ length (filter P l))%nat →
  ∃ i1 i2 x1 x2, (i1 < i2)%nat ∧ l !! i1 = Some x1 ∧ l !! i2 = Some x2 ∧ P x1 ∧ P x2.
Proof.
  induction l as [|y l IH]; intros Hlen; [simpl in Hlen; lia|].
  rewrite filter_cons in Hlen. destruct (decide (P y)) as [Hy|Hy].
  - rewrite length_cons in Hlen.
    destruct (filter P l) as [|z l'] eqn:E; [simpl in Hlen; lia|].
    assert (Hz : z ∈ filter P l) by (rewrite E; left).
    apply list_elem_of_filter in Hz as [HPz Hz].
    apply list_elem_of_lookup in Hz as [i Hi].
    exists 0%nat, (S i), y, z. split_and!; [lia|done..].
  - destruct (IH Hlen) as (i1 & i2 & x1 & x2 & ? & ? & ? & ? & ?).
    exists (S i1), (S i2), x1, x2. split_and!; [lia|done..].
Qed.

(** The inner loop of [visit] fails its assert when the row holds '1' at a
    position where the line no longer holds '0'. *)
Lemma paint_fail row i : ∀ (m a : nat) cfg,
  (a + m ≤ length cfg)%nat → (length cfg ≤ String.length row)%nat →
  (∃ t c, (a ≤ t < a + m)%nat ∧ String.get t row = Some "1"%char ∧
          cfg !! t = Some c ∧ c ≠ "0"%char) →
  for_each (seqZ (Z.of_nat a) (Z.of_nat m)) (paint_body row i) cfg = Err AssertFail.
Proof.
  induction m as [|m IH]; intros a cfg Hlen Hrow (t & c & Ht & Hg & Hc & Hne); [lia|].
  rewrite seqZ_S. cbn [for_each].
  destruct (string_get_lt row a ltac:(lia)) as [ch Hch].
  rewrite paint_body_eq, (string_at_ok _ _ _ Hch). cbn [mbind result_bind].
  replace (Z.of_nat a + 1) with (Z.of_nat (S a)) by lia.
  destruct (lookup_lt_is_Some_2 cfg a ltac:(lia)) as [ca Hca].
  case_bool_decide as H1.
  - rewrite (list_get_ok _ _ _ Hca). cbn [mbind result_bind].
    destruct (decide (ca = "0"%char)) as [->|Hca0].
    + rewrite bool_decide_true by done. cbn [assert mbind result_bind].
      rewrite Nat2Z.id. apply IH.
      * rewrite length_insert. lia.
      * rewrite length_insert. lia.
      * exists t, c. assert (t ≠ a) by (intros ->; congruence).
        split_and!; [lia|lia|done| |done]. by rewrite list_lookup_insert_ne.
    + by rewrite bool_decide_false by done.
  - apply IH; [lia|done|]. exists t, c.
    assert (t ≠ a) by (intros ->; congruence). split_and!; [lia|lia|done..].
Qed.

Section VisitFail.
Variable strs : list string.
Variable N : nat.
Variable sopts : list Z.
Hypothesis Hrows : ∀ o, o ∈ sopts →
  ∃ r str, o = Z.of_nat r ∧ strs !! r = Some str ∧ String.length str = N.
Hypothesis Hshort : (length sopts < 217)%nat.

(** The outer loop of [visit], from option [a] on, when a later option
    shares an item with another one. *)
Lemma visit_fail : ∀ (m a : nat) cfg,
  (a + m ≤ length sopts)%nat → length cfg = N →
  (∀ t, (t < N)%nat →
     (cfg !! t = Some "0"%char ↔
      ∀ b o, (b < a)%nat → sopts !! b = Some o → ¬ has_item strs (Z.of_nat t + 1) o)) →
  (∃ b a' t o1 o2, (b < a')%nat ∧ (a ≤ a' < a + m)%nat ∧ (t < N)%nat ∧
     sopts !! b = Some o1 ∧ sopts !! a' = Some o2 ∧
     has_item strs (Z.of_nat t + 1) o1 ∧ has_item strs (Z.of_nat t + 1) o2) →
  for_each (seqZ (Z.of_nat a) (Z.of_nat m)) (visit_body sopts strs (Z.of_nat N)) cfg
  = Err AssertFail.
Proof using Hrows Hshort.
  induction m as [|m IH]; intros a cfg Ham Hlen Hinv Hbad.
  - destruct Hbad as (b & a' & t & o1 & o2 & _ & ? & _). lia.
  - rewrite seqZ_S. cbn [for_each].
    destruct (lookup_lt_is_Some_2 sopts a ltac:(lia)) as [o Ho].
    destruct (Hrows o (list_elem_of_lookup_2 _ _ _ Ho)) as (r & str & -> & Hr & Hsl).
    change (visit_body sopts strs (Z.of_nat N) (Z.of_nat a) cfg)
      with (opt ← list_get sopts (Z.of_nat a); row ← list_get strs opt;
            for_each (seqZ 0 (Z.of_nat N)) (paint_body row (Z.of_nat a)) cfg).
    rewrite (list_get_ok _ _ _ Ho). cbn [mbind result_bind].
    rewrite (list_get_ok _ _ _ Hr). cbn [mbind result_bind].
    destruct (decide (Forall (λ t, String.get t str = Some "1"%char →
                                   cfg !! t = Some "0"%char) (seq 0 N))) as [Hfree|Hconf].
    + rewrite Forall_forall in Hfree.
      destruct (paint_loop str (Z.of_nat a) N 0 cfg) as (cfg1 & Hrun1 & Hl1 & Hget1).
      { lia. }
      { lia. }
      { intros t Ht. apply Hfree. apply elem_of_seq. lia. }
      change (Z.of_nat 0) with 0 in Hrun1. rewrite Hrun1. cbn [mbind result_bind].
      replace (Z.of_nat a + 1) with (Z.of_nat (S a)) by lia.
      apply IH; [lia|lia| |].
      * intros t Ht. rewrite Hget1.
        destruct (decide ((0 ≤ t < 0 + N)%nat ∧ String.get t str = Some "1"%char))
          as [[_ Hg]|Hng].
        -- split.
           ++ intros [= E]. by apply digit_not_zero in E; [|lia].
           ++ intros Hno. destruct (Hno a (Z.of_nat r)); [lia|done|].
              by apply (has_item_get _ _ _ _ Hr).
        -- rewrite (Hinv t Ht). split.
           ++ intros Hno b o' Hb Ho'. destruct (decide (b = a)) as [->|Hne].
              ** rewrite Ho in Ho'. injection Ho' as <-.
                 rewrite (has_item_get _ _ _ _ Hr). intros Hg. apply Hng.
                 split; [lia|done].
              ** apply (Hno b o'); [lia|done].
           ++ intros Hno b o' Hb. apply Hno. lia.
      * destruct Hbad as (b & a' & t & o1 & o2 & Hb & Ha' & Ht & Ho1 & Ho2 & H1 & H2).
        exists b, a', t, o1, o2. split_and!; try done; try lia.
        destruct (decide (a' = a)) as [->|]; [|lia]. exfalso.
        rewrite Ho in Ho2. injection Ho2 as <-.
        apply (has_item_get _ _ _ _ Hr) in H2.
        pose proof (Hfree t ltac:(apply elem_of_seq; lia) H2) as Hz.
        pose proof (proj1 (Hinv t Ht) Hz) as Hz'. by apply (Hz' b o1 Hb Ho1).
    + apply not_Forall_Exists in Hconf; [|apply _].
      apply Exists_exists in Hconf as (t & Ht & Hx). apply elem_of_seq in Ht.
      destruct (decide (String.get t str = Some "1"%char)) as [Hg|Hg];
        [|destruct Hx; intros; done].
      destruct (lookup_lt_is_Some_2 cfg t ltac:(lia)) as [c Hc].
      pose proof (paint_fail str (Z.of_nat a) N 0 cfg) as Hpf.
      change (Z.of_nat 0) with 0 in Hpf. rewrite Hpf; [done|lia|lia|].
      exists t, c. split_and!; [lia|lia|done..|].
      intros ->. apply Hx. by intros _.
Qed.

End VisitFail.

(** Two entries of the option list share an item. *)
Definition overlap (n : Z) (strs : list string) (opts : list Z) : Prop :=
  ∃ a b o1 o2 i, a ≠ b ∧ opts !! a = Some o1 ∧ opts !! b = Some o2 ∧
    1 ≤ i ≤ n ∧ has_item strs i o1 ∧ has_item strs i o2.

Lemma overlap_count n strs opts :
  overlap n strs opts ↔
  ∃ i, 1 ≤ i ≤ n ∧ (2 ≤ length (filter (has_item strs i) opts))%nat.
Proof.
  split.
  - intros (a & b & o1 & o2 & i & Hab & Ha & Hb & Hi & H1 & H2).
    exists i. split; [done|]. destruct (decide (a < b)%nat) as [Hlt|Hge].
    + exact (filter_two (has_item strs i) opts a b o1 o2 Ha Hb Hlt H1 H2).
    + assert (Hlt : (b < a)%nat) by lia.
      exact (filter_two (has_item strs i) opts b a o2 o1 Hb Ha Hlt H2 H1).
  - intros (i & Hi & Hc).
    apply filter_two_inv in Hc as (i1 & i2 & x1 & x2 & Hlt & H1 & H2 & P1 & P2).
    exists i1, i2, x1, x2, i. repeat (split; [first [done|lia]|]). done.
Qed.

Lemma stack_options_length dl stk opts :
  stack_options dl stk = Ok opts → length opts = length stk.
Proof.
  unfold stack_options.
  assert (G : ∀ l acc r, for_each l (λ p options, opt ← getoption dl p;
                           Ok (options ++ [opt])) acc = Ok r →
                         length r = (length acc + length l)%nat).
  { induction l as [|p l IH]; intros acc r H; simpl in H.
    - injection H as <-. simpl. lia.
    - destruct (getoption dl p); simpl in H; [|done].
      apply IH in H. rewrite length_app in H. simpl in *. lia. }
  intros H. by apply G in H.
Qed.

(** [Counter::visit]: its assert is a test that the options of the stack
    are pairwise disjoint.  Over rows of [n] characters each and options
    that are row indices, when no two entries share an item the visit
    counts one more solution and writes the line of the sorted options,
    whether or not every item is covered; when two entries share an item,
    and fewer than 217 are given so that no digit written is '0', the
    visit ends in the failure of the assert. *)
Theorem visit_assert n strs dl stk opts c :
  0 ≤ n → nitems dl = n → rows c = strs →
  Forall (λ str, Z.of_nat (String.length str) = n) strs →
  stack_options dl stk = Ok opts →
  Forall (λ o, 0 ≤ o < Z.of_nat (length strs)) opts →
  (¬ overlap n strs opts →
     Counter_visit dl stk c
     = Ok (mkCounter (counter c + 1) strs
             (output c ++ [c_str (render n strs (merge_sort Z.le opts))]))) ∧
  (overlap n strs opts → (length stk < 217)%nat →
     Counter_visit dl stk c = Err AssertFail).
Proof.
  intros Hn Hni Hrows Hlen Hopts HF.
  pose proof (stack_options_length _ _ _ Hopts) as Hlk.
  set (sopts := merge_sort Z.le opts).
  set (N := Z.to_nat n).
  assert (HnN : n = Z.of_nat N) by lia.
  assert (Hls : length stk = length sopts).
  { unfold sopts. by rewrite merge_sort_Permutation. }
  assert (Hrw : ∀ o, o ∈ sopts →
    ∃ r str, o = Z.of_nat r ∧ strs !! r = Some str ∧ String.length str = N).
  { intros o Ho. unfold sopts in Ho. rewrite merge_sort_Permutation in Ho.
    rewrite Forall_forall in HF. specialize (HF o Ho).
    destruct (lookup_lt_is_Some_2 strs (Z.to_nat o) ltac:(lia)) as [str Hstr].
    exists (Z.to_nat o), str. split_and!; [lia|done|].
    rewrite Forall_forall in Hlen.
    specialize (Hlen str (list_elem_of_lookup_2 _ _ _ Hstr)). lia. }
  split.
  - intros Hno.
    assert (Hone : ∀ t, (t < N)%nat →
      (length (filter (has_item strs (Z.of_nat t + 1)) sopts) ≤ 1)%nat).
    { intros t Ht. unfold sopts. rewrite merge_sort_Permutation.
      destruct (decide (length (filter (has_item strs (Z.of_nat t + 1)) opts) ≤ 1)%nat)
        as [|Hc]; [done|].
      destruct Hno. apply overlap_count. exists (Z.of_nat t + 1). split; lia. }
    rewrite Counter_visit_unfold, Hopts. cbn [mbind result_bind]. cbv zeta.
    rewrite Hni, Hrows. fold sopts. rewrite HnN at 1. rewrite Hls. fold N.
    destruct (visit_loop strs N sopts Hrw Hone) with (m := length sopts) (a := 0%nat)
      (cfg := replicate N "0"%char) as (cfg' & Hrun & Hl' & Hpost).
    + lia.
    + apply length_replicate.
    + intros t Ht _. apply lookup_replicate_2. lia.
    + change (Z.of_nat 0) with 0 in Hrun. rewrite Hrun. cbn [mbind result_bind].
      assert (Hcfg : cfg' = render n strs sopts); [|by rewrite Hcfg].
      apply list_eq. intros t. unfold render.
      rewrite list_lookup_fmap. destruct (decide (t < N)%nat) as [Ht|Ht].
      * rewrite (lookup_seqZ_lt 0 n t) by lia. simpl.
        destruct (Hpost t Ht) as [Hp1 Hp2].
        replace (0 + Z.of_nat t + 1) with (Z.of_nat t + 1) by lia.
        destruct (list_find (has_item strs (Z.of_nat t + 1)) sopts) as [[i' o']|] eqn:E.
        -- apply list_find_Some in E as (Ho' & HP & _).
           apply (Hp1 i' o'); [|done..]. apply lookup_lt_Some in Ho'. lia.
        -- apply list_find_None in E. rewrite Hp2.
           ++ apply lookup_replicate_2. lia.
           ++ intros i' o' _ Ho'. rewrite Forall_forall in E.
              apply E. by apply list_elem_of_lookup_2 in Ho'.
      * rewrite (lookup_ge_None_2 cfg') by lia.
        rewrite (lookup_seqZ_ge 0 n t) by lia. done.
  - intros Hov Hshort.
    apply overlap_count in Hov as (i & Hi & Hc).
    assert (Hc' : (2 ≤ length (filter (has_item strs i) sopts))%nat).
    { unfold sopts. by rewrite merge_sort_Permutation. }
    apply filter_two_inv in Hc' as (i1 & i2 & x1 & x2 & Hlt & H1 & H2 & P1 & P2).
    rewrite Counter_visit_unfold, Hopts. cbn [mbind result_bind]. cbv zeta.
    rewrite Hni, Hrows. fold sopts. rewrite HnN at 1. rewrite Hls. fold N.
    pose proof (visit_fail strs N sopts Hrw ltac:(lia) (length sopts) 0
                  (replicate N "0"%char)) as Hvf.
    change (Z.of_nat 0) with 0 in Hvf. rewrite Hvf.
    + done.
    + lia.
    + apply length_replicate.
    + intros t Ht. split; [intros _ b o Hb; lia|].
      intros _. apply lookup_replicate_2. lia.
    + exists i1, i2, (Z.to_nat (i - 1)), x1, x2.
      apply lookup_lt_Some in H2 as Hi2.
      replace (Z.of_nat (Z.to_nat (i - 1)) + 1) with i by lia.
      repeat (split; [first [done|lia]|]). done.
Qed.

Lemma visit_assert_witness :
  overlap 7 ex_rows [0; 1] ∧
  Counter_visit ex_matrix [9; 15] (mkCounter 0 ex_rows []) = Err AssertFail.
Proof.
  assert (Hov : overlap 7 ex_rows [0; 1]).
  { exists 0%nat, 1%nat, 0, 1, 1. split_and!; [done|done|done|lia|lia|..].
    - eexists. split_and!; [lia|reflexivity|lia|reflexivity].
    - eexists. split_and!; [lia|reflexivity|lia|reflexivity]. }
  split; [exact Hov|].
  apply (visit_assert 7 ex_rows ex_matrix [9; 15] [0; 1] (mkCounter 0 ex_rows []));
    [lia|reflexivity|reflexivity| |reflexivity| |exact Hov|simpl; lia].
  - repeat constructor.
  - repeat constructor; simpl; lia.
Defined.
